(** * mold: the link pipeline of [main.cc] and the output buffer of
    [elf/output-file.cc], as a shallow embedding.

    Machine integers are [Z] with the wrap-around written out; vectors and
    spans are lists; pointers into [out::objs], [out::dsos] and the record
    buffer of [.gnu.version_r] are indices; the file cache of [read_file] is
    a [gmap]; code that can fail fatally returns a [Result]. *)

From stdpp Require Import gmap strings list fin_maps sorting.
From Stdlib Require Import ZArith Lia Ascii Strings.Byte Sorting.Sorted.
From Stdlib Require DecimalString HexadecimalString DecimalN HexadecimalN.

Local Open Scope Z_scope.

(* ===================================================================== *)
(** * Part I: the model                                                   *)
(* ===================================================================== *)

(* --------------------------------------------------------------------- *)
(** ** Machine integers                                                   *)
(* --------------------------------------------------------------------- *)

(** [u64], [u32], [u16] and [u8] values are integers in [0, 2^w); every
    arithmetic result is reduced modulo [2^w]. *)
Definition wrap (w : Z) (x : Z) : Z := x mod 2 ^ w.

Definition u64 (x : Z) : Z := wrap 64 x.
Definition u32 (x : Z) : Z := wrap 32 x.
Definition u16 (x : Z) : Z := wrap 16 x.
Definition u8 (x : Z) : Z := wrap 8 x.

(** An [int] converted to [size_t], as the usual arithmetic conversions do
    when an [int] is compared with [size()]. *)
Definition int_to_size_t (x : Z) : Z := u64 x.

Definition INT_MIN : Z := - 2 ^ 31.
Definition INT_MAX : Z := 2 ^ 31 - 1.

Definition is_int (x : Z) : Prop := INT_MIN <= x <= INT_MAX.
Definition is_u64 (x : Z) : Prop := 0 <= x < 2 ^ 64.
Definition is_u8 (x : Z) : Prop := 0 <= x < 256.

(** [bool b = x & MASK] : a flag word converted to [bool]. *)
Definition flag_set (flags mask : Z) : bool := negb (Z.land flags mask =? 0).

(** A power of two that fits [w] bits. *)
Definition is_pow2 (w : Z) (a : Z) : Prop := ∃ k, 0 <= k < w ∧ a = 2 ^ k.

(* --------------------------------------------------------------------- *)
(** ** Constants of <elf.h>                                               *)
(* --------------------------------------------------------------------- *)

(** The system header is not part of the repository; the values are those
    the ELF gABI fixes. *)
Definition SHF_WRITE : Z := 1.
Definition SHF_ALLOC : Z := 2.
Definition SHF_EXECINSTR : Z := 4.
Definition SHF_TLS : Z := 1024.
Definition SHT_NOBITS : Z := 8.
Definition ET_REL : Z := 1.
Definition ET_DYN : Z := 3.

(** [sizeof(ElfVerneed)] and [sizeof(ElfVernaux)]: five fields, two 16-bit
    and three 32-bit for the first, one 32-bit, two 16-bit and two 32-bit
    for the second. *)
Definition sizeof_ElfVerneed : Z := 16.
Definition sizeof_ElfVernaux : Z := 16.

(* --------------------------------------------------------------------- *)
(** ** Declarations of mold.h that main.cc uses                           *)
(* --------------------------------------------------------------------- *)

(** [mold.h] is not under src/. What [main.cc] takes from it is a parameter
    of the model: the page size, [align_to], the width of the unsigned field
    [InputChunk::offset], the predicates of [ElfSym], and how a file is
    printed.
    The properties the proofs need of them are stated where they are used. *)
Record ElfSym := mkElfSym {
  st_name : Z;
  st_bind : Z;
  st_type : Z;
  st_shndx : Z;
  st_value : Z;
  st_size : Z
}.

Class MoldDecls := {
  PAGE_SIZE : Z;
  align_to : Z → Z → Z;
  offset_bits : Z;             (* the width of [InputChunk::offset] *)
  esym_is_defined : ElfSym → bool;
  esym_is_abs : ElfSym → bool;
  esym_is_common : ElfSym → bool;
  file_to_string : nat → string   (* [operator<<] of the file at an address *)
}.

(** [align_to val align] rounds [val] up to the next multiple of [align]:
    what the layout code relies on, for an alignment that is a power of two
    and a result that fits 64 bits. *)
Definition align_to_rounds_up `{MoldDecls} : Prop :=
  ∀ val align, is_pow2 64 align → 0 <= val → val + align <= 2 ^ 64 →
    val <= align_to val align < val + align ∧ (align | align_to val align).

(* --------------------------------------------------------------------- *)
(** ** Section headers and output chunks                                  *)
(* --------------------------------------------------------------------- *)

Record ElfShdr := mkElfShdr {
  sh_name : Z;
  sh_type : Z;
  sh_flags : Z;
  sh_addr : Z;
  sh_offset : Z;
  sh_size : Z;
  sh_link : Z;
  sh_info : Z;
  sh_addralign : Z;
  sh_entsize : Z
}.

Definition set_sh_offset (v : Z) (h : ElfShdr) : ElfShdr :=
  mkElfShdr (sh_name h) (sh_type h) (sh_flags h) (sh_addr h) v (sh_size h)
            (sh_link h) (sh_info h) (sh_addralign h) (sh_entsize h).

Definition set_sh_addr (v : Z) (h : ElfShdr) : ElfShdr :=
  mkElfShdr (sh_name h) (sh_type h) (sh_flags h) v (sh_offset h) (sh_size h)
            (sh_link h) (sh_info h) (sh_addralign h) (sh_entsize h).



Inductive ChunkKind := HEADER | REGULAR | SYNTHETIC.

Record OutputChunk := mkOutputChunk {
  chunk_name : string;
  chunk_kind : ChunkKind;
  shdr : ElfShdr;
  shndx : Z;
  starts_new_ptload : bool
}.

Definition set_shdr (h : ElfShdr) (c : OutputChunk) : OutputChunk :=
  mkOutputChunk (chunk_name c) (chunk_kind c) h (shndx c) (starts_new_ptload c).

(* --------------------------------------------------------------------- *)
(** ** get_section_rank and the sort of the chunks (main.cc 498-514, 1155) *)
(* --------------------------------------------------------------------- *)

Definition get_section_rank (shdr : ElfShdr) : Z :=
  let alloc := flag_set (sh_flags shdr) SHF_ALLOC in
  let writable := flag_set (sh_flags shdr) SHF_WRITE in
  let exec := flag_set (sh_flags shdr) SHF_EXECINSTR in
  let tls := flag_set (sh_flags shdr) SHF_TLS in
  let nobits := sh_type shdr =? SHT_NOBITS in
  Z.lor (Z.lor (Z.lor (Z.lor (Z.shiftl (Z.b2z (negb alloc)) 5)
                             (Z.shiftl (Z.b2z writable) 4))
                      (Z.shiftl (Z.b2z exec) 3))
               (Z.shiftl (Z.b2z (negb tls)) 2))
        (Z.b2z nobits).

(** The comparator handed to [sort] in [main]. *)
Definition rank_less (a b : OutputChunk) : bool :=
  get_section_rank (shdr a) <? get_section_rank (shdr b).

(** What [sort] guarantees of its result for that comparator, whatever the
    order it leaves equal ranks in: no chunk is followed, anywhere later, by
    one the comparator puts before it. *)
Definition sorted_by_rank (chunks : list OutputChunk) : Prop :=
  StronglySorted (λ a b, rank_less b a = false) chunks.

(** The seven classes of the comment above [get_section_rank], in its
    order. *)
Inductive SectionClass :=
| AllocReadonlyData
| AllocReadonlyCode
| AllocWritableTdata
| AllocWritableTbss
| AllocWritableData
| AllocWritableBss
| Nonalloc.

Definition class_index (c : SectionClass) : Z :=
  match c with
  | AllocReadonlyData => 0
  | AllocReadonlyCode => 1
  | AllocWritableTdata => 2
  | AllocWritableTbss => 3
  | AllocWritableData => 4
  | AllocWritableBss => 5
  | Nonalloc => 6
  end.

(** A header's class: by allocatability, then writability; read-only
    sections split into data and code, writable data into tdata, tbss, data
    and bss. A section both writable and executable is in none of the seven. *)
Definition section_class (shdr : ElfShdr) : option SectionClass :=
  let alloc := flag_set (sh_flags shdr) SHF_ALLOC in
  let writable := flag_set (sh_flags shdr) SHF_WRITE in
  let exec := flag_set (sh_flags shdr) SHF_EXECINSTR in
  let tls := flag_set (sh_flags shdr) SHF_TLS in
  let nobits := sh_type shdr =? SHT_NOBITS in
  if negb alloc then Some Nonalloc
  else if negb writable then
    Some (if exec then AllocReadonlyCode else AllocReadonlyData)
  else if exec then None
  else if tls then Some (if nobits then AllocWritableTbss else AllocWritableTdata)
  else Some (if nobits then AllocWritableBss else AllocWritableData).


(** The ranks a class can take: the classes occupy disjoint, increasing
    intervals. *)
Definition class_rank_lo (c : SectionClass) : Z :=
  match c with
  | AllocReadonlyData => 0
  | AllocReadonlyCode => 8
  | AllocWritableTdata => 16
  | AllocWritableTbss => 17
  | AllocWritableData => 20
  | AllocWritableBss => 21
  | Nonalloc => 32
  end.

Definition class_rank_hi (c : SectionClass) : Z :=
  match c with
  | AllocReadonlyData => 5
  | AllocReadonlyCode => 13
  | AllocWritableTdata => 16
  | AllocWritableTbss => 17
  | AllocWritableData => 20
  | AllocWritableBss => 21
  | Nonalloc => 63
  end.

(* --------------------------------------------------------------------- *)
(** ** Outcomes                                                           *)
(* --------------------------------------------------------------------- *)

(** How a run of a piece of the linker ends: it returns; [Fatal() << msg]
    prints the message, cleans up and exits; [Error::checkpoint()] exits
    after the errors reported so far; an [assert] fails; an index is read
    past the end of a vector or span (undefined in the source); or the loop
    is still running when the model's fuel is used up. *)
Inductive Result (A : Type) :=
| Ok (a : A)
| Fatal (msg : string)
| ErrorExit (reported : list string)
| AssertionFailed
| OutOfBounds
| OutOfFuel.
Arguments Ok {A} a.
Arguments Fatal {A} msg.
Arguments ErrorExit {A} reported.
Arguments AssertionFailed {A}.
Arguments OutOfBounds {A}.
Arguments OutOfFuel {A}.

#[global] Instance Result_ret : MRet Result := λ A a, Ok a.
#[global] Instance Result_bind : MBind Result := λ A B k r,
  match r with
  | Ok a => k a
  | Fatal msg => Fatal msg
  | ErrorExit reported => ErrorExit reported
  | AssertionFailed => AssertionFailed
  | OutOfBounds => OutOfBounds
  | OutOfFuel => OutOfFuel
  end.

(** Modelled from the spec: [Error] and [Error::checkpoint] are declared in
    mold.h, which is not under src/. Section 5: "errors accumulated in a
    parallel phase are published to a process-wide counter; at declared
    checkpoints [...] if the counter is non-zero the linker fails fatally."
    [Error() << msg] prints [msg] and counts it, and the run goes on; the
    log below is what has been printed, its length is the counter. *)
Definition ErrorLog := list string.


Definition Error_checkpoint (log : ErrorLog) : Result () :=
  match log with
  | [] => Ok ()
  | _ => ErrorExit log
  end.

(* --------------------------------------------------------------------- *)
(** ** Input classification (main.cc 20-47) and read_file (61-125)        *)
(* --------------------------------------------------------------------- *)

#[global] Instance byte_eq_dec : EqDecision byte := Byte.byte_eq_dec.

Record MemoryMappedFile := mkMemoryMappedFile {
  mb_name : string;
  mb_data : list byte;
  mb_mtime : Z
}.

Definition mb_size (mb : MemoryMappedFile) : Z := Z.of_nat (length (mb_data mb)).

(** [isprint] of <ctype.h> in the "C" locale, which the linker never
    leaves: the characters from space to tilde. *)
Definition isprint (c : byte) : bool :=
  (32 <=? Z.of_N (Byte.to_N c)) && (Z.of_N (Byte.to_N c) <=? 126).

(** [mb->data()[i]]; the callers check [size()] first. *)
Definition data_at (mb : MemoryMappedFile) (i : nat) : byte :=
  nth i (mb_data mb) x00.

(** [memcmp(mb->data(), magic, n) == 0] for the [n] bytes of [magic]. *)
Definition memcmp_eq (mb : MemoryMappedFile) (magic : list byte) : bool :=
  bool_decide (take (length magic) (mb_data mb) = magic).

(** "\177ELF" *)
Definition ELF_MAGIC : list byte := [x7f; x45; x4c; x46].
(** "!<arch>\n" *)
Definition AR_MAGIC : list byte := [x21; x3c; x61; x72; x63; x68; x3e; x0a].
(** "!<thin>\n" *)
Definition THIN_AR_MAGIC : list byte := [x21; x3c; x74; x68; x69; x6e; x3e; x0a].

(** [ehdr.e_type]: the 16-bit field after the 16 bytes of [e_ident], read
    in the byte order of the (little-endian) host. *)
Definition e_type (mb : MemoryMappedFile) : Z :=
  Z.of_N (Byte.to_N (data_at mb 16)) + 256 * Z.of_N (Byte.to_N (data_at mb 17)).

Definition is_text_file (mb : MemoryMappedFile) : bool :=
  (4 <=? mb_size mb) &&
  isprint (data_at mb 0) &&
  isprint (data_at mb 1) &&
  isprint (data_at mb 2) &&
  isprint (data_at mb 3).

Inductive FileType := UNKNOWN | OBJ | DSO | AR | THIN_AR | TEXT.

Definition get_file_type (mb : MemoryMappedFile) : FileType :=
  if (20 <=? mb_size mb) && memcmp_eq mb ELF_MAGIC then
    if e_type mb =? ET_REL then OBJ
    else if e_type mb =? ET_DYN then DSO
    else UNKNOWN
  else if (8 <=? mb_size mb) && memcmp_eq mb AR_MAGIC then AR
  else if (8 <=? mb_size mb) && memcmp_eq mb THIN_AR_MAGIC then THIN_AR
  else if is_text_file mb then TEXT
  else UNKNOWN.

(** [new ObjectFile(mb, archive_name)] and [new SharedFile(mb, as_needed)],
    each handed to the parser task group: the file object is what its
    constructor was given. *)
Record NewObjectFile := new_object_file {
  nof_mb : MemoryMappedFile;
  nof_archive_name : string
}.

Record NewSharedFile := new_shared_file {
  nsf_mb : MemoryMappedFile;
  nsf_as_needed : bool
}.

(** The key of the preload cache: name, size, mtime. *)
Definition get_key (mb : MemoryMappedFile) : string * Z * Z :=
  (mb_name mb, mb_size mb, mb_mtime mb).

(** [out::objs], [out::dsos] and the function-static [cache]. *)
Record ReadState := mkReadState {
  cache : gmap (string * Z * Z) (list NewObjectFile);
  out_objs : list NewObjectFile;
  out_dsos : list NewSharedFile
}.

(** [cache[k]]: the operator creates an empty vector for a missing key. *)
Definition cache_at (c : gmap (string * Z * Z) (list NewObjectFile))
    (k : string * Z * Z) : list NewObjectFile :=
  default [] (c !! k).

(** The [lookup] lambda: copies [cache[k]] and clears the entry. *)
Definition lookup (mb : MemoryMappedFile) (st : ReadState)
    : list NewObjectFile * ReadState :=
  let k := get_key mb in
  (cache_at (cache st) k,
   mkReadState (<[k := []]> (cache st)) (out_objs st) (out_dsos st)).

Definition push_obj (o : NewObjectFile) (st : ReadState) : ReadState :=
  mkReadState (cache st) (out_objs st ++ [o]) (out_dsos st).

Definition push_dso (d : NewSharedFile) (st : ReadState) : ReadState :=
  mkReadState (cache st) (out_objs st) (out_dsos st ++ [d]).

Definition cache_push_back (k : string * Z * Z) (o : NewObjectFile)
    (st : ReadState) : ReadState :=
  mkReadState (<[k := cache_at (cache st) k ++ [o]]> (cache st))
              (out_objs st) (out_dsos st).

(** The archive readers and the linker-script parser live in other files of
    the repository, not under src/; [read_file] is modelled over them. *)
Class ReaderDecls := {
  read_archive_members : MemoryMappedFile → list MemoryMappedFile;
  read_fat_archive_members : MemoryMappedFile → list MemoryMappedFile;
  read_thin_archive_members : MemoryMappedFile → list MemoryMappedFile;
  parse_linker_script : MemoryMappedFile → bool → ReadState → Result ReadState
}.

Definition read_file `{ReaderDecls} (preloading : bool)
    (mb : MemoryMappedFile) (as_needed : bool) (st : ReadState)
    : Result ReadState :=
  match get_file_type mb with
  | OBJ =>
      if preloading then
        Ok (mkReadState (<[get_key mb := [new_object_file mb ""]]> (cache st))
                        (out_objs st) (out_dsos st))
      else
        let '(objs, st) := lookup mb st in
        match objs with
        | o :: _ => Ok (push_obj o st)
        | [] => Ok (push_obj (new_object_file mb "") st)
        end
  | DSO => Ok (push_dso (new_shared_file mb as_needed) st)
  | AR =>
      if preloading then
        Ok (foldl (λ st child,
                     cache_push_back (get_key mb)
                       (new_object_file child (mb_name mb)) st)
                  st (read_fat_archive_members mb))
      else
        let '(objs, st) := lookup mb st in
        match objs with
        | _ :: _ => Ok (mkReadState (cache st) (out_objs st ++ objs) (out_dsos st))
        | [] =>
            Ok (foldl (λ st child,
                         push_obj (new_object_file child (mb_name mb)) st)
                      st (read_archive_members mb))
        end
  | THIN_AR =>
      if preloading then
        Ok (foldl (λ st child,
                     cache_push_back (get_key child)
                       (new_object_file child (mb_name mb)) st)
                  st (read_thin_archive_members mb))
      else
        Ok (foldl (λ st child,
                     let '(objs, st) := lookup child st in
                     match objs with
                     | o :: _ => push_obj o st
                     | [] => push_obj (new_object_file child (mb_name mb)) st
                     end)
                  st (read_thin_archive_members mb))
  | TEXT => parse_linker_script mb as_needed st
  | UNKNOWN => Fatal (mb_name mb +:+ ": unknown file type")
  end.

Definition starts_with_elf_object (mb : MemoryMappedFile) (ty : Z) : Prop :=
  20 <= mb_size mb ∧ take 4 (mb_data mb) = ELF_MAGIC ∧ e_type mb = ty.

(* --------------------------------------------------------------------- *)
(** ** Argument readers (main.cc 657-700) and get_input_files (814-852)   *)
(* --------------------------------------------------------------------- *)

(** [s.starts_with(p)] *)
Definition starts_with (s p : string) : bool := String.prefix p s.

(** [s.substr(n)] *)
Definition substr (s : string) (n : nat) : string :=
  String.substring n (String.length s - n) s.

(** [args.subspan(n)]; the callers check the size first. *)
Definition subspan {T} (args : list T) (n : nat) : list T := drop n args.

Definition add_dashes (name : string) : list string :=
  let opts := ["-" +:+ name] in
  if negb (starts_with name "o") then opts ++ ["--" +:+ name] else opts.

(** [read_arg(args, arg, name)]: [Some (arg, args')] when it answers true
    with the two references updated, [None] when it answers false and
    leaves them alone. [args[0]] is read without a size check. *)
Definition read_arg (args : list string) (name : string)
    : Result (option (string * list string)) :=
  match args with
  | [] => OutOfBounds
  | a0 :: _ =>
      if bool_decide (String.length name = 1%nat) then
        if bool_decide (a0 = "-" +:+ name) then
          match args with
          | [_] => Fatal ("option -" +:+ name +:+ ": argument missing")
          | _ :: a1 :: _ => Ok (Some (a1, subspan args 2))
          | [] => OutOfBounds
          end
        else if starts_with a0 ("-" +:+ name) then
          Ok (Some (substr a0 (String.length name + 1), subspan args 1))
        else Ok None
      else
        (fix go (opts : list string) : Result (option (string * list string)) :=
           match opts with
           | [] => Ok None
           | opt :: opts =>
               if bool_decide (a0 = opt) then
                 match args with
                 | [_] => Fatal ("option " +:+ name +:+ ": argument missing")
                 | _ :: a1 :: _ => Ok (Some (a1, subspan args 2))
                 | [] => OutOfBounds
                 end
               else if starts_with a0 (opt +:+ "=") then
                 Ok (Some (substr a0 (String.length opt + 1), subspan args 1))
               else go opts
           end) (add_dashes name)
  end.

Definition needs_arg : gset string :=
  list_to_set [
    "o"; "dynamic-linker"; "export-dynamic"; "e"; "entry"; "y";
    "trace-symbol"; "filler"; "sysroot"; "thread-count"; "z";
    "hash-style"; "m"; "build-id"; "rpath"; "version-script" ].

(** One turn of the body of the [while] of [get_input_files]: the state
    after it, on the way back to the loop test. *)
Definition get_input_files_body
    (args : list string) (vec : list string) (library_paths : list string)
    : Result (list string * list string * list string) :=
  match args with
  | [] => OutOfBounds
  | a0 :: _ =>
      if bool_decide (a0 ∈ needs_arg) then
        match args with
        | [_] => Fatal (a0 +:+ ": missing argument")
        | _ => Ok (subspan args 2, vec, library_paths)
        end
      else
        r ← (r ← read_arg args "L";
             match r with
             | Some _ => Ok r
             | None => read_arg args "library-path"
             end);
        let '(args, library_paths) :=
          match r with
          | Some (arg, args') => (args', library_paths ++ [arg])
          | None => (args, library_paths)
          end in
        r ← read_arg args "l";
        match r with
        | Some (arg, args') => Ok (args', vec ++ [arg], library_paths)
        | None =>
            match args with
            | [] => OutOfBounds
            | a0 :: _ =>
                if starts_with a0 "-" then Ok (subspan args 1, vec, library_paths)
                else Ok (subspan args 1, vec ++ [a0], library_paths)
            end
        end
  end.

(** The loop [while (args.empty()) { ... }] and the [return vec] after it. *)
Fixpoint get_input_files_loop (fuel : nat)
    (args : list string) (vec : list string) (library_paths : list string)
    : Result (list string) :=
  match fuel with
  | O => OutOfFuel
  | S fuel =>
      if bool_decide (args = []) then
        '(args, vec, library_paths) ← get_input_files_body args vec library_paths;
        get_input_files_loop fuel args vec library_paths
      else Ok vec
  end.

Definition get_input_files (fuel : nat) (args : list string) : Result (list string) :=
  get_input_files_loop fuel args [] [].

(* --------------------------------------------------------------------- *)
(** ** Files, symbols and sections                                        *)
(* --------------------------------------------------------------------- *)

(** A pointer to an [InputFile] is the file's address, a number; a [Symbol]
    is interned by name, so two symbol pointers are equal exactly when the
    names are. *)
Definition FilePtr := nat.

Record Symbol := mkSymbol {
  sym_name : string;
  sym_file : option FilePtr;   (* null when no file defines the symbol *)
  sym_ver_idx : Z;
  sym_dynsym_idx : Z
}.

(** [InputChunk] with the fields of [InputSection] the pipeline reads here:
    the section header, the index of the output section it points to, and
    its offset inside that output section. *)
Record InputChunk := mkInputChunk {
  isec_shdr : ElfShdr;
  isec_output_section : nat;
  isec_offset : Z
}.


Record ObjectFile := mkObjectFile {
  obj_this : FilePtr;
  obj_name : string;
  is_in_archive : bool;
  obj_priority : Z;
  obj_is_alive : bool;
  first_global : Z;
  elf_syms : list ElfSym;
  symbols : list Symbol;
  sections : list (option InputChunk)   (* null once eliminated *)
}.

Definition set_obj_priority (p : Z) (f : ObjectFile) : ObjectFile :=
  mkObjectFile (obj_this f) (obj_name f) (is_in_archive f) p (obj_is_alive f)
               (first_global f) (elf_syms f) (symbols f) (sections f).

Record SharedFile := mkSharedFile {
  dso_this : FilePtr;
  dso_name : string;
  soname : string;
  dso_priority : Z;
  version_strings : list string
}.

Definition set_dso_priority (p : Z) (f : SharedFile) : SharedFile :=
  mkSharedFile (dso_this f) (dso_name f) (soname f) p (version_strings f).

(** An [OutputSection]: its header and the input sections binned into it.
    [members] holds one entry for each input section ([bin_sections] appends
    every section of every file once), so the entry stands for the object
    the pointer in the vector refers to. *)
Record OutputSection := mkOutputSection {
  osec_name : string;
  osec_shdr : ElfShdr;
  osec_idx : nat;
  members : list InputChunk
}.

Definition set_members (m : list InputChunk) (o : OutputSection) : OutputSection :=
  mkOutputSection (osec_name o) (osec_shdr o) (osec_idx o) m.

(* --------------------------------------------------------------------- *)
(** ** split (main.cc 127-140) and bin_sections (224-254)                 *)
(* --------------------------------------------------------------------- *)

(** The loop of [split]. [span.size() >= unit] compares a [size_t] with an
    [int]: the [int] is converted to [size_t] first, and so is the count
    handed to [subspan]. *)
Fixpoint split_loop {T} (fuel : nat) (unit : Z) (span : list T)
    (vec : list (list T)) : Result (list (list T) * list T) :=
  match fuel with
  | O => OutOfFuel
  | S fuel =>
      if int_to_size_t unit <=? Z.of_nat (length span) then
        let n := Z.to_nat (int_to_size_t unit) in
        split_loop fuel unit (subspan span n) (vec ++ [take n span])
      else Ok (vec, span)
  end.

Definition split {T} (fuel : nat) (input : list T) (unit : Z)
    : Result (list (list T)) :=
  if bool_decide (0 < length input)%nat then
    '(vec, span) ← split_loop fuel unit input [];
    Ok (if bool_decide (span = []) then vec else vec ++ [span])
  else AssertionFailed.

(** A value of type [size_t] stored into an [int]. *)
Definition size_t_to_int (x : Z) : Z := (x + 2 ^ 31) mod 2 ^ 32 - 2 ^ 31.

(** [int unit = (out::objs.size() + 127) / 128] *)
Definition bin_sections_unit (objs : list ObjectFile) : Z :=
  size_t_to_int (u64 (Z.of_nat (length objs) + 127) / 128).

(** [groups[i]] for one slice: for every file of the slice and every
    section still there, [groups[i][isec->output_section->idx].push_back]. *)
Definition bin_slice (num_osec : nat) (slice : list ObjectFile)
    : list (list InputChunk) :=
  foldl (λ group file,
           foldl (λ group isec,
                    match isec with
                    | Some isec =>
                        alter (λ l, l ++ [isec]) (isec_output_section isec) group
                    | None => group
                    end)
                 group (sections file))
        (replicate num_osec []) slice.

(** [bin_sections]: the input sections of every slice are appended to the
    members of their output sections, slice after slice. *)
Definition bin_sections (fuel : nat) (objs : list ObjectFile)
    (instances : list OutputSection) : Result (list OutputSection) :=
  let unit := bin_sections_unit objs in
  slices ← split fuel objs unit;
  let num_osec := length instances in
  let groups := map (bin_slice num_osec) slices in
  Ok (imap (λ j osec,
              set_members
                (foldl (λ m group, m ++ default [] (group !! j)) (members osec) groups)
                osec)
           instances).

(** A run of [split] that is not cut short by the model's fuel. *)
Definition split_terminates {T} (input : list T) (unit : Z) : Prop :=
  ∃ fuel, split fuel input unit ≠ OutOfFuel.

(* --------------------------------------------------------------------- *)
(** ** check_duplicate_symbols (main.cc 256-274)                          *)
(* --------------------------------------------------------------------- *)




















(* --------------------------------------------------------------------- *)
(** ** File priorities (main.cc 1091-1100)                                *)
(* --------------------------------------------------------------------- *)

(** One loop over [out::objs]: [file->priority = priority++] for the files
    whose [is_in_archive] is [in_archive] ([false] in the first loop, [true]
    in the second). The counter is an [int]; it is exact as long as it does
    not pass [INT_MAX]. *)
Fixpoint assign_obj_priorities (in_archive : bool) (priority : Z)
    (objs : list ObjectFile) : list ObjectFile * Z :=
  match objs with
  | [] => ([], priority)
  | file :: objs =>
      if Bool.eqb (is_in_archive file) in_archive then
        let '(objs, p) := assign_obj_priorities in_archive (priority + 1) objs in
        (set_obj_priority priority file :: objs, p)
      else
        let '(objs, p) := assign_obj_priorities in_archive priority objs in
        (file :: objs, p)
  end.

Fixpoint assign_dso_priorities (priority : Z) (dsos : list SharedFile)
    : list SharedFile * Z :=
  match dsos with
  | [] => ([], priority)
  | file :: dsos =>
      let '(dsos, p) := assign_dso_priorities (priority + 1) dsos in
      (set_dso_priority priority file :: dsos, p)
  end.

Definition set_priorities (objs : list ObjectFile) (dsos : list SharedFile)
    : list ObjectFile * list SharedFile :=
  let priority := 2 in
  let '(objs, priority) := assign_obj_priorities false priority objs in
  let '(objs, priority) := assign_obj_priorities true priority objs in
  let '(dsos, priority) := assign_dso_priorities priority dsos in
  (objs, dsos).

(** [f'] is [f] with, at most, another priority. *)
Definition same_obj_but_priority (f' f : ObjectFile) : Prop :=
  f' = set_obj_priority (obj_priority f') f.

Definition same_dso_but_priority (f' f : SharedFile) : Prop :=
  f' = set_dso_priority (dso_priority f') f.

Definition selected (b : bool) (f : ObjectFile) : bool := Bool.eqb (is_in_archive f) b.

(* --------------------------------------------------------------------- *)
(** ** set_isec_offsets (main.cc 276-316)                                 *)
(* --------------------------------------------------------------------- *)


















(* --------------------------------------------------------------------- *)
(** ** set_osec_offsets (main.cc 516-547)                                 *)
(* --------------------------------------------------------------------- *)

(** One turn of the loop over the chunks: the chunk with its [sh_offset]
    (and [sh_addr], when allocated) set, and the two running counters
    [(fileoff, vaddr)] after it. Both counters are [u64]. *)
Definition set_osec_offsets_step `{MoldDecls} (st : Z * Z) (chunk : OutputChunk)
    : OutputChunk * (Z * Z) :=
  let '(fileoff, vaddr) := st in
  let vaddr :=
    if starts_new_ptload chunk then align_to vaddr PAGE_SIZE else vaddr in
  let fileoff :=
    if vaddr mod PAGE_SIZE >? fileoff mod PAGE_SIZE then
      u64 (fileoff + u64 (vaddr mod PAGE_SIZE - fileoff mod PAGE_SIZE))
    else if vaddr mod PAGE_SIZE <? fileoff mod PAGE_SIZE then
      u64 (align_to fileoff PAGE_SIZE + vaddr mod PAGE_SIZE)
    else fileoff in
  let fileoff := align_to fileoff (sh_addralign (shdr chunk)) in
  let vaddr := align_to vaddr (sh_addralign (shdr chunk)) in
  let h := set_sh_offset fileoff (shdr chunk) in
  let h := if flag_set (sh_flags h) SHF_ALLOC then set_sh_addr vaddr h else h in
  let is_bss := sh_type h =? SHT_NOBITS in
  let fileoff := if negb is_bss then u64 (fileoff + sh_size h) else fileoff in
  let is_tbss := is_bss && flag_set (sh_flags h) SHF_TLS in
  let vaddr := if negb is_tbss then u64 (vaddr + sh_size h) else vaddr in
  (set_shdr h chunk, (fileoff, vaddr)).

Fixpoint set_osec_offsets_loop `{MoldDecls} (st : Z * Z) (chunks : list OutputChunk)
    : list OutputChunk * (Z * Z) :=
  match chunks with
  | [] => ([], st)
  | chunk :: chunks =>
      let '(chunk, st) := set_osec_offsets_step st chunk in
      let '(chunks, st) := set_osec_offsets_loop st chunks in
      (chunk :: chunks, st)
  end.

(** [set_osec_offsets(chunks)]: the chunks as the loop leaves them and the
    returned [fileoff]. [image_base] is [config.image_base]. *)
Definition set_osec_offsets `{MoldDecls} (image_base : Z) (chunks : list OutputChunk)
    : list OutputChunk * Z :=
  let '(chunks, (fileoff, vaddr)) := set_osec_offsets_loop (0, image_base) chunks in
  (chunks, fileoff).

(** The bytes a chunk takes in the file: none for SHT_NOBITS. *)
Definition chunk_filesz (c : OutputChunk) : Z :=
  if sh_type (shdr c) =? SHT_NOBITS then 0 else sh_size (shdr c).

(** The bytes a chunk takes in memory: none for a chunk both SHT_NOBITS and
    SHF_TLS. *)
Definition chunk_memsz (c : OutputChunk) : Z :=
  if (sh_type (shdr c) =? SHT_NOBITS) && flag_set (sh_flags (shdr c)) SHF_TLS
  then 0 else sh_size (shdr c).

Definition chunk_is_alloc (c : OutputChunk) : bool :=
  flag_set (sh_flags (shdr c)) SHF_ALLOC.

(** The address span the layout of [chunks] can need at most: a page, the
    alignment and the size of every chunk. The counters stay below
    [image_base] plus this, so no 64-bit addition wraps when that sum is at
    most [2^64]. *)
Definition layout_span `{MoldDecls} (chunks : list OutputChunk) : Z :=
  foldr (λ c acc, PAGE_SIZE + sh_addralign (shdr c) + sh_size (shdr c) + acc) 0 chunks.

(** A header the layout can take: size and alignment are unsigned, and the
    alignment divides the page size. *)
Definition chunk_layout_ok `{MoldDecls} (c : OutputChunk) : Prop :=
  0 <= sh_size (shdr c)
  ∧ 0 <= sh_addralign (shdr c)
  ∧ (sh_addralign (shdr c) | PAGE_SIZE).

(** What one chunk does to the two counters. *)
Definition step_result `{MoldDecls} (B f v : Z) (c c' : OutputChunk) (f' v' : Z) : Prop :=
  let V := align_to (if starts_new_ptload c then align_to v PAGE_SIZE else v)
                    (sh_addralign (shdr c)) in
  let B' := B + PAGE_SIZE + sh_addralign (shdr c) + sh_size (shdr c) in
  c' = set_shdr (if chunk_is_alloc c
                 then set_sh_addr V (set_sh_offset (sh_offset (shdr c')) (shdr c))
                 else set_sh_offset (sh_offset (shdr c')) (shdr c)) c
  ∧ f <= sh_offset (shdr c')
  ∧ f' = sh_offset (shdr c') + chunk_filesz c
  ∧ v <= V
  ∧ V mod PAGE_SIZE = sh_offset (shdr c') mod PAGE_SIZE
  ∧ v' = V + chunk_memsz c
  ∧ 0 <= f' <= B' ∧ 0 <= v' <= B'.

(** A chunk after the layout: the chunk it was, with [sh_offset] set, and
    [sh_addr] set if it is allocated. *)
Definition relaid (c' c : OutputChunk) : Prop :=
  c' = set_shdr (set_sh_addr (sh_addr (shdr c'))
                   (set_sh_offset (sh_offset (shdr c')) (shdr c))) c
  ∧ (chunk_is_alloc c = false → sh_addr (shdr c') = sh_addr (shdr c)).

(** The logical end of a chunk in the file. *)
Definition chunk_file_end (c : OutputChunk) : Z :=
  sh_offset (shdr c) + chunk_filesz c.

(** What the loop leaves behind, from counters [(f, v)] to [(f', v')]. *)
Definition laid_out `{MoldDecls} (f v f' v' : Z) (out : list OutputChunk) : Prop :=
  Forall (λ c, f <= sh_offset (shdr c) ∧ chunk_file_end c <= f'
               ∧ (chunk_is_alloc c = true →
                  v <= sh_addr (shdr c) ∧ sh_addr (shdr c) + chunk_memsz c <= v'
                  ∧ sh_addr (shdr c) mod PAGE_SIZE = sh_offset (shdr c) mod PAGE_SIZE))
         out
  ∧ StronglySorted (λ a b, chunk_file_end a <= sh_offset (shdr b)) out
  ∧ StronglySorted (λ a b, chunk_is_alloc a = true → chunk_is_alloc b = true →
                           sh_addr (shdr a) + chunk_memsz a <= sh_addr (shdr b)) out
  ∧ f' = from_option chunk_file_end f (last out).

(* --------------------------------------------------------------------- *)
(** ** The output buffer: OutputFile::open (elf/output-file.cc 100-124),
       copy_buf, clear_padding (main.cc 483-496)                          *)
(* --------------------------------------------------------------------- *)

(** The output image is a vector of bytes, each a [u8]. [memset(buf + pos,
    val, n)] sets the [n] bytes from [pos] on to [val] converted to
    [unsigned char]. A write past the end of the mapping is outside the
    model (the process would fault there): the bytes inside are set. *)
Definition memset (buf : list Z) (pos : Z) (val : Z) (n : Z) : list Z :=
  imap (λ i b, if (pos <=? Z.of_nat i) && (Z.of_nat i <? pos + n)
               then u8 val else b) buf.

Record OutputFile := mkOutputFile {
  of_path : string;
  of_filesize : Z;
  of_is_mmap : bool;
  of_buf : list Z
}.

(** What [main.cc] and [output-file.cc] take from files that are not under
    src/: [path_clean]; the answer of [stat] (the path exists and is not a
    regular file); the mapping the constructor of [MallocOutputFile] (for a
    special file) or of [MemoryMappedOutputFile] makes for a path and a
    size, which holds whatever the renamed old output held, or a fatal error
    of one of its system calls; and the [copy_buf] of a chunk, which writes
    into the buffer and may report errors. *)
Class OutputDecls := {
  path_clean : string → string;
  stat_not_regular : string → bool;
  new_mapping : bool → string → Z → Z → Result (list Z);
  copy_buf : OutputChunk → list Z → list Z * ErrorLog
}.

(** The mapping has the size asked for, and [copy_buf] keeps it. *)
Definition output_decls_sized `{OutputDecls} : Prop :=
  (∀ special path filesize perm buf,
      new_mapping special path filesize perm = Ok buf →
      Z.of_nat (length buf) = filesize)
  ∧ (∀ chunk buf, length (copy_buf chunk buf).1 = length buf).

(** [OutputFile::open(ctx, path, filesize, perm)], with [ctx.arg.chroot]
    and [ctx.arg.filler]. *)
Definition OutputFile_open `{OutputDecls} (chroot : string) (filler : Z)
    (path : string) (filesize : Z) (perm : Z) : Result OutputFile :=
  let path :=
    if starts_with path "/" && negb (bool_decide (chroot = ""))
    then chroot +:+ "/" +:+ path_clean path else path in
  let is_special :=
    if bool_decide (path = "-") then true else stat_not_regular path in
  buf ← new_mapping is_special path filesize perm;
  let buf :=
    if bool_decide (filler ≠ -1) then memset buf 0 filler filesize else buf in
  Ok (mkOutputFile path filesize (negb is_special) buf).

(** The [zero] lambda of [clear_padding]. *)
Definition zero (chunk : OutputChunk) (next_start : Z) (buf : list Z) : list Z :=
  let pos := sh_offset (shdr chunk) in
  let pos :=
    if negb (sh_type (shdr chunk) =? SHT_NOBITS)
    then u64 (pos + sh_size (shdr chunk)) else pos in
  memset buf pos 0 (u64 (next_start - pos)).

(** [for (i = 1; i < chunks.size(); i++) zero(chunks[i - 1], chunks[i]->shdr.sh_offset)] *)
Fixpoint clear_padding_loop (chunks : list OutputChunk) (buf : list Z) : list Z :=
  match chunks with
  | prev :: (next :: _) as rest =>
      clear_padding_loop rest (zero prev (sh_offset (shdr next)) buf)
  | _ => buf
  end.

(** [clear_padding(filesize)]; [out::chunks.back()] of an empty vector is
    read out of bounds. *)
Definition clear_padding (chunks : list OutputChunk) (filesize : Z) (buf : list Z)
    : Result (list Z) :=
  let buf := clear_padding_loop chunks buf in
  match last chunks with
  | Some back => Ok (zero back filesize buf)
  | None => OutOfBounds
  end.

(** The copy phase: every chunk's [copy_buf], then the checkpoint. The
    chunks write disjoint parts of the buffer, so the order the parallel loop
    takes them in does not show; the model takes them in list order. *)
Definition copy_chunks `{OutputDecls} (chunks : list OutputChunk) (buf : list Z)
    : Result (list Z) :=
  let '(buf, log) :=
    foldl (λ '(buf, log) chunk,
             let '(buf, errs) := copy_buf chunk buf in (buf, log ++ errs))
          (buf, []) chunks in
  _ ← Error_checkpoint log;
  Ok buf.

(** The end of [main] (1227-1267), from the layout to the padded image:
    [filesize = set_osec_offsets(chunks)], [OutputFile::open(output,
    filesize)], the copy of the chunks, [clear_padding(filesize)]. *)
Definition emit_image `{MoldDecls} `{OutputDecls}
    (image_base : Z) (chroot : string) (filler : Z) (output : string) (perm : Z)
    (chunks : list OutputChunk) : Result OutputFile :=
  let '(chunks, filesize) := set_osec_offsets image_base chunks in
  file ← OutputFile_open chroot filler output filesize perm;
  buf ← copy_chunks chunks (of_buf file);
  buf ← clear_padding chunks filesize buf;
  Ok (mkOutputFile (of_path file) (of_filesize file) (of_is_mmap file) buf).

(** [pos] lies in the padding after some chunk: between its logical end and
    the [sh_offset] of the next chunk, or the file size after the last. *)
Fixpoint in_padding (chunks : list OutputChunk) (filesize : Z) (pos : Z) : bool :=
  match chunks with
  | [] => false
  | prev :: rest =>
      match rest with
      | [] => (chunk_file_end prev <=? pos) && (pos <? filesize)
      | next :: _ =>
          ((chunk_file_end prev <=? pos) && (pos <? sh_offset (shdr next)))
          || in_padding rest filesize pos
      end
  end.

(** Chunks laid out one after the other inside a file of [filesize] bytes:
    every chunk ends at or before the next one starts, and the last ends at
    or before the end of the file. *)
Fixpoint chunks_in_order (chunks : list OutputChunk) (filesize : Z) : Prop :=
  match chunks with
  | [] => True
  | prev :: rest =>
      0 <= sh_offset (shdr prev) ∧ 0 <= sh_size (shdr prev)
      ∧ match rest with
        | [] => chunk_file_end prev <= filesize
        | next :: _ => chunk_file_end prev <= sh_offset (shdr next)
        end
      ∧ chunks_in_order rest filesize
  end.

(* --------------------------------------------------------------------- *)
(** ** fill_symbol_versions (main.cc 405-481)                             *)
(* --------------------------------------------------------------------- *)

Record ElfVerneed := mkElfVerneed {
  vn_version : Z;
  vn_cnt : Z;
  vn_file : Z;
  vn_aux : Z;
  vn_next : Z
}.

Record ElfVernaux := mkElfVernaux {
  vna_hash : Z;
  vna_flags : Z;
  vna_other : Z;
  vna_name : Z;
  vna_next : Z
}.

(** The contents of [.gnu.version_r] are read and written through
    [ElfVerneed*] and [ElfVernaux*]: the buffer is the sequence of the
    records laid in it, a record pointer is the index of the record, and
    [buf] points behind the last record. *)
Inductive VerRecord :=
| Verneed (r : ElfVerneed)
| Vernaux (r : ElfVernaux).

(** What [fill_symbol_versions] takes from files that are not under src/:
    [elf_hash], the string table [.dynstr] with [add_string] and
    [find_string], and the [sort] helper. *)
Class VersionDecls := {
  elf_hash : string → Z;
  DynstrSection : Type;
  add_string : string → DynstrSection → Z * DynstrSection;
  find_string : string → DynstrSection → Z;
  sort : (Symbol → Symbol → bool) → list Symbol → list Symbol
}.

(** The sections the function writes, and its local variables. *)
Record VersionState `{VersionDecls} := mkVersionState {
  versym_contents : list Z;          (* out::versym->contents, u16 each *)
  verneed_contents : list VerRecord; (* out::verneed->contents *)
  verneed_size : Z;                  (* the size it was resized to *)
  verneed_sh_info : Z;               (* out::verneed->shdr.sh_info *)
  dynstr : DynstrSection;            (* out::dynstr *)
  version : Z;                       (* u16 version *)
  verneed : option nat;              (* ElfVerneed *verneed *)
  aux : option nat                   (* ElfVernaux *aux *)
}.

(** The shared files at their addresses. [(SharedFile * )sym->file] of a
    symbol whose file is null or no shared file is undefined in the source;
    the model reads an empty file there. *)
Definition file_of (heap : gmap FilePtr SharedFile) (sym : Symbol) : SharedFile :=
  default (mkSharedFile 0%nat "" "" 0 [])
          (sym_file sym ≫= λ p, heap !! p).

(** [std::make_tuple(soname, ver_idx) < std::make_tuple(soname', ver_idx')] *)
Definition version_less (heap : gmap FilePtr SharedFile) (a b : Symbol) : bool :=
  String.ltb (soname (file_of heap a)) (soname (file_of heap b))
  || (negb (String.ltb (soname (file_of heap b)) (soname (file_of heap a)))
      && (sym_ver_idx a <? sym_ver_idx b)).

(** [contents.resize(n, x)] *)
Definition resize {T} (n : nat) (x : T) (l : list T) : list T :=
  take n l ++ replicate (n - length l) x.

(** A write through a record pointer. *)
Definition alter_verneed (f : ElfVerneed → ElfVerneed) (p : option nat)
    (buf : list VerRecord) : list VerRecord :=
  match p with
  | Some i => alter (λ r, match r with Verneed v => Verneed (f v) | _ => r end) i buf
  | None => buf
  end.

Definition alter_vernaux (f : ElfVernaux → ElfVernaux) (p : option nat)
    (buf : list VerRecord) : list VerRecord :=
  match p with
  | Some i => alter (λ r, match r with Vernaux a => Vernaux (f a) | _ => r end) i buf
  | None => buf
  end.

(** The byte offset of the record at index [i]: both records take 16
    bytes. *)
Definition record_offset (i : nat) : Z := sizeof_ElfVernaux * Z.of_nat i.

(** The [add_aux] lambda. *)
Definition add_aux `{VersionDecls} (heap : gmap FilePtr SharedFile) (sym : Symbol)
    (st : VersionState) : VersionState :=
  let file := file_of heap sym in
  let verstr := nth (Z.to_nat (sym_ver_idx sym)) (version_strings file) "" in
  let buf := verneed_contents st in
  let buf := alter_verneed
               (λ v, mkElfVerneed (vn_version v) (u16 (vn_cnt v + 1)) (vn_file v)
                                  (vn_aux v) (vn_next v))
               (verneed st) buf in
  let buf := alter_vernaux
               (λ a, mkElfVernaux (vna_hash a) (vna_flags a) (vna_other a)
                                  (vna_name a) sizeof_ElfVernaux)
               (aux st) buf in
  let aux := length buf in
  let version := u16 (version st + 1) in
  let '(name, dynstr) := add_string verstr (dynstr st) in
  let buf := buf ++ [Vernaux (mkElfVernaux (elf_hash verstr) 0 version name 0)] in
  mkVersionState _ (versym_contents st) buf (verneed_size st) (verneed_sh_info st)
                 dynstr version (verneed st) (Some aux).

(** The [add_verneed] lambda. *)
Definition add_verneed `{VersionDecls} (heap : gmap FilePtr SharedFile) (sym : Symbol)
    (st : VersionState) : VersionState :=
  let file := file_of heap sym in
  let buf := verneed_contents st in
  let buf := alter_verneed
               (λ v, mkElfVerneed (vn_version v) (vn_cnt v) (vn_file v) (vn_aux v)
                                  (record_offset (length buf)
                                   - record_offset (default 0%nat (verneed st))))
               (verneed st) buf in
  let verneed := length buf in
  let buf := buf ++ [Verneed (mkElfVerneed 1 0 (find_string (soname file) (dynstr st))
                                           sizeof_ElfVerneed 0)] in
  add_aux heap sym
    (mkVersionState _ (versym_contents st) buf (verneed_size st)
                    (verneed_sh_info st + 1) (dynstr st) (version st)
                    (Some verneed) None).

(** [out::versym->contents[sym->dynsym_idx] = version] *)
Definition set_versym `{VersionDecls} (sym : Symbol) (st : VersionState) : VersionState :=
  mkVersionState _ (<[Z.to_nat (sym_dynsym_idx sym) := version st]> (versym_contents st))
                 (verneed_contents st) (verneed_size st) (verneed_sh_info st)
                 (dynstr st) (version st) (verneed st) (aux st).

(** The loop that computes [sz], from [syms[i - 1]] = [prev] on. *)
Fixpoint verneed_sz (prev : Symbol) (syms : list Symbol) (sz : Z) : Z :=
  match syms with
  | [] => sz
  | sym :: syms =>
      let sz :=
        if negb (bool_decide (sym_file prev = sym_file sym))
        then sz + (sizeof_ElfVerneed + sizeof_ElfVernaux)
        else if negb (sym_ver_idx prev =? sym_ver_idx sym)
             then sz + sizeof_ElfVernaux
             else sz in
      verneed_sz sym syms sz
  end.

(** The loop that fills the records, from [syms[i - 1]] = [prev] on. *)
Fixpoint fill_loop `{VersionDecls} (heap : gmap FilePtr SharedFile)
    (prev : Symbol) (syms : list Symbol) (st : VersionState) : VersionState :=
  match syms with
  | [] => st
  | sym :: syms =>
      let st :=
        if negb (bool_decide (sym_file prev = sym_file sym))
        then add_verneed heap sym st
        else if negb (sym_ver_idx prev =? sym_ver_idx sym)
             then add_aux heap sym st
             else st in
      fill_loop heap sym syms (set_versym sym st)
  end.

(** [fill_symbol_versions], on [out::dynsym->symbols] and the shared files.
    [out::verneed->contents] is empty before ([main] has just made the
    section): [resize(sz)] gives [sz] zero bytes and the records are laid
    from their start. [syms[0]] of an empty vector is read out of bounds. *)
Definition fill_symbol_versions `{VersionDecls} (heap : gmap FilePtr SharedFile)
    (dynsym_symbols : list Symbol) (st : VersionState) : Result VersionState :=
  let syms := List.filter (λ sym, negb (sym_ver_idx sym <? 2)) dynsym_symbols in
  if bool_decide (syms = []) then Ok st
  else
    match sort (version_less heap) syms with
    | [] => OutOfBounds
    | sym0 :: rest =>
        let versym := resize (length dynsym_symbols + 1) 1 (versym_contents st) in
        let versym := <[0%nat := 0]> versym in
        let sz := verneed_sz sym0 rest (sizeof_ElfVerneed + sizeof_ElfVernaux) in
        let st := mkVersionState _ versym [] sz (verneed_sh_info st)
                                 (dynstr st) 1 None None in
        let st := add_verneed heap sym0 st in
        let st := set_versym sym0 st in
        Ok (fill_loop heap sym0 rest st)
    end.

(** What identifies a Vernaux record: the defining file and the version
    index. *)
Definition sym_key (sym : Symbol) : option FilePtr * Z :=
  (sym_file sym, sym_ver_idx sym).

(** The Verneed records of a buffer, and the [vna_other] of its Vernaux
    records, in buffer order. *)
Definition verneeds (buf : list VerRecord) : list ElfVerneed :=
  omap (λ r, match r with Verneed v => Some v | _ => None end) buf.

Definition aux_versions (buf : list VerRecord) : list Z :=
  omap (λ r, match r with Vernaux a => Some (vna_other a) | _ => None end) buf.

(** The records the loop adds from [prev] on: one Vernaux where the file or
    the version index changes, one Verneed where the file changes. *)
Fixpoint new_auxs (prev : Symbol) (syms : list Symbol) : nat :=
  match syms with
  | [] => 0
  | sym :: syms =>
      (if bool_decide (sym_key prev = sym_key sym) then 0 else 1)
      + new_auxs sym syms
  end%nat.

Fixpoint new_verneeds (prev : Symbol) (syms : list Symbol) : nat :=
  match syms with
  | [] => 0
  | sym :: syms =>
      (if bool_decide (sym_file prev = sym_file sym) then 0 else 1)
      + new_verneeds sym syms
  end%nat.

(** For every symbol from [prev] on, the number of Vernaux records written
    when the loop is done with it, [m] of them being there before. *)
Fixpoint aux_counts (prev : Symbol) (m : nat) (syms : list Symbol) : list nat :=
  match syms with
  | [] => []
  | sym :: syms =>
      let m := if bool_decide (sym_key prev = sym_key sym) then m else S m in
      m :: aux_counts sym m syms
  end.

(** The writes to [.gnu.version], in order: slot and value. *)
Definition versym_writes (syms : list Symbol) (counts : list nat) : list (nat * Z) :=
  zip_with (λ sym m, (Z.to_nat (sym_dynsym_idx sym), u16 (1 + Z.of_nat m))) syms counts.

Definition apply_writes (writes : list (nat * Z)) (contents : list Z) : list Z :=
  foldl (λ c w, <[w.1 := w.2]> c) contents writes.

(** The number of distinct values in a list. *)
Definition distinct `{Countable K} (l : list K) : nat :=
  size (list_to_set l : gset K).

(** The result of the sort: no symbol is followed by one the comparator
    puts before it. *)
Definition sorted_versions (heap : gmap FilePtr SharedFile) (l : list Symbol) : Prop :=
  StronglySorted (λ a b, version_less heap b a = false) l.

(** Distinct shared files have distinct sonames ([main] keeps one file per
    soname). *)
Definition soname_identifies (heap : gmap FilePtr SharedFile) (l : list Symbol) : Prop :=
  ∀ a b, a ∈ l → b ∈ l →
    soname (file_of heap a) = soname (file_of heap b) → sym_file a = sym_file b.

(** The state after [m] Vernaux and [n] Verneed records: the counter is
    [m + 1] as a [u16], and the Vernaux records carry 2, 3, ... in buffer
    order. *)
Definition version_inv `{VersionDecls} (st : VersionState) (m n : nat) : Prop :=
  version st = u16 (1 + Z.of_nat m)
  ∧ aux_versions (verneed_contents st)
    = map (λ k, u16 (2 + Z.of_nat k)) (seq 0 m)
  ∧ length (verneeds (verneed_contents st)) = n
  ∧ length (verneed_contents st) = (m + n)%nat.

(* --------------------------------------------------------------------- *)
(** ** What bin_sections bins (main.cc 224-254)                           *)
(* --------------------------------------------------------------------- *)

(** The sections of the files that are still there (not null), file after
    file, each file's in the order of its [sections] vector. *)
Definition live_sections (objs : list ObjectFile) : list InputChunk :=
  concat (map (λ file, omap id (sections file)) objs).

(** The sections among [isecs] that point to the output section of index
    [j], in order. *)
Definition sections_of (j : nat) (isecs : list InputChunk) : list InputChunk :=
  List.filter (λ isec, bool_decide (isec_output_section isec = j)) isecs.

(* --------------------------------------------------------------------- *)
(** ** Loops of main: sonames (main.cc 1039-1047), section indices
       (1219-1222)                                                        *)
(* --------------------------------------------------------------------- *)

(** One turn of the loop over [out::dsos]: [seen.insert(file->soname)]
    answers whether the name was new, and the file is kept if it was. *)
Definition uniquify_step (st : list SharedFile * gset string) (file : SharedFile)
    : list SharedFile * gset string :=
  let '(vec, seen) := st in
  let inserted := bool_decide (soname file ∉ seen) in
  let seen := {[soname file]} ∪ seen in
  if inserted then (vec ++ [file], seen) else (vec, seen).

(** "Uniquify shared object files with soname": the new [out::dsos]. *)
Definition uniquify_dsos (dsos : list SharedFile) : list SharedFile :=
  (foldl uniquify_step ([], ∅) dsos).1.

Definition set_shndx (v : Z) (c : OutputChunk) : OutputChunk :=
  mkOutputChunk (chunk_name c) (chunk_kind c) (shdr c) v (starts_new_ptload c).

Definition is_header (c : OutputChunk) : bool :=
  match chunk_kind c with HEADER => true | _ => false end.

(** "Set section indices": the loop from the chunk at hand on, with the
    counter [shndx] as it stands. The counter is an [int], which C++ leaves
    undefined past [INT_MAX]: the model is the loop for fewer chunks than
    that. *)
Fixpoint set_section_indices_from (shndx : Z) (chunks : list OutputChunk)
    : list OutputChunk :=
  match chunks with
  | [] => []
  | chunk :: chunks =>
      if negb (is_header chunk) then
        set_shndx shndx chunk :: set_section_indices_from (shndx + 1) chunks
      else chunk :: set_section_indices_from shndx chunks
  end.

Definition set_section_indices (chunks : list OutputChunk) : list OutputChunk :=
  set_section_indices_from 1 chunks.

(** [a] is [b] but for its section index. *)
Definition same_chunk_but_shndx (a b : OutputChunk) : Prop :=
  a = set_shndx (shndx a) b.

(* --------------------------------------------------------------------- *)
(** ** Response files (main.cc 761-812)                                    *)
(* --------------------------------------------------------------------- *)

(** [MemoryMappedFile::open] (null when the file cannot be opened) and
    [MemoryMappedFile::must_open] (which does not return then) are defined
    in another file of the repository, not under src/; the functions below
    are modelled over them. *)
Class FileDecls := {
  MemoryMappedFile_open : string → option MemoryMappedFile;
  MemoryMappedFile_must_open : string → Result MemoryMappedFile
}.

(** [isspace] of <ctype.h> in the "C" locale: space, and \t \n \v \f \r. *)
Definition isspace (c : byte) : bool :=
  let n := Z.of_N (Byte.to_N c) in
  (n =? 32) || ((9 <=? n) && (n <=? 13)).

(** The single quote, the double quote and the backslash. *)
Definition SQUOTE : byte := x27.
Definition DQUOTE : byte := x22.
Definition BACKSLASH : byte := x5c.

(** [mb->data()[i]] for an [int i]. *)
Definition byte_at (mb : MemoryMappedFile) (i : Z) : byte :=
  data_at mb (Z.to_nat i).

(** The [while] of the [read_quoted] lambda. After a backslash the next
    byte is read without a look at the size. *)
Fixpoint read_quoted_loop (mb : MemoryMappedFile) (quote : byte) (fuel : nat)
    (i : Z) (buf : list byte) : Result (Z * list byte) :=
  match fuel with
  | O => OutOfFuel
  | S fuel =>
      if (int_to_size_t i <? mb_size mb)
         && negb (bool_decide (byte_at mb i = quote)) then
        if bool_decide (byte_at mb i = BACKSLASH) then
          if i + 1 <? mb_size mb then
            read_quoted_loop mb quote fuel (i + 2) (buf ++ [byte_at mb (i + 1)])
          else OutOfBounds
        else read_quoted_loop mb quote fuel (i + 1) (buf ++ [byte_at mb i])
      else Ok (i, buf)
  end.

(** The [read_quoted] lambda: the token is pushed to [vec], and the index
    after the closing quote is returned. The loop takes at most [size()]
    turns, which bounds the fuel it is given. *)
Definition read_quoted (mb : MemoryMappedFile) (path : string)
    (vec : list string) (i : Z) (quote : byte) : Result (list string * Z) :=
  '(i, buf) ← read_quoted_loop mb quote (S (length (mb_data mb))) i [];
  if mb_size mb <=? int_to_size_t i then
    Fatal (path +:+ ": premature end of input")
  else Ok (vec ++ [String.string_of_list_byte buf], i + 1).

(** The [while] of the [read_unquoted] lambda. *)
Fixpoint read_unquoted_loop (mb : MemoryMappedFile) (fuel : nat)
    (i : Z) (buf : list byte) : Result (Z * list byte) :=
  match fuel with
  | O => OutOfFuel
  | S fuel =>
      if (int_to_size_t i <? mb_size mb) && negb (isspace (byte_at mb i)) then
        read_unquoted_loop mb fuel (i + 1) (buf ++ [byte_at mb i])
      else Ok (i, buf)
  end.

Definition read_unquoted (mb : MemoryMappedFile) (vec : list string) (i : Z)
    : Result (list string * Z) :=
  '(i, buf) ← read_unquoted_loop mb (S (length (mb_data mb))) i [];
  Ok (vec ++ [String.string_of_list_byte buf], i).

(** The [for] loop of [read_response_file] over the bytes of the file. *)
Fixpoint read_response_loop (mb : MemoryMappedFile) (path : string) (fuel : nat)
    (i : Z) (vec : list string) : Result (list string) :=
  match fuel with
  | O => OutOfFuel
  | S fuel =>
      if int_to_size_t i <? mb_size mb then
        if isspace (byte_at mb i) then
          read_response_loop mb path fuel (i + 1) vec
        else if bool_decide (byte_at mb i = SQUOTE) then
          '(vec, i) ← read_quoted mb path vec (i + 1) SQUOTE;
          read_response_loop mb path fuel i vec
        else if bool_decide (byte_at mb i = DQUOTE) then
          '(vec, i) ← read_quoted mb path vec (i + 1) DQUOTE;
          read_response_loop mb path fuel i vec
        else
          '(vec, i) ← read_unquoted mb vec i;
          read_response_loop mb path fuel i vec
      else Ok vec
  end.

(** [read_response_file(path)]. Every turn of the loop moves [i] forward,
    so it takes at most [size()] turns. *)
Definition read_response_file `{FileDecls} (path : string) : Result (list string) :=
  mb ← MemoryMappedFile_must_open path;
  read_response_loop mb path (S (length (mb_data mb))) 0 [].

(** [expand_response_files(argv)]: [argv] up to its null entry. An empty
    argument has the terminating NUL at index 0, which is not an at sign. *)
Fixpoint expand_response_files_from `{FileDecls} (argv : list string)
    (vec : list string) : Result (list string) :=
  match argv with
  | [] => Ok vec
  | arg :: argv =>
      match arg with
      | String "@" path =>
          toks ← read_response_file path;
          expand_response_files_from argv (vec ++ toks)
      | _ => expand_response_files_from argv (vec ++ [arg])
      end
  end.

Definition expand_response_files `{FileDecls} (argv : list string)
    : Result (list string) :=
  expand_response_files_from argv [].

(** A quoted string as the file holds it, and the token it stands for:
    bytes other than the quote and the backslash stand for themselves, and a
    backslash makes the byte after it stand for itself. *)
Inductive Escaped (quote : byte) : list byte → list byte → Prop :=
| Escaped_nil : Escaped quote [] []
| Escaped_plain c body s :
    c ≠ quote → c ≠ BACKSLASH → Escaped quote body s →
    Escaped quote (c :: body) (c :: s)
| Escaped_backslash c body s :
    Escaped quote body s → Escaped quote (BACKSLASH :: c :: body) (c :: s).

(** The quoting that puts a backslash before every quote and backslash. *)
Definition escape (quote : byte) (s : list byte) : list byte :=
  concat (map (λ c, if bool_decide (c = quote ∨ c = BACKSLASH)
                    then [BACKSLASH; c] else [c]) s).

(** A word outside quotes: not empty, free of white space, and not
    beginning with a quote. *)
Definition plain_word (w : list byte) : Prop :=
  w ≠ [] ∧ Forall (λ c, isspace c = false) w
  ∧ head w ≠ Some SQUOTE ∧ head w ≠ Some DQUOTE.

(** The text of a response file and the tokens it holds: white space is
    skipped, a word runs up to the next white space, and a quoted string up
    to its closing quote. *)
Inductive Lexes : list byte → list (list byte) → Prop :=
| Lexes_nil : Lexes [] []
| Lexes_space c rest toks :
    isspace c = true → Lexes rest toks → Lexes (c :: rest) toks
| Lexes_word w rest toks :
    plain_word w → from_option isspace true (head rest) = true →
    Lexes rest toks → Lexes (w ++ rest) (w :: toks)
| Lexes_quoted quote body s rest toks :
    quote = SQUOTE ∨ quote = DQUOTE → Escaped quote body s →
    Lexes rest toks → Lexes (quote :: body ++ quote :: rest) (s :: toks).

(** An argument between quotes, as a response file can hold it, and the
    text that holds each of [args] so, on a line of its own. *)
Definition quote_arg (quote : byte) (arg : string) : list byte :=
  quote :: escape quote (String.list_byte_of_string arg) ++ [quote].

Definition response_text (quote : byte) (args : list string) : list byte :=
  concat (map (λ arg, quote_arg quote arg ++ [x0a]) args).

(** An argument that is no reference to a response file. *)
Definition no_at (arg : string) : Prop :=
  match arg with String "@" _ => False | _ => True end.

(* --------------------------------------------------------------------- *)
(** ** Config, as main.cc reads and writes it                             *)
(* --------------------------------------------------------------------- *)

(** [Config] is declared in mold.h, which is not under src/; these are the
    fields main.cc names, with the types its uses give them. The fields are
    prefixed [cfg_] here. *)
Record Config := mkConfig {
  cfg_output : string;
  cfg_dynamic_linker : string;
  cfg_export_dynamic : bool;
  cfg_entry : string;
  cfg_print_map : bool;
  cfg_stat : bool;
  cfg_is_static : bool;
  cfg_trace_symbol : list string;
  cfg_filler : Z;
  cfg_library_paths : list string;
  cfg_sysroot : string;
  cfg_trace : bool;
  cfg_pie : bool;
  cfg_relax : bool;
  cfg_perf : bool;
  cfg_z_now : bool;
  cfg_fork : bool;
  cfg_thread_count : Z;
  cfg_discard_all : bool;
  cfg_discard_locals : bool;
  cfg_strip_all : bool;
  cfg_rpaths : string;
  cfg_version_script : list string;
  cfg_preload : bool;
  cfg_globals : list string;
  cfg_image_base : Z
}.

Definition set_output (v : string) (c : Config) : Config :=
  mkConfig v (cfg_dynamic_linker c) (cfg_export_dynamic c) (cfg_entry c)
    (cfg_print_map c) (cfg_stat c) (cfg_is_static c) (cfg_trace_symbol c)
    (cfg_filler c) (cfg_library_paths c) (cfg_sysroot c) (cfg_trace c)
    (cfg_pie c) (cfg_relax c) (cfg_perf c) (cfg_z_now c) (cfg_fork c)
    (cfg_thread_count c) (cfg_discard_all c) (cfg_discard_locals c)
    (cfg_strip_all c) (cfg_rpaths c) (cfg_version_script c) (cfg_preload c)
    (cfg_globals c) (cfg_image_base c).

Definition set_dynamic_linker (v : string) (c : Config) : Config :=
  mkConfig (cfg_output c) v (cfg_export_dynamic c) (cfg_entry c)
    (cfg_print_map c) (cfg_stat c) (cfg_is_static c) (cfg_trace_symbol c)
    (cfg_filler c) (cfg_library_paths c) (cfg_sysroot c) (cfg_trace c)
    (cfg_pie c) (cfg_relax c) (cfg_perf c) (cfg_z_now c) (cfg_fork c)
    (cfg_thread_count c) (cfg_discard_all c) (cfg_discard_locals c)
    (cfg_strip_all c) (cfg_rpaths c) (cfg_version_script c) (cfg_preload c)
    (cfg_globals c) (cfg_image_base c).

Definition set_export_dynamic (v : bool) (c : Config) : Config :=
  mkConfig (cfg_output c) (cfg_dynamic_linker c) v (cfg_entry c)
    (cfg_print_map c) (cfg_stat c) (cfg_is_static c) (cfg_trace_symbol c)
    (cfg_filler c) (cfg_library_paths c) (cfg_sysroot c) (cfg_trace c)
    (cfg_pie c) (cfg_relax c) (cfg_perf c) (cfg_z_now c) (cfg_fork c)
    (cfg_thread_count c) (cfg_discard_all c) (cfg_discard_locals c)
    (cfg_strip_all c) (cfg_rpaths c) (cfg_version_script c) (cfg_preload c)
    (cfg_globals c) (cfg_image_base c).

Definition set_entry (v : string) (c : Config) : Config :=
  mkConfig (cfg_output c) (cfg_dynamic_linker c) (cfg_export_dynamic c) v
    (cfg_print_map c) (cfg_stat c) (cfg_is_static c) (cfg_trace_symbol c)
    (cfg_filler c) (cfg_library_paths c) (cfg_sysroot c) (cfg_trace c)
    (cfg_pie c) (cfg_relax c) (cfg_perf c) (cfg_z_now c) (cfg_fork c)
    (cfg_thread_count c) (cfg_discard_all c) (cfg_discard_locals c)
    (cfg_strip_all c) (cfg_rpaths c) (cfg_version_script c) (cfg_preload c)
    (cfg_globals c) (cfg_image_base c).

Definition set_print_map (v : bool) (c : Config) : Config :=
  mkConfig (cfg_output c) (cfg_dynamic_linker c) (cfg_export_dynamic c)
    (cfg_entry c) v (cfg_stat c) (cfg_is_static c) (cfg_trace_symbol c)
    (cfg_filler c) (cfg_library_paths c) (cfg_sysroot c) (cfg_trace c)
    (cfg_pie c) (cfg_relax c) (cfg_perf c) (cfg_z_now c) (cfg_fork c)
    (cfg_thread_count c) (cfg_discard_all c) (cfg_discard_locals c)
    (cfg_strip_all c) (cfg_rpaths c) (cfg_version_script c) (cfg_preload c)
    (cfg_globals c) (cfg_image_base c).

Definition set_stat (v : bool) (c : Config) : Config :=
  mkConfig (cfg_output c) (cfg_dynamic_linker c) (cfg_export_dynamic c)
    (cfg_entry c) (cfg_print_map c) v (cfg_is_static c) (cfg_trace_symbol c)
    (cfg_filler c) (cfg_library_paths c) (cfg_sysroot c) (cfg_trace c)
    (cfg_pie c) (cfg_relax c) (cfg_perf c) (cfg_z_now c) (cfg_fork c)
    (cfg_thread_count c) (cfg_discard_all c) (cfg_discard_locals c)
    (cfg_strip_all c) (cfg_rpaths c) (cfg_version_script c) (cfg_preload c)
    (cfg_globals c) (cfg_image_base c).

Definition set_is_static (v : bool) (c : Config) : Config :=
  mkConfig (cfg_output c) (cfg_dynamic_linker c) (cfg_export_dynamic c)
    (cfg_entry c) (cfg_print_map c) (cfg_stat c) v (cfg_trace_symbol c)
    (cfg_filler c) (cfg_library_paths c) (cfg_sysroot c) (cfg_trace c)
    (cfg_pie c) (cfg_relax c) (cfg_perf c) (cfg_z_now c) (cfg_fork c)
    (cfg_thread_count c) (cfg_discard_all c) (cfg_discard_locals c)
    (cfg_strip_all c) (cfg_rpaths c) (cfg_version_script c) (cfg_preload c)
    (cfg_globals c) (cfg_image_base c).

Definition set_trace_symbol (v : list string) (c : Config) : Config :=
  mkConfig (cfg_output c) (cfg_dynamic_linker c) (cfg_export_dynamic c)
    (cfg_entry c) (cfg_print_map c) (cfg_stat c) (cfg_is_static c) v
    (cfg_filler c) (cfg_library_paths c) (cfg_sysroot c) (cfg_trace c)
    (cfg_pie c) (cfg_relax c) (cfg_perf c) (cfg_z_now c) (cfg_fork c)
    (cfg_thread_count c) (cfg_discard_all c) (cfg_discard_locals c)
    (cfg_strip_all c) (cfg_rpaths c) (cfg_version_script c) (cfg_preload c)
    (cfg_globals c) (cfg_image_base c).

Definition set_filler (v : Z) (c : Config) : Config :=
  mkConfig (cfg_output c) (cfg_dynamic_linker c) (cfg_export_dynamic c)
    (cfg_entry c) (cfg_print_map c) (cfg_stat c) (cfg_is_static c)
    (cfg_trace_symbol c) v (cfg_library_paths c) (cfg_sysroot c) (cfg_trace c)
    (cfg_pie c) (cfg_relax c) (cfg_perf c) (cfg_z_now c) (cfg_fork c)
    (cfg_thread_count c) (cfg_discard_all c) (cfg_discard_locals c)
    (cfg_strip_all c) (cfg_rpaths c) (cfg_version_script c) (cfg_preload c)
    (cfg_globals c) (cfg_image_base c).

Definition set_library_paths (v : list string) (c : Config) : Config :=
  mkConfig (cfg_output c) (cfg_dynamic_linker c) (cfg_export_dynamic c)
    (cfg_entry c) (cfg_print_map c) (cfg_stat c) (cfg_is_static c)
    (cfg_trace_symbol c) (cfg_filler c) v (cfg_sysroot c) (cfg_trace c)
    (cfg_pie c) (cfg_relax c) (cfg_perf c) (cfg_z_now c) (cfg_fork c)
    (cfg_thread_count c) (cfg_discard_all c) (cfg_discard_locals c)
    (cfg_strip_all c) (cfg_rpaths c) (cfg_version_script c) (cfg_preload c)
    (cfg_globals c) (cfg_image_base c).

Definition set_sysroot (v : string) (c : Config) : Config :=
  mkConfig (cfg_output c) (cfg_dynamic_linker c) (cfg_export_dynamic c)
    (cfg_entry c) (cfg_print_map c) (cfg_stat c) (cfg_is_static c)
    (cfg_trace_symbol c) (cfg_filler c) (cfg_library_paths c) v (cfg_trace c)
    (cfg_pie c) (cfg_relax c) (cfg_perf c) (cfg_z_now c) (cfg_fork c)
    (cfg_thread_count c) (cfg_discard_all c) (cfg_discard_locals c)
    (cfg_strip_all c) (cfg_rpaths c) (cfg_version_script c) (cfg_preload c)
    (cfg_globals c) (cfg_image_base c).

Definition set_trace (v : bool) (c : Config) : Config :=
  mkConfig (cfg_output c) (cfg_dynamic_linker c) (cfg_export_dynamic c)
    (cfg_entry c) (cfg_print_map c) (cfg_stat c) (cfg_is_static c)
    (cfg_trace_symbol c) (cfg_filler c) (cfg_library_paths c) (cfg_sysroot c)
    v (cfg_pie c) (cfg_relax c) (cfg_perf c) (cfg_z_now c) (cfg_fork c)
    (cfg_thread_count c) (cfg_discard_all c) (cfg_discard_locals c)
    (cfg_strip_all c) (cfg_rpaths c) (cfg_version_script c) (cfg_preload c)
    (cfg_globals c) (cfg_image_base c).

Definition set_pie (v : bool) (c : Config) : Config :=
  mkConfig (cfg_output c) (cfg_dynamic_linker c) (cfg_export_dynamic c)
    (cfg_entry c) (cfg_print_map c) (cfg_stat c) (cfg_is_static c)
    (cfg_trace_symbol c) (cfg_filler c) (cfg_library_paths c) (cfg_sysroot c)
    (cfg_trace c) v (cfg_relax c) (cfg_perf c) (cfg_z_now c) (cfg_fork c)
    (cfg_thread_count c) (cfg_discard_all c) (cfg_discard_locals c)
    (cfg_strip_all c) (cfg_rpaths c) (cfg_version_script c) (cfg_preload c)
    (cfg_globals c) (cfg_image_base c).

Definition set_relax (v : bool) (c : Config) : Config :=
  mkConfig (cfg_output c) (cfg_dynamic_linker c) (cfg_export_dynamic c)
    (cfg_entry c) (cfg_print_map c) (cfg_stat c) (cfg_is_static c)
    (cfg_trace_symbol c) (cfg_filler c) (cfg_library_paths c) (cfg_sysroot c)
    (cfg_trace c) (cfg_pie c) v (cfg_perf c) (cfg_z_now c) (cfg_fork c)
    (cfg_thread_count c) (cfg_discard_all c) (cfg_discard_locals c)
    (cfg_strip_all c) (cfg_rpaths c) (cfg_version_script c) (cfg_preload c)
    (cfg_globals c) (cfg_image_base c).

Definition set_perf (v : bool) (c : Config) : Config :=
  mkConfig (cfg_output c) (cfg_dynamic_linker c) (cfg_export_dynamic c)
    (cfg_entry c) (cfg_print_map c) (cfg_stat c) (cfg_is_static c)
    (cfg_trace_symbol c) (cfg_filler c) (cfg_library_paths c) (cfg_sysroot c)
    (cfg_trace c) (cfg_pie c) (cfg_relax c) v (cfg_z_now c) (cfg_fork c)
    (cfg_thread_count c) (cfg_discard_all c) (cfg_discard_locals c)
    (cfg_strip_all c) (cfg_rpaths c) (cfg_version_script c) (cfg_preload c)
    (cfg_globals c) (cfg_image_base c).

Definition set_z_now (v : bool) (c : Config) : Config :=
  mkConfig (cfg_output c) (cfg_dynamic_linker c) (cfg_export_dynamic c)
    (cfg_entry c) (cfg_print_map c) (cfg_stat c) (cfg_is_static c)
    (cfg_trace_symbol c) (cfg_filler c) (cfg_library_paths c) (cfg_sysroot c)
    (cfg_trace c) (cfg_pie c) (cfg_relax c) (cfg_perf c) v (cfg_fork c)
    (cfg_thread_count c) (cfg_discard_all c) (cfg_discard_locals c)
    (cfg_strip_all c) (cfg_rpaths c) (cfg_version_script c) (cfg_preload c)
    (cfg_globals c) (cfg_image_base c).

Definition set_fork (v : bool) (c : Config) : Config :=
  mkConfig (cfg_output c) (cfg_dynamic_linker c) (cfg_export_dynamic c)
    (cfg_entry c) (cfg_print_map c) (cfg_stat c) (cfg_is_static c)
    (cfg_trace_symbol c) (cfg_filler c) (cfg_library_paths c) (cfg_sysroot c)
    (cfg_trace c) (cfg_pie c) (cfg_relax c) (cfg_perf c) (cfg_z_now c) v
    (cfg_thread_count c) (cfg_discard_all c) (cfg_discard_locals c)
    (cfg_strip_all c) (cfg_rpaths c) (cfg_version_script c) (cfg_preload c)
    (cfg_globals c) (cfg_image_base c).

Definition set_thread_count (v : Z) (c : Config) : Config :=
  mkConfig (cfg_output c) (cfg_dynamic_linker c) (cfg_export_dynamic c)
    (cfg_entry c) (cfg_print_map c) (cfg_stat c) (cfg_is_static c)
    (cfg_trace_symbol c) (cfg_filler c) (cfg_library_paths c) (cfg_sysroot c)
    (cfg_trace c) (cfg_pie c) (cfg_relax c) (cfg_perf c) (cfg_z_now c)
    (cfg_fork c) v (cfg_discard_all c) (cfg_discard_locals c) (cfg_strip_all
    c) (cfg_rpaths c) (cfg_version_script c) (cfg_preload c) (cfg_globals c)
    (cfg_image_base c).

Definition set_discard_all (v : bool) (c : Config) : Config :=
  mkConfig (cfg_output c) (cfg_dynamic_linker c) (cfg_export_dynamic c)
    (cfg_entry c) (cfg_print_map c) (cfg_stat c) (cfg_is_static c)
    (cfg_trace_symbol c) (cfg_filler c) (cfg_library_paths c) (cfg_sysroot c)
    (cfg_trace c) (cfg_pie c) (cfg_relax c) (cfg_perf c) (cfg_z_now c)
    (cfg_fork c) (cfg_thread_count c) v (cfg_discard_locals c) (cfg_strip_all
    c) (cfg_rpaths c) (cfg_version_script c) (cfg_preload c) (cfg_globals c)
    (cfg_image_base c).

Definition set_discard_locals (v : bool) (c : Config) : Config :=
  mkConfig (cfg_output c) (cfg_dynamic_linker c) (cfg_export_dynamic c)
    (cfg_entry c) (cfg_print_map c) (cfg_stat c) (cfg_is_static c)
    (cfg_trace_symbol c) (cfg_filler c) (cfg_library_paths c) (cfg_sysroot c)
    (cfg_trace c) (cfg_pie c) (cfg_relax c) (cfg_perf c) (cfg_z_now c)
    (cfg_fork c) (cfg_thread_count c) (cfg_discard_all c) v (cfg_strip_all c)
    (cfg_rpaths c) (cfg_version_script c) (cfg_preload c) (cfg_globals c)
    (cfg_image_base c).

Definition set_strip_all (v : bool) (c : Config) : Config :=
  mkConfig (cfg_output c) (cfg_dynamic_linker c) (cfg_export_dynamic c)
    (cfg_entry c) (cfg_print_map c) (cfg_stat c) (cfg_is_static c)
    (cfg_trace_symbol c) (cfg_filler c) (cfg_library_paths c) (cfg_sysroot c)
    (cfg_trace c) (cfg_pie c) (cfg_relax c) (cfg_perf c) (cfg_z_now c)
    (cfg_fork c) (cfg_thread_count c) (cfg_discard_all c) (cfg_discard_locals
    c) v (cfg_rpaths c) (cfg_version_script c) (cfg_preload c) (cfg_globals c)
    (cfg_image_base c).

Definition set_rpaths (v : string) (c : Config) : Config :=
  mkConfig (cfg_output c) (cfg_dynamic_linker c) (cfg_export_dynamic c)
    (cfg_entry c) (cfg_print_map c) (cfg_stat c) (cfg_is_static c)
    (cfg_trace_symbol c) (cfg_filler c) (cfg_library_paths c) (cfg_sysroot c)
    (cfg_trace c) (cfg_pie c) (cfg_relax c) (cfg_perf c) (cfg_z_now c)
    (cfg_fork c) (cfg_thread_count c) (cfg_discard_all c) (cfg_discard_locals
    c) (cfg_strip_all c) v (cfg_version_script c) (cfg_preload c) (cfg_globals
    c) (cfg_image_base c).

Definition set_version_script (v : list string) (c : Config) : Config :=
  mkConfig (cfg_output c) (cfg_dynamic_linker c) (cfg_export_dynamic c)
    (cfg_entry c) (cfg_print_map c) (cfg_stat c) (cfg_is_static c)
    (cfg_trace_symbol c) (cfg_filler c) (cfg_library_paths c) (cfg_sysroot c)
    (cfg_trace c) (cfg_pie c) (cfg_relax c) (cfg_perf c) (cfg_z_now c)
    (cfg_fork c) (cfg_thread_count c) (cfg_discard_all c) (cfg_discard_locals
    c) (cfg_strip_all c) (cfg_rpaths c) v (cfg_preload c) (cfg_globals c)
    (cfg_image_base c).

Definition set_preload (v : bool) (c : Config) : Config :=
  mkConfig (cfg_output c) (cfg_dynamic_linker c) (cfg_export_dynamic c)
    (cfg_entry c) (cfg_print_map c) (cfg_stat c) (cfg_is_static c)
    (cfg_trace_symbol c) (cfg_filler c) (cfg_library_paths c) (cfg_sysroot c)
    (cfg_trace c) (cfg_pie c) (cfg_relax c) (cfg_perf c) (cfg_z_now c)
    (cfg_fork c) (cfg_thread_count c) (cfg_discard_all c) (cfg_discard_locals
    c) (cfg_strip_all c) (cfg_rpaths c) (cfg_version_script c) v (cfg_globals
    c) (cfg_image_base c).

(* --------------------------------------------------------------------- *)
(** ** find_library (main.cc 643-655)                                     *)
(* --------------------------------------------------------------------- *)

(** The loop of [find_library] over the directories still to try. *)
Fixpoint find_library_in `{FileDecls} (config : Config) (name : string)
    (lib_paths : list string) : Result MemoryMappedFile :=
  match lib_paths with
  | [] => Fatal ("library not found: " +:+ name)
  | dir :: lib_paths =>
      let root := if starts_with dir "/" then cfg_sysroot config else "" in
      let stem := root +:+ dir +:+ "/lib" +:+ name in
      let dso :=
        if negb (cfg_is_static config) then MemoryMappedFile_open (stem +:+ ".so")
        else None in
      match dso with
      | Some mb => Ok mb
      | None =>
          match MemoryMappedFile_open (stem +:+ ".a") with
          | Some mb => Ok mb
          | None => find_library_in config name lib_paths
          end
      end
  end.

Definition find_library `{FileDecls} (config : Config) (name : string)
    (lib_paths : list string) : Result MemoryMappedFile :=
  find_library_in config name lib_paths.

(** The path [find_library] tries in [dir] for the extension [ext], and
    the file it finds there, if any; a shared object is not looked for when
    the link is static. *)
Definition library_path (config : Config) (dir name ext : string) : string :=
  ((if starts_with dir "/" then cfg_sysroot config else "")
   +:+ dir +:+ "/lib" +:+ name) +:+ ext.

Definition library_in `{FileDecls} (config : Config) (name dir : string)
    : option MemoryMappedFile :=
  match (if negb (cfg_is_static config)
         then MemoryMappedFile_open (library_path config dir name ".so")
         else None) with
  | Some mb => Some mb
  | None => MemoryMappedFile_open (library_path config dir name ".a")
  end.

(* --------------------------------------------------------------------- *)
(** ** Readers of flags and numbers (main.cc 702-759)                     *)
(* --------------------------------------------------------------------- *)

(** [read_flag(args, name)]: [Some args'] when it answers true. [args[0]]
    is read without a size check. *)
Definition read_flag (args : list string) (name : string)
    : Result (option (list string)) :=
  match args with
  | [] => OutOfBounds
  | a0 :: _ =>
      (fix go (opts : list string) : Result (option (list string)) :=
         match opts with
         | [] => Ok None
         | opt :: opts =>
             if bool_decide (a0 = opt) then Ok (Some (subspan args 1))
             else go opts
         end) (add_dashes name)
  end.

(** [read_z_flag(args, name)]: it looks at the size first. *)
Definition read_z_flag (args : list string) (name : string)
    : option (list string) :=
  match args with
  | a0 :: a1 :: _ =>
      if bool_decide (a0 = "-z") && bool_decide (a1 = name) then
        Some (subspan args 2)
      else if bool_decide (a0 = "-z" +:+ name) then Some (subspan args 1)
      else None
  | [a0] =>
      if bool_decide (a0 = "-z" +:+ name) then Some (subspan args 1) else None
  | [] => None
  end.

(** [read_equal(args, arg, name, default_)]: first the bare spellings, then
    the spellings with [=]. *)
Definition read_equal (args : list string) (name default_ : string)
    : Result (option (string * list string)) :=
  match args with
  | [] => OutOfBounds
  | a0 :: _ =>
      (fix bare (opts : list string) : Result (option (string * list string)) :=
         match opts with
         | opt :: opts =>
             if bool_decide (a0 = opt) then Ok (Some (default_, subspan args 1))
             else bare opts
         | [] =>
             (fix with_equal (opts : list string)
                : Result (option (string * list string)) :=
                match opts with
                | opt :: opts =>
                    if starts_with a0 (opt +:+ "=") then
                      Ok (Some (substr a0 (String.length opt + 1), subspan args 1))
                    else with_equal opts
                | [] => Ok None
                end) (add_dashes name)
         end) (add_dashes name)
  end.

(** The exceptions [std::stol] throws; nothing in main.cc catches them, so
    the run is terminated. *)
Inductive Exception := invalid_argument | out_of_range.

Definition LONG_MAX : Z := 2 ^ 63 - 1.

(** The value of a character as a digit of [base]: [0-9], then the letters
    of either case from ten on. *)
Definition digit_value (base : Z) (c : ascii) : option Z :=
  let n := Z.of_N (N_of_ascii c) in
  let d :=
    if (48 <=? n) && (n <=? 57) then Some (n - 48)
    else if (97 <=? n) && (n <=? 122) then Some (n - 87)
    else if (65 <=? n) && (n <=? 90) then Some (n - 55)
    else None in
  match d with
  | Some d => if d <? base then Some d else None
  | None => None
  end.

(** The digits [strtol] converts: the longest run at the start of [s];
    [None] while it has seen no digit. *)
Fixpoint strtol_digits (base : Z) (s : string) (acc : option Z) : option Z :=
  match s with
  | EmptyString => acc
  | String c s =>
      match digit_value base c with
      | Some d => strtol_digits base s (Some (default 0 acc * base + d))
      | None => acc
      end
  end.

(** [std::stol(s, nullptr, base)] for a string that does not begin with white
    space, a sign or a [0x] prefix, which is what its two callers have made
    sure of: [invalid_argument] if there is no digit to convert,
    [out_of_range] if the value does not fit a [long]. *)
Definition stol (s : string) (base : Z) : Exception + Z :=
  match strtol_digits base s None with
  | None => inl invalid_argument
  | Some v => if LONG_MAX <? v then inl out_of_range else inr v
  end.

(** [s.find_first_not_of(chars)]: the index, or [None] for [npos]. *)
Fixpoint find_first_not_of (s chars : string) : option nat :=
  match s with
  | EmptyString => None
  | String c s =>
      if bool_decide (c ∈ String.list_ascii_of_string chars) then
        S <$> find_first_not_of s chars
      else Some 0%nat
  end.

Definition parse_hex (opt value : string) : Result (Exception + Z) :=
  if negb (starts_with value "0x") && negb (starts_with value "0X") then
    Fatal ("option -" +:+ opt +:+ ": not a hexadecimal number")
  else
    let value := substr value 2 in
    if bool_decide (find_first_not_of value "0123456789abcdefABCDEF" ≠ None) then
      Fatal ("option -" +:+ opt +:+ ": not a hexadecimal number")
    else Ok (stol value 16).

Definition parse_number (opt value : string) : Result (Exception + Z) :=
  if bool_decide (find_first_not_of value "0123456789" ≠ None) then
    Fatal ("option -" +:+ opt +:+ ": not a number")
  else Ok (stol value 10).

(* --------------------------------------------------------------------- *)
(** ** parse_nonpositional_args (main.cc 854-941)                         *)
(* --------------------------------------------------------------------- *)

(** What mold.h and TBB leave open here: the value of a default-made
    [Config], the parallelism TBB allows, and the conversions from the [u64]
    the number parsers return to the types of the two fields that take
    one. *)
Class ConfigDecls := {
  default_config : Config;
  max_allowed_parallelism : Z;
  filler_of_u64 : Z → Z;
  thread_count_of_u64 : Z → Z
}.

(** The state of the loop: [conf], [remaining] and [args]. A turn ends with
    the new state, or with an exception on its way out of [main]. *)
Definition ParseState : Type := Config * list string * list string.

(** [if (read_arg(args, arg, name)) yes else no], and the same for the
    other readers. *)
Definition if_read_arg {T} (args : list string) (name : string)
    (yes : string → list string → Result T) (no : Result T) : Result T :=
  r ← read_arg args name;
  match r with
  | Some (arg, args) => yes arg args
  | None => no
  end.

Definition if_read_flag {T} (args : list string) (name : string)
    (yes : list string → Result T) (no : Result T) : Result T :=
  r ← read_flag args name;
  match r with
  | Some args => yes args
  | None => no
  end.

Definition if_read_z_flag {T} (args : list string) (name : string)
    (yes : list string → Result T) (no : Result T) : Result T :=
  match read_z_flag args name with
  | Some args => yes args
  | None => no
  end.

Definition if_read_equal {T} (args : list string) (name default_ : string)
    (yes : string → list string → Result T) (no : Result T) : Result T :=
  r ← read_equal args name default_;
  match r with
  | Some (arg, args) => yes arg args
  | None => no
  end.

(** [args[0][0]]: the first character of a [string_view], read without a
    look at its size. *)
Definition first_char (s : string) : Result ascii :=
  match s with
  | String c _ => Ok c
  | EmptyString => OutOfBounds
  end.

(** One turn of the [while] of [parse_nonpositional_args]. *)
Definition parse_nonpositional_step `{ConfigDecls} (conf : Config)
    (remaining args : list string) : Result (Exception + ParseState) :=
  let done (conf : Config) (args : list string) : Result (Exception + ParseState) :=
    Ok (inr (conf, remaining, args)) in
  let entry arg args := done (set_entry arg conf) args in
  let trace_symbol arg args :=
    done (set_trace_symbol (cfg_trace_symbol conf ++ [arg]) conf) args in
  let library_path arg args :=
    done (set_library_paths (cfg_library_paths conf ++ [arg]) conf) args in
  let discard_all args := done (set_discard_all true conf) args in
  let discard_locals args := done (set_discard_locals true conf) args in
  let strip_all args := done (set_strip_all true conf) args in
  if_read_arg args "o" (λ arg args, done (set_output arg conf) args) (
  if_read_arg args "dynamic-linker"
    (λ arg args, done (set_dynamic_linker arg conf) args) (
  if_read_flag args "export-dynamic"
    (λ args, done (set_export_dynamic true conf) args) (
  if_read_arg args "e" entry (
  if_read_arg args "entry" entry (
  if_read_flag args "print-map" (λ args, done (set_print_map true conf) args) (
  if_read_flag args "stat" (λ args, done (set_stat true conf) args) (
  if_read_flag args "static" (λ args, done (set_is_static true conf) args) (
  if_read_arg args "y" trace_symbol (
  if_read_arg args "trace-symbol" trace_symbol (
  if_read_arg args "filler"
    (λ arg args,
       v ← parse_hex "filler" arg;
       match v with
       | inl e => Ok (inl e)
       | inr v => done (set_filler (filler_of_u64 v) conf) args
       end) (
  if_read_arg args "L" library_path (
  if_read_arg args "library-path" library_path (
  if_read_arg args "sysroot" (λ arg args, done (set_sysroot arg conf) args) (
  if_read_flag args "trace" (λ args, done (set_trace true conf) args) (
  if_read_flag args "pie" (λ args, done (set_pie true conf) args) (
  if_read_flag args "no-pie" (λ args, done (set_pie false conf) args) (
  if_read_flag args "relax" (λ args, done (set_relax true conf) args) (
  if_read_flag args "no-relax" (λ args, done (set_relax false conf) args) (
  if_read_flag args "perf" (λ args, done (set_perf true conf) args) (
  if_read_z_flag args "now" (λ args, done (set_z_now true conf) args) (
  if_read_flag args "no-fork" (λ args, done (set_fork false conf) args) (
  if_read_arg args "thread-count"
    (λ arg args,
       v ← parse_number "thread-count" arg;
       match v with
       | inl e => Ok (inl e)
       | inr v => done (set_thread_count (thread_count_of_u64 v) conf) args
       end) (
  if_read_flag args "discard-all" discard_all (
  if_read_flag args "x" discard_all (
  if_read_flag args "discard-locals" discard_locals (
  if_read_flag args "X" discard_locals (
  if_read_flag args "strip-all" strip_all (
  if_read_flag args "s" strip_all (
  if_read_arg args "rpath"
    (λ arg args,
       let rpaths :=
         if negb (bool_decide (cfg_rpaths conf = "")) then cfg_rpaths conf +:+ ":"
         else cfg_rpaths conf in
       done (set_rpaths (rpaths +:+ arg) conf) args) (
  if_read_arg args "version-script"
    (λ arg args,
       done (set_version_script (cfg_version_script conf ++ [arg]) conf) args) (
  if_read_flag args "preload" (λ args, done (set_preload true conf) args) (
  if_read_arg args "z" (λ arg args, done conf args) (
  if_read_arg args "hash-style" (λ arg args, done conf args) (
  if_read_arg args "m" (λ arg args, done conf args) (
  if_read_equal args "build-id" "none" (λ arg args, done conf args) (
  if_read_flag args "eh-frame-hdr" (λ args, done conf args) (
  if_read_flag args "start-group" (λ args, done conf args) (
  if_read_flag args "end-group" (λ args, done conf args) (
  if_read_flag args "fatal-warnings" (λ args, done conf args) (
  if_read_flag args "disable-new-dtags" (λ args, done conf args) (
  if_read_flag args "as-needed"
    (λ args, Ok (inr (conf, remaining ++ ["-as-needed"], args))) (
  if_read_flag args "no-as-needed"
    (λ args, Ok (inr (conf, remaining ++ ["-no-as-needed"], args))) (
  if_read_arg args "l"
    (λ arg args, Ok (inr (conf, remaining ++ ["-l"; arg], args))) (
  match args with
  | [] => OutOfBounds
  | a0 :: _ =>
      c ← first_char a0;
      if bool_decide (c = "-"%char) then
        Fatal ("unknown command line option: " +:+ a0)
      else Ok (inr (conf, remaining ++ [a0], subspan args 1))
  end)))))))))))))))))))))))))))))))))))))))))))).

(** The loop [while (!args.empty())] and the [return conf] after it. *)
Fixpoint parse_nonpositional_loop `{ConfigDecls} (fuel : nat) (conf : Config)
    (remaining args : list string) : Result (Exception + (Config * list string)) :=
  match fuel with
  | O => OutOfFuel
  | S fuel =>
      if negb (bool_decide (args = [])) then
        r ← parse_nonpositional_step conf remaining args;
        match r with
        | inl e => Ok (inl e)
        | inr (conf, remaining, args) =>
            parse_nonpositional_loop fuel conf remaining args
        end
      else Ok (inr (conf, remaining))
  end.

(** [parse_nonpositional_args(args, remaining)]: the [Config] returned and
    [remaining] as the call leaves it. *)
Definition parse_nonpositional_args `{ConfigDecls} (fuel : nat)
    (args remaining : list string) : Result (Exception + (Config * list string)) :=
  parse_nonpositional_loop fuel
    (set_thread_count max_allowed_parallelism default_config) remaining args.

(* --------------------------------------------------------------------- *)
(** ** read_input_files (main.cc 943-961)                                 *)
(* --------------------------------------------------------------------- *)

(** One turn of the [while] of [read_input_files]: [as_needed], [args] and
    the files read so far, after it. *)
Definition read_input_files_step `{FileDecls} `{ReaderDecls} (config : Config)
    (preloading : bool) (as_needed : bool) (args : list string) (st : ReadState)
    : Result (bool * list string * ReadState) :=
  if_read_flag args "as-needed" (λ args, Ok (true, args, st)) (
  if_read_flag args "no-as-needed" (λ args, Ok (false, args, st)) (
  if_read_arg args "l"
    (λ arg args,
       mb ← find_library config arg (cfg_library_paths config);
       st ← read_file preloading mb as_needed st;
       Ok (as_needed, args, st)) (
  match args with
  | [] => OutOfBounds
  | a0 :: _ =>
      mb ← MemoryMappedFile_must_open a0;
      st ← read_file preloading mb as_needed st;
      Ok (as_needed, subspan args 1, st)
  end))).

Fixpoint read_input_files_loop `{FileDecls} `{ReaderDecls} (config : Config)
    (preloading : bool) (fuel : nat) (as_needed : bool) (args : list string)
    (st : ReadState) : Result ReadState :=
  match fuel with
  | O => OutOfFuel
  | S fuel =>
      if negb (bool_decide (args = [])) then
        '(as_needed, args, st) ←
          read_input_files_step config preloading as_needed args st;
        read_input_files_loop config preloading fuel as_needed args st
      else Ok st
  end.

Definition read_input_files `{FileDecls} `{ReaderDecls} (config : Config)
    (preloading : bool) (fuel : nat) (args : list string) (st : ReadState)
    : Result ReadState :=
  read_input_files_loop config preloading fuel false args st.

(** A number as it is written in base ten and in base sixteen (the digits
    from ten on in lower case), by the standard library. *)
Definition decimal (n : Z) : string :=
  DecimalString.NilEmpty.string_of_uint (N.to_uint (Z.to_N n)).

Definition hexadecimal (n : Z) : string :=
  HexadecimalString.NilEmpty.string_of_uint (N.to_hex_uint (Z.to_N n)).

(** What a numeral in base sixteen stands for, whatever the case of its
    digits and with any zeros in front: the value of each digit by the
    table, and the digits by their places. *)
Definition xdigit_value (c : ascii) : Z :=
  match c with
  | "0" => 0 | "1" => 1 | "2" => 2 | "3" => 3 | "4" => 4
  | "5" => 5 | "6" => 6 | "7" => 7 | "8" => 8 | "9" => 9
  | "a" | "A" => 10 | "b" | "B" => 11 | "c" | "C" => 12
  | "d" | "D" => 13 | "e" | "E" => 14 | "f" | "F" => 15
  | _ => 0
  end%char.

Definition hex_value (digits : string) : Z :=
  foldl (λ acc c, 16 * acc + xdigit_value c) 0 (String.list_ascii_of_string digits).

(** The characters the two parsers let through. *)
Definition is_digit (c : ascii) : bool :=
  bool_decide (c ∈ String.list_ascii_of_string "0123456789").

Definition is_xdigit (c : ascii) : bool :=
  bool_decide (c ∈ String.list_ascii_of_string "0123456789abcdefABCDEF").

(** The characters an option of [parse_nonpositional_args] can have after
    its dash: the first characters of the names it reads. *)
Definition option_letters : list ascii :=
  String.list_ascii_of_string "abdefhLlmnoprstvXxyz".

(** An argument that names a file: not empty, and not beginning with a
    dash. *)
Definition positional (arg : string) : Prop :=
  arg ≠ "" ∧ starts_with arg "-" = false.

(** An argument that begins with one dash and goes on with none of the
    letters above; the lone dash is one. *)
Definition unknown_option (arg : string) : Prop :=
  starts_with arg "-" = true
  ∧ starts_with arg "--" = false
  ∧ Forall (λ n, starts_with arg (String "-" (String n "")) = false)
           option_letters.

(** A turn of the loop that ends, and that leaves fewer arguments than
    [args0] if it goes on. *)
Definition consumes (args0 : list string) (r : Result (Exception + ParseState))
    : Prop :=
  r ≠ OutOfFuel
  ∧ ∀ conf remaining args,
      r = Ok (inr (conf, remaining, args)) → (length args < length args0)%nat.

(** A file name on the command line that opens as a shared object;
    [opened] is the mapping [must_open] returns for each name. *)
Definition names_dso `{FileDecls} (opened : string → MemoryMappedFile)
    (arg : string) : Prop :=
  positional arg
  ∧ MemoryMappedFile_must_open arg = Ok (opened arg)
  ∧ get_file_type (opened arg) = DSO.

(** [out::dsos] after the shared objects named by [files] have been read
    with [as_needed] as given. *)
Definition push_dsos (opened : string → MemoryMappedFile) (as_needed : bool)
    (files : list string) (st : ReadState) : ReadState :=
  mkReadState (cache st) (out_objs st)
    (out_dsos st ++ ((λ arg, new_shared_file (opened arg) as_needed) <$> files)).

(* --------------------------------------------------------------------- *)
(** ** fix_synthetic_symbols (main.cc 549-629)                            *)
(* --------------------------------------------------------------------- *)

Definition SHT_INIT_ARRAY : Z := 14.
Definition SHT_FINI_ARRAY : Z := 15.

(** The two fields of a [Symbol] the function writes. A pointer to a
    [Symbol] is the name it is interned under, null being [None]; the table
    holds the two fields of every interned symbol. *)
Record SymbolAddr := mkSymbolAddr {
  sym_shndx : Z;
  sym_value : Z
}.

Definition SymbolTable := gmap string SymbolAddr.

(** The pointers of the namespace [out] the function reads: the symbols the
    linker makes up and four of the chunks; each can be null. *)
Record OutPointers := mkOutPointers {
  out___bss_start : option string;
  out___ehdr_start : option string;
  out___rela_iplt_start : option string;
  out___rela_iplt_end : option string;
  out___init_array_start : option string;
  out___init_array_end : option string;
  out___fini_array_start : option string;
  out___fini_array_end : option string;
  out__end : option string;
  out__etext : option string;
  out__edata : option string;
  out__DYNAMIC : option string;
  out__GLOBAL_OFFSET_TABLE_ : option string;
  out_ehdr : option OutputChunk;
  out_relplt : option OutputChunk;
  out_dynamic : option OutputChunk;
  out_gotplt : option OutputChunk
}.

(** [is_c_identifier] is defined in another file of the repository, not
    under src/. *)
Class SymbolDecls := {
  is_c_identifier : string → bool
}.

(** The lambdas [start] and [stop]: nothing for a null symbol. *)
Definition start (sym : option string) (chunk : OutputChunk)
    (tab : SymbolTable) : SymbolTable :=
  match sym with
  | Some name => <[name := mkSymbolAddr (shndx chunk) (sh_addr (shdr chunk))]> tab
  | None => tab
  end.

Definition stop (sym : option string) (chunk : OutputChunk)
    (tab : SymbolTable) : SymbolTable :=
  match sym with
  | Some name =>
      <[name := mkSymbolAddr (shndx chunk)
                  (u64 (sh_addr (shdr chunk) + sh_size (shdr chunk)))]> tab
  | None => tab
  end.

(** [start(sym, chunk)] and [stop(sym, chunk)] for a chunk pointer taken
    from [out]: with a symbol at hand the chunk is read, null or not. *)
Definition start_at (sym : option string) (chunk : option OutputChunk)
    (tab : SymbolTable) : option SymbolTable :=
  match sym, chunk with
  | None, _ => Some tab
  | Some _, Some chunk => Some (start sym chunk tab)
  | Some _, None => None
  end.

Definition stop_at (sym : option string) (chunk : option OutputChunk)
    (tab : SymbolTable) : option SymbolTable :=
  match sym, chunk with
  | None, _ => Some tab
  | Some _, Some chunk => Some (stop sym chunk tab)
  | Some _, None => None
  end.

Definition is_regular (c : OutputChunk) : bool :=
  match chunk_kind c with REGULAR => true | _ => false end.

(** "__bss_start": the first chunk that is REGULAR and named .bss. *)
Fixpoint fix_bss_start (out : OutPointers) (chunks : list OutputChunk)
    (tab : SymbolTable) : SymbolTable :=
  match chunks with
  | [] => tab
  | chunk :: chunks =>
      if is_regular chunk && bool_decide (chunk_name chunk = ".bss") then
        start (out___bss_start out) chunk tab
      else fix_bss_start out chunks tab
  end.

(** "__ehdr_start": at the first chunk of index 1 the symbol and
    [out::ehdr] are read without a test for null. *)
Fixpoint fix_ehdr_start (out : OutPointers) (chunks : list OutputChunk)
    (tab : SymbolTable) : option SymbolTable :=
  match chunks with
  | [] => Some tab
  | chunk :: chunks =>
      if bool_decide (shndx chunk = 1) then
        match out___ehdr_start out, out_ehdr out with
        | Some name, Some ehdr =>
            Some (<[name := mkSymbolAddr 1 (sh_addr (shdr ehdr))]> tab)
        | _, _ => None
        end
      else fix_ehdr_start out chunks tab
  end.

(** "__{init,fini}_array_{start,end}": one turn of the loop. *)
Definition fix_array_step (out : OutPointers) (tab : SymbolTable)
    (chunk : OutputChunk) : SymbolTable :=
  if sh_type (shdr chunk) =? SHT_INIT_ARRAY then
    stop (out___init_array_end out) chunk
      (start (out___init_array_start out) chunk tab)
  else if sh_type (shdr chunk) =? SHT_FINI_ARRAY then
    stop (out___fini_array_end out) chunk
      (start (out___fini_array_start out) chunk tab)
  else tab.

(** "_end, end, _etext, etext, _edata and edata": one turn of the loop. *)
Definition fix_end_step (out : OutPointers) (tab : SymbolTable)
    (chunk : OutputChunk) : SymbolTable :=
  if is_header chunk then tab
  else
    let tab :=
      if flag_set (sh_flags (shdr chunk)) SHF_ALLOC
      then stop (out__end out) chunk tab else tab in
    let tab :=
      if flag_set (sh_flags (shdr chunk)) SHF_EXECINSTR
      then stop (out__etext out) chunk tab else tab in
    if negb (sh_type (shdr chunk) =? SHT_NOBITS)
       && flag_set (sh_flags (shdr chunk)) SHF_ALLOC
    then stop (out__edata out) chunk tab else tab.

(** "__start_ and __stop_ symbols": one turn of the loop;
    [Symbol::intern] makes the symbol if there is none of the name yet. *)
Definition fix_start_stop_step `{SymbolDecls} (tab : SymbolTable)
    (chunk : OutputChunk) : SymbolTable :=
  if is_c_identifier (chunk_name chunk) then
    stop (Some ("__stop_" +:+ chunk_name chunk)) chunk
      (start (Some ("__start_" +:+ chunk_name chunk)) chunk tab)
  else tab.

(** [fix_synthetic_symbols(chunks)]: the table after it, or [None] when a
    null pointer is read. *)
Definition fix_synthetic_symbols `{SymbolDecls} (out : OutPointers)
    (chunks : list OutputChunk) (tab : SymbolTable) : option SymbolTable :=
  let tab := fix_bss_start out chunks tab in
  tab ← fix_ehdr_start out chunks tab;
  tab ← start_at (out___rela_iplt_start out) (out_relplt out) tab;
  tab ← stop_at (out___rela_iplt_end out) (out_relplt out) tab;
  let tab := foldl (fix_array_step out) tab chunks in
  let tab := foldl (fix_end_step out) tab chunks in
  let tab :=
    match out_dynamic out with
    | Some dynamic => start (out__DYNAMIC out) dynamic tab
    | None => tab
    end in
  let tab :=
    match out_gotplt out with
    | Some gotplt => start (out__GLOBAL_OFFSET_TABLE_ out) gotplt tab
    | None => tab
    end in
  Some (foldl fix_start_stop_step tab chunks).

(** The symbol pointers of [out], in the order of the record. *)
Definition out_symbol_fields (out : OutPointers) : list (option string) :=
  [ out___bss_start out; out___ehdr_start out; out___rela_iplt_start out;
    out___rela_iplt_end out; out___init_array_start out;
    out___init_array_end out; out___fini_array_start out;
    out___fini_array_end out; out__end out; out__etext out; out__edata out;
    out__DYNAMIC out; out__GLOBAL_OFFSET_TABLE_ out ].

(** No two of the pointers are to the same symbol, and none of the symbols
    has a name of the form __start_<section> or __stop_<section>. *)
Definition distinct_symbols (out : OutPointers) : Prop :=
  ∀ (i j : nat) name,
    out_symbol_fields out !! i = Some (Some name) →
    out_symbol_fields out !! j = Some (Some name) → i = j.

Definition no_section_symbol (out : OutPointers) : Prop :=
  ∀ (i : nat) name,
    out_symbol_fields out !! i = Some (Some name) →
    starts_with name "__start_" = false ∧ starts_with name "__stop_" = false.

(** What [stop] writes for a chunk. *)
Definition stop_addr (chunk : OutputChunk) : SymbolAddr :=
  mkSymbolAddr (shndx chunk) (u64 (sh_addr (shdr chunk) + sh_size (shdr chunk))).

Definition start_addr (chunk : OutputChunk) : SymbolAddr :=
  mkSymbolAddr (shndx chunk) (sh_addr (shdr chunk)).

(** The chunks that move [_end], [_etext] and [_edata]. *)
Definition moves_end (c : OutputChunk) : bool :=
  negb (is_header c) && flag_set (sh_flags (shdr c)) SHF_ALLOC.

Definition moves_etext (c : OutputChunk) : bool :=
  negb (is_header c) && flag_set (sh_flags (shdr c)) SHF_EXECINSTR.

Definition moves_edata (c : OutputChunk) : bool :=
  negb (is_header c) && negb (sh_type (shdr c) =? SHT_NOBITS)
  && flag_set (sh_flags (shdr c)) SHF_ALLOC.

(** The chunks [__bss_start] can be bound to. *)
Definition names_bss (c : OutputChunk) : bool :=
  is_regular c && bool_decide (chunk_name c = ".bss").

(* --------------------------------------------------------------------- *)
(** ** handle_mergeable_strings (main.cc 180-216)                         *)
(* --------------------------------------------------------------------- *)

(** [StringPiece] and [MergeableSection] are declared in mold.h, which is
    not under src/; these are the fields the function names. A pointer is an
    address, and the store gives the object at each address. A piece can be
    in the [pieces] of several sections, and more than once in those of
    one. [msec_priority] is [m->file->priority], and [msec_parent] names the
    [MergedSection] that [m->parent] refers to. *)
Definition PiecePtr := nat.
Definition MsecPtr := nat.

Record StringPiece := mkStringPiece {
  piece_isec : option MsecPtr;    (* null until a section has claimed it *)
  piece_output_offset : Z;        (* -1 until it is set *)
  piece_size : Z
}.

Record MergeableSection := mkMergeableSection {
  msec_priority : Z;
  msec_pieces : list PiecePtr;
  msec_size : Z;
  msec_offset : Z;
  msec_parent : nat
}.

Definition set_piece_isec (v : option MsecPtr) (p : StringPiece) : StringPiece :=
  mkStringPiece v (piece_output_offset p) (piece_size p).

Definition set_piece_output_offset (v : Z) (p : StringPiece) : StringPiece :=
  mkStringPiece (piece_isec p) v (piece_size p).

Definition set_msec_size (v : Z) (m : MergeableSection) : MergeableSection :=
  mkMergeableSection (msec_priority m) (msec_pieces m) v (msec_offset m)
                     (msec_parent m).

Definition set_msec_offset (v : Z) (m : MergeableSection) : MergeableSection :=
  mkMergeableSection (msec_priority m) (msec_pieces m) (msec_size m) v
                     (msec_parent m).

(** The store with the object at [p] replaced. *)
Definition update {T} (store : nat → T) (p : nat) (v : T) : nat → T :=
  λ q, if bool_decide (q = p) then v else store q.

Record StringState := mkStringState {
  st_pieces : PiecePtr → StringPiece;
  st_msecs : MsecPtr → MergeableSection;
  st_parent_size : nat → Z       (* [shdr.sh_size] of each MergedSection *)
}.

(** "Resolve mergeable string pieces": the loop
    [while (!cur || cur->file->priority > m->file->priority)
       if (piece->isec.compare_exchange_weak(cur, m)) break;]
    for one piece of one section. Whatever the other threads do to
    [piece->isec] in between, the loop ends at an exchange that has put [m]
    in the place of a value that called for it, or at a read of a value
    that does not; at that step it has done the following to [piece->isec]
    at once. *)
Definition claim_piece (msecs : MsecPtr → MergeableSection)
    (pieces : PiecePtr → StringPiece) (claim : MsecPtr * PiecePtr)
    : PiecePtr → StringPiece :=
  let '(m, p) := claim in
  let wins :=
    match piece_isec (pieces p) with
    | None => true
    | Some cur => msec_priority (msecs cur) >? msec_priority (msecs m)
    end in
  if wins then update pieces p (set_piece_isec (Some m) (pieces p)) else pieces.

(** The claims the first loop makes: every piece of every section of every
    file, in the order one thread would make them. *)
Definition all_claims (msecs : MsecPtr → MergeableSection)
    (files : list (list MsecPtr)) : list (MsecPtr * PiecePtr) :=
  m ← concat files; p ← msec_pieces (msecs m); [(m, p)].

(** "Calculate the total bytes of mergeable strings for each input
    section": one turn of the inner loop, with the [u32 offset]. *)
Definition assign_piece_offset (m : MsecPtr)
    (st : (PiecePtr → StringPiece) * Z) (p : PiecePtr)
    : (PiecePtr → StringPiece) * Z :=
  let '(pieces, offset) := st in
  if bool_decide (piece_isec (pieces p) = Some m)
     && (piece_output_offset (pieces p) =? -1) then
    (update pieces p (set_piece_output_offset offset (pieces p)),
     u32 (offset + piece_size (pieces p)))
  else (pieces, offset).

(** The body of that loop for one section: [m->size = offset] at its end. *)
Definition assign_offsets
    (st : (PiecePtr → StringPiece) * (MsecPtr → MergeableSection)) (m : MsecPtr)
    : (PiecePtr → StringPiece) * (MsecPtr → MergeableSection) :=
  let '(pieces, msecs) := st in
  let '(pieces, offset) :=
    foldl (assign_piece_offset m) (pieces, 0) (msec_pieces (msecs m)) in
  (pieces, update msecs m (set_msec_size offset (msecs m))).

(** "Assign each mergeable input section a unique index": one turn.
    [m->offset] is declared in mold.h, which is not under src/: it is taken
    to be the [offset] field of [InputChunk], which keeps the low
    [offset_bits] bits of the 64-bit [sh_size] it is given. *)
Definition assign_section_offset `{MoldDecls}
    (st : (MsecPtr → MergeableSection) * (nat → Z)) (m : MsecPtr)
    : (MsecPtr → MergeableSection) * (nat → Z) :=
  let '(msecs, parent_size) := st in
  let parent := msec_parent (msecs m) in
  (update msecs m
     (set_msec_offset (wrap offset_bits (parent_size parent)) (msecs m)),
   update parent_size parent (u64 (parent_size parent + msec_size (msecs m)))).

(** [handle_mergeable_strings]. [files] holds, for each file of
    [out::objs], its [mergeable_sections]. The first loop runs in parallel
    over the files: [schedule] is the order in which the claims take effect.
    In the second loop, also parallel, a piece is written by the section
    that owns it only, so the sections are taken in the order of the
    files. The third loop is sequential. *)
Definition handle_mergeable_strings `{MoldDecls}
    (schedule : list (MsecPtr * PiecePtr))
    (files : list (list MsecPtr)) (st : StringState) : StringState :=
  let pieces := foldl (claim_piece (st_msecs st)) (st_pieces st) schedule in
  let '(pieces, msecs) :=
    foldl assign_offsets (pieces, st_msecs st) (concat files) in
  let '(msecs, parent_size) :=
    foldl assign_section_offset (msecs, st_parent_size st) (concat files) in
  mkStringState pieces msecs parent_size.

(** The bytes the pieces of a section take at most: the sum of the sizes,
    each piece counted as often as the section lists it. *)
Definition pieces_span (pieces : PiecePtr → StringPiece) (ps : list PiecePtr) : Z :=
  foldr (λ p acc, piece_size (pieces p) + acc) 0 ps.

(** Two ranges [[a, a + n)] and [[b, b + k)] that do not overlap. *)
Definition apart (a n b k : Z) : Prop := a + n <= b ∨ b + k <= a.

(** The bytes that the sections of [secs] whose parent is [k] take. *)
Definition sections_span (msecs : MsecPtr → MergeableSection) (k : nat)
    (secs : list MsecPtr) : Z :=
  foldr (λ m acc,
           (if bool_decide (msec_parent (msecs m) = k)
            then msec_size (msecs m) else 0) + acc) 0 secs.

(** The bytes that the sections of [secs] whose parent is [k] take at
    most: all their pieces. *)
Definition strings_span (pieces : PiecePtr → StringPiece)
    (msecs : MsecPtr → MergeableSection) (k : nat) (secs : list MsecPtr) : Z :=
  foldr (λ m acc,
           (if bool_decide (msec_parent (msecs m) = k)
            then pieces_span pieces (msec_pieces (msecs m)) else 0) + acc) 0 secs.

(* --------------------------------------------------------------------- *)
(** ** Concrete inputs                                                    *)
(* --------------------------------------------------------------------- *)

(** A command line with an archive member between two plain object files,
    and one shared library. *)
Definition example_objs : list ObjectFile :=
  [ mkObjectFile 10%nat "crt1.o" false 0 true 1 [] [] [];
    mkObjectFile 11%nat "libc.a(puts.o)" true 0 false 1 [] [] [];
    mkObjectFile 12%nat "main.o" false 0 true 1 [] [] [] ].

Definition example_dsos : list SharedFile :=
  [ mkSharedFile 20%nat "libm.so" "libm.so.6" 0 [] ].

(** Modelled from the spec: [align_to] is declared in mold.h, which is not
    under src/. Sections 4.5 and 4.8: "align up to its addralign", "round
    vaddr up to PAGE_SIZE": the least multiple of [align] that is not below
    [val], as a [u64]. *)
Definition align_up (val align : Z) : Z :=
  u64 ((val + align - 1) / align * align).

(** One reading of the declarations of mold.h, to run the model on: pages
    of 4096 bytes, a 32-bit [InputChunk::offset], and the reserved section indices of the ELF gABI for the
    predicates of [ElfSym] (SHN_UNDEF, SHN_ABS, SHN_COMMON). *)
#[local] Instance example_decls : MoldDecls := {|
  PAGE_SIZE := 4096;
  align_to := align_up;
  offset_bits := 32;
  esym_is_defined := λ esym, negb (st_shndx esym =? 0);
  esym_is_abs := λ esym, st_shndx esym =? 65521;
  esym_is_common := λ esym, st_shndx esym =? 65522;
  file_to_string := λ p, nth p ["a.o"; "b.o"; "c.o"; "libc.so"] "?"
|}.

(** An output environment to run the model on: the output path is a regular
    file whose mapping still holds the bytes [0xee] of an older output, and
    [copy_buf] writes the byte [0xcc] over the extent of its chunk. *)
#[local] Instance example_output : OutputDecls := {|
  path_clean := λ path, path;
  stat_not_regular := λ path, false;
  new_mapping := λ special path filesize perm,
    if filesize <? 0 then Fatal "ftruncate failed"
    else Ok (replicate (Z.to_nat filesize) 238);
  copy_buf := λ chunk buf,
    (memset buf (sh_offset (shdr chunk)) 204 (chunk_filesz chunk), [])
|}.

(** Headers, .text, .data, .bss and .symtab, before the layout. *)
Definition example_chunks : list OutputChunk :=
  [ mkOutputChunk "" HEADER (mkElfShdr 0 0 SHF_ALLOC 0 0 64 0 0 8 0) 0 false;
    mkOutputChunk ".text" REGULAR
      (mkElfShdr 0 1 (SHF_ALLOC + SHF_EXECINSTR) 0 0 100 0 0 16 0) 1 true;
    mkOutputChunk ".data" REGULAR
      (mkElfShdr 0 1 (SHF_ALLOC + SHF_WRITE) 0 0 10 0 0 8 0) 2 true;
    mkOutputChunk ".bss" REGULAR
      (mkElfShdr 0 SHT_NOBITS (SHF_ALLOC + SHF_WRITE) 0 0 32 0 0 16 0) 3 false;
    mkOutputChunk ".symtab" SYNTHETIC (mkElfShdr 0 2 0 0 0 48 0 0 8 0) 4 false ].






(** A stable sort by insertion, for the [sort] helper. *)
Fixpoint insert_sorted {T} (less : T → T → bool) (x : T) (l : list T) : list T :=
  match l with
  | [] => [x]
  | y :: l' => if less x y then x :: l else y :: insert_sorted less x l'
  end.

Definition insertion_sort {T} (less : T → T → bool) (l : list T) : list T :=
  foldr (insert_sorted less) [] l.

(** The hash function of the System V ABI. *)
Definition sysv_hash (s : string) : Z :=
  foldl (λ h c,
           let h := u32 (Z.shiftl h 4 + Z.of_nat (nat_of_ascii c)) in
           let g := Z.land h 4026531840 in
           Z.land (Z.lxor h (Z.shiftr g 24)) (Z.lxor 4294967295 g))
        0 (String.list_ascii_of_string s).

(** One reading of what [fill_symbol_versions] takes from other files, to
    run the model on: [.dynstr] as the strings added so far, a string's
    offset being 1 plus the lengths, with terminators, of those before. *)
Definition strtab_offset (strs : list string) : Z :=
  foldl (λ off s, off + Z.of_nat (String.length s) + 1) 1 strs.

Fixpoint strtab_find (s : string) (before strs : list string) : Z :=
  match strs with
  | [] => -1
  | t :: strs =>
      if bool_decide (s = t) then strtab_offset before
      else strtab_find s (before ++ [t]) strs
  end.

#[local] Instance example_versions : VersionDecls := {|
  elf_hash := sysv_hash;
  DynstrSection := list string;
  add_string := λ s strs, (strtab_offset strs, strs ++ [s]);
  find_string := λ s strs, strtab_find s [] strs;
  sort := @insertion_sort Symbol
|}.

(** Two shared libraries at the addresses 20 and 21, and the dynamic
    symbols of a program that uses them: [main] is not versioned. *)
Definition example_heap : gmap FilePtr SharedFile :=
  {[ 20%nat := mkSharedFile 20%nat "libc.so" "libc.so.6" 4
                 [""; ""; "GLIBC_2.2.5"; "GLIBC_2.34"];
     21%nat := mkSharedFile 21%nat "libm.so" "libm.so.6" 5
                 [""; ""; "GLIBC_2.2.5"] ]}.

Definition example_dynsyms : list Symbol :=
  [ mkSymbol "cos" (Some 21%nat) 2 1;
    mkSymbol "pthread_create" (Some 20%nat) 3 2;
    mkSymbol "main" (Some 10%nat) 1 3;
    mkSymbol "puts" (Some 20%nat) 2 4;
    mkSymbol "printf" (Some 20%nat) 2 5 ].

Definition example_version_state : @VersionState example_versions :=
  mkVersionState example_versions [] [] 0 0 ["libc.so.6"; "libm.so.6"] 0 None None.

(** Three objects that define [foo]: a.o and b.o strongly, c.o weakly; b.o
    also holds a definition of [baz] in a section that was eliminated. *)
Definition dup_isec : InputChunk :=
  mkInputChunk (mkElfShdr 0 1 6 0 0 16 0 0 16 0) 0 0.

Definition dup_a : ObjectFile :=
  mkObjectFile 0%nat "a.o" false 2 true 1
    [ mkElfSym 0 0 0 0 0 0; mkElfSym 1 1 2 1 0 8; mkElfSym 5 1 0 0 0 0;
      mkElfSym 9 1 2 1 8 8 ]
    [ mkSymbol "" None 0 0; mkSymbol "foo" (Some 0%nat) 0 0;
      mkSymbol "bar" (Some 1%nat) 0 0; mkSymbol "baz" (Some 0%nat) 0 0 ]
    [ None; Some dup_isec ].

Definition dup_b : ObjectFile :=
  mkObjectFile 1%nat "b.o" false 3 true 1
    [ mkElfSym 0 0 0 0 0 0; mkElfSym 1 1 2 1 0 8; mkElfSym 5 2 2 1 8 8;
      mkElfSym 9 1 2 2 0 8 ]
    [ mkSymbol "" None 0 0; mkSymbol "foo" (Some 0%nat) 0 0;
      mkSymbol "bar" (Some 1%nat) 0 0; mkSymbol "baz" (Some 0%nat) 0 0 ]
    [ None; Some dup_isec; None ].

Definition dup_c : ObjectFile :=
  mkObjectFile 2%nat "c.o" false 4 true 1
    [ mkElfSym 0 0 0 0 0 0; mkElfSym 1 2 2 1 0 8 ]
    [ mkSymbol "" None 0 0; mkSymbol "foo" (Some 0%nat) 0 0 ]
    [ None; Some dup_isec ].

Definition dup_objs : list ObjectFile := [dup_a; dup_b; dup_c].




Definition dup_text : OutputSection :=
  mkOutputSection ".text" (mkElfShdr 0 1 6 0 0 0 0 0 1 0) 0 [].

(* --------------------------------------------------------------------- *)
(** ** Concrete inputs for the command line and the input files           *)
(* --------------------------------------------------------------------- *)

(** A file that begins as an ELF file of the given [e_type] does, for the
    machine x86-64. *)
Definition elf_file (name : string) (type : byte) (rest : list byte) (mtime : Z)
    : MemoryMappedFile :=
  mkMemoryMappedFile name
    (ELF_MAGIC ++ replicate 12 x00 ++ [type; x00; x3e; x00] ++ rest) mtime.

(** main.o, and what is found under its name, size and time later on. *)
Definition main_o : MemoryMappedFile := elf_file "main.o" x01 [x00; x00] 100.
Definition main_o_later : MemoryMappedFile := elf_file "main.o" x01 [x2a; x2a] 100.

Definition puts_o : MemoryMappedFile := elf_file "puts.o" x01 [] 90.
Definition exit_o : MemoryMappedFile := elf_file "exit.o" x01 [] 91.

Definition libx_a : MemoryMappedFile :=
  mkMemoryMappedFile "libx.a" (AR_MAGIC ++ replicate 60 x20) 100.

Definition liba_so : MemoryMappedFile := elf_file "liba.so" x03 [] 100.
Definition libb_so : MemoryMappedFile := elf_file "libb.so" x03 [] 100.
Definition libc_so : MemoryMappedFile := elf_file "libc.so" x03 [] 100.

(** Response files: one with words and quoted strings, one written by
    [response_text], and two that end inside a quote. *)
Definition args_rsp : MemoryMappedFile :=
  mkMemoryMappedFile "args.rsp"
    (String.list_byte_of_string "-o out  'a b'x 'it" ++ [BACKSLASH]
     ++ String.list_byte_of_string "'s'" ++ [x0a]) 100.

Definition quoted_rsp : MemoryMappedFile :=
  mkMemoryMappedFile "quoted.rsp" (response_text SQUOTE ["a b"; "it's"; "@x"]) 100.

Definition open_rsp : MemoryMappedFile :=
  mkMemoryMappedFile "open.rsp" (String.list_byte_of_string "a 'bc") 100.

Definition slash_rsp : MemoryMappedFile :=
  mkMemoryMappedFile "slash.rsp"
    (String.list_byte_of_string "a 'bc" ++ [BACKSLASH]) 100.

(** Two directories of libraries: an archive in the first, a shared object
    in the second. *)
Definition usr_libm_a : MemoryMappedFile :=
  mkMemoryMappedFile "usr/lib/libm.a" (AR_MAGIC ++ replicate 60 x20) 100.
Definition opt_libm_so : MemoryMappedFile := elf_file "opt/lib/libm.so" x03 [] 100.

Definition example_disk : list MemoryMappedFile :=
  [ args_rsp; quoted_rsp; open_rsp; slash_rsp; main_o; libx_a;
    liba_so; libb_so; libc_so; usr_libm_a; opt_libm_so ].

Definition example_open (path : string) : option MemoryMappedFile :=
  List.find (λ mb, bool_decide (mb_name mb = path)) example_disk.

(** The file under each name, for a name that is on the disk. *)
Definition example_opened (path : string) : MemoryMappedFile :=
  default (mkMemoryMappedFile path [] 0) (example_open path).

(** One reading of the file functions, to run the model on: the files are
    those of [example_disk]. *)
#[local] Instance example_files : FileDecls := {|
  MemoryMappedFile_open := example_open;
  MemoryMappedFile_must_open := λ path,
    match example_open path with
    | Some mb => Ok mb
    | None => Fatal (path +:+ ": cannot open")
    end
|}.

(** One reading of the archive readers: libx.a holds puts.o and exit.o. *)
#[local] Instance example_readers : ReaderDecls := {|
  read_archive_members := λ mb, [];
  read_fat_archive_members := λ mb,
    if bool_decide (mb_name mb = "libx.a") then [puts_o; exit_o] else [];
  read_thin_archive_members := λ mb, [];
  parse_linker_script := λ mb as_needed st, Ok st
|}.

(** One reading of what the option parser leaves open. *)
#[local] Instance example_config : ConfigDecls := {|
  default_config :=
    mkConfig "a.out" "/lib64/ld-linux-x86-64.so.2" false "_start" false false
      false [] (-1) [] "" false false true false false true (-1) false false
      false "" [] false [] 2097152;
  max_allowed_parallelism := 8;
  filler_of_u64 := λ v, v;
  thread_count_of_u64 := λ v, v
|}.

Definition empty_read_state : ReadState := mkReadState ∅ [] [].

(** Shared objects on a command line that names libc twice. *)
Definition example_named_dsos : list SharedFile :=
  [ mkSharedFile 20%nat "libc.so" "libc.so.6" 0 [];
    mkSharedFile 21%nat "libm.so" "libm.so.6" 0 [];
    mkSharedFile 22%nat "/usr/lib/libc.so" "libc.so.6" 0 [] ].

(* --------------------------------------------------------------------- *)
(** ** Concrete inputs for the synthetic symbols                          *)
(* --------------------------------------------------------------------- *)

Definition is_alpha_ (c : ascii) : bool :=
  let n := nat_of_ascii c in
  ((65 <=? n) && (n <=? 90) || (97 <=? n) && (n <=? 122) || (n =? 95))%nat.

Definition is_alnum_ (c : ascii) : bool :=
  let n := nat_of_ascii c in
  (is_alpha_ c || (48 <=? n) && (n <=? 57))%nat.

(** One reading of [is_c_identifier]: a letter or underscore, then letters,
    digits and underscores. *)
#[local] Instance example_symbols : SymbolDecls := {|
  is_c_identifier := λ name,
    match name with
    | EmptyString => false
    | String c rest =>
        is_alpha_ c && forallb is_alnum_ (String.list_ascii_of_string rest)
    end
|}.

(** The chunks of [example_chunks] after the layout and the numbering of
    the sections, with a section of the user's at the end. *)
Definition example_laid : list OutputChunk :=
  [ mkOutputChunk "" HEADER (mkElfShdr 0 0 SHF_ALLOC 2097152 0 64 0 0 8 0) 0 false;
    mkOutputChunk ".text" REGULAR
      (mkElfShdr 0 1 (SHF_ALLOC + SHF_EXECINSTR) 2101248 4096 100 0 0 16 0) 1 true;
    mkOutputChunk ".data" REGULAR
      (mkElfShdr 0 1 (SHF_ALLOC + SHF_WRITE) 2105344 8192 10 0 0 8 0) 2 true;
    mkOutputChunk ".bss" REGULAR
      (mkElfShdr 0 SHT_NOBITS (SHF_ALLOC + SHF_WRITE) 2105360 8208 32 0 0 16 0)
      3 false;
    mkOutputChunk "my_notes" REGULAR (mkElfShdr 0 1 0 0 8240 7 0 0 1 0) 4 false;
    mkOutputChunk ".symtab" SYNTHETIC (mkElfShdr 0 2 0 0 8248 48 0 0 8 0) 5 false ].

(** The symbols and chunks of [out]: no .rela.plt, no .dynamic. *)
Definition example_out : OutPointers :=
  mkOutPointers (Some "__bss_start") (Some "__ehdr_start") None None
    (Some "__init_array_start") (Some "__init_array_end")
    (Some "__fini_array_start") (Some "__fini_array_end")
    (Some "_end") (Some "_etext") (Some "_edata")
    (Some "_DYNAMIC") (Some "_GLOBAL_OFFSET_TABLE_")
    (Some (mkOutputChunk "" HEADER (mkElfShdr 0 0 SHF_ALLOC 2097152 0 64 0 0 8 0)
             0 false))
    None None None.

(** [out] without the ELF header. *)
Definition example_out_no_ehdr : OutPointers :=
  mkOutPointers (Some "__bss_start") (Some "__ehdr_start") None None
    None None None None (Some "_end") None None None None None None None None.

(** The symbols before the function runs: [main], and [_end] unset. *)
Definition example_symtab : SymbolTable :=
  {[ "main" := mkSymbolAddr 1 2101248; "_end" := mkSymbolAddr 0 0 ]}.

(* --------------------------------------------------------------------- *)
(** ** Concrete inputs for the mergeable strings                          *)
(* --------------------------------------------------------------------- *)

(** Two files with one mergeable section each, at the addresses 0 and 1,
    of the parents 7 and 7; the second file comes first on the command
    line. The sections share the piece at the address 1, and the first
    lists the piece 0 twice. The piece at the address [p] has [p + 3]
    bytes. *)
Definition example_strings : StringState :=
  mkStringState
    (λ p, mkStringPiece None (-1) (Z.of_nat p + 3))
    (λ m, match m with
          | O => mkMergeableSection 2 [0; 1; 0]%nat 0 0 7
          | _ => mkMergeableSection 1 [1; 2]%nat 0 0 7
          end)
    (λ k, 16).

Definition example_string_files : list (list MsecPtr) := [[1%nat]; [0%nat]].

(** The claims in the order the threads happen to make them. *)
Definition example_schedule : list (MsecPtr * PiecePtr) :=
  [ (0, 0); (1, 1); (0, 1); (1, 2); (0, 0) ]%nat.

Definition example_strings_done : StringState :=
  handle_mergeable_strings example_schedule example_string_files example_strings.
(* ===================================================================== *)
(** * Part II: theorems                                                   *)
(* ===================================================================== *)

Lemma b2z_range b : 0 <= Z.b2z b <= 1.
Proof. destruct b; simpl; lia. Qed.

(** The five one-bit fields do not overlap, so the bitwise-or is a sum. *)
Lemma get_section_rank_sum shdr :
  get_section_rank shdr =
    32 * Z.b2z (negb (flag_set (sh_flags shdr) SHF_ALLOC))
    + 16 * Z.b2z (flag_set (sh_flags shdr) SHF_WRITE)
    + 8 * Z.b2z (flag_set (sh_flags shdr) SHF_EXECINSTR)
    + 4 * Z.b2z (negb (flag_set (sh_flags shdr) SHF_TLS))
    + Z.b2z (sh_type shdr =? SHT_NOBITS).
Proof.
  unfold get_section_rank.
  destruct (flag_set _ SHF_ALLOC), (flag_set _ SHF_WRITE),
    (flag_set _ SHF_EXECINSTR), (flag_set _ SHF_TLS),
    (sh_type shdr =? SHT_NOBITS); reflexivity.
Qed.



Lemma section_class_rank_interval shdr c :
  section_class shdr = Some c →
  class_rank_lo c <= get_section_rank shdr <= class_rank_hi c.
Proof.
  rewrite get_section_rank_sum. unfold section_class.
  destruct (flag_set _ SHF_ALLOC), (flag_set _ SHF_WRITE),
    (flag_set _ SHF_EXECINSTR), (flag_set _ SHF_TLS),
    (sh_type shdr =? SHT_NOBITS); simpl; intros [= <-]; simpl; lia.
Qed.

Lemma class_intervals_increase c1 c2 :
  class_index c1 < class_index c2 → class_rank_hi c1 < class_rank_lo c2.
Proof. destruct c1, c2; simpl; lia. Qed.

Lemma get_section_rank_bits shdr :
  0 <= get_section_rank shdr < 64
  ∧ Z.testbit (get_section_rank shdr) 5 = negb (flag_set (sh_flags shdr) SHF_ALLOC)
  ∧ Z.testbit (get_section_rank shdr) 4 = flag_set (sh_flags shdr) SHF_WRITE
  ∧ Z.testbit (get_section_rank shdr) 3 = flag_set (sh_flags shdr) SHF_EXECINSTR
  ∧ Z.testbit (get_section_rank shdr) 2 = negb (flag_set (sh_flags shdr) SHF_TLS)
  ∧ Z.testbit (get_section_rank shdr) 1 = false
  ∧ Z.testbit (get_section_rank shdr) 0 = (sh_type shdr =? SHT_NOBITS).
Proof.
  unfold get_section_rank.
  destruct (flag_set _ SHF_ALLOC), (flag_set _ SHF_WRITE),
    (flag_set _ SHF_EXECINSTR), (flag_set _ SHF_TLS),
    (sh_type shdr =? SHT_NOBITS); vm_compute; intuition congruence.
Qed.

(** C6. [get_section_rank] is the 6-bit key whose bit 5 is not-alloc, bit 4
    writable, bit 3 exec, bit 2 not-tls and bit 0 nobits (bit 1 is never
    set); of two headers in different classes of the list read-only data,
    read-only code, tdata, tbss, data, bss, non-alloc, the one in the earlier
    class has the strictly smaller rank; and in a chunk list sorted by that
    key no chunk of a later class stands before a chunk of an earlier one. *)
Theorem get_section_rank_orders_classes :
  (∀ shdr,
      0 <= get_section_rank shdr < 64
      ∧ Z.testbit (get_section_rank shdr) 5 = negb (flag_set (sh_flags shdr) SHF_ALLOC)
      ∧ Z.testbit (get_section_rank shdr) 4 = flag_set (sh_flags shdr) SHF_WRITE
      ∧ Z.testbit (get_section_rank shdr) 3 = flag_set (sh_flags shdr) SHF_EXECINSTR
      ∧ Z.testbit (get_section_rank shdr) 2 = negb (flag_set (sh_flags shdr) SHF_TLS)
      ∧ Z.testbit (get_section_rank shdr) 1 = false
      ∧ Z.testbit (get_section_rank shdr) 0 = (sh_type shdr =? SHT_NOBITS))
  ∧ (∀ a b ca cb,
        section_class a = Some ca → section_class b = Some cb →
        class_index ca < class_index cb →
        get_section_rank a < get_section_rank b)
  ∧ (∀ (chunks : list OutputChunk) (i j : nat) x y cx cy,
        sorted_by_rank chunks → (i < j)%nat →
        chunks !! i = Some x → chunks !! j = Some y →
        section_class (shdr x) = Some cx → section_class (shdr y) = Some cy →
        class_index cx <= class_index cy).
Proof.
  split; [exact get_section_rank_bits|]. split.
  - intros a b ca cb Ha Hb Hlt.
    pose proof (section_class_rank_interval _ _ Ha).
    pose proof (section_class_rank_interval _ _ Hb).
    pose proof (class_intervals_increase _ _ Hlt). lia.
  - intros chunks i j x y cx cy Hs Hij Hi Hj Hx Hy.
    destruct (Z_lt_le_dec (class_index cy) (class_index cx)) as [Hlt|]; [|done].
    exfalso.
    assert (Hr : rank_less y x = false).
    { revert i j Hij Hi Hj. induction Hs as [|c l Hs IH Hall]; intros i j Hij Hi Hj.
      - by rewrite lookup_nil in Hi.
      - destruct i as [|i]; simpl in Hi.
        + injection Hi as ->. destruct j as [|j]; [lia|]. simpl in Hj.
          rewrite Forall_forall in Hall. apply Hall.
          apply list_elem_of_lookup. eauto.
        + destruct j as [|j]; [lia|]. simpl in Hj. apply (IH i j); [lia|done..]. }
    unfold rank_less in Hr. apply Z.ltb_ge in Hr.
    pose proof (section_class_rank_interval _ _ Hx).
    pose proof (section_class_rank_interval _ _ Hy).
    pose proof (class_intervals_increase _ _ Hlt). lia.
Qed.

Lemma get_section_rank_orders_classes_witness :
  section_class (mkElfShdr 0 1 SHF_ALLOC 0 0 16 0 0 8 0) = Some AllocReadonlyData
  ∧ section_class (mkElfShdr 0 1 (SHF_ALLOC + SHF_EXECINSTR) 0 0 16 0 0 16 0)
    = Some AllocReadonlyCode
  ∧ get_section_rank (mkElfShdr 0 1 SHF_ALLOC 0 0 16 0 0 8 0)
    < get_section_rank (mkElfShdr 0 1 (SHF_ALLOC + SHF_EXECINSTR) 0 0 16 0 0 16 0).
Proof.
  split; [reflexivity|]. split; [reflexivity|].
  apply (proj1 (proj2 get_section_rank_orders_classes) _ _
           AllocReadonlyData AllocReadonlyCode); [reflexivity..|simpl; lia].
Defined.

(* --------------------------------------------------------------------- *)
(** ** Arithmetic of wrap-around and alignment                            *)
(* --------------------------------------------------------------------- *)

Lemma u64_small x : 0 <= x < 2 ^ 64 → u64 x = x.
Proof. intros. unfold u64, wrap. by apply Z.mod_small. Qed.

Lemma u32_small x : 0 <= x < 2 ^ 32 → u32 x = x.
Proof. intros. unfold u32, wrap. by apply Z.mod_small. Qed.

Lemma u16_small x : 0 <= x < 2 ^ 16 → u16 x = x.
Proof. intros. unfold u16, wrap. by apply Z.mod_small. Qed.

Lemma is_pow2_pos w a : is_pow2 w a → 0 < a.
Proof. intros (k & Hk & ->). apply Z.pow_pos_nonneg; lia. Qed.


Lemma is_pow2_mono w w' a : w <= w' → is_pow2 w a → is_pow2 w' a.
Proof. intros Hle (k & Hk & ->). exists k. split; [lia|done]. Qed.

(** A positive divisor of a power of two is a power of two. *)
Lemma pow2_divisor p a :
  0 <= p → 0 < a → (a | 2 ^ p) → ∃ k, 0 <= k <= p ∧ a = 2 ^ k.
Proof.
  intros Hp. revert a. pattern p. apply natlike_ind; [| |done]; clear p Hp.
  - intros a Ha Hd. exists 0. split; [lia|].
    apply Z.divide_1_r_nonneg in Hd; lia.
  - intros p Hp IH a Ha Hd. rewrite Z.pow_succ_r in Hd by done.
    destruct (Z.even a) eqn:Ev.
    + apply Z.even_spec in Ev as [a' ->].
      apply Z.mul_divide_cancel_l in Hd; [|lia].
      destruct (IH a') as (k & Hk & ->); [lia|done|].
      exists (Z.succ k). split; [lia|]. by rewrite Z.pow_succ_r by lia.
    + assert (Hodd : Z.odd a = true) by (by rewrite <- Z.negb_even, Ev).
      apply Z.odd_spec in Hodd as [a' ->].
      apply Z.gauss in Hd.
      * destruct (IH (2 * a' + 1)) as (k & Hk & Heq); [lia|done|].
        exists k. split; [lia|done].
      * apply Z.bezout_1_gcd. exists 1, (- a'). lia.
Qed.

Lemma pow2_divisor_is_pow2 w P a :
  is_pow2 w P → 0 <= a → (a | P) → is_pow2 w a.
Proof.
  intros (p & Hp & ->) Ha Hd.
  assert (0 < a).
  { destruct (Z.eq_dec a 0) as [->|]; [|lia].
    apply Z.divide_0_l in Hd. pose proof (Z.pow_pos_nonneg 2 p). lia. }
  destruct (pow2_divisor p a) as (k & Hk & ->); [lia|done|done|].
  exists k. split; [lia|done].
Qed.

(** The multiple of [a] in [[v, v + a)] is unique. *)
Lemma aligned_unique a v r :
  0 < a → (a | r) → v <= r < v + a → r = v + (- v) mod a.
Proof.
  intros Ha [k ->] Hr.
  pose proof (Z.mod_pos_bound (- v) a Ha) as Hm.
  pose proof (Z.div_mod (- v) a ltac:(lia)) as Hdm.
  assert (k = - ((- v) / a)) by nia.
  subst k. lia.
Qed.

Section AlignTo.
Context `{MoldDecls}.
Hypothesis Hal : align_to_rounds_up.

Lemma align_to_eq w val align :
  is_pow2 w align → w <= 64 → 0 <= val → val + align <= 2 ^ 64 →
  align_to val align = val + (- val) mod align.
Proof.
  intros Hp Hw Hv Hfit.
  destruct (Hal val align) as [Hr Hd]; [by eapply is_pow2_mono|done..|].
  apply aligned_unique; [by eapply is_pow2_pos|done..].
Qed.

Lemma align_to_bounds w val align :
  is_pow2 w align → w <= 64 → 0 <= val → val + align <= 2 ^ 64 →
  val <= align_to val align < val + align.
Proof.
  intros Hp Hw Hv Hfit. by destruct (Hal val align); [by eapply is_pow2_mono|..].
Qed.


(** Aligning to a divisor of [P] keeps two offsets congruent modulo [P]. *)
Lemma align_to_congruent w P a f v :
  is_pow2 w a → w <= 64 → (a | P) → 0 < P →
  0 <= f → 0 <= v → f + a <= 2 ^ 64 → v + a <= 2 ^ 64 →
  f mod P = v mod P →
  align_to f a mod P = align_to v a mod P.
Proof.
  intros Hp Hw [q HP] HPpos Hf Hv Hff Hvf Hcong.
  rewrite (align_to_eq w f a), (align_to_eq w v a) by done.
  assert (Ha : 0 < a) by by eapply is_pow2_pos.
  assert (Hfa : f mod a = v mod a).
  { rewrite <- (Z.mod_mod_divide f P a), <- (Z.mod_mod_divide v P a) by by exists q.
    by rewrite Hcong. }
  assert (Hneg : (- f) mod a = (- v) mod a).
  { rewrite <- (Z.sub_0_l f), <- (Z.sub_0_l v).
    rewrite (Zminus_mod 0 f), (Zminus_mod 0 v). by rewrite Hfa. }
  rewrite Hneg. rewrite (Z.add_mod f), (Z.add_mod v) by lia. by rewrite Hcong.
Qed.
End AlignTo.

(* --------------------------------------------------------------------- *)
(** ** Input classification                                               *)
(* --------------------------------------------------------------------- *)

Lemma memcmp_eq_spec mb magic :
  memcmp_eq mb magic = true ↔ take (length magic) (mb_data mb) = magic.
Proof. unfold memcmp_eq. apply bool_decide_eq_true. Qed.

(** The first byte of the ELF magic, DEL, is not printable. *)
Lemma elf_magic_not_text mb :
  memcmp_eq mb ELF_MAGIC = true → is_text_file mb = false.
Proof.
  rewrite memcmp_eq_spec. unfold is_text_file, data_at, ELF_MAGIC. simpl.
  destruct (mb_data mb) as [|b0 l]; simpl; [discriminate|].
  intros [= -> _]. simpl. by rewrite andb_false_r.
Qed.

Lemma ar_magic_not_elf mb :
  memcmp_eq mb AR_MAGIC = true → memcmp_eq mb ELF_MAGIC = false.
Proof.
  rewrite memcmp_eq_spec. intros Har.
  apply bool_decide_eq_false. intros Helf.
  unfold AR_MAGIC, ELF_MAGIC in *. simpl in *.
  destruct (mb_data mb) as [|b0 l]; simpl in *; [discriminate|]. congruence.
Qed.

Lemma thin_magic_not_elf mb :
  memcmp_eq mb THIN_AR_MAGIC = true → memcmp_eq mb ELF_MAGIC = false.
Proof.
  rewrite memcmp_eq_spec. intros Har.
  apply bool_decide_eq_false. intros Helf.
  unfold THIN_AR_MAGIC, ELF_MAGIC in *. simpl in *.
  destruct (mb_data mb) as [|b0 l]; simpl in *; [discriminate|]. congruence.
Qed.

Lemma thin_magic_not_ar mb :
  memcmp_eq mb THIN_AR_MAGIC = true → memcmp_eq mb AR_MAGIC = false.
Proof.
  rewrite memcmp_eq_spec. intros Har.
  apply bool_decide_eq_false. intros Helf.
  unfold THIN_AR_MAGIC, AR_MAGIC in *. simpl in *.
  rewrite Helf in Har. discriminate.
Qed.

(** A blob that starts with an [n]-byte magic has at least [n] bytes. *)
Lemma memcmp_eq_size mb magic :
  memcmp_eq mb magic = true → Z.of_nat (length magic) <= mb_size mb.
Proof.
  rewrite memcmp_eq_spec. intros Heq. unfold mb_size.
  apply (f_equal length) in Heq. rewrite length_take in Heq. lia.
Qed.


(** C7. [get_file_type] answers OBJ exactly for a blob of at least 20 bytes
    that starts with the ELF magic and has [e_type] ET_REL, DSO exactly for
    the same with ET_DYN, AR and THIN_AR exactly for a blob that starts with
    the respective 8-byte magic, TEXT exactly when none of these four holds
    and the first four bytes exist and are printable, and UNKNOWN exactly in
    every other case; for an UNKNOWN blob [read_file] fails fatally with the
    unknown-file-type message, whatever the preload mode and the state. *)
Theorem get_file_type_classifies `{ReaderDecls} (mb : MemoryMappedFile) :
  let obj := starts_with_elf_object mb ET_REL in
  let dso := starts_with_elf_object mb ET_DYN in
  let ar := take 8 (mb_data mb) = AR_MAGIC in
  let thin := take 8 (mb_data mb) = THIN_AR_MAGIC in
  let text := 4 <= mb_size mb ∧
              isprint (data_at mb 0) = true ∧ isprint (data_at mb 1) = true ∧
              isprint (data_at mb 2) = true ∧ isprint (data_at mb 3) = true in
  (get_file_type mb = OBJ ↔ obj)
  ∧ (get_file_type mb = DSO ↔ dso)
  ∧ (get_file_type mb = AR ↔ ar)
  ∧ (get_file_type mb = THIN_AR ↔ thin)
  ∧ (get_file_type mb = TEXT ↔ ¬ obj ∧ ¬ dso ∧ ¬ ar ∧ ¬ thin ∧ text)
  ∧ (get_file_type mb = UNKNOWN ↔ ¬ obj ∧ ¬ dso ∧ ¬ ar ∧ ¬ thin ∧ ¬ text)
  ∧ (get_file_type mb = UNKNOWN →
     ∀ preloading as_needed st,
       read_file preloading mb as_needed st
       = Fatal (mb_name mb +:+ ": unknown file type")).
Proof.
  intros obj dso ar thin text.
  assert (Hobj : obj ↔ (20 <=? mb_size mb) && memcmp_eq mb ELF_MAGIC = true
                        ∧ e_type mb = ET_REL).
  { unfold obj, starts_with_elf_object.
    rewrite andb_true_iff, Z.leb_le, memcmp_eq_spec. simpl. tauto. }
  assert (Hdso : dso ↔ (20 <=? mb_size mb) && memcmp_eq mb ELF_MAGIC = true
                        ∧ e_type mb = ET_DYN).
  { unfold dso, starts_with_elf_object.
    rewrite andb_true_iff, Z.leb_le, memcmp_eq_spec. simpl. tauto. }
  assert (Har : ar ↔ (8 <=? mb_size mb) && memcmp_eq mb AR_MAGIC = true).
  { unfold ar. rewrite andb_true_iff, Z.leb_le. split.
    - intros Heq. apply (memcmp_eq_spec mb AR_MAGIC) in Heq.
      split; [|done]. by apply memcmp_eq_size in Heq.
    - intros [_ Heq]. by apply memcmp_eq_spec in Heq. }
  assert (Hthin : thin ↔ (8 <=? mb_size mb) && memcmp_eq mb THIN_AR_MAGIC = true).
  { unfold thin. rewrite andb_true_iff, Z.leb_le. split.
    - intros Heq. apply (memcmp_eq_spec mb THIN_AR_MAGIC) in Heq.
      split; [|done]. by apply memcmp_eq_size in Heq.
    - intros [_ Heq]. by apply memcmp_eq_spec in Heq. }
  assert (Htext : text ↔ is_text_file mb = true).
  { unfold text, is_text_file. rewrite !andb_true_iff, Z.leb_le. tauto. }
  assert (Hrd : ET_REL ≠ ET_DYN) by discriminate.
  assert (Helf_text : (20 <=? mb_size mb) && memcmp_eq mb ELF_MAGIC = true →
                      is_text_file mb = false).
  { rewrite andb_true_iff. intros [_ ?]. by apply elf_magic_not_text. }
  assert (Har_elf : (8 <=? mb_size mb) && memcmp_eq mb AR_MAGIC = true →
                    (20 <=? mb_size mb) && memcmp_eq mb ELF_MAGIC = false).
  { rewrite andb_true_iff. intros [_ ?]. rewrite ar_magic_not_elf by done.
    apply andb_false_r. }
  assert (Hthin_elf : (8 <=? mb_size mb) && memcmp_eq mb THIN_AR_MAGIC = true →
                      (20 <=? mb_size mb) && memcmp_eq mb ELF_MAGIC = false).
  { rewrite andb_true_iff. intros [_ ?]. rewrite thin_magic_not_elf by done.
    apply andb_false_r. }
  assert (Hthin_ar : (8 <=? mb_size mb) && memcmp_eq mb THIN_AR_MAGIC = true →
                     (8 <=? mb_size mb) && memcmp_eq mb AR_MAGIC = false).
  { rewrite andb_true_iff. intros [_ ?]. rewrite thin_magic_not_ar by done.
    apply andb_false_r. }
  rewrite Hobj, Hdso, Har, Hthin, Htext.
  split_and!; try (unfold read_file; intros ->; done);
    unfold get_file_type;
    destruct ((20 <=? mb_size mb) && memcmp_eq mb ELF_MAGIC) eqn:E1;
    [ specialize (Helf_text eq_refl) | | specialize (Helf_text eq_refl) |
    | specialize (Helf_text eq_refl) | | specialize (Helf_text eq_refl) |
    | specialize (Helf_text eq_refl) | | specialize (Helf_text eq_refl) | ];
    destruct (Z.eqb_spec (e_type mb) ET_REL);
    destruct (Z.eqb_spec (e_type mb) ET_DYN);
    destruct ((8 <=? mb_size mb) && memcmp_eq mb AR_MAGIC) eqn:E2;
    destruct ((8 <=? mb_size mb) && memcmp_eq mb THIN_AR_MAGIC) eqn:E3;
    destruct (is_text_file mb) eqn:E4;
    try (specialize (Har_elf eq_refl)); try (specialize (Hthin_elf eq_refl));
    try (specialize (Hthin_ar eq_refl));
    try congruence; intuition congruence.
Qed.

(* --------------------------------------------------------------------- *)
(** ** get_input_files                                                    *)
(* --------------------------------------------------------------------- *)

(** The loop test [args.empty()] is false for a non-empty span: the body
    is never entered. *)
Lemma get_input_files_loop_nonempty fuel args vec library_paths :
  args ≠ [] →
  get_input_files_loop (S fuel) args vec library_paths = Ok vec.
Proof.
  intros Hne. simpl. by rewrite bool_decide_eq_false_2.
Qed.

(** With no argument at all the body is entered and reads [args[0]] of an
    empty span. *)
Lemma get_input_files_empty fuel :
  get_input_files (S fuel) [] = OutOfBounds.
Proof. reflexivity. Qed.

(** C9. For every non-empty argument list [get_input_files] returns the
    empty vector: the loop test fails at once, whatever the arguments are,
    and [vec] is returned as it was initialised. *)
Theorem get_input_files_returns_empty (fuel : nat) (args : list string) :
  args ≠ [] → get_input_files (S fuel) args = Ok [].
Proof.
  intros Hne. unfold get_input_files.
  by apply get_input_files_loop_nonempty.
Qed.

Lemma get_input_files_returns_empty_witness :
  get_input_files 1 ["-o"; "a.out"; "-L"; "/usr/lib"; "main.o"; "-lc"] = Ok [].
Proof.
  apply (get_input_files_returns_empty 0). discriminate.
Defined.

(* --------------------------------------------------------------------- *)
(** ** split                                                              *)
(* --------------------------------------------------------------------- *)

Lemma int_to_size_t_nonneg unit :
  0 <= unit < 2 ^ 64 → int_to_size_t unit = unit.
Proof. intros. unfold int_to_size_t, u64, wrap. by apply Z.mod_small. Qed.

Lemma int_to_size_t_neg unit :
  - 2 ^ 64 <= unit < 0 → int_to_size_t unit = 2 ^ 64 + unit.
Proof.
  intros. unfold int_to_size_t, u64, wrap.
  symmetry. apply (Z.mod_unique_pos _ _ (-1)); lia.
Qed.

Lemma int_to_size_t_pos unit :
  is_int unit → unit ≠ 0 → 0 < int_to_size_t unit.
Proof.
  unfold is_int, INT_MIN, INT_MAX. intros Hint Hne.
  destruct (Z_lt_le_dec unit 0).
  - rewrite int_to_size_t_neg by lia. lia.
  - rewrite int_to_size_t_nonneg by lia. lia.
Qed.

(** With a unit of zero every turn of the loop leaves the span as it was. *)
Lemma split_loop_zero {T} fuel unit (span : list T) vec :
  int_to_size_t unit = 0 → split_loop fuel unit span vec = OutOfFuel.
Proof.
  intros Hz. revert span vec.
  induction fuel as [|fuel IH]; intros span vec; simpl; [done|].
  rewrite Hz. destruct (Z.leb_spec 0 (Z.of_nat (length span))); [|lia].
  apply IH.
Qed.

(** With any other unit every turn shortens the span, and the loop ends
    with full-size pieces and a shorter rest. *)
Lemma split_loop_progress {T} fuel unit (span : list T) vec :
  0 < int_to_size_t unit → (length span < fuel)%nat →
  ∃ vec' rest,
    split_loop fuel unit span vec = Ok (vec ++ vec', rest)
    ∧ concat vec' ++ rest = span
    ∧ Forall (λ s, Z.of_nat (length s) = int_to_size_t unit) vec'
    ∧ Z.of_nat (length rest) < int_to_size_t unit.
Proof.
  intros Hpos. revert span vec.
  induction fuel as [|fuel IH]; intros span vec Hlen; [lia|]. simpl.
  destruct (Z.leb_spec (int_to_size_t unit) (Z.of_nat (length span))) as [Hle|Hgt].
  - set (n := Z.to_nat (int_to_size_t unit)).
    destruct (IH (subspan span n) (vec ++ [take n span])) as (vec' & rest & Heq & Hcat & Hall & Hrest).
    { unfold subspan. rewrite length_drop. lia. }
    exists (take n span :: vec'), rest. split_and!.
    + rewrite Heq. by rewrite <- app_assoc.
    + simpl. rewrite <- app_assoc, Hcat. apply take_drop.
    + constructor; [|done]. rewrite length_take. lia.
    + done.
  - exists [], span. rewrite app_nil_r. split_and!; [done|done|constructor|done].
Qed.


Lemma split_nonzero_returns {T} (input : list T) unit :
  0 < int_to_size_t unit → input ≠ [] →
  ∃ spans init last,
    (∀ fuel, (length input < fuel)%nat → split fuel input unit = Ok spans)
    ∧ concat spans = input
    ∧ spans = init ++ [last]
    ∧ Forall (λ s, Z.of_nat (length s) = int_to_size_t unit) init
    ∧ 1 <= Z.of_nat (length last) <= int_to_size_t unit.
Proof.
  intros Hpos Hne.
  destruct (split_loop_progress (S (length input)) unit input [] Hpos)
    as (vec' & rest & Heq & Hcat & Hall & Hrest); [lia|].
  assert (Hrun : ∀ fuel, (length input < fuel)%nat →
                  split_loop fuel unit input [] = Ok (vec', rest)).
  { intros fuel Hf.
    destruct (split_loop_progress fuel unit input [] Hpos Hf)
      as (v2 & r2 & Heq2 & Hcat2 & Hall2 & Hrest2).
    rewrite Heq2. simpl.
    assert (Hmono : ∀ f1 f2 (s : list T) v r, (f1 <= f2)%nat →
              split_loop f1 unit s v = Ok r → split_loop f2 unit s v = Ok r).
    { clear. induction f1 as [|f1 IH]; intros f2 s v r Hle; simpl; [done|].
      destruct f2 as [|f2]; [lia|]. simpl.
      destruct (int_to_size_t unit <=? Z.of_nat (length s)); [|done].
      apply IH. lia. }
    destruct (Nat.le_ge_cases fuel (S (length input))) as [Hc|Hc].
    - pose proof (Hmono _ _ _ _ _ Hc Heq2) as E. rewrite E in Heq. by injection Heq as <- <-.
    - pose proof (Hmono _ _ _ _ _ Hc Heq) as E. rewrite E in Heq2. simpl in *. by injection Heq2 as <- <-. }
  assert (Hin : (0 < length input)%nat) by (destruct input; simpl; [done|lia]).
  destruct rest as [|r rest].
  - (* the pieces take the whole input: the last piece is a full one *)
    rewrite app_nil_r in Hcat.
    destruct (exists_last (l := vec')) as (init & last & ->).
    { intros ->. simpl in Hcat. by subst. }
    exists (init ++ [last]), init, last.
    apply Forall_app in Hall as [Hinit Hlast]. inversion_clear Hlast as [|? ? Hl _].
    split_and!; [|done|done|done|lia|lia].
    intros fuel Hf. unfold split. rewrite bool_decide_eq_true_2 by done.
    by rewrite (Hrun fuel Hf).
  - exists (vec' ++ [r :: rest]), vec', (r :: rest).
    split_and!; [|by rewrite concat_app; simpl; rewrite app_nil_r|done|done|simpl in *; lia..].
    intros fuel Hf. unfold split. rewrite bool_decide_eq_true_2 by done.
    by rewrite (Hrun fuel Hf).
Qed.

Lemma split_zero_diverges {T} fuel (input : list T) unit :
  int_to_size_t unit = 0 → input ≠ [] → split fuel input unit = OutOfFuel.
Proof.
  intros Hz Hne. unfold split.
  rewrite bool_decide_eq_true_2 by (destruct input; simpl; [done|lia]).
  by rewrite split_loop_zero.
Qed.

Lemma split_empty_asserts {T} fuel unit :
  split fuel (@nil T) unit = AssertionFailed.
Proof. reflexivity. Qed.

Lemma bin_sections_unit_empty : bin_sections_unit [] = 0.
Proof. reflexivity. Qed.

(** C10, as amended. [split] ends for every input vector precisely when
    [unit] is not zero. For [unit >= 1] and a non-empty input it returns
    spans whose concatenation is the input, all of length [unit] except
    the last, whose length is between 1 and [unit]. For a negative [unit]
    the comparison with [size()] reads it as a huge unsigned number, the
    loop body is not entered and an input shorter than that number comes
    back as one span. For [unit = 0], which [bin_sections] computes for an
    empty list of object files, the loop makes no progress and a non-empty
    input never returns, while an empty input fails the assertion. *)
Theorem split_terminates_iff_unit_nonzero {T} (x : T) (unit : Z) :
  is_int unit →
  ((∀ input : list T, split_terminates input unit) ↔ unit ≠ 0)
  ∧ (1 <= unit →
     ∀ input : list T, input ≠ [] →
     ∃ spans init last,
       (∀ fuel, (length input < fuel)%nat → split fuel input unit = Ok spans)
       ∧ concat spans = input
       ∧ spans = init ++ [last]
       ∧ Forall (λ s, Z.of_nat (length s) = unit) init
       ∧ 1 <= Z.of_nat (length last) <= unit)
  ∧ (unit < 0 →
     ∀ (input : list T) fuel, input ≠ [] → Z.of_nat (length input) < 2 ^ 64 + unit →
     split (S fuel) input unit = Ok [input])
  ∧ (unit = 0 →
     (∀ (input : list T) fuel, input ≠ [] → split fuel input unit = OutOfFuel)
     ∧ (∀ fuel, split fuel (@nil T) unit = AssertionFailed)
     ∧ bin_sections_unit [] = unit).
Proof.
  intros Hint. split_and!.
  - split.
    + intros Hall ->. destruct (Hall [x]) as [fuel Hf]. apply Hf.
      by apply split_zero_diverges.
    + intros Hne input. destruct input as [|y input].
      * exists O. by rewrite split_empty_asserts.
      * destruct (split_nonzero_returns (y :: input) unit) as (spans & _ & _ & Hrun & _);
          [by apply int_to_size_t_pos|done|].
        exists (S (length (y :: input))). rewrite Hrun by lia. done.
  - intros Hpos input Hne.
    assert (Hu : int_to_size_t unit = unit).
    { apply int_to_size_t_nonneg. unfold is_int, INT_MAX in Hint. lia. }
    destruct (split_nonzero_returns input unit) as (spans & init & last & H); [lia|done|].
    rewrite Hu in H. eauto.
  - intros Hneg input fuel Hne Hlen. unfold split.
    rewrite bool_decide_eq_true_2 by (destruct input; simpl; [done|lia]).
    simpl. rewrite int_to_size_t_neg by (unfold is_int, INT_MIN in Hint; lia).
    destruct (Z.leb_spec (2 ^ 64 + unit) (Z.of_nat (length input))); [lia|].
    simpl. by rewrite bool_decide_eq_false_2.
  - intros ->. split_and!.
    + intros. by apply split_zero_diverges.
    + intros. apply split_empty_asserts.
    + reflexivity.
Qed.

Lemma split_terminates_iff_unit_nonzero_witness :
  split 4 [1; 2; 3] 2 = Ok [[1; 2]; [3]]
  ∧ ∃ spans init last,
      (∀ fuel, (length ([1; 2; 3]%Z : list Z) < fuel)%nat →
                split fuel [1; 2; 3] 2 = Ok spans)
      ∧ concat spans = [1; 2; 3]
      ∧ spans = init ++ [last]
      ∧ Forall (λ s, Z.of_nat (length s) = 2) init
      ∧ 1 <= Z.of_nat (length last) <= 2.
Proof.
  split; [reflexivity|].
  apply (proj1 (proj2 (split_terminates_iff_unit_nonzero 0 2
                         ltac:(unfold is_int, INT_MIN, INT_MAX; lia))));
    [lia|discriminate].
Defined.

(** The claim as it was written fails for a negative unit: [split] ends for
    every input with [unit = -1], which is not [>= 1]; the one-element input
    comes back whole. *)
Lemma split_negative_unit_terminates :
  (∀ input : list Z, split_terminates input (-1))
  ∧ split 1 [7] (-1) = Ok [[7]]
  ∧ is_int (-1)
  ∧ ¬ (1 <= -1).
Proof.
  split_and!; [|reflexivity|unfold is_int, INT_MIN, INT_MAX; lia|lia].
  apply (proj1 (split_terminates_iff_unit_nonzero 0 (-1)
                  ltac:(unfold is_int, INT_MIN, INT_MAX; lia))).
  lia.
Qed.

(* --------------------------------------------------------------------- *)
(** ** check_duplicate_symbols                                            *)
(* --------------------------------------------------------------------- *)

Section Duplicates.
Context `{MoldDecls}.









End Duplicates.

(* --------------------------------------------------------------------- *)
(** ** File priorities                                                    *)
(* --------------------------------------------------------------------- *)




Lemma selected_negb b f : selected (negb b) f = negb (selected b f).
Proof. unfold selected. by destruct (is_in_archive f), b. Qed.

Lemma assign_obj_priorities_spec b p objs :
  let r := assign_obj_priorities b p objs in
  Forall2 same_obj_but_priority r.1 objs
  ∧ r.2 = p + Z.of_nat (length (List.filter (selected b) objs))
  ∧ map obj_priority (List.filter (selected b) r.1)
    = seqZ p (Z.of_nat (length (List.filter (selected b) objs)))
  ∧ List.filter (selected (negb b)) r.1 = List.filter (selected (negb b)) objs.
Proof.
  revert p. induction objs as [|f objs IH]; intros p; simpl.
  - split_and!; [constructor|lia|done|done].
  - change (Bool.eqb (is_in_archive f) b) with (selected b f).
    rewrite (selected_negb b f).
    destruct (selected b f) eqn:E.
    + specialize (IH (p + 1)). destruct (assign_obj_priorities b (p + 1) objs) as [objs' p'].
      simpl in *. destruct IH as (IH1 & IH2 & IH3 & IH4).
      change (selected b (set_obj_priority p f)) with (selected b f).
      change (selected (negb b) (set_obj_priority p f)) with (selected (negb b) f).
      rewrite (selected_negb b f), E. simpl.
      split_and!.
      * constructor; [|done]. by destruct f.
      * lia.
      * rewrite IH3, Nat2Z.inj_succ, (seqZ_cons p) by lia.
        replace (Z.succ p) with (p + 1) by lia. by rewrite Z.pred_succ.
      * done.
    + specialize (IH p). destruct (assign_obj_priorities b p objs) as [objs' p'].
      simpl in *. destruct IH as (IH1 & IH2 & IH3 & IH4).
      rewrite (selected_negb b f), E. simpl.
      split_and!; [|done|done|by f_equal].
      constructor; [|done]. by destruct f.
Qed.

Lemma assign_dso_priorities_spec p dsos :
  let r := assign_dso_priorities p dsos in
  Forall2 same_dso_but_priority r.1 dsos
  ∧ map dso_priority r.1 = seqZ p (Z.of_nat (length dsos)).
Proof.
  revert p. induction dsos as [|f dsos IH]; intros p; simpl.
  - split; [constructor|done].
  - specialize (IH (p + 1)). destruct (assign_dso_priorities (p + 1) dsos) as [dsos' p'].
    simpl in *. destruct IH as [IH1 IH2]. split.
    + constructor; [|done]. by destruct f.
    + rewrite IH2, Nat2Z.inj_succ, (seqZ_cons p) by lia.
      replace (Z.succ p) with (p + 1) by lia. by rewrite Z.pred_succ.
Qed.

Lemma same_obj_but_priority_archive f' f :
  same_obj_but_priority f' f → is_in_archive f' = is_in_archive f.
Proof. intros ->. done. Qed.

Lemma Forall2_same_obj_trans l1 l2 l3 :
  Forall2 same_obj_but_priority l1 l2 → Forall2 same_obj_but_priority l2 l3 →
  Forall2 same_obj_but_priority l1 l3.
Proof.
  intros H12. revert l3. induction H12 as [|a b l1 l2 Hab _ IH]; intros l3 H23.
  - inversion H23. constructor.
  - inversion H23 as [|? c ? l3' Hbc H23']; subst. constructor; [|by apply IH].
    unfold same_obj_but_priority in *. rewrite Hab at 1. rewrite Hbc. by destruct c.
Qed.

Lemma filter_selected_same b l1 l2 :
  Forall2 same_obj_but_priority l1 l2 →
  length (List.filter (selected b) l1) = length (List.filter (selected b) l2).
Proof.
  induction 1 as [|a c l1 l2 Hac _ IH]; simpl; [done|].
  assert (selected b a = selected b c) as ->.
  { unfold selected. by rewrite (same_obj_but_priority_archive _ _ Hac). }
  destruct (selected b c); simpl; lia.
Qed.

Lemma elem_of_seqZ_range x m n : x ∈ seqZ m n → m <= x < m + n.
Proof. rewrite elem_of_seqZ. lia. Qed.

(** C8. The priorities given out before symbol resolution are consecutive
    from 2: first the object files outside archives in list order, then the
    archive members in list order, then the shared files in list order.
    Nothing else of a file changes and the lists keep their order. So every
    object file outside an archive has a strictly smaller priority than
    every archive member, which has a strictly smaller one than every
    shared file, and none has the priority 1 of the internal file. *)
Theorem set_priorities_consecutive (objs : list ObjectFile) (dsos : list SharedFile) :
  2 + Z.of_nat (length objs) + Z.of_nat (length dsos) <= INT_MAX →
  let objs' := (set_priorities objs dsos).1 in
  let dsos' := (set_priorities objs dsos).2 in
  let n1 := Z.of_nat (length (List.filter (λ f, negb (is_in_archive f)) objs)) in
  let n2 := Z.of_nat (length (List.filter is_in_archive objs)) in
  Forall2 same_obj_but_priority objs' objs
  ∧ Forall2 same_dso_but_priority dsos' dsos
  ∧ map obj_priority (List.filter (λ f, negb (is_in_archive f)) objs') = seqZ 2 n1
  ∧ map obj_priority (List.filter is_in_archive objs') = seqZ (2 + n1) n2
  ∧ map dso_priority dsos' = seqZ (2 + n1 + n2) (Z.of_nat (length dsos))
  ∧ (∀ f g d, f ∈ objs' → g ∈ objs' → d ∈ dsos' →
       is_in_archive f = false → is_in_archive g = true →
       1 < obj_priority f < obj_priority g ∧ obj_priority g < dso_priority d).
Proof.
  intros _ objs' dsos' n1 n2.
  assert (Hsel_f : ∀ l, List.filter (λ f, negb (is_in_archive f)) l = List.filter (selected false) l).
  { intros l. apply filter_ext. intros f. unfold selected. by destruct (is_in_archive f). }
  assert (Hsel_t : ∀ l, List.filter is_in_archive l = List.filter (selected true) l).
  { intros l. apply filter_ext. intros f. unfold selected. by destruct (is_in_archive f). }
  unfold n1, n2, objs', dsos', set_priorities. rewrite !Hsel_f, !Hsel_t.
  pose proof (assign_obj_priorities_spec false 2 objs) as H1.
  destruct (assign_obj_priorities false 2 objs) as [objs1 p1]. simpl in H1.
  destruct H1 as (A1 & A2 & A3 & A4).
  pose proof (assign_obj_priorities_spec true p1 objs1) as H2.
  destruct (assign_obj_priorities true p1 objs1) as [objs2 p2]. simpl in H2.
  destruct H2 as (B1 & B2 & B3 & B4).
  pose proof (assign_dso_priorities_spec p2 dsos) as H3.
  destruct (assign_dso_priorities p2 dsos) as [dsos3 p3]. simpl in H3.
  destruct H3 as (C1 & C2). simpl.
  rewrite (filter_selected_same true _ _ A1) in B2, B3.
  assert (D1 : map obj_priority (List.filter (selected false) objs2)
               = seqZ 2 (Z.of_nat (length (List.filter (selected false) objs)))).
  { by rewrite B4. }
  assert (D2 : map obj_priority (List.filter (selected true) objs2)
               = seqZ (2 + Z.of_nat (length (List.filter (selected false) objs)))
                      (Z.of_nat (length (List.filter (selected true) objs)))).
  { rewrite B3. by rewrite A2. }
  assert (D3 : map dso_priority dsos3
               = seqZ (2 + Z.of_nat (length (List.filter (selected false) objs))
                       + Z.of_nat (length (List.filter (selected true) objs)))
                      (Z.of_nat (length dsos))).
  { rewrite C2, B2, A2. done. }
  split_and!; [by eapply Forall2_same_obj_trans|done|done|done|done|].
  intros f g d Hf Hg Hd Hfa Hga.
  assert (Ef : obj_priority f ∈ map obj_priority (List.filter (selected false) objs2)).
  { apply list_elem_of_fmap_2, list_elem_of_In, filter_In. split; [by apply list_elem_of_In|].
    unfold selected. by rewrite Hfa. }
  assert (Eg : obj_priority g ∈ map obj_priority (List.filter (selected true) objs2)).
  { apply list_elem_of_fmap_2, list_elem_of_In, filter_In. split; [by apply list_elem_of_In|].
    unfold selected. by rewrite Hga. }
  assert (Ed : dso_priority d ∈ map dso_priority dsos3) by by apply list_elem_of_fmap_2.
  rewrite D1 in Ef. rewrite D2 in Eg. rewrite D3 in Ed.
  apply elem_of_seqZ_range in Ef, Eg, Ed. lia.
Qed.

Lemma set_priorities_consecutive_witness :
  map obj_priority (set_priorities example_objs example_dsos).1 = [2; 4; 3]
  ∧ map dso_priority (set_priorities example_objs example_dsos).2 = [5]
  ∧ map obj_priority
      (List.filter is_in_archive (set_priorities example_objs example_dsos).1)
    = seqZ (2 + 2) 1.
Proof.
  split; [reflexivity|]. split; [reflexivity|].
  apply (set_priorities_consecutive example_objs example_dsos).
  vm_compute. discriminate.
Defined.

(* --------------------------------------------------------------------- *)
(** ** set_isec_offsets                                                   *)
(* --------------------------------------------------------------------- *)











Section Isec.
Context `{MoldDecls}.
Hypothesis Hal : align_to_rounds_up.
Hypothesis Hw : 0 < offset_bits <= 64.






End Isec.





(** *** An offset field narrower than 64 bits *)





Section Narrow.
Context `{H : MoldDecls}.
Hypothesis Hw : 0 <= offset_bits <= 64.







End Narrow.





(* --------------------------------------------------------------------- *)
(** ** set_osec_offsets                                                   *)
(* --------------------------------------------------------------------- *)


Lemma mod_replace_residue P f m :
  0 < P → 0 <= m < P → (f - f mod P + m) mod P = m.
Proof.
  intros HP Hm. pose proof (Z.div_mod f P ltac:(lia)) as Hdm.
  symmetry. apply (Z.mod_unique_pos _ _ (f / P)); lia.
Qed.


Section Layout.
Context `{MoldDecls}.
Hypothesis Hal : align_to_rounds_up.
Hypothesis Hpage : is_pow2 64 PAGE_SIZE.

Lemma set_osec_offsets_step_spec B f v c :
  0 <= f <= B → 0 <= v <= B → chunk_layout_ok c →
  B + PAGE_SIZE + sh_addralign (shdr c) + sh_size (shdr c) <= 2 ^ 64 →
  ∃ c' f' v',
    set_osec_offsets_step (f, v) c = (c', (f', v'))
    ∧ step_result B f v c c' f' v'.
Proof.
  intros Hf Hv (Hs & Ha0 & Hdiv) Hfit.
  pose proof (is_pow2_pos _ _ Hpage) as HP.
  pose proof (pow2_divisor_is_pow2 _ _ _ Hpage Ha0 Hdiv) as Hpa.
  pose proof (is_pow2_pos _ _ Hpa) as Ha.
  unfold set_osec_offsets_step, step_result.
  set (a := sh_addralign (shdr c)) in *. set (s := sh_size (shdr c)) in *.
  set (P := PAGE_SIZE) in *.
  set (v1 := if starts_new_ptload c then align_to v P else v).
  assert (Hv1 : v <= v1 < v + P).
  { unfold v1. destruct (starts_new_ptload c); [|lia].
    apply (align_to_bounds Hal 64); [done|lia|lia|lia]. }
  pose proof (Z.mod_pos_bound v1 P HP) as Hv1m.
  pose proof (Z.mod_pos_bound f P HP) as Hfm.
  set (f1 := if v1 mod P >? f mod P
             then u64 (f + u64 (v1 mod P - f mod P))
             else if v1 mod P <? f mod P
                  then u64 (align_to f P + v1 mod P) else f).
  assert (Hf1 : f <= f1 < f + P ∧ f1 mod P = v1 mod P).
  { unfold f1. destruct (Z.gtb_spec (v1 mod P) (f mod P)) as [Hgt|Hle].
    - rewrite (u64_small (v1 mod P - f mod P)) by lia.
      rewrite u64_small by lia. split; [lia|].
      replace (f + (v1 mod P - f mod P)) with (f - f mod P + v1 mod P) by lia.
      by apply mod_replace_residue.
    - destruct (Z.ltb_spec (v1 mod P) (f mod P)) as [Hlt|Hge].
      + rewrite (align_to_eq Hal 64 f P) by (done || lia).
        rewrite Z.mod_opp_l_nz by lia.
        rewrite u64_small by lia. split; [lia|].
        replace (f + (P - f mod P) + v1 mod P) with ((f - f mod P + v1 mod P) + 1 * P) by lia.
        rewrite Z.mod_add by lia. by apply mod_replace_residue.
      + split; lia. }
  destruct Hf1 as [Hf1 Hcong].
  set (f2 := align_to f1 a). set (v2 := align_to v1 a).
  assert (Hf2 : f1 <= f2 < f1 + a).
  { apply (align_to_bounds Hal 64); [done|lia|lia|lia]. }
  assert (Hv2 : v1 <= v2 < v1 + a).
  { apply (align_to_bounds Hal 64); [done|lia|lia|lia]. }
  assert (Hcong2 : f2 mod P = v2 mod P).
  { apply (align_to_congruent Hal 64); [done|lia|done|lia..|done]. }
  eexists _, _, _. split; [reflexivity|].
  unfold chunk_is_alloc, chunk_filesz, chunk_memsz. simpl.
  fold a s.
  destruct (flag_set (sh_flags (shdr c)) SHF_ALLOC) eqn:Ealloc; simpl;
    destruct (sh_type (shdr c) =? SHT_NOBITS) eqn:Ebss; simpl;
    destruct (flag_set (sh_flags (shdr c)) SHF_TLS) eqn:Etls; simpl;
    fold a s v1 f1 f2 v2;
    rewrite ?u64_small by lia;
    (split_and!; [reflexivity|lia|lia|lia|by symmetry|lia|lia..]).
Qed.


Lemma relaid_same c' c :
  relaid c' c →
  chunk_filesz c' = chunk_filesz c ∧ chunk_memsz c' = chunk_memsz c
  ∧ chunk_is_alloc c' = chunk_is_alloc c.
Proof. intros [-> _]. done. Qed.

Lemma step_result_relaid B f v c c' f' v' :
  step_result B f v c c' f' v' → relaid c' c.
Proof.
  intros (Hc & _). unfold relaid.
  assert (Haddr : sh_addr (shdr c') =
            if chunk_is_alloc c
            then align_to (if starts_new_ptload c then align_to v PAGE_SIZE else v)
                          (sh_addralign (shdr c))
            else sh_addr (shdr c)).
  { rewrite Hc. by destruct (chunk_is_alloc c). }
  split.
  - rewrite Haddr. etrans; [exact Hc|]. by destruct (chunk_is_alloc c).
  - intros Ha. by rewrite Haddr, Ha.
Qed.

Lemma step_result_addr B f v c c' f' v' :
  step_result B f v c c' f' v' → chunk_is_alloc c = true →
  v <= sh_addr (shdr c')
  ∧ sh_addr (shdr c') mod PAGE_SIZE = sh_offset (shdr c') mod PAGE_SIZE
  ∧ v' = sh_addr (shdr c') + chunk_memsz c.
Proof.
  intros (Hc & _ & _ & Hv & Hm & Hv' & _) Ha. rewrite Ha in Hc.
  assert (Haddr : sh_addr (shdr c') =
                  align_to (if starts_new_ptload c then align_to v PAGE_SIZE else v)
                           (sh_addralign (shdr c))) by by rewrite Hc.
  by rewrite Haddr.
Qed.

Lemma set_osec_offsets_loop_cons st c chunks :
  set_osec_offsets_loop st (c :: chunks) =
    let '(c', st') := set_osec_offsets_step st c in
    let '(out, st'') := set_osec_offsets_loop st' chunks in
    (c' :: out, st'').
Proof. reflexivity. Qed.


Lemma set_osec_offsets_loop_spec chunks B f v :
  0 <= f <= B → 0 <= v <= B → Forall chunk_layout_ok chunks →
  B + layout_span chunks <= 2 ^ 64 →
  ∃ out f' v',
    set_osec_offsets_loop (f, v) chunks = (out, (f', v'))
    ∧ Forall2 relaid out chunks
    ∧ f <= f' <= B + layout_span chunks ∧ v <= v' <= B + layout_span chunks
    ∧ laid_out f v f' v' out.
Proof.
  revert B f v. induction chunks as [|c chunks IH]; intros B f v Hf Hv Hok Hfit.
  - exists [], f, v. simpl. split_and!; [done|constructor|lia..|].
    split_and!; [constructor|constructor|constructor|done].
  - inversion_clear Hok as [|? ? Hc Hrest]. simpl in Hfit.
    assert (Hspan : 0 <= layout_span chunks).
    { clear -Hrest Hpage. induction Hrest as [|c' l (? & ? & ?) _ IH']; simpl; [lia|].
      pose proof (is_pow2_pos _ _ Hpage). lia. }
    destruct (set_osec_offsets_step_spec B f v c) as (c' & f1 & v1 & Hstep & Hres);
      [done|done|done|lia|].
    pose proof Hres as (_ & Hfo & Hf1 & _ & _ & _ & Hf1B & Hv1B).
    destruct (IH (B + PAGE_SIZE + sh_addralign (shdr c) + sh_size (shdr c)) f1 v1)
      as (out & f' & v' & Hloop & Hrel & Hff & Hvv & Hall & Hs1 & Hs2 & Hlast);
      [done|done|done|lia|].
    pose proof (step_result_relaid _ _ _ _ _ _ _ Hres) as Hrl.
    destruct (relaid_same _ _ Hrl) as (Efs & Ems & Eal).
    assert (Hfs : 0 <= chunk_filesz c).
    { destruct Hc as (? & _). unfold chunk_filesz. destruct (_ =? _); lia. }
    assert (Hms : 0 <= chunk_memsz c).
    { destruct Hc as (? & _). unfold chunk_memsz. destruct (_ && _); lia. }
    assert (Hend : chunk_file_end c' = f1).
    { unfold chunk_file_end. rewrite Efs. lia. }
    assert (Hv1 : v <= v1).
    { destruct Hres as (_ & _ & _ & ? & _ & ? & _). lia. }
    assert (Hsp : layout_span (c :: chunks) =
              PAGE_SIZE + sh_addralign (shdr c) + sh_size (shdr c) + layout_span chunks)
      by reflexivity.
    exists (c' :: out), f', v'. rewrite set_osec_offsets_loop_cons, Hstep, Hloop.
    split_and!; [done|by constructor|lia..|].
    split_and!.
    + constructor.
      * split_and!; [lia|lia|]. rewrite Eal. intros Ha.
        destruct (step_result_addr _ _ _ _ _ _ _ Hres Ha) as (? & ? & ?).
        rewrite Ems. split_and!; [lia|lia|done].
      * eapply Forall_impl; [exact Hall|]. simpl. intros x (? & ? & Hx).
        split_and!; [lia|lia|]. intros Ha. destruct (Hx Ha) as (? & ? & ?).
        destruct Hres as (_ & _ & _ & ? & _ & ? & _).
        split_and!; [lia|lia|done].
    + constructor; [done|]. eapply Forall_impl; [exact Hall|].
      simpl. intros x (? & _). lia.
    + constructor; [done|]. eapply Forall_impl; [exact Hall|].
      simpl. intros x (_ & _ & Hx) Ha Hxa. rewrite Eal in Ha.
      destruct (step_result_addr _ _ _ _ _ _ _ Hres Ha) as (? & ? & ?).
      destruct (Hx Hxa) as (? & _). rewrite Ems. lia.
    + destruct out as [|o out]; [simpl in *; lia|].
      rewrite Hlast, last_cons_cons.
      destruct (last (o :: out)) as [x|] eqn:El; [done|].
      by apply last_None in El.
Qed.
End Layout.

(* --------------------------------------------------------------------- *)
(** ** The output buffer                                                  *)
(* --------------------------------------------------------------------- *)

Lemma length_memset buf pos val n : length (memset buf pos val n) = length buf.
Proof. apply length_imap. Qed.

Lemma lookup_memset buf pos val n i :
  memset buf pos val n !! i =
    (λ b, if (pos <=? Z.of_nat i) && (Z.of_nat i <? pos + n) then u8 val else b)
      <$> buf !! i.
Proof. apply list_lookup_imap. Qed.

(** A whole-buffer [memset] leaves nothing of the old content. *)
Lemma memset_all buf val :
  memset buf 0 val (Z.of_nat (length buf)) = replicate (length buf) (u8 val).
Proof.
  apply list_eq. intros i. rewrite lookup_memset.
  destruct (buf !! i) as [b|] eqn:E; simpl.
  - apply lookup_lt_Some in E as Hlt.
    destruct (Z.leb_spec 0 (Z.of_nat i)); [|lia].
    destruct (Z.ltb_spec (Z.of_nat i) (0 + Z.of_nat (length buf))); [|lia].
    simpl. symmetry. by apply lookup_replicate.
  - apply lookup_ge_None in E. symmetry. apply lookup_ge_None.
    by rewrite length_replicate.
Qed.

Lemma chunk_filesz_nonneg c : 0 <= sh_size (shdr c) → 0 <= chunk_filesz c.
Proof. unfold chunk_filesz. destruct (_ =? _); lia. Qed.

Lemma length_zero c next buf : length (zero c next buf) = length buf.
Proof. apply length_memset. Qed.

(** [zero] clears the bytes from the chunk's logical end up to
    [next_start], and only those. *)
Lemma lookup_zero c next buf i :
  0 <= sh_offset (shdr c) → 0 <= sh_size (shdr c) →
  chunk_file_end c <= next → next < 2 ^ 64 →
  zero c next buf !! i =
    (λ b, if (chunk_file_end c <=? Z.of_nat i) && (Z.of_nat i <? next) then 0 else b)
      <$> buf !! i.
Proof.
  intros Ho Hs Hend Hnext. unfold zero. rewrite lookup_memset.
  assert (Hpos : (if negb (sh_type (shdr c) =? SHT_NOBITS)
                  then u64 (sh_offset (shdr c) + sh_size (shdr c))
                  else sh_offset (shdr c)) = chunk_file_end c).
  { unfold chunk_file_end, chunk_filesz in *.
    destruct (sh_type (shdr c) =? SHT_NOBITS); simpl; [lia|].
    apply u64_small. lia. }
  rewrite Hpos.
  pose proof (chunk_filesz_nonneg c Hs).
  rewrite (u64_small (next - chunk_file_end c)) by (unfold chunk_file_end in *; lia).
  replace (chunk_file_end c + (next - chunk_file_end c)) with next by lia.
  done.
Qed.

Lemma chunks_in_order_end c rest filesize :
  chunks_in_order (c :: rest) filesize → chunk_file_end c <= filesize.
Proof.
  revert c. induction rest as [|d rest IH]; intros c (Ho & Hs & Hnext & Hrest).
  - done.
  - specialize (IH d Hrest). destruct Hrest as (Hdo & Hds & _).
    pose proof (chunk_filesz_nonneg d Hds). unfold chunk_file_end in *. lia.
Qed.

Lemma clear_padding_cons_cons prev next rest filesize buf :
  clear_padding (prev :: next :: rest) filesize buf =
  clear_padding (next :: rest) filesize (zero prev (sh_offset (shdr next)) buf).
Proof. unfold clear_padding. by rewrite last_cons_cons. Qed.

Lemma clear_padding_spec chunks filesize buf :
  chunks ≠ [] → chunks_in_order chunks filesize → filesize < 2 ^ 64 →
  ∃ buf',
    clear_padding chunks filesize buf = Ok buf'
    ∧ length buf' = length buf
    ∧ ∀ i, buf' !! i =
           (λ b, if in_padding chunks filesize (Z.of_nat i) then 0 else b) <$> buf !! i.
Proof.
  intros Hne. revert buf. induction chunks as [|c chunks IH]; intros buf Hord Hfs; [done|].
  destruct chunks as [|d chunks].
  - destruct Hord as (Ho & Hs & Hend & _).
    exists (zero c filesize buf). split_and!; [done|apply length_zero|].
    intros i. by rewrite lookup_zero.
  - rewrite clear_padding_cons_cons.
    pose proof Hord as (Ho & Hs & Hend & Hrest).
    pose proof (chunks_in_order_end _ _ _ Hrest) as Hd.
    pose proof Hrest as (Hdo & Hds & _).
    pose proof (chunk_filesz_nonneg d Hds).
    destruct (IH ltac:(done) (zero c (sh_offset (shdr d)) buf) Hrest Hfs)
      as (buf' & Heq & Hlen & Hlook).
    exists buf'. split_and!; [done|by rewrite Hlen, length_zero|].
    intros i. rewrite Hlook, lookup_zero by (unfold chunk_file_end in *; lia).
    destruct (buf !! i) as [b|]; [|done]. simpl. f_equal.
    change (in_padding (c :: d :: chunks) filesize (Z.of_nat i))
      with (((chunk_file_end c <=? Z.of_nat i) && (Z.of_nat i <? sh_offset (shdr d)))
            || in_padding (d :: chunks) filesize (Z.of_nat i)).
    destruct ((chunk_file_end c <=? Z.of_nat i) && (Z.of_nat i <? sh_offset (shdr d)));
      simpl; [|done].
    by repeat case_match.
Qed.

Section Output.
Context `{OutputDecls}.
Hypothesis Hsized : output_decls_sized.

Lemma OutputFile_open_spec chroot filler path filesize perm file :
  OutputFile_open chroot filler path filesize perm = Ok file →
  of_filesize file = filesize
  ∧ Z.of_nat (length (of_buf file)) = filesize
  ∧ (filler ≠ -1 →
     of_buf file = replicate (Z.to_nat filesize) (u8 filler)).
Proof.
  unfold OutputFile_open.
  set (path' := if _ && _ then _ else path).
  set (special := if bool_decide (path' = "-") then true else stat_not_regular path').
  destruct (new_mapping special path' filesize perm) as [buf| | | | |] eqn:Emap;
    simpl; try discriminate.
  intros [= <-]. simpl.
  destruct Hsized as [Hmap _]. apply Hmap in Emap.
  split_and!; [done| |].
  - destruct (bool_decide (filler ≠ -1)); [by rewrite length_memset|done].
  - intros Hf. rewrite bool_decide_eq_true_2 by done.
    rewrite <- Emap, memset_all. by rewrite Nat2Z.id.
Qed.

Lemma copy_chunks_length chunks buf buf' :
  copy_chunks chunks buf = Ok buf' → length buf' = length buf.
Proof.
  unfold copy_chunks.
  assert (Hfold : ∀ chunks buf log,
    length (foldl (λ '(buf, log) chunk,
                     let '(buf, errs) := copy_buf chunk buf in (buf, log ++ errs))
                  (buf, log) chunks).1 = length buf).
  { clear -Hsized. induction chunks as [|c chunks IH]; intros buf log; simpl; [done|].
    destruct Hsized as [_ Hcopy]. specialize (Hcopy c buf).
    destruct (copy_buf c buf) as [buf1 errs]. simpl in Hcopy.
    by rewrite IH. }
  specialize (Hfold chunks buf []).
  destruct (foldl _ _ chunks) as [buf1 log]. simpl in Hfold.
  destruct log; simpl; [|discriminate]. by intros [= <-].
Qed.
End Output.

(* --------------------------------------------------------------------- *)
(** ** From the layout to the padded image                                *)
(* --------------------------------------------------------------------- *)

Lemma chunks_in_order_of_sorted out filesize :
  Forall (λ c, 0 <= sh_offset (shdr c) ∧ 0 <= sh_size (shdr c)
               ∧ chunk_file_end c <= filesize) out →
  StronglySorted (λ a b, chunk_file_end a <= sh_offset (shdr b)) out →
  chunks_in_order out filesize.
Proof.
  induction 1 as [|c rest (Ho & Hs & He) Hall IH]; intros Hsorted; simpl; [done|].
  inversion_clear Hsorted as [|? ? Hrest Hhd].
  split_and!; [done|done| |by apply IH].
  destruct rest as [|d rest]; [done|]. by inversion_clear Hhd.
Qed.

Section Emit.
Context `{MoldDecls} `{OutputDecls}.
Hypothesis Hal : align_to_rounds_up.
Hypothesis Hpage : is_pow2 64 PAGE_SIZE.

Lemma set_osec_offsets_spec image_base chunks :
  0 <= image_base → Forall chunk_layout_ok chunks →
  image_base + layout_span chunks < 2 ^ 64 →
  ∃ out filesize v',
    set_osec_offsets image_base chunks = (out, filesize)
    ∧ set_osec_offsets_loop (0, image_base) chunks = (out, (filesize, v'))
    ∧ Forall2 relaid out chunks
    ∧ 0 <= filesize < 2 ^ 64
    ∧ laid_out 0 image_base filesize v' out.
Proof.
  intros Hib Hok Hfit.
  destruct (set_osec_offsets_loop_spec Hal Hpage chunks image_base 0 image_base)
    as (out & f' & v' & Hloop & Hrel & Hf & Hv & Hlaid); [lia|lia|done|lia|].
  exists out, f', v'. unfold set_osec_offsets. rewrite Hloop.
  split_and!; [done|done|done|lia|lia|done].
Qed.

Lemma laid_out_in_order image_base chunks out filesize v' :
  Forall chunk_layout_ok chunks → Forall2 relaid out chunks →
  laid_out 0 image_base filesize v' out →
  chunks_in_order out filesize.
Proof.
  intros Hok Hrel (Hall & Hsorted & _ & _).
  apply chunks_in_order_of_sorted; [|done].
  assert (Hsz : Forall (λ c, 0 <= sh_size (shdr c)) out).
  { clear -Hok Hrel. induction Hrel as [|c' c out chunks [Hc _] _ IH]; [constructor|].
    inversion_clear Hok as [|? ? (Hs & _) Hrest]. constructor; [|by apply IH].
    rewrite Hc. done. }
  clear -Hall Hsz. induction Hall as [|c out (? & ? & _) _ IH]; [constructor|].
  inversion_clear Hsz. constructor; [|by apply IH]. split_and!; [lia|done|done].
Qed.

Lemma emit_image_spec image_base chroot filler output perm chunks file :
  output_decls_sized →
  0 <= image_base → Forall chunk_layout_ok chunks →
  image_base + layout_span chunks < 2 ^ 64 →
  emit_image image_base chroot filler output perm chunks = Ok file →
  of_filesize file = (set_osec_offsets image_base chunks).2
  ∧ Z.of_nat (length (of_buf file)) = (set_osec_offsets image_base chunks).2
  ∧ ∀ i : nat,
      (i < length (of_buf file))%nat →
      in_padding (set_osec_offsets image_base chunks).1
                 (set_osec_offsets image_base chunks).2 (Z.of_nat i) = true →
      of_buf file !! i = Some 0.
Proof.
  intros Hsized Hib Hok Hfit. unfold emit_image.
  destruct (set_osec_offsets_spec image_base chunks Hib Hok Hfit)
    as (out & filesize & v' & Hset & _ & Hrel & Hfs & Hlaid).
  rewrite Hset. simpl.
  destruct (OutputFile_open chroot filler output filesize perm)
    as [opened| | | | |] eqn:Eopen; simpl; try discriminate.
  destruct (OutputFile_open_spec Hsized _ _ _ _ _ _ Eopen) as (Hofs & Hlen & _).
  destruct (copy_chunks out (of_buf opened)) as [copied| | | | |] eqn:Ecopy;
    simpl; try discriminate.
  pose proof (copy_chunks_length Hsized _ _ _ Ecopy) as Hclen.
  destruct (decide (out = [])) as [->|Hne]; [simpl; discriminate|].
  destruct (clear_padding_spec out filesize copied)
    as (padded & Hpad & Hplen & Hlook);
    [done|by eapply laid_out_in_order|lia|].
  rewrite Hpad. simpl. intros [= <-]. simpl.
  split_and!; [done|lia|].
  intros i Hi Hin. rewrite Hlook, Hin.
  destruct (copied !! i) as [b|] eqn:E; [done|].
  apply lookup_ge_None in E. lia.
Qed.
End Emit.


(** C3. [clear_padding(filesize)], run on a buffer of [filesize] bytes
    over chunks laid out in order, returns the buffer with exactly the
    padding cleared: a byte is zero if it lies between the logical end of a
    chunk ([sh_offset + sh_size], or [sh_offset] for SHT_NOBITS) and the
    [sh_offset] of the next chunk, or between the logical end of the last
    chunk and [filesize]; every other byte is as [copy_buf] left it. With a
    filler configured [OutputFile::open] hands out a buffer that holds the
    filler byte everywhere, before any chunk is copied; and whatever the
    filler is, in the image [main] ends with every padding byte is zero. *)
Theorem clear_padding_zeroes_gaps `{MoldDecls} `{OutputDecls}
    (chunks : list OutputChunk) (filesize : Z) (buf : list Z) :
  chunks ≠ [] → chunks_in_order chunks filesize → filesize < 2 ^ 64 →
  Z.of_nat (length buf) = filesize →
  (∃ buf',
      clear_padding chunks filesize buf = Ok buf'
      ∧ length buf' = length buf
      ∧ ∀ (i : nat) b, buf !! i = Some b →
          buf' !! i = Some (if in_padding chunks filesize (Z.of_nat i) then 0 else b))
  ∧ (output_decls_sized →
     ∀ chroot filler path perm file,
       filler ≠ -1 →
       OutputFile_open chroot filler path filesize perm = Ok file →
       of_buf file = replicate (Z.to_nat filesize) (u8 filler))
  ∧ (output_decls_sized → align_to_rounds_up → is_pow2 64 PAGE_SIZE →
     ∀ image_base chroot filler output perm chunks0 file,
       0 <= image_base → Forall chunk_layout_ok chunks0 →
       image_base + layout_span chunks0 < 2 ^ 64 →
       emit_image image_base chroot filler output perm chunks0 = Ok file →
       ∀ i : nat,
         (i < length (of_buf file))%nat →
         in_padding (set_osec_offsets image_base chunks0).1
                    (set_osec_offsets image_base chunks0).2 (Z.of_nat i) = true →
         of_buf file !! i = Some 0).
Proof.
  intros Hne Hord Hfs Hlen. split_and!.
  - destruct (clear_padding_spec chunks filesize buf Hne Hord Hfs)
      as (buf' & Heq & Hl & Hlook).
    exists buf'. split_and!; [done|done|].
    intros i b Hb. by rewrite Hlook, Hb.
  - intros Hsized chroot filler path perm file Hfiller Hopen.
    by destruct (OutputFile_open_spec Hsized _ _ _ _ _ _ Hopen) as (_ & _ & ->).
  - intros Hsized Hal Hpage image_base chroot filler output perm chunks0 file
      Hib Hok Hfit Hemit.
    by destruct (emit_image_spec Hal Hpage _ _ _ _ _ _ _ Hsized Hib Hok Hfit Hemit)
      as (_ & _ & ?).
Qed.


(* --------------------------------------------------------------------- *)
(** ** fill_symbol_versions                                               *)
(* --------------------------------------------------------------------- *)

(** Two strings neither of which is below the other are equal. *)
Lemma string_ltb_antisym a b :
  String.ltb a b = false → String.ltb b a = false → a = b.
Proof.
  unfold String.ltb. rewrite (String.compare_antisym b a).
  destruct (String.compare a b) eqn:E; simpl; try discriminate.
  intros _ _. by apply String.compare_eq_iff.
Qed.

Lemma string_ltb_irrefl a : String.ltb a a = false.
Proof.
  unfold String.ltb. pose proof (String.compare_antisym a a) as H.
  destruct (String.compare a a); simpl in *; done.
Qed.

(** In the order of the sort, a symbol between two symbols of one soname
    and one version index has that soname and that index. *)
Lemma version_less_squeeze heap x y z :
  version_less heap y x = false → version_less heap z y = false →
  soname (file_of heap x) = soname (file_of heap z) →
  (sym_ver_idx x = sym_ver_idx z → sym_ver_idx y = sym_ver_idx x)
  ∧ soname (file_of heap y) = soname (file_of heap x).
Proof.
  unfold version_less. intros Hyx Hzy Hs. rewrite <- Hs in Hzy.
  apply orb_false_iff in Hyx as [Hyx1 Hyx2], Hzy as [Hzy1 Hzy2].
  pose proof (string_ltb_antisym _ _ Hyx1 Hzy1) as Heq.
  split; [|done]. intros Hv. rewrite Heq, string_ltb_irrefl in Hyx2, Hzy2.
  simpl in *. apply Z.ltb_ge in Hyx2, Hzy2. lia.
Qed.

Lemma file_of_same heap a b : sym_file a = sym_file b → file_of heap a = file_of heap b.
Proof. unfold file_of. by intros ->. Qed.

Lemma distinct_cons `{Countable K} (k : K) (l : list K) :
  distinct (k :: l) = if decide (k ∈ l) then distinct l else S (distinct l).
Proof.
  unfold distinct. rewrite list_to_set_cons. destruct (decide (k ∈ l)) as [Hin|Hnin].
  - f_equal. apply subseteq_union_1_L.
    apply singleton_subseteq_l. by apply elem_of_list_to_set.
  - rewrite size_union, size_singleton; [done|].
    apply disjoint_singleton_l. by rewrite elem_of_list_to_set.
Qed.

Lemma lookup_cons_S {A} (x : A) l i : (x :: l) !! S i = l !! i.
Proof. reflexivity. Qed.

Lemma elem_of_take_full {A} (x : A) k l : x ∈ take k l → x ∈ l.
Proof. intros Hx. rewrite <- (take_drop k l). apply elem_of_app. by left. Qed.

Lemma distinct_singleton `{Countable K} (k : K) : distinct [k] = 1%nat.
Proof.
  rewrite distinct_cons. destruct (decide (k ∈ [])) as [Hin|_]; [by inversion Hin|].
  reflexivity.
Qed.

Section SortedSymbols.
Context (heap : gmap FilePtr SharedFile).

Lemma sorted_keys_contiguous x y l z :
  sorted_versions heap (x :: y :: l) → soname_identifies heap (x :: y :: l) →
  z ∈ y :: l →
  (sym_file x = sym_file z → sym_file x = sym_file y)
  ∧ (sym_key x = sym_key z → sym_key x = sym_key y).
Proof.
  intros Hs Hinj Hz.
  apply elem_of_cons in Hz as [->|Hz]; [done|].
  inversion_clear Hs as [|? ? Hs' Hx]. inversion_clear Hs' as [|? ? _ Hy].
  rewrite Forall_forall in Hx, Hy.
  assert (Hyx : version_less heap y x = false) by (apply Hx; left).
  assert (Hzy : version_less heap z y = false) by by apply Hy.
  assert (Hfile : sym_file x = sym_file z → sym_file x = sym_file y).
  { intros Hf. pose proof (file_of_same heap _ _ Hf) as Hfo.
    destruct (version_less_squeeze heap x y z Hyx Hzy) as [_ Hso]; [by rewrite Hfo|].
    symmetry. apply Hinj; [right; left|left|done]. }
  split; [done|]. unfold sym_key. intros [= Hf Hv].
  pose proof (file_of_same heap _ _ Hf) as Hfo.
  destruct (version_less_squeeze heap x y z Hyx Hzy) as [Hver _]; [by rewrite Hfo|].
  by rewrite Hfile, Hver.
Qed.

Lemma sorted_versions_tail x l : sorted_versions heap (x :: l) → sorted_versions heap l.
Proof. by inversion 1. Qed.

Lemma soname_identifies_tail x l :
  soname_identifies heap (x :: l) → soname_identifies heap l.
Proof. intros Hinj a b Ha Hb. apply Hinj; by right. Qed.

(** One Vernaux per distinct (file, version index), one Verneed per
    distinct file. *)
Lemma new_records_distinct s0 rest :
  sorted_versions heap (s0 :: rest) → soname_identifies heap (s0 :: rest) →
  S (new_auxs s0 rest) = distinct (map sym_key (s0 :: rest))
  ∧ S (new_verneeds s0 rest) = distinct (map sym_file (s0 :: rest)).
Proof.
  revert s0. induction rest as [|s1 rest IH]; intros s0 Hs Hinj.
  - simpl. by rewrite !distinct_singleton.
  - destruct (IH s1 (sorted_versions_tail _ _ Hs) (soname_identifies_tail _ _ Hinj))
      as [IHa IHn].
    assert (Hcont : ∀ z, z ∈ s1 :: rest →
              (sym_file s0 = sym_file z → sym_file s0 = sym_file s1)
              ∧ (sym_key s0 = sym_key z → sym_key s0 = sym_key s1)).
    { intros z Hz. by eapply sorted_keys_contiguous. }
    split.
    + change (map sym_key (s0 :: s1 :: rest))
        with (sym_key s0 :: map sym_key (s1 :: rest)).
      rewrite distinct_cons. cbn [new_auxs]. rewrite <- IHa.
      destruct (decide (sym_key s0 ∈ map sym_key (s1 :: rest))) as [Hin|Hnin].
      * apply list_elem_of_fmap in Hin as (z & Hk & Hz).
        destruct (Hcont z Hz) as [_ Hc]. rewrite bool_decide_eq_true_2 by auto. done.
      * rewrite bool_decide_eq_false_2; [done|].
        intros Hk. apply Hnin. rewrite Hk. apply list_elem_of_fmap_2. left.
    + change (map sym_file (s0 :: s1 :: rest))
        with (sym_file s0 :: map sym_file (s1 :: rest)).
      rewrite distinct_cons. cbn [new_verneeds]. rewrite <- IHn.
      destruct (decide (sym_file s0 ∈ map sym_file (s1 :: rest))) as [Hin|Hnin].
      * apply list_elem_of_fmap in Hin as (z & Hk & Hz).
        destruct (Hcont z Hz) as [Hc _]. rewrite bool_decide_eq_true_2 by auto. done.
      * rewrite bool_decide_eq_false_2; [done|].
        intros Hk. apply Hnin. rewrite Hk. apply list_elem_of_fmap_2. left.
Qed.

Lemma aux_counts_lookup rest prev m i :
  (i < length rest)%nat →
  aux_counts prev m rest !! i = Some (m + new_auxs prev (take (S i) rest))%nat.
Proof.
  revert prev m i. induction rest as [|s rest IH]; intros prev m i Hi; simpl in Hi; [lia|].
  cbn [aux_counts]. destruct i as [|i].
  - simpl. f_equal. destruct (bool_decide _); simpl; [|lia].
    destruct rest; simpl; lia.
  - rewrite lookup_cons_S, IH by lia.
    change (take (S (S i)) (s :: rest)) with (s :: take (S i) rest).
    cbn [new_auxs]. f_equal. destruct (bool_decide _); lia.
Qed.

Lemma length_aux_counts rest prev m : length (aux_counts prev m rest) = length rest.
Proof. revert prev m. induction rest as [|s rest IH]; intros; simpl; [done|]. by rewrite IH. Qed.

(** The counter a symbol's slot receives: the number of distinct (file,
    version index) pairs up to that symbol. *)
Lemma aux_counts_distinct s0 rest i c :
  sorted_versions heap (s0 :: rest) → soname_identifies heap (s0 :: rest) →
  (1%nat :: aux_counts s0 1 rest) !! i = Some c →
  c = distinct (map sym_key (take (S i) (s0 :: rest))).
Proof.
  intros Hs Hinj Hc.
  assert (Hpre : ∀ k, sorted_versions heap (s0 :: take k rest)
                      ∧ soname_identifies heap (s0 :: take k rest)).
  { intros k. split.
    - apply (StronglySorted_app_1_l _ (s0 :: take k rest) (drop k rest)).
      simpl. by rewrite take_drop.
    - intros a b Ha Hb. apply Hinj.
      + apply elem_of_cons in Ha as [->|Ha]; [left|right]. by eapply elem_of_take_full.
      + apply elem_of_cons in Hb as [->|Hb]; [left|right]. by eapply elem_of_take_full. }
  destruct i as [|i].
  - injection Hc as <-. simpl. by rewrite distinct_singleton.
  - rewrite lookup_cons_S in Hc.
    assert (Hi : (i < length rest)%nat).
    { apply lookup_lt_Some in Hc. by rewrite length_aux_counts in Hc. }
    rewrite aux_counts_lookup in Hc by done. injection Hc as <-.
    destruct (Hpre (S i)) as [Hs' Hinj'].
    destruct (new_records_distinct _ _ Hs' Hinj') as [E _].
    change (take (S (S i)) (s0 :: rest)) with (s0 :: take (S i) rest).
    by rewrite <- E.
Qed.
End SortedSymbols.

Lemma omap_alter_same {A B} (g : A → option B) (h : A → A) (i : nat) (l : list A) :
  (∀ x, g (h x) = g x) → omap g (alter h i l) = omap g l.
Proof.
  intros Hg. revert i. induction l as [|a l IH]; intros [|i]; simpl; try done.
  - by rewrite Hg.
  - destruct (g a); [f_equal|]; apply IH.
Qed.

Lemma length_omap_alter {A B} (g : A → option B) (h : A → A) (i : nat) (l : list A) :
  (∀ x, is_Some (g (h x)) ↔ is_Some (g x)) →
  length (omap g (alter h i l)) = length (omap g l).
Proof.
  intros Hg. revert i. induction l as [|a l IH]; intros [|i]; simpl; try done.
  - specialize (Hg a). destruct (g (h a)), (g a); simpl; try done.
    + destruct Hg as [Hg _]. by destruct Hg.
    + destruct Hg as [_ Hg]. by destruct Hg.
  - destruct (g a); simpl; [f_equal|]; apply IH.
Qed.

Lemma aux_versions_alter_verneed f p buf :
  aux_versions (alter_verneed f p buf) = aux_versions buf.
Proof.
  destruct p as [i|]; [|done]. apply omap_alter_same. by intros [v|a].
Qed.

Lemma aux_versions_alter_vernaux f p buf :
  (∀ a, vna_other (f a) = vna_other a) →
  aux_versions (alter_vernaux f p buf) = aux_versions buf.
Proof.
  intros Hf. destruct p as [i|]; [|done]. apply omap_alter_same.
  intros [v|a]; [done|]. simpl. by rewrite Hf.
Qed.

Lemma verneeds_alter_verneed f p buf :
  length (verneeds (alter_verneed f p buf)) = length (verneeds buf).
Proof.
  destruct p as [i|]; [|done]. apply length_omap_alter. by intros [v|a].
Qed.

Lemma verneeds_alter_vernaux f p buf :
  length (verneeds (alter_vernaux f p buf)) = length (verneeds buf).
Proof.
  destruct p as [i|]; [|done]. apply length_omap_alter. by intros [v|a].
Qed.

Lemma length_alter_verneed f p buf : length (alter_verneed f p buf) = length buf.
Proof. destruct p; [apply length_alter|done]. Qed.

Lemma length_alter_vernaux f p buf : length (alter_vernaux f p buf) = length buf.
Proof. destruct p; [apply length_alter|done]. Qed.

Lemma u16_succ x : u16 (u16 x + 1) = u16 (x + 1).
Proof. unfold u16, wrap. by rewrite Zplus_mod_idemp_l. Qed.

Lemma apply_writes_length ws c : length (apply_writes ws c) = length c.
Proof.
  revert c. induction ws as [|w ws IH]; intros c; simpl; [done|].
  unfold apply_writes in *. simpl. by rewrite IH, length_insert.
Qed.

Lemma apply_writes_cons w ws c :
  apply_writes (w :: ws) c = apply_writes ws (<[w.1 := w.2]> c).
Proof. reflexivity. Qed.

Lemma apply_writes_notin ws c i :
  i ∉ map fst ws → apply_writes ws c !! i = c !! i.
Proof.
  revert c. induction ws as [|w ws IH]; intros c Hi; [done|].
  rewrite apply_writes_cons, IH.
  - apply list_lookup_insert_ne. intros Heq. apply Hi. simpl. rewrite <- Heq. left.
  - intros Hin. apply Hi. by right.
Qed.

Lemma apply_writes_in ws c j i v :
  NoDup (map fst ws) → ws !! j = Some (i, v) → (i < length c)%nat →
  apply_writes ws c !! i = Some v.
Proof.
  revert c j. induction ws as [|w ws IH]; intros c j Hnd Hj Hi; [done|].
  simpl in Hnd. apply NoDup_cons in Hnd as [Hw Hnd].
  rewrite apply_writes_cons. destruct j as [|j].
  - injection Hj as ->. simpl in *. rewrite apply_writes_notin by done.
    by apply list_lookup_insert_eq.
  - apply (IH _ j); [done|done|by rewrite length_insert].
Qed.

Section VersionState.
Context `{VersionDecls} (heap : gmap FilePtr SharedFile).

Lemma add_aux_spec sym st m n :
  version_inv st m n →
  version_inv (add_aux heap sym st) (S m) n
  ∧ versym_contents (add_aux heap sym st) = versym_contents st
  ∧ verneed_sh_info (add_aux heap sym st) = verneed_sh_info st
  ∧ verneed_size (add_aux heap sym st) = verneed_size st.
Proof.
  intros (Hv & Ha & Hn & Hl). unfold add_aux.
  destruct (add_string _ (dynstr st)) as [name ds]. simpl.
  split_and!; try done. unfold version_inv. simpl. split_and!.
  - rewrite Hv, u16_succ. f_equal. lia.
  - unfold aux_versions in *. rewrite omap_app. simpl.
    fold (aux_versions (alter_vernaux
            (λ a, mkElfVernaux (vna_hash a) (vna_flags a) (vna_other a)
                               (vna_name a) sizeof_ElfVernaux) (aux st)
            (alter_verneed
               (λ v, mkElfVerneed (vn_version v) (u16 (vn_cnt v + 1)) (vn_file v)
                                  (vn_aux v) (vn_next v)) (verneed st)
               (verneed_contents st)))).
    rewrite aux_versions_alter_vernaux by done.
    rewrite aux_versions_alter_verneed. unfold aux_versions. rewrite Ha.
    change (u16 (2 + Z.of_nat 0) :: map (λ k, u16 (2 + Z.of_nat k)) (seq 1 m))
      with (map (λ k, u16 (2 + Z.of_nat k)) (seq 0 (S m))).
    rewrite seq_S, map_app. simpl. f_equal. f_equal.
    rewrite Hv, u16_succ. f_equal. lia.
  - unfold verneeds in *. rewrite omap_app. simpl. rewrite app_nil_r.
    fold (verneeds (alter_vernaux
            (λ a, mkElfVernaux (vna_hash a) (vna_flags a) (vna_other a)
                               (vna_name a) sizeof_ElfVernaux) (aux st)
            (alter_verneed
               (λ v, mkElfVerneed (vn_version v) (u16 (vn_cnt v + 1)) (vn_file v)
                                  (vn_aux v) (vn_next v)) (verneed st)
               (verneed_contents st)))).
    by rewrite verneeds_alter_vernaux, verneeds_alter_verneed.
  - rewrite length_app, length_alter_vernaux, length_alter_verneed. simpl. lia.
Qed.

Lemma add_verneed_spec sym st m n :
  version_inv st m n →
  version_inv (add_verneed heap sym st) (S m) (S n)
  ∧ versym_contents (add_verneed heap sym st) = versym_contents st
  ∧ verneed_sh_info (add_verneed heap sym st) = verneed_sh_info st + 1
  ∧ verneed_size (add_verneed heap sym st) = verneed_size st.
Proof.
  intros (Hv & Ha & Hn & Hl). unfold add_verneed.
  set (buf1 := alter_verneed _ (verneed st) (verneed_contents st)).
  set (rec := Verneed _).
  set (st1 := mkVersionState _ _ (buf1 ++ [rec]) _ _ _ _ _ _).
  assert (Hinv1 : version_inv st1 m (S n)).
  { unfold version_inv, st1. simpl. split_and!; [done| | |].
    - unfold aux_versions. rewrite omap_app. simpl. rewrite app_nil_r.
      fold (aux_versions buf1). unfold buf1. by rewrite aux_versions_alter_verneed.
    - unfold verneeds. rewrite omap_app, length_app. simpl.
      fold (verneeds buf1). unfold buf1. rewrite verneeds_alter_verneed. lia.
    - rewrite length_app. unfold buf1. rewrite length_alter_verneed. simpl. lia. }
  destruct (add_aux_spec sym st1 m (S n) Hinv1) as (I & E1 & E2 & E3).
  split_and!; [done|by rewrite E1|by rewrite E2|by rewrite E3].
Qed.

Lemma set_versym_inv sym st m n :
  version_inv st m n → version_inv (set_versym sym st) m n.
Proof. done. Qed.

Lemma verneed_sz_spec syms prev sz :
  verneed_sz prev syms sz
  = sz + sizeof_ElfVernaux * Z.of_nat (new_auxs prev syms + new_verneeds prev syms).
Proof.
  revert prev sz. induction syms as [|sym syms IH]; intros prev sz; simpl.
  - unfold sizeof_ElfVernaux. lia.
  - rewrite IH. unfold sym_key.
    destruct (Z.eqb_spec (sym_ver_idx prev) (sym_ver_idx sym)) as [Ev|Ev];
      repeat case_bool_decide; try (exfalso; congruence); simpl;
      unfold sizeof_ElfVernaux, sizeof_ElfVerneed; lia.
Qed.

Lemma fill_loop_spec syms prev st m n :
  version_inv st m n →
  version_inv (fill_loop heap prev syms st)
              (m + new_auxs prev syms) (n + new_verneeds prev syms)
  ∧ versym_contents (fill_loop heap prev syms st)
    = apply_writes (versym_writes syms (aux_counts prev m syms)) (versym_contents st)
  ∧ verneed_sh_info (fill_loop heap prev syms st)
    = verneed_sh_info st + Z.of_nat (new_verneeds prev syms)
  ∧ verneed_size (fill_loop heap prev syms st) = verneed_size st.
Proof.
  revert prev st m n. induction syms as [|sym syms IH]; intros prev st m n Hinv.
  - simpl. rewrite !Nat.add_0_r. split_and!; [done|done|lia|done].
  - cbn [fill_loop new_auxs new_verneeds aux_counts].
    assert (Hstep : ∃ st1 m1 n1,
      (if negb (bool_decide (sym_file prev = sym_file sym))
       then add_verneed heap sym st
       else if negb (sym_ver_idx prev =? sym_ver_idx sym)
            then add_aux heap sym st else st) = st1
      ∧ version_inv st1 m1 n1
      ∧ m1 = (if bool_decide (sym_key prev = sym_key sym) then m else S m)
      ∧ n1 = (n + (if bool_decide (sym_file prev = sym_file sym) then 0 else 1))%nat
      ∧ versym_contents st1 = versym_contents st
      ∧ verneed_sh_info st1 = verneed_sh_info st + Z.of_nat (n1 - n)
      ∧ verneed_size st1 = verneed_size st).
    { unfold sym_key.
      destruct (decide (sym_file prev = sym_file sym)) as [Ef|Ef];
        destruct (Z.eqb_spec (sym_ver_idx prev) (sym_ver_idx sym)) as [Ev|Ev].
      - repeat case_bool_decide; try (exfalso; congruence). simpl.
        exists st, m, (n + 0)%nat. rewrite Nat.add_0_r.
        split_and!; try done. lia.
      - repeat case_bool_decide; try (exfalso; congruence). simpl.
        destruct (add_aux_spec sym st m n Hinv) as (I & E1 & E2 & E3).
        exists (add_aux heap sym st), (S m), (n + 0)%nat. rewrite Nat.add_0_r.
        split_and!; try done. rewrite E2. lia.
      - repeat case_bool_decide; try (exfalso; congruence). simpl.
        destruct (add_verneed_spec sym st m n Hinv) as (I & E1 & E2 & E3).
        exists (add_verneed heap sym st), (S m), (n + 1)%nat.
        replace (n + 1)%nat with (S n) by lia.
        split_and!; try done. rewrite E2. lia.
      - repeat case_bool_decide; try (exfalso; congruence). simpl.
        destruct (add_verneed_spec sym st m n Hinv) as (I & E1 & E2 & E3).
        exists (add_verneed heap sym st), (S m), (n + 1)%nat.
        replace (n + 1)%nat with (S n) by lia.
        split_and!; try done. rewrite E2. lia. }
    destruct Hstep as (st1 & m1 & n1 & -> & Hinv1 & Hm1 & Hn1 & V1 & S1 & Z1).
    destruct (IH sym (set_versym sym st1) m1 n1 (set_versym_inv sym st1 m1 n1 Hinv1))
      as (I & V & S2 & Z2).
    rewrite <- Hm1. split_and!.
    + replace (m + ((if bool_decide (sym_key prev = sym_key sym) then 0 else 1)
                    + new_auxs sym syms))%nat
        with (m1 + new_auxs sym syms)%nat
        by (rewrite Hm1; destruct (bool_decide _); lia).
      replace (n + ((if bool_decide (sym_file prev = sym_file sym) then 0 else 1)
                    + new_verneeds sym syms))%nat
        with (n1 + new_verneeds sym syms)%nat by lia.
      done.
    + rewrite V. unfold versym_writes. cbn [zip_with]. rewrite apply_writes_cons.
      simpl. rewrite V1. destruct Hinv1 as (-> & _). done.
    + rewrite S2. simpl. rewrite S1, Hn1. destruct (bool_decide _); lia.
    + rewrite Z2. simpl. done.
Qed.
End VersionState.

Lemma versym_writes_slots syms counts :
  length counts = length syms →
  map fst (versym_writes syms counts) = map (λ s, Z.to_nat (sym_dynsym_idx s)) syms.
Proof.
  revert counts. induction syms as [|s syms IH]; intros [|c counts] Hlen;
    simpl in *; try done.
  f_equal. apply IH. lia.
Qed.

Lemma resize_nil {T} n (x : T) : resize n x [] = replicate n x.
Proof. unfold resize. rewrite take_nil. simpl. by rewrite Nat.sub_0_r. Qed.

Lemma distinct_perm `{Countable K} (l1 l2 : list K) : l1 ≡ₚ l2 → distinct l1 = distinct l2.
Proof.
  intros Hp. unfold distinct. f_equal. apply set_eq. intros x.
  rewrite !elem_of_list_to_set. by rewrite Hp.
Qed.

(** C5. For a non-empty set of versioned dynamic symbols sorted by (soname
    of the defining file, version index), [fill_symbol_versions] sizes
    [.gnu.version] to the number of dynamic symbols plus one, with entry 0
    equal to 0 and every entry that is no versioned symbol's equal to 1;
    it writes exactly one Verneed record per distinct defining file and
    exactly one Vernaux record per distinct (file, version index); the
    Vernaux records carry the counter values 2, 3, ... in order; and the
    slot of each symbol holds the counter value current when the symbol is
    reached, one more than the number of distinct (file, version index)
    pairs up to it. The size computed for [.gnu.version_r] is the size of
    the records written, and [sh_info] grows by the number of Verneed
    records. *)
Theorem fill_symbol_versions_records `{VersionDecls}
    (heap : gmap FilePtr SharedFile) (dynsym_symbols : list Symbol)
    (st : VersionState) :
  let syms := List.filter (λ sym, negb (sym_ver_idx sym <? 2)) dynsym_symbols in
  let sorted := sort (version_less heap) syms in
  let n := length dynsym_symbols in
  syms ≠ [] →
  sorted ≡ₚ syms → sorted_versions heap sorted → soname_identifies heap syms →
  versym_contents st = [] →
  NoDup (map sym_dynsym_idx syms) →
  (∀ s, s ∈ syms → 1 <= sym_dynsym_idx s <= Z.of_nat n) →
  ∃ st',
    fill_symbol_versions heap dynsym_symbols st = Ok st'
    ∧ length (versym_contents st') = S n
    ∧ versym_contents st' !! 0%nat = Some 0
    ∧ (∀ i : nat, (1 <= i <= n)%nat → Z.of_nat i ∉ map sym_dynsym_idx syms →
         versym_contents st' !! i = Some 1)
    ∧ length (verneeds (verneed_contents st')) = distinct (map sym_file syms)
    ∧ length (aux_versions (verneed_contents st')) = distinct (map sym_key syms)
    ∧ (∀ (k : nat) v, aux_versions (verneed_contents st') !! k = Some v →
         v = u16 (2 + Z.of_nat k))
    ∧ (∀ (i : nat) s, sorted !! i = Some s →
         versym_contents st' !! Z.to_nat (sym_dynsym_idx s)
         = Some (u16 (1 + Z.of_nat (distinct (map sym_key (take (S i) sorted))))))
    ∧ verneed_size st'
      = sizeof_ElfVernaux * Z.of_nat (length (verneed_contents st'))
    ∧ verneed_sh_info st'
      = verneed_sh_info st + Z.of_nat (distinct (map sym_file syms)).
Proof.
  intros syms sorted n Hne Hperm Hsorted Hinj Hversym Hnd Hrange.
  unfold fill_symbol_versions. fold syms. rewrite bool_decide_eq_false_2 by done.
  fold sorted. clearbody sorted.
  destruct sorted as [|s0 rest].
  { apply Permutation_nil_l in Hperm. by rewrite <- Hperm in Hne. }
  assert (Hinj' : soname_identifies heap (s0 :: rest)).
  { intros a b Ha Hb. rewrite Hperm in Ha, Hb. by apply Hinj. }
  assert (Hrange' : ∀ s, s ∈ s0 :: rest → 1 <= sym_dynsym_idx s <= Z.of_nat n).
  { intros s Hs. apply Hrange. by rewrite <- Hperm. }
  rewrite Hversym.
  set (versym0 := <[0%nat := 0]> (resize (n + 1) 1 [])).
  set (sz := verneed_sz s0 rest (sizeof_ElfVerneed + sizeof_ElfVernaux)).
  set (st0 := mkVersionState _ versym0 [] sz (verneed_sh_info st) (dynstr st) 1 None None).
  assert (Hinv0 : version_inv st0 0 0) by (by split_and!).
  destruct (add_verneed_spec heap s0 st0 0 0 Hinv0) as (Hinv1 & V1 & S1 & Z1).
  set (st1 := add_verneed heap s0 st0) in *.
  destruct (fill_loop_spec heap rest s0 (set_versym s0 st1) 1 1
              (set_versym_inv s0 st1 1 1 Hinv1)) as (Hinv & V & S2 & Z2).
  set (st' := fill_loop heap s0 rest (set_versym s0 st1)) in *.
  destruct (new_records_distinct heap s0 rest Hsorted Hinj') as [Daux Dneed].
  rewrite (distinct_perm _ _ (fmap_Permutation sym_key _ _ Hperm)) in Daux.
  rewrite (distinct_perm _ _ (fmap_Permutation sym_file _ _ Hperm)) in Dneed.
  (* the writes to .gnu.version *)
  set (counts := 1%nat :: aux_counts s0 1 rest).
  set (writes := versym_writes (s0 :: rest) counts).
  assert (Hw : versym_contents st' = apply_writes writes versym0).
  { rewrite V. unfold writes, counts, versym_writes. cbn [zip_with].
    rewrite apply_writes_cons. simpl. rewrite V1.
    destruct Hinv1 as (-> & _). done. }
  assert (Hslots : map fst writes
                   = map Z.to_nat (map sym_dynsym_idx (s0 :: rest))).
  { unfold writes. rewrite versym_writes_slots, map_map; [done|].
    unfold counts. simpl. by rewrite length_aux_counts. }
  assert (Hnd' : NoDup (map fst writes)).
  { rewrite Hslots. apply NoDup_fmap_2_strong.
    - intros x y Hx Hy Hxy.
      apply list_elem_of_fmap in Hx as (sx & -> & Hsx), Hy as (sy & -> & Hsy).
      pose proof (Hrange' _ Hsx). pose proof (Hrange' _ Hsy). lia.
    - pose proof (fmap_Permutation sym_dynsym_idx _ _ Hperm) as Hp.
      change (NoDup (sym_dynsym_idx <$> s0 :: rest)). by rewrite Hp. }
  assert (Hlen0 : length versym0 = S n).
  { unfold versym0. rewrite length_insert, resize_nil, length_replicate. lia. }
  assert (Hbase : ∀ i : nat, (1 <= i <= n)%nat → versym0 !! i = Some 1).
  { intros i Hi. unfold versym0. rewrite resize_nil.
    rewrite list_lookup_insert_ne by lia. apply lookup_replicate. split; [done|lia]. }
  exists st'. split_and!.
  - done.
  - by rewrite Hw, apply_writes_length.
  - rewrite Hw, apply_writes_notin.
    + unfold versym0. apply list_lookup_insert_eq.
      rewrite resize_nil, length_replicate. lia.
    + rewrite Hslots. intros Hin.
      apply list_elem_of_fmap in Hin as (x & Hx & Hin).
      apply list_elem_of_fmap in Hin as (s & -> & Hs).
      pose proof (Hrange' _ Hs). lia.
  - intros i Hi Hnotin. rewrite Hw, apply_writes_notin; [by apply Hbase|].
    rewrite Hslots. intros Hin.
    apply list_elem_of_fmap in Hin as (x & Hx & Hin).
    apply list_elem_of_fmap in Hin as (s & -> & Hs).
    pose proof (Hrange' _ Hs). apply Hnotin.
    replace (Z.of_nat i) with (sym_dynsym_idx s) by lia.
    apply list_elem_of_fmap_2. by rewrite <- Hperm.
  - destruct Hinv as (_ & _ & -> & _). exact Dneed.
  - destruct Hinv as (_ & -> & _). rewrite length_map, length_seq. exact Daux.
  - intros k v Hk. destruct Hinv as (_ & Ha & _). rewrite Ha in Hk.
    rewrite list_lookup_fmap in Hk.
    destruct (seq 0 (1 + new_auxs s0 rest) !! k) as [k'|] eqn:Ek; [|done].
    apply lookup_seq in Ek as [-> _]. simpl in Hk. by injection Hk as <-.
  - intros i s Hs.
    assert (Hc : ∃ c, counts !! i = Some c) .
    { apply lookup_lt_is_Some. unfold counts. simpl. rewrite length_aux_counts.
      apply lookup_lt_Some in Hs. simpl in Hs. done. }
    destruct Hc as [c Hc].
    pose proof (aux_counts_distinct heap s0 rest i c Hsorted Hinj' Hc) as ->.
    rewrite Hw. apply (apply_writes_in writes versym0 i); [done| |].
    + unfold writes, versym_writes. apply lookup_zip_with_Some. eauto.
    + rewrite Hlen0. pose proof (Hrange' s ltac:(by eapply list_elem_of_lookup_2)). lia.
  - rewrite Z2. simpl. rewrite Z1. simpl. unfold sz. rewrite verneed_sz_spec.
    destruct Hinv as (_ & _ & _ & ->).
    unfold sizeof_ElfVerneed, sizeof_ElfVernaux. lia.
  - rewrite S2. simpl. rewrite S1. simpl.
    change (distinct (map sym_file syms)) with (distinct (sym_file <$> syms)).
    rewrite <- Dneed. lia.
Qed.

(* --------------------------------------------------------------------- *)
(** ** The concrete declarations satisfy what the proofs assume           *)
(* --------------------------------------------------------------------- *)



Lemma example_output_sized : @output_decls_sized example_output.
Proof.
  split.
  - intros special path filesize perm buf. simpl.
    destruct (Z.ltb_spec filesize 0); [discriminate|].
    intros [= <-]. rewrite length_replicate. lia.
  - intros chunk buf. simpl. apply length_memset.
Qed.



Lemma clear_padding_zeroes_gaps_witness :
  clear_padding
    [ mkOutputChunk ".text" REGULAR (mkElfShdr 0 1 6 0 0 3 0 0 1 0) 1 false;
      mkOutputChunk ".bss" REGULAR (mkElfShdr 0 SHT_NOBITS 3 0 4 5 0 0 4 0) 2 false;
      mkOutputChunk ".symtab" SYNTHETIC (mkElfShdr 0 2 0 0 8 2 0 0 8 0) 3 false ]
    12 [204; 204; 204; 238; 238; 238; 238; 238; 204; 204; 238; 238]
  = Ok [204; 204; 204; 0; 0; 0; 0; 0; 204; 204; 0; 0]
  ∧ ∃ buf',
      clear_padding
        [ mkOutputChunk ".text" REGULAR (mkElfShdr 0 1 6 0 0 3 0 0 1 0) 1 false;
          mkOutputChunk ".bss" REGULAR (mkElfShdr 0 SHT_NOBITS 3 0 4 5 0 0 4 0) 2 false;
          mkOutputChunk ".symtab" SYNTHETIC (mkElfShdr 0 2 0 0 8 2 0 0 8 0) 3 false ]
        12 [204; 204; 204; 238; 238; 238; 238; 238; 204; 204; 238; 238] = Ok buf'
      ∧ length buf' = 12%nat
      ∧ ∀ (i : nat) b,
          [204; 204; 204; 238; 238; 238; 238; 238; 204; 204; 238; 238] !! i = Some b →
          buf' !! i =
            Some (if in_padding
                       [ mkOutputChunk ".text" REGULAR (mkElfShdr 0 1 6 0 0 3 0 0 1 0) 1 false;
                         mkOutputChunk ".bss" REGULAR (mkElfShdr 0 SHT_NOBITS 3 0 4 5 0 0 4 0) 2 false;
                         mkOutputChunk ".symtab" SYNTHETIC (mkElfShdr 0 2 0 0 8 2 0 0 8 0) 3 false ]
                       12 (Z.of_nat i)
                  then 0 else b).
Proof.
  split; [reflexivity|].
  apply (clear_padding_zeroes_gaps (H := example_decls) (H0 := example_output)
           [ mkOutputChunk ".text" REGULAR (mkElfShdr 0 1 6 0 0 3 0 0 1 0) 1 false;
             mkOutputChunk ".bss" REGULAR (mkElfShdr 0 SHT_NOBITS 3 0 4 5 0 0 4 0) 2 false;
             mkOutputChunk ".symtab" SYNTHETIC (mkElfShdr 0 2 0 0 8 2 0 0 8 0) 3 false ]
           12 [204; 204; 204; 238; 238; 238; 238; 238; 204; 204; 238; 238]).
  - discriminate.
  - simpl. unfold chunk_file_end, chunk_filesz. simpl. lia.
  - lia.
  - reflexivity.
Defined.




Lemma insert_sorted_perm {T} (less : T → T → bool) x l :
  insert_sorted less x l ≡ₚ x :: l.
Proof.
  induction l as [|y l IH]; simpl; [done|].
  destruct (less x y); [done|]. rewrite IH. apply Permutation_swap.
Qed.

Lemma insertion_sort_perm {T} (less : T → T → bool) l :
  insertion_sort less l ≡ₚ l.
Proof.
  induction l as [|x l IH]; simpl; [done|].
  by rewrite insert_sorted_perm, IH.
Qed.

Lemma fill_symbol_versions_records_witness :
  (from_option (λ st, (versym_contents st, length (verneeds (verneed_contents st)),
                       aux_versions (verneed_contents st)))
               ([], 0%nat, [])
               (match fill_symbol_versions (H := example_versions)
                        example_heap example_dynsyms example_version_state with
                | Ok st => Some st
                | _ => None
                end)
   = ([0; 4; 3; 1; 2; 2], 2%nat, [2; 3; 4]))
  ∧ ∃ st',
      fill_symbol_versions (H := example_versions)
        example_heap example_dynsyms example_version_state = Ok st'
      ∧ length (versym_contents st') = 6%nat
      ∧ length (verneeds (verneed_contents st'))
        = distinct (map sym_file
                      (List.filter (λ sym, negb (sym_ver_idx sym <? 2)) example_dynsyms)).
Proof.
  split; [vm_compute; reflexivity|].
  destruct (fill_symbol_versions_records (H := example_versions)
              example_heap example_dynsyms example_version_state)
    as (st' & E & L & _ & _ & N & _).
  - discriminate.
  - apply insertion_sort_perm.
  - vm_compute. repeat constructor.
  - intros a b Ha Hb. vm_compute in Ha, Hb.
    repeat (apply elem_of_cons in Ha as [->|Ha]); [..|by inversion Ha];
      repeat (apply elem_of_cons in Hb as [->|Hb]); try (by inversion Hb);
      vm_compute; congruence.
  - reflexivity.
  - apply (bool_decide_unpack _). vm_compute. exact I.
  - intros s Hs. vm_compute in Hs.
    repeat (apply elem_of_cons in Hs as [->|Hs]); [..|by inversion Hs]; simpl; lia.
  - exists st'. split_and!; done.
Defined.







(* --------------------------------------------------------------------- *)
(** * Part III: further properties of the code                            *)
(* --------------------------------------------------------------------- *)

#[local] Set Warnings "-clear-no-such-hyp".

(* --------------------------------------------------------------------- *)
(** ** bin_sections                                                       *)
(* --------------------------------------------------------------------- *)

Lemma sections_of_app j (l1 l2 : list InputChunk) :
  sections_of j (l1 ++ l2) = sections_of j l1 ++ sections_of j l2.
Proof. unfold sections_of. apply List.filter_app. Qed.

Lemma bin_file_lookup (j : nat) (secs : list (option InputChunk))
    (group : list (list InputChunk)) :
  foldl (λ group isec,
           match isec with
           | Some isec => alter (λ l, l ++ [isec]) (isec_output_section isec) group
           | None => group
           end) group secs !! j
  = (λ l, l ++ sections_of j (omap id secs)) <$> (group !! j).
Proof.
  revert group. induction secs as [|[isec|] secs IH]; intros group; simpl.
  - destruct (group !! j); simpl; [by rewrite app_nil_r|done].
  - rewrite IH. unfold sections_of at 2. simpl.
    case_bool_decide as Hj.
    + rewrite Hj, list_lookup_alter. destruct (group !! j) as [l|]; simpl;
        rewrite decide_True by done; simpl; [|done].
      unfold sections_of. by rewrite <- app_assoc.
    + rewrite list_lookup_alter_ne by done. done.
  - apply IH.
Qed.

Lemma bin_slice_from_lookup (j : nat) (slice : list ObjectFile)
    (group : list (list InputChunk)) :
  foldl (λ group file,
           foldl (λ group isec,
                    match isec with
                    | Some isec =>
                        alter (λ l, l ++ [isec]) (isec_output_section isec) group
                    | None => group
                    end)
                 group (sections file)) group slice !! j
  = (λ l, l ++ sections_of j (live_sections slice)) <$> (group !! j).
Proof.
  revert group. induction slice as [|file slice IH]; intros group; simpl.
  - destruct (group !! j); simpl; [by rewrite app_nil_r|done].
  - rewrite IH, bin_file_lookup. unfold live_sections. simpl.
    rewrite sections_of_app.
    destruct (group !! j); simpl; [|done]. by rewrite <- app_assoc.
Qed.

Lemma bin_slice_lookup (num_osec j : nat) (slice : list ObjectFile) :
  (j < num_osec)%nat →
  bin_slice num_osec slice !! j = Some (sections_of j (live_sections slice)).
Proof.
  intros Hj. unfold bin_slice. rewrite bin_slice_from_lookup.
  by rewrite lookup_replicate_2.
Qed.

Lemma live_sections_app (l1 l2 : list ObjectFile) :
  live_sections (l1 ++ l2) = live_sections l1 ++ live_sections l2.
Proof. unfold live_sections. by rewrite map_app, concat_app. Qed.

Lemma append_groups (num_osec j : nat) (slices : list (list ObjectFile))
    (m : list InputChunk) :
  (j < num_osec)%nat →
  foldl (λ m group, m ++ default [] (group !! j)) m
        (map (bin_slice num_osec) slices)
  = m ++ sections_of j (live_sections (concat slices)).
Proof.
  intros Hj. revert m. induction slices as [|s slices IH]; intros m; simpl.
  - by rewrite app_nil_r.
  - rewrite IH, bin_slice_lookup by done. simpl.
    by rewrite live_sections_app, sections_of_app, app_assoc.
Qed.

Lemma bin_sections_unit_pos (objs : list ObjectFile) :
  objs ≠ [] → Z.of_nat (length objs) < 2 ^ 31 →
  0 < int_to_size_t (bin_sections_unit objs).
Proof.
  intros Hne Hlen.
  assert (1 <= Z.of_nat (length objs)) by (destruct objs; [done|simpl; lia]).
  unfold bin_sections_unit, int_to_size_t, size_t_to_int.
  rewrite (u64_small (_ + 127)) by lia.
  assert (1 <= (Z.of_nat (length objs) + 127) / 128 < 2 ^ 31).
  { split; [apply Z.div_le_lower_bound; lia|apply Z.div_lt_upper_bound; lia]. }
  rewrite (Z.mod_small (_ + 2 ^ 31)) by lia.
  rewrite u64_small by lia. lia.
Qed.

(** X1: [bin_sections] gives every output section, after the members it
    had, exactly the input sections that point to it and are still there, in
    the order of the files and of each file's section vector: no section is
    lost, doubled or moved to another output section by the slicing. Every
    input section points to one of the instances, as in the linker, where
    the index it is binned under is read off the instance it points to. *)
Theorem bin_sections_members (objs : list ObjectFile)
    (instances : list OutputSection) (fuel : nat) :
  objs ≠ [] →
  Z.of_nat (length objs) < 2 ^ 31 →
  (∀ isec, isec ∈ live_sections objs →
     (isec_output_section isec < length instances)%nat) →
  (length objs < fuel)%nat →
  bin_sections fuel objs instances
  = Ok (imap (λ j osec,
                set_members
                  (members osec ++ sections_of j (live_sections objs)) osec)
             instances).
Proof.
  intros Hne Hlen _ Hfuel. unfold bin_sections.
  destruct (split_nonzero_returns objs (bin_sections_unit objs))
    as (spans & init & lst & Hsplit & Hconcat & _);
    [by apply bin_sections_unit_pos|done|].
  rewrite (Hsplit fuel Hfuel). simpl. f_equal.
  apply list_eq. intros j. rewrite !list_lookup_imap.
  destruct (instances !! j) as [osec|] eqn:Hosec; simpl; [|done].
  apply lookup_lt_Some in Hosec.
  by rewrite append_groups, Hconcat.
Qed.

(* --------------------------------------------------------------------- *)
(** ** The loops of main over out::dsos and out::chunks                   *)
(* --------------------------------------------------------------------- *)

Lemma uniquify_from (dsos : list SharedFile) (vec : list SharedFile)
    (seen : gset string) :
  let r := foldl uniquify_step (vec, seen) dsos in
  r.1 = vec ++ (foldl uniquify_step ([], seen) dsos).1
  ∧ r.2 = (foldl uniquify_step ([], seen) dsos).2.
Proof.
  revert vec seen. induction dsos as [|d dsos IH]; intros vec seen; simpl.
  - by rewrite app_nil_r.
  - case_bool_decide; simpl.
    + destruct (IH (vec ++ [d]) ({[soname d]} ∪ seen)) as [E1 E2].
      destruct (IH [d] ({[soname d]} ∪ seen)) as [F1 F2].
      simpl in *. rewrite E1, E2, F1, F2. by rewrite <- app_assoc.
    + apply IH.
Qed.

Lemma uniquify_seen (dsos : list SharedFile) (seen : gset string) :
  let r := foldl uniquify_step ([], seen) dsos in
  (∀ n, n ∈ r.2 ↔ n ∈ seen ∨ n ∈ soname <$> dsos)
  ∧ (∀ f, f ∈ r.1 → (soname f ∉ seen) ∧ f ∈ dsos)
  ∧ NoDup (soname <$> r.1)
  ∧ (∀ n, n ∈ soname <$> dsos → n ∉ seen → n ∈ soname <$> r.1)
  ∧ r.1 `sublist_of` dsos.
Proof.
  revert seen. induction dsos as [|d dsos IH]; intros seen; simpl.
  - split_and!; [set_solver|set_solver|constructor|set_solver|done].
  - destruct (IH ({[soname d]} ∪ seen)) as (I1 & I2 & I3 & I4 & I5).
    case_bool_decide as Hd; simpl.
    + destruct (uniquify_from dsos [d] ({[soname d]} ∪ seen)) as [E1 E2].
      simpl in E1, E2. rewrite E1, E2. split_and!.
      * intros n. rewrite I1. set_solver.
      * intros f [->|Hf]%elem_of_cons; [set_solver|].
        apply I2 in Hf. set_solver.
      * simpl. constructor; [|done].
        intros (f & Hn & Hf)%list_elem_of_fmap. apply I2 in Hf. set_solver.
      * intros n Hn Hs. simpl.
        destruct (decide (n = soname d)) as [->|Hne]; [left|right].
        apply I4; set_solver.
      * by apply sublist_skip.
    + split_and!.
      * intros n. rewrite I1. set_solver.
      * intros f Hf. apply I2 in Hf. set_solver.
      * done.
      * intros n Hn Hs. apply I4; set_solver.
      * by apply sublist_cons.
Qed.

(** X2: the loop of [main] that makes the shared files unique by soname
    keeps, in their order, the first file of every soname and drops the
    later ones: no two files left share a soname, every soname of the input
    is still there, and a file is kept exactly when no file before it has
    its soname. *)
Theorem uniquify_dsos_keeps_first (dsos : list SharedFile) :
  NoDup (soname <$> uniquify_dsos dsos)
  ∧ uniquify_dsos dsos `sublist_of` dsos
  ∧ (∀ n, n ∈ soname <$> uniquify_dsos dsos ↔ n ∈ soname <$> dsos)
  ∧ (∀ before f after, dsos = before ++ f :: after →
       uniquify_dsos dsos
       = uniquify_dsos before
         ++ (if bool_decide (soname f ∈ soname <$> before) then [] else [f])
         ++ (foldl uniquify_step
               ([], list_to_set (soname <$> before) ∪ {[soname f]}) after).1).
Proof.
  unfold uniquify_dsos.
  destruct (uniquify_seen dsos ∅) as (I1 & I2 & I3 & I4 & I5). split_and!.
  - done.
  - done.
  - intros n. split.
    + intros (f & -> & Hf)%list_elem_of_fmap. apply I2 in Hf.
      apply list_elem_of_fmap_2, Hf.
    + intros Hn. apply I4; set_solver.
  - intros before f after ->. rewrite foldl_app. simpl.
    destruct (foldl uniquify_step ([], ∅) before) as [vec seen] eqn:Hb.
    destruct (uniquify_seen before ∅) as (B1 & _). rewrite Hb in B1. simpl in B1.
    assert (Hseen : seen = list_to_set (soname <$> before)).
    { apply set_eq. intros n. rewrite B1, elem_of_list_to_set. set_solver. }
    assert (Hmem : soname f ∈ seen ↔ soname f ∈ soname <$> before).
    { rewrite B1. set_solver. }
    assert (Hset : {[soname f]} ∪ seen
                   = list_to_set (soname <$> before) ∪ {[soname f]}).
    { rewrite Hseen. apply set_eq. set_solver. }
    cbn [uniquify_step]. rewrite Hset.
    destruct (decide (soname f ∈ seen)) as [Hin|Hin].
    + rewrite (bool_decide_eq_false_2 (soname f ∉ seen)) by tauto.
      rewrite (bool_decide_eq_true_2 (soname f ∈ soname <$> before)) by tauto.
      destruct (uniquify_from after vec
                  (list_to_set (soname <$> before) ∪ {[soname f]})) as [E1 _].
      simpl in E1. by rewrite E1.
    + rewrite (bool_decide_eq_true_2 (soname f ∉ seen)) by done.
      rewrite (bool_decide_eq_false_2 (soname f ∈ soname <$> before)) by tauto.
      destruct (uniquify_from after (vec ++ [f])
                  (list_to_set (soname <$> before) ∪ {[soname f]})) as [E1 _].
      simpl in E1. rewrite E1, <- app_assoc. done.
Qed.

Lemma set_section_indices_from_spec (chunks : list OutputChunk) (shndx0 : Z) :
  let out := set_section_indices_from shndx0 chunks in
  Forall2 same_chunk_but_shndx out chunks
  ∧ shndx <$> List.filter (λ c, negb (is_header c)) out
    = seqZ shndx0 (Z.of_nat (length (List.filter (λ c, negb (is_header c)) chunks)))
  ∧ Forall2 (λ a b, is_header b = true → a = b) out chunks.
Proof.
  revert shndx0. induction chunks as [|c chunks IH]; intros shndx0; simpl.
  - split_and!; constructor.
  - destruct (IH shndx0) as (A1 & A2 & A3).
    destruct (IH (shndx0 + 1)) as (B1 & B2 & B3).
    destruct (is_header c) eqn:Hc; simpl.
    + rewrite Hc. simpl. split_and!; [constructor; [by destruct c|done]|done|].
      by constructor.
    + assert (Hc' : is_header (set_shndx shndx0 c) = false) by done.
      rewrite Hc'. simpl. split_and!.
      * by constructor.
      * rewrite (seqZ_cons shndx0) by lia. f_equal.
        replace (Z.succ shndx0) with (shndx0 + 1) by lia.
        etrans; [apply B2|]. f_equal. lia.
      * constructor; [congruence|done].
Qed.

(** X3: the loop of [main] that sets the section indices numbers the chunks
    that are no headers 1, 2, 3, ... in their order and leaves the headers
    and every other field alone; so no index is 0, and two chunks that are
    no headers never share an index. *)
Theorem set_section_indices_consecutive (chunks : list OutputChunk) :
  Z.of_nat (length chunks) < INT_MAX →
  let out := set_section_indices chunks in
  Forall2 same_chunk_but_shndx out chunks
  ∧ Forall2 (λ a b, is_header b = true → a = b) out chunks
  ∧ shndx <$> List.filter (λ c, negb (is_header c)) out
    = seqZ 1 (Z.of_nat (length (List.filter (λ c, negb (is_header c)) chunks)))
  ∧ NoDup (shndx <$> List.filter (λ c, negb (is_header c)) out)
  ∧ Forall (λ c, 1 <= shndx c) (List.filter (λ c, negb (is_header c)) out).
Proof.
  intros _ out.
  destruct (set_section_indices_from_spec chunks 1) as (A1 & A2 & A3).
  fold (set_section_indices chunks) in A1, A2, A3. fold out in A1, A2, A3.
  split_and!; [done..| |].
  - rewrite A2. apply NoDup_seqZ.
  - apply Forall_fmap with (f := shndx) (P := λ x, 1 <= x). rewrite A2.
    apply Forall_forall. intros x Hx%elem_of_seqZ. lia.
Qed.

(* --------------------------------------------------------------------- *)
(** ** read_response_file and expand_response_files                       *)
(* --------------------------------------------------------------------- *)

Section ResponseFile.
Variable mb : MemoryMappedFile.
Hypothesis Hsize : mb_size mb < INT_MAX.

Lemma byte_at_middle (pre : list byte) (c : byte) (rest : list byte) :
  mb_data mb = pre ++ c :: rest →
  byte_at mb (Z.of_nat (length pre)) = c.
Proof.
  intros Hd. unfold byte_at, data_at. rewrite Nat2Z.id, Hd.
  apply nth_middle.
Qed.

Lemma in_file (pre : list byte) (c : byte) (rest : list byte) :
  mb_data mb = pre ++ c :: rest →
  (int_to_size_t (Z.of_nat (length pre)) <? mb_size mb) = true.
Proof.
  intros Hd. unfold INT_MAX, mb_size in *. rewrite Hd in *.
  rewrite length_app in *. simpl in *.
  unfold int_to_size_t. rewrite u64_small by lia. apply Z.ltb_lt. lia.
Qed.

Lemma at_end_of_file (pre : list byte) :
  mb_data mb = pre →
  (int_to_size_t (Z.of_nat (length pre)) <? mb_size mb) = false.
Proof.
  intros Hd. unfold INT_MAX, mb_size in *. rewrite Hd in *.
  unfold int_to_size_t. rewrite u64_small by lia. apply Z.ltb_ge. lia.
Qed.

Lemma length_snoc_Z (pre : list byte) (c : byte) :
  Z.of_nat (length (pre ++ [c])) = Z.of_nat (length pre) + 1.
Proof. rewrite length_app. simpl. lia. Qed.

Lemma read_unquoted_loop_spec (w : list byte) :
  ∀ (pre rest buf : list byte) (fuel : nat),
    mb_data mb = pre ++ w ++ rest →
    Forall (λ c, isspace c = false) w →
    from_option isspace true (head rest) = true →
    (length w < fuel)%nat →
    read_unquoted_loop mb fuel (Z.of_nat (length pre)) buf
    = Ok (Z.of_nat (length (pre ++ w)), buf ++ w).
Proof.
  induction w as [|c w IH]; intros pre rest buf fuel Hd Hw Hrest Hfuel;
    (destruct fuel as [|fuel]; [simpl in Hfuel; lia|]); cbn [read_unquoted_loop].
  - rewrite !app_nil_r. simpl in Hd. destruct rest as [|c rest].
    + rewrite app_nil_r in Hd. by rewrite (at_end_of_file pre).
    + rewrite (in_file pre c rest), (byte_at_middle pre c rest) by done.
      simpl in Hrest. by rewrite Hrest.
  - apply Forall_cons in Hw as [Hc Hw].
    rewrite (in_file pre c (w ++ rest)), (byte_at_middle pre c (w ++ rest)) by done.
    rewrite Hc. cbn [negb andb].
    rewrite <- (length_snoc_Z pre c).
    rewrite (IH (pre ++ [c]) rest) by
      (first [done | by rewrite <- app_assoc | simpl in Hfuel; lia]).
    by rewrite <- !app_assoc.
Qed.

Lemma read_quoted_loop_spec (quote : byte) (body s : list byte) :
  quote ≠ BACKSLASH →
  Escaped quote body s →
  ∀ (pre rest buf : list byte) (fuel : nat),
    mb_data mb = pre ++ body ++ quote :: rest →
    (length body < fuel)%nat →
    read_quoted_loop mb quote fuel (Z.of_nat (length pre)) buf
    = Ok (Z.of_nat (length (pre ++ body)), buf ++ s).
Proof.
  intros Hq Hesc.
  induction Hesc as [|c body s Hc1 Hc2 Hesc IH|c body s Hesc IH];
    intros pre rest buf fuel Hd Hfuel;
    (destruct fuel as [|fuel]; [simpl in Hfuel; lia|]); cbn [read_quoted_loop].
  - rewrite !app_nil_r. simpl in Hd.
    rewrite (in_file pre quote rest), (byte_at_middle pre quote rest) by done.
    by rewrite bool_decide_eq_true_2.
  - simpl in Hd.
    rewrite (in_file pre c _ Hd), (byte_at_middle pre c _ Hd).
    rewrite !bool_decide_eq_false_2 by done. cbn [negb andb].
    rewrite <- (length_snoc_Z pre c).
    rewrite (IH (pre ++ [c]) rest) by
      (first [done | by rewrite <- app_assoc | simpl in Hfuel; lia]).
    by rewrite <- !app_assoc.
  - simpl in Hd.
    rewrite (in_file pre BACKSLASH _ Hd), (byte_at_middle pre BACKSLASH _ Hd).
    rewrite (bool_decide_eq_false_2 (BACKSLASH = quote)) by done. cbn [negb andb].
    rewrite bool_decide_eq_true_2 by done.
    assert (Hd' : mb_data mb = (pre ++ [BACKSLASH]) ++ c :: body ++ quote :: rest)
      by by rewrite <- app_assoc.
    pose proof (byte_at_middle _ _ _ Hd') as Hat.
    rewrite length_snoc_Z in Hat.
    assert (Hin : Z.of_nat (length pre) + 1 < mb_size mb).
    { unfold mb_size. rewrite Hd, length_app. simpl. lia. }
    rewrite (proj2 (Z.ltb_lt _ _) Hin), Hat.
    replace (Z.of_nat (length pre) + 2)
      with (Z.of_nat (length (pre ++ [BACKSLASH; c])))
      by (rewrite length_app; simpl; lia).
    rewrite (IH (pre ++ [BACKSLASH; c]) rest) by
      (first [done | by rewrite <- app_assoc | simpl in Hfuel; lia]).
    by rewrite <- !app_assoc.
Qed.

Lemma read_quoted_spec (quote : byte) (body s : list byte) (path : string)
    (vec : list string) (pre rest : list byte) :
  quote ≠ BACKSLASH →
  Escaped quote body s →
  mb_data mb = pre ++ body ++ quote :: rest →
  read_quoted mb path vec (Z.of_nat (length pre)) quote
  = Ok (vec ++ [String.string_of_list_byte s],
        Z.of_nat (length (pre ++ body ++ [quote]))).
Proof.
  intros Hq Hesc Hd. unfold read_quoted.
  rewrite (read_quoted_loop_spec quote body s Hq Hesc pre rest) by
    (first [done | rewrite Hd, !length_app; simpl; lia]).
  simpl.
  assert (Hd' : mb_data mb = (pre ++ body) ++ quote :: rest)
    by by rewrite <- app_assoc.
  pose proof (in_file _ _ _ Hd') as Hin. apply Z.ltb_lt in Hin.
  rewrite (proj2 (Z.leb_gt _ _)) by done.
  rewrite app_assoc, length_snoc_Z. done.
Qed.

(** The fuel a text takes from the loop: one turn for each white space
    outside quotes and for each token. *)
Lemma read_response_loop_prefix (path : string) (data : list byte)
    (toks : list (list byte)) :
  Lexes data toks →
  ∀ (pre suffix : list byte) (vec : list string),
    mb_data mb = pre ++ data ++ suffix →
    suffix = [] ∨ from_option isspace true (last data) = true →
    ∃ used : nat, (used <= length data)%nat ∧
      ∀ k : nat,
        read_response_loop mb path (used + k) (Z.of_nat (length pre)) vec
        = read_response_loop mb path k (Z.of_nat (length (pre ++ data)))
            (vec ++ (String.string_of_list_byte <$> toks)).
Proof.
  induction 1 as [|c rest toks Hc Hlex IH|w rest toks Hw Hrest Hlex IH
                  |quote body s rest toks Hq Hesc Hlex IH];
    intros pre suffix vec Hd Hend.
  - exists 0%nat. split; [done|]. intros k. by rewrite !app_nil_r.
  - destruct (IH (pre ++ [c]) suffix vec) as (used & Hused & Hrun).
    { by rewrite <- app_assoc. }
    { destruct Hend as [|Hend]; [by left|]. destruct rest; [by right|].
      right. done. }
    exists (S used). split; [simpl; lia|]. intros k.
    cbn [Nat.add read_response_loop].
    simpl in Hd. rewrite (in_file pre c _ Hd), (byte_at_middle pre c _ Hd), Hc.
    rewrite <- (length_snoc_Z pre c), Hrun. by rewrite <- app_assoc.
  - destruct Hw as (Hne & Hns & Hsq & Hdq).
    destruct w as [|c w]; [done|]. simpl in Hsq, Hdq.
    apply Forall_cons in Hns as Hns'. destruct Hns' as [Hc Hns'].
    assert (Hnext : from_option isspace true (head (rest ++ suffix)) = true).
    { destruct rest as [|r rest]; [|done]. simpl.
      destruct Hend as [->|Hend]; [done|].
      rewrite app_nil_r in Hend.
      assert (Hl : ∃ x, last (c :: w) = Some x ∧ isspace x = false).
      { destruct (last (c :: w)) as [x|] eqn:Hx.
        - exists x. split; [done|].
          apply last_Some_elem_of in Hx.
          by apply (proj1 (Forall_forall _ _) Hns).
        - by apply last_None in Hx. }
      destruct Hl as (x & Hx & Hxs). rewrite Hx in Hend. simpl in Hend. congruence. }
    destruct (IH (pre ++ c :: w) suffix (vec ++ [String.string_of_list_byte (c :: w)]))
      as (used & Hused & Hrun).
    { rewrite Hd. by simplify_list_eq. }
    { destruct Hend as [|Hend]; [by left|]. destruct rest as [|r rest]; [by right|].
      right. rewrite last_app in Hend. simpl in Hend.
      destruct (last (r :: rest)) eqn:Hl; [done|]. by apply last_None in Hl. }
    exists (S used). split; [rewrite length_app; simpl; lia|]. intros k.
    cbn [Nat.add read_response_loop].
    assert (Hd' : mb_data mb = pre ++ c :: (w ++ rest ++ suffix)).
    { rewrite Hd. by simplify_list_eq. }
    rewrite (in_file pre c _ Hd'), (byte_at_middle pre c _ Hd'), Hc.
    rewrite !bool_decide_eq_false_2 by congruence.
    unfold read_unquoted.
    rewrite (read_unquoted_loop_spec (c :: w) pre (rest ++ suffix)); first last.
    { rewrite Hd, !length_app. simpl. lia. }
    { done. }
    { done. }
    { rewrite Hd. by simplify_list_eq. }
    simpl. rewrite Hrun. rewrite <- !app_assoc. simpl. done.
  - assert (Hqb : quote ≠ BACKSLASH) by (destruct Hq as [->| ->]; done).
    assert (Hqs : isspace quote = false) by (destruct Hq as [->| ->]; done).
    destruct (IH (pre ++ quote :: body ++ [quote]) suffix
                (vec ++ [String.string_of_list_byte s]))
      as (used & Hused & Hrun).
    { rewrite Hd. by simplify_list_eq. }
    { destruct Hend as [|Hend]; [by left|]. destruct rest as [|r rest]; [by right|].
      right.
      replace (quote :: body ++ quote :: r :: rest)
        with ((quote :: body ++ [quote]) ++ r :: rest) in Hend
        by (simpl; by rewrite <- app_assoc).
      rewrite last_app in Hend.
      destruct (last (r :: rest)) eqn:Hl; [done|]. by apply last_None in Hl. }
    exists (S used). split; [simpl; rewrite length_app; simpl; lia|]. intros k.
    cbn [Nat.add read_response_loop].
    assert (Hd' : mb_data mb = pre ++ quote :: (body ++ quote :: rest ++ suffix)).
    { rewrite Hd. by simplify_list_eq. }
    rewrite (in_file pre quote _ Hd'), (byte_at_middle pre quote _ Hd'), Hqs.
    assert (Hd2 : mb_data mb = (pre ++ [quote]) ++ body ++ quote :: rest ++ suffix).
    { rewrite Hd'. by simplify_list_eq. }
    rewrite <- (length_snoc_Z pre quote).
    destruct Hq as [-> | ->].
    + rewrite bool_decide_eq_true_2 by done.
      rewrite (read_quoted_spec SQUOTE body s path vec (pre ++ [SQUOTE]) (rest ++ suffix))
        by done.
      simpl. rewrite <- !app_assoc. simpl. rewrite <- !app_assoc in Hrun.
      simpl in Hrun. rewrite Hrun. by rewrite <- !app_assoc.
    + rewrite bool_decide_eq_false_2 by done.
      rewrite bool_decide_eq_true_2 by done.
      rewrite (read_quoted_spec DQUOTE body s path vec (pre ++ [DQUOTE]) (rest ++ suffix))
        by done.
      simpl. rewrite <- !app_assoc. simpl. rewrite <- !app_assoc in Hrun.
      simpl in Hrun. rewrite Hrun. by rewrite <- !app_assoc.
Qed.

Lemma read_response_loop_lexes (path : string) (toks : list (list byte)) :
  Lexes (mb_data mb) toks →
  read_response_loop mb path (S (length (mb_data mb))) 0 []
  = Ok (String.string_of_list_byte <$> toks).
Proof.
  intros Hlex.
  destruct (read_response_loop_prefix path (mb_data mb) toks Hlex [] [] [])
    as (used & Hused & Hrun); [by rewrite app_nil_r|by left|].
  replace (S (length (mb_data mb)))
    with (used + S (length (mb_data mb) - used))%nat by lia.
  change 0 with (Z.of_nat (length (@nil byte))).
  rewrite Hrun. cbn [read_response_loop].
  by rewrite (at_end_of_file ([] ++ mb_data mb)).
Qed.

Lemma read_quoted_loop_prefix (quote : byte) (body s : list byte) :
  quote ≠ BACKSLASH →
  Escaped quote body s →
  ∀ (pre tail buf : list byte),
    mb_data mb = pre ++ body ++ tail →
    ∃ used : nat, (used <= length body)%nat ∧
      ∀ k : nat,
        read_quoted_loop mb quote (used + k) (Z.of_nat (length pre)) buf
        = read_quoted_loop mb quote k (Z.of_nat (length (pre ++ body))) (buf ++ s).
Proof.
  intros Hq Hesc.
  induction Hesc as [|c body s Hc1 Hc2 Hesc IH|c body s Hesc IH];
    intros pre tail buf Hd.
  - exists 0%nat. split; [done|]. intros k. by rewrite !app_nil_r.
  - destruct (IH (pre ++ [c]) tail (buf ++ [c])) as (used & Hused & Hrun).
    { rewrite Hd. by simplify_list_eq. }
    exists (S used). split; [simpl; lia|]. intros k.
    cbn [Nat.add read_quoted_loop]. simpl in Hd.
    rewrite (in_file pre c _ Hd), (byte_at_middle pre c _ Hd).
    rewrite !bool_decide_eq_false_2 by done. cbn [negb andb].
    rewrite <- (length_snoc_Z pre c), Hrun. by rewrite <- !app_assoc.
  - destruct (IH (pre ++ [BACKSLASH; c]) tail (buf ++ [c])) as (used & Hused & Hrun).
    { rewrite Hd. by simplify_list_eq. }
    exists (S used). split; [simpl; lia|]. intros k.
    cbn [Nat.add read_quoted_loop]. simpl in Hd.
    rewrite (in_file pre BACKSLASH _ Hd), (byte_at_middle pre BACKSLASH _ Hd).
    rewrite (bool_decide_eq_false_2 (BACKSLASH = quote)) by done. cbn [negb andb].
    rewrite bool_decide_eq_true_2 by done.
    assert (Hd' : mb_data mb = (pre ++ [BACKSLASH]) ++ c :: body ++ tail)
      by (rewrite Hd; by simplify_list_eq).
    pose proof (byte_at_middle _ _ _ Hd') as Hat.
    rewrite length_snoc_Z in Hat.
    assert (Hin : Z.of_nat (length pre) + 1 < mb_size mb).
    { unfold mb_size. rewrite Hd, length_app. simpl. lia. }
    rewrite (proj2 (Z.ltb_lt _ _) Hin), Hat.
    replace (Z.of_nat (length pre) + 2)
      with (Z.of_nat (length (pre ++ [BACKSLASH; c])))
      by (rewrite length_app; simpl; lia).
    rewrite Hrun. by rewrite <- !app_assoc.
Qed.

(** A quote that is opened and not closed. *)
Lemma read_quoted_unclosed (quote : byte) (body s : list byte) (path : string)
    (vec : list string) (pre : list byte) :
  quote ≠ BACKSLASH →
  Escaped quote body s →
  (mb_data mb = pre ++ body →
   read_quoted mb path vec (Z.of_nat (length pre)) quote
   = Fatal (path +:+ ": premature end of input"))
  ∧ (mb_data mb = pre ++ body ++ [BACKSLASH] →
     read_quoted mb path vec (Z.of_nat (length pre)) quote = OutOfBounds).
Proof.
  intros Hq Hesc. split; intros Hd.
  - destruct (read_quoted_loop_prefix quote body s Hq Hesc pre [] [])
      as (used & Hused & Hrun); [by rewrite app_nil_r|].
    unfold read_quoted.
    replace (S (length (mb_data mb)))
      with (used + S (length (mb_data mb) - used))%nat
      by (rewrite Hd, length_app; lia).
    rewrite Hrun. cbn [read_quoted_loop].
    rewrite (at_end_of_file (pre ++ body)) by done. simpl.
    pose proof (at_end_of_file (pre ++ body) Hd) as Hend.
    apply Z.ltb_ge in Hend. by rewrite (proj2 (Z.leb_le _ _) Hend).
  - destruct (read_quoted_loop_prefix quote body s Hq Hesc pre [BACKSLASH] [])
      as (used & Hused & Hrun); [done|].
    unfold read_quoted.
    replace (S (length (mb_data mb)))
      with (used + S (length (mb_data mb) - used))%nat
      by (rewrite Hd, !length_app; lia).
    rewrite Hrun. cbn [read_quoted_loop].
    assert (Hd' : mb_data mb = (pre ++ body) ++ [BACKSLASH])
      by (rewrite Hd; by simplify_list_eq).
    rewrite (in_file _ _ _ Hd'), (byte_at_middle _ _ _ Hd').
    rewrite (bool_decide_eq_false_2 (BACKSLASH = quote)) by done. cbn [negb andb].
    rewrite bool_decide_eq_true_2 by done.
    assert (Hin : mb_size mb <= Z.of_nat (length (pre ++ body)) + 1).
    { unfold mb_size. rewrite Hd', (length_app _ [BACKSLASH]). simpl. lia. }
    by rewrite (proj2 (Z.ltb_ge _ _) Hin).
Qed.

Lemma read_response_loop_unclosed (path : string) (pre : list byte)
    (toks : list (list byte)) (quote : byte) (body s : list byte) :
  Lexes pre toks →
  from_option isspace true (last pre) = true →
  quote = SQUOTE ∨ quote = DQUOTE →
  Escaped quote body s →
  (mb_data mb = pre ++ quote :: body →
   read_response_loop mb path (S (length (mb_data mb))) 0 []
   = Fatal (path +:+ ": premature end of input"))
  ∧ (mb_data mb = pre ++ quote :: body ++ [BACKSLASH] →
     read_response_loop mb path (S (length (mb_data mb))) 0 [] = OutOfBounds).
Proof.
  intros Hlex Hlast Hq Hesc.
  assert (Hqb : quote ≠ BACKSLASH) by (destruct Hq as [->| ->]; done).
  assert (Hqs : isspace quote = false) by (destruct Hq as [->| ->]; done).
  assert (Hrun : ∀ tail r,
            mb_data mb = pre ++ quote :: tail →
            (∀ vec, read_quoted mb path vec (Z.of_nat (length (pre ++ [quote]))) quote = r) →
            ∃ fuel,
              read_response_loop mb path (S (length (mb_data mb))) 0 []
              = '(vec, i) ← r; read_response_loop mb path fuel i vec).
  { intros tail r Hd Hr.
    destruct (read_response_loop_prefix path pre toks Hlex [] (quote :: tail) [])
      as (used & Hused & Hrun); [done|by right|].
    exists (length (mb_data mb) - used)%nat.
    replace (S (length (mb_data mb)))
      with (used + S (length (mb_data mb) - used))%nat
      by (rewrite Hd, !length_app; lia).
    change 0 with (Z.of_nat (length (@nil byte))).
    rewrite Hrun. cbn [read_response_loop]. simpl.
    rewrite (in_file pre quote tail Hd), (byte_at_middle pre quote tail Hd), Hqs.
    rewrite <- (length_snoc_Z pre quote).
    destruct Hq as [-> | ->].
    - rewrite bool_decide_eq_true_2 by done. by rewrite Hr.
    - rewrite bool_decide_eq_false_2 by done.
      rewrite bool_decide_eq_true_2 by done. by rewrite Hr. }
  split; intros Hd.
  - destruct (Hrun body (Fatal (path +:+ ": premature end of input")) Hd)
      as [fuel ->]; [|done].
    intros vec. apply (read_quoted_unclosed quote body s path vec (pre ++ [quote]) Hqb Hesc).
    rewrite Hd. by simplify_list_eq.
  - destruct (Hrun (body ++ [BACKSLASH]) OutOfBounds Hd) as [fuel ->]; [|done].
    intros vec. apply (read_quoted_unclosed quote body s path vec (pre ++ [quote]) Hqb Hesc).
    rewrite Hd. by simplify_list_eq.
Qed.

End ResponseFile.

Lemma Escaped_escape (quote : byte) (s : list byte) :
  Escaped quote (escape quote s) s.
Proof.
  induction s as [|c s IH]; [constructor|].
  unfold escape. simpl. fold (escape quote s).
  case_bool_decide as Hc; simpl.
  - by constructor.
  - constructor; [tauto|tauto|done].
Qed.

Lemma Lexes_response_text (quote : byte) (args : list string) :
  quote = SQUOTE ∨ quote = DQUOTE →
  Lexes (response_text quote args) (String.list_byte_of_string <$> args).
Proof.
  intros Hq. induction args as [|arg args IH]; [constructor|].
  unfold response_text. simpl. fold (response_text quote args).
  rewrite <- !app_assoc. simpl.
  apply Lexes_quoted; [done|apply Escaped_escape|].
  by apply Lexes_space.
Qed.

Lemma fmap_string_of_list_byte (args : list string) :
  String.string_of_list_byte <$> (String.list_byte_of_string <$> args) = args.
Proof.
  induction args as [|arg args IH]; [done|]. simpl.
  rewrite String.string_of_list_byte_of_string. f_equal. apply IH.
Qed.

Section ResponseFiles.
Context `{FileDecls}.

(** X4: [read_response_file] splits the text of the file into tokens: white
    space between tokens is skipped, a word outside quotes runs up to the
    next white space, and a string in single or double quotes runs up to
    the closing quote, a backslash inside it making the next byte stand for
    itself; a token that follows a closing quote without a space is a token
    of its own. *)
Theorem read_response_file_tokens (path : string) (mb : MemoryMappedFile)
    (toks : list (list byte)) :
  MemoryMappedFile_must_open path = Ok mb →
  mb_size mb < INT_MAX →
  Lexes (mb_data mb) toks →
  read_response_file path = Ok (String.string_of_list_byte <$> toks).
Proof.
  intros Hopen Hsize Hlex. unfold read_response_file. rewrite Hopen.
  cbv beta iota delta [mbind Result_bind].
  by apply read_response_loop_lexes.
Qed.

(** X5: every list of arguments, whatever bytes they hold, comes back from
    a response file that holds them between quotes (single or double), one
    on a line, with a backslash put before each quote and backslash. *)
Theorem read_response_file_quoted_round_trip (path : string)
    (mb : MemoryMappedFile) (quote : byte) (args : list string) :
  MemoryMappedFile_must_open path = Ok mb →
  mb_size mb < INT_MAX →
  quote = SQUOTE ∨ quote = DQUOTE →
  mb_data mb = response_text quote args →
  read_response_file path = Ok args.
Proof.
  intros Hopen Hsize Hq Hd. unfold read_response_file. rewrite Hopen.
  cbv beta iota delta [mbind Result_bind].
  rewrite (read_response_loop_lexes mb Hsize path (String.list_byte_of_string <$> args)).
  - by rewrite fmap_string_of_list_byte.
  - rewrite Hd. by apply Lexes_response_text.
Qed.

(** X6: a quote that is opened and never closed ends the run with the
    message "premature end of input"; but when the last byte of the file is
    a backslash inside the quote, the byte after the end of the file is
    read. *)
Theorem read_response_file_unclosed_quote (path : string)
    (mb : MemoryMappedFile) (pre : list byte) (toks : list (list byte))
    (quote : byte) (body s : list byte) :
  MemoryMappedFile_must_open path = Ok mb →
  mb_size mb < INT_MAX →
  Lexes pre toks →
  from_option isspace true (last pre) = true →
  quote = SQUOTE ∨ quote = DQUOTE →
  Escaped quote body s →
  (mb_data mb = pre ++ quote :: body →
   read_response_file path = Fatal (path +:+ ": premature end of input"))
  ∧ (mb_data mb = pre ++ quote :: body ++ [BACKSLASH] →
     read_response_file path = OutOfBounds).
Proof.
  intros Hopen Hsize Hlex Hlast Hq Hesc.
  unfold read_response_file. rewrite Hopen.
  cbv beta iota delta [mbind Result_bind].
  by apply (read_response_loop_unclosed mb Hsize path pre toks quote body s).
Qed.

Lemma expand_response_files_from_no_at (argv vec : list string) :
  Forall no_at argv →
  expand_response_files_from argv vec = Ok (vec ++ argv).
Proof.
  intros Hall. revert vec.
  induction Hall as [|arg argv Harg Hall IH]; intros vec; simpl.
  - by rewrite app_nil_r.
  - destruct arg as [|a arg]; [rewrite IH; by rewrite <- app_assoc|].
    destruct a as [[] [] [] [] [] [] [] []];
      try (rewrite IH; by rewrite <- app_assoc).
    done.
Qed.

Lemma expand_response_files_from_app (pre argv vec : list string) :
  Forall no_at pre →
  expand_response_files_from (pre ++ argv) vec
  = expand_response_files_from argv (vec ++ pre).
Proof.
  intros Hall. revert vec.
  induction Hall as [|arg pre Harg Hall IH]; intros vec; simpl.
  - by rewrite app_nil_r.
  - destruct arg as [|a arg]; [rewrite IH; by rewrite <- app_assoc|].
    destruct a as [[] [] [] [] [] [] [] []];
      try (rewrite IH; by rewrite <- app_assoc).
    done.
Qed.

(** X7: [expand_response_files] puts the tokens of a response file in the
    place of the argument that names it and leaves the other arguments as
    they are, in their order; the tokens are not expanded again, whatever
    they begin with. *)
Theorem expand_response_files_in_place (before after toks : list string)
    (path : string) :
  Forall no_at before → Forall no_at after →
  read_response_file path = Ok toks →
  expand_response_files (before ++ String "@" path :: after)
  = Ok (before ++ toks ++ after).
Proof.
  intros Hb Ha Hread. unfold expand_response_files.
  rewrite expand_response_files_from_app by done. simpl.
  rewrite Hread. simpl.
  rewrite expand_response_files_from_no_at by done.
  by rewrite <- app_assoc.
Qed.

End ResponseFiles.

(* --------------------------------------------------------------------- *)
(** ** find_library                                                       *)
(* --------------------------------------------------------------------- *)

Section FindLibrary.
Context `{FileDecls}.

Lemma find_library_in_cons (config : Config) (name dir : string)
    (lib_paths : list string) :
  find_library_in config name (dir :: lib_paths)
  = match library_in config name dir with
    | Some mb => Ok mb
    | None => find_library_in config name lib_paths
    end.
Proof.
  cbn [find_library_in]. unfold library_in, library_path.
  destruct (negb (cfg_is_static config)); [|done].
  by destruct (MemoryMappedFile_open _).
Qed.

Lemma find_library_in_Ok (config : Config) (name : string)
    (lib_paths : list string) (mb : MemoryMappedFile) :
  find_library_in config name lib_paths = Ok mb
  ↔ ∃ before dir after,
      lib_paths = before ++ dir :: after
      ∧ Forall (λ d, library_in config name d = None) before
      ∧ library_in config name dir = Some mb.
Proof.
  induction lib_paths as [|dir lib_paths IH].
  - simpl. split; [done|]. intros (before & d & after & Heq & _).
    by destruct before.
  - rewrite find_library_in_cons.
    destruct (library_in config name dir) as [mb'|] eqn:Hdir.
    + split.
      * intros [= ->]. exists [], dir, lib_paths. by split_and!.
      * intros (before & d & after & Heq & Hb & Hd).
        destruct before as [|b before]; injection Heq as -> ->; [congruence|].
        apply Forall_cons in Hb as [Hb _]. congruence.
    + rewrite IH. split.
      * intros (before & d & after & -> & Hb & Hd).
        exists (dir :: before), d, after. split_and!; [done| |done].
        by constructor.
      * intros (before & d & after & Heq & Hb & Hd).
        destruct before as [|b before]; injection Heq as -> ->; [congruence|].
        apply Forall_cons in Hb as [_ Hb]. by exists before, d, after.
Qed.

Lemma find_library_in_Fatal (config : Config) (name : string)
    (lib_paths : list string) :
  find_library_in config name lib_paths = Fatal ("library not found: " +:+ name)
  ↔ Forall (λ d, library_in config name d = None) lib_paths.
Proof.
  induction lib_paths as [|dir lib_paths IH]; [simpl; by split|].
  rewrite find_library_in_cons, Forall_cons.
  destruct (library_in config name dir) as [mb'|] eqn:Hdir.
  - split; [done|]. by intros [? _].
  - rewrite IH. tauto.
Qed.

(** X8: [find_library] answers with the library of the first directory, in
    the order of the search path, that holds one; in a directory the shared
    object lib<name>.so is taken before the archive lib<name>.a, but an
    archive in an earlier directory before a shared object in a later one.
    A static link never opens a shared object. When no directory holds the
    library the run ends with "library not found". *)
Theorem find_library_first_match (config : Config) (name : string)
    (lib_paths : list string) :
  (∀ mb, find_library config name lib_paths = Ok mb
         ↔ ∃ before dir after,
             lib_paths = before ++ dir :: after
             ∧ Forall (λ d, library_in config name d = None) before
             ∧ library_in config name dir = Some mb)
  ∧ (find_library config name lib_paths = Fatal ("library not found: " +:+ name)
     ↔ Forall (λ d, library_in config name d = None) lib_paths)
  ∧ (cfg_is_static config = true →
     ∀ mb, find_library config name lib_paths = Ok mb →
     ∃ dir, dir ∈ lib_paths
            ∧ MemoryMappedFile_open (library_path config dir name ".a") = Some mb).
Proof.
  unfold find_library. split_and!.
  - intros mb. apply find_library_in_Ok.
  - apply find_library_in_Fatal.
  - intros Hstatic mb (before & dir & after & -> & _ & Hd)%find_library_in_Ok.
    exists dir. split; [set_solver|].
    unfold library_in in Hd. rewrite Hstatic in Hd. done.
Qed.

End FindLibrary.

(* --------------------------------------------------------------------- *)
(** ** Strings: starts_with and substr                                    *)
(* --------------------------------------------------------------------- *)

Lemma append_cons (x : ascii) (a b : string) :
  String x a +:+ b = String x (a +:+ b).
Proof. reflexivity. Qed.

Lemma starts_with_app (p s : string) : starts_with (p +:+ s) p = true.
Proof.
  unfold starts_with. induction p as [|a p IH]; simpl.
  - by destruct s.
  - by destruct (ascii_dec a a).
Qed.

Lemma starts_with_cons (a b : ascii) (s p : string) :
  starts_with (String a s) (String b p)
  = bool_decide (a = b) && starts_with s p.
Proof.
  unfold starts_with. simpl.
  destruct (ascii_dec b a) as [->|Hne].
  - by rewrite bool_decide_eq_true_2.
  - rewrite bool_decide_eq_false_2; [done|congruence].
Qed.

Lemma starts_with_nil (s : string) : starts_with s "" = true.
Proof. by destruct s. Qed.

Lemma substring_all (s : string) : String.substring 0 (String.length s) s = s.
Proof. induction s as [|a s IH]; simpl; [done|by rewrite IH]. Qed.

Lemma length_append (p s : string) :
  String.length (p +:+ s) = (String.length p + String.length s)%nat.
Proof. induction p as [|a p IH]; simpl; [done|f_equal; apply IH]. Qed.

Lemma substr_app (p s : string) : substr (p +:+ s) (String.length p) = s.
Proof.
  unfold substr. rewrite length_append.
  replace (String.length p + String.length s - String.length p)%nat
    with (String.length s) by lia.
  induction p as [|a p IH]; simpl; [apply substring_all|apply IH].
Qed.

Lemma append_assoc (a b c : string) : (a +:+ b) +:+ c = a +:+ b +:+ c.
Proof. induction a as [|x a IH]; [done|]. by rewrite !append_cons, IH. Qed.

Lemma append_nil_r (a : string) : a +:+ "" = a.
Proof. induction a as [|x a IH]; [done|]. by rewrite append_cons, IH. Qed.

Lemma append_eq_self (p s : string) : p +:+ s = p → s = "".
Proof.
  intros Heq. apply (f_equal String.length) in Heq.
  rewrite length_append in Heq. destruct s; [done|simpl in Heq; lia].
Qed.

Lemma starts_with_length (s p : string) :
  starts_with s p = true → (String.length p <= String.length s)%nat.
Proof.
  unfold starts_with. revert s. induction p as [|a p IH]; intros s Hp; simpl.
  - lia.
  - destruct s as [|b s]; simpl in Hp; [done|].
    destruct (ascii_dec a b); [|done]. apply IH in Hp. simpl. lia.
Qed.

Lemma starts_with_split (s p : string) :
  starts_with s p = true → s = p +:+ substr s (String.length p).
Proof.
  unfold starts_with. revert s. induction p as [|a p IH]; intros s Hp.
  - unfold substr. simpl. rewrite Nat.sub_0_r. by rewrite substring_all.
  - destruct s as [|b s]; simpl in Hp; [done|].
    destruct (ascii_dec a b) as [->|]; [|done].
    rewrite append_cons. f_equal. rewrite (IH s Hp) at 1. done.
Qed.

Lemma starts_with_trans (s p q : string) :
  starts_with s (p +:+ q) = true → starts_with s p = true.
Proof.
  unfold starts_with. revert s. induction p as [|a p IH]; intros s Hp.
  - by destruct s.
  - destruct s as [|b s]; simpl in *; [done|].
    destruct (ascii_dec a b); [by apply IH|done].
Qed.

Lemma starts_with_refl (s : string) : starts_with s s = true.
Proof. rewrite <- (append_nil_r s) at 1. apply starts_with_app. Qed.

Lemma append_inj (p a b : string) : p +:+ a = p +:+ b → a = b.
Proof.
  induction p as [|x p IH]; [done|]. rewrite !append_cons. intros [= Heq].
  by apply IH.
Qed.

(* --------------------------------------------------------------------- *)
(** ** parse_number and parse_hex                                         *)
(* --------------------------------------------------------------------- *)

Lemma find_first_not_of_None (s chars : string) :
  find_first_not_of s chars = None
  ↔ Forall (λ c, c ∈ String.list_ascii_of_string chars)
           (String.list_ascii_of_string s).
Proof.
  induction s as [|c s IH]; simpl.
  - split; [constructor|done].
  - rewrite Forall_cons. case_bool_decide as Hc.
    + rewrite fmap_None, IH. tauto.
    + split; [done|]. tauto.
Qed.

Lemma strtol_decimal_acc (d : Decimal.uint) (acc : positive) :
  strtol_digits 10 (DecimalString.NilEmpty.string_of_uint d) (Some (Z.pos acc))
  = Some (Z.pos (Pos.of_uint_acc d acc)).
Proof.
  revert acc. induction d; intros acc; simpl; [done|..];
    (etrans; [|apply IHd]); do 2 f_equal; lia.
Qed.

Lemma strtol_decimal_zero (d : Decimal.uint) :
  strtol_digits 10 (DecimalString.NilEmpty.string_of_uint d) (Some 0)
  = Some (Z.of_N (Pos.of_uint d)).
Proof.
  induction d; simpl; [done|apply IHd|..]; apply strtol_decimal_acc.
Qed.

Lemma strtol_decimal (d : Decimal.uint) :
  d ≠ Decimal.Nil →
  strtol_digits 10 (DecimalString.NilEmpty.string_of_uint d) None
  = Some (Z.of_N (Pos.of_uint d)).
Proof.
  destruct d; intros Hd; simpl; [done|apply strtol_decimal_zero|..];
    apply strtol_decimal_acc.
Qed.

Lemma decimal_digits (d : Decimal.uint) :
  Forall (λ c, is_digit c = true)
         (String.list_ascii_of_string (DecimalString.NilEmpty.string_of_uint d)).
Proof. induction d; simpl; constructor; done. Qed.

Lemma strtol_hexadecimal_acc (d : Hexadecimal.uint) (acc : positive) :
  strtol_digits 16 (HexadecimalString.NilEmpty.string_of_uint d) (Some (Z.pos acc))
  = Some (Z.pos (Pos.of_hex_uint_acc d acc)).
Proof.
  revert acc. induction d; intros acc; simpl; [done|..];
    (etrans; [|apply IHd]); do 2 f_equal; lia.
Qed.

Lemma strtol_hexadecimal_zero (d : Hexadecimal.uint) :
  strtol_digits 16 (HexadecimalString.NilEmpty.string_of_uint d) (Some 0)
  = Some (Z.of_N (Pos.of_hex_uint d)).
Proof.
  induction d; simpl; [done|apply IHd|..]; apply strtol_hexadecimal_acc.
Qed.

Lemma strtol_hexadecimal (d : Hexadecimal.uint) :
  d ≠ Hexadecimal.Nil →
  strtol_digits 16 (HexadecimalString.NilEmpty.string_of_uint d) None
  = Some (Z.of_N (Pos.of_hex_uint d)).
Proof.
  destruct d; intros Hd; simpl; [done|apply strtol_hexadecimal_zero|..];
    apply strtol_hexadecimal_acc.
Qed.

Lemma hexadecimal_digits (d : Hexadecimal.uint) :
  Forall (λ c, is_xdigit c = true)
         (String.list_ascii_of_string (HexadecimalString.NilEmpty.string_of_uint d)).
Proof. induction d; simpl; constructor; done. Qed.

Lemma stol_decimal (n : Z) :
  0 <= n →
  stol (decimal n) 10 = if LONG_MAX <? n then inl out_of_range else inr n.
Proof.
  intros Hn. unfold stol, decimal. rewrite strtol_decimal.
  - change (Pos.of_uint ?d) with (N.of_uint d).
    rewrite DecimalN.Unsigned.of_to, Z2N.id by done. done.
  - destruct (Z.to_N n); [done|]. apply DecimalPos.Unsigned.to_uint_nonnil.
Qed.

Lemma stol_hexadecimal (n : Z) :
  0 <= n →
  stol (hexadecimal n) 16 = if LONG_MAX <? n then inl out_of_range else inr n.
Proof.
  intros Hn. unfold stol, hexadecimal. rewrite strtol_hexadecimal.
  - change (Pos.of_hex_uint ?d) with (N.of_hex_uint d).
    rewrite HexadecimalN.Unsigned.of_to, Z2N.id by done. done.
  - destruct (Z.to_N n); [done|]. apply HexadecimalPos.Unsigned.to_uint_nonnil.
Qed.

(** X9: [parse_number] reads back every number written in base ten that
    fits a [long]; a number that does not fit is not reported as an error
    of the option but leaves [std::stol] as an [out_of_range] exception,
    and the empty string as [invalid_argument]; a string with any other
    character than the ten digits, a sign included, is the fatal error
    "not a number". *)
Theorem parse_number_decimal (opt : string) :
  (∀ n, 0 <= n →
     parse_number opt (decimal n)
     = Ok (if LONG_MAX <? n then inl out_of_range else inr n))
  ∧ parse_number opt "" = Ok (inl invalid_argument)
  ∧ (∀ value,
       parse_number opt value = Fatal ("option -" +:+ opt +:+ ": not a number")
       ↔ ¬ Forall (λ c, is_digit c = true) (String.list_ascii_of_string value))
  ∧ (∀ value v, parse_number opt value = Ok (inr v) → 0 <= v <= LONG_MAX).
Proof.
  split_and!.
  - intros n Hn. unfold parse_number.
    rewrite bool_decide_eq_false_2.
    + by rewrite stol_decimal.
    + intros Hne. apply Hne, find_first_not_of_None.
      eapply Forall_impl; [apply decimal_digits|].
      intros c Hc. by apply bool_decide_eq_true in Hc.
  - done.
  - intros value. unfold parse_number. case_bool_decide as Hf.
    + split; [|done]. intros _ Hall. apply Hf, find_first_not_of_None.
      eapply Forall_impl; [apply Hall|].
      intros c Hc. by apply bool_decide_eq_true in Hc.
    + split; [done|]. intros Hall. exfalso. apply Hall.
      apply find_first_not_of_None in Hf.
      eapply Forall_impl; [apply Hf|].
      intros c Hc. by apply bool_decide_eq_true.
  - intros value v. unfold parse_number. case_bool_decide; [done|].
    unfold stol. intros [= Hv].
    destruct (strtol_digits 10 value None) as [x|] eqn:Hx; [|done].
    destruct (Z.ltb_spec LONG_MAX x); [done|]. injection Hv as <-.
    split; [|done].
    assert (Hnn : ∀ s acc x, from_option (λ a, 0 <= a) True acc →
              strtol_digits 10 s acc = Some x → 0 <= x).
    { clear. induction s as [|c s IH]; intros acc x Hacc; simpl.
      - intros ->. done.
      - destruct (digit_value 10 c) as [d|] eqn:Hd; [|intros ->; done].
        apply IH. simpl.
        assert (0 <= d).
        { unfold digit_value in Hd.
          repeat case_match; simplify_eq; lia. }
        destruct acc; simpl in *; lia. }
    by apply (Hnn value None x).
Qed.

Lemma strtol_digits_nonneg (base : Z) (s : string) (acc : option Z) (x : Z) :
  0 <= base →
  from_option (λ a, 0 <= a) True acc →
  strtol_digits base s acc = Some x → 0 <= x.
Proof.
  intros Hb. revert acc x. induction s as [|c s IH]; intros acc x Hacc; simpl.
  - intros ->. done.
  - destruct (digit_value base c) as [d|] eqn:Hd; [|intros ->; done].
    apply IH. simpl.
    assert (0 <= d).
    { unfold digit_value in Hd. repeat case_match; simplify_eq; lia. }
    destruct acc; simpl in *; nia.
Qed.

Lemma parse_hex_prefixed (opt pre digits : string) :
  pre = "0x" ∨ pre = "0X" →
  parse_hex opt (pre +:+ digits)
  = if bool_decide (find_first_not_of digits "0123456789abcdefABCDEF" ≠ None)
    then Fatal ("option -" +:+ opt +:+ ": not a hexadecimal number")
    else Ok (stol digits 16).
Proof.
  intros Hpre. unfold parse_hex.
  assert (Hs : starts_with (pre +:+ digits) "0x" || starts_with (pre +:+ digits) "0X"
               = true).
  { destruct Hpre as [-> | ->]; rewrite starts_with_app; by rewrite ?orb_true_r. }
  destruct (starts_with (pre +:+ digits) "0x"), (starts_with (pre +:+ digits) "0X");
    try done; clear Hs; cbn [negb andb];
    replace 2%nat with (String.length pre) by (destruct Hpre as [-> | ->]; done);
    by rewrite substr_app.
Qed.

Lemma digit_value_xdigit (c : ascii) :
  is_xdigit c = true → digit_value 16 c = Some (xdigit_value c).
Proof.
  intros Hc. apply bool_decide_eq_true in Hc.
  repeat (apply elem_of_cons in Hc as [->|Hc]; [reflexivity|]).
  by apply elem_of_nil in Hc.
Qed.

Lemma strtol_digits_hex_value (digits : list ascii) (acc : Z) :
  Forall (λ c, is_xdigit c = true) digits →
  strtol_digits 16 (String.string_of_list_ascii digits) (Some acc)
  = Some (foldl (λ acc c, 16 * acc + xdigit_value c) acc digits).
Proof.
  intros Hall. revert acc.
  induction Hall as [|c digits Hc _ IH]; intros acc; simpl; [done|].
  rewrite (digit_value_xdigit c Hc), IH. do 2 f_equal. lia.
Qed.

Lemma stol_hex_value (digits : string) :
  digits ≠ "" →
  Forall (λ c, is_xdigit c = true) (String.list_ascii_of_string digits) →
  stol digits 16
  = if LONG_MAX <? hex_value digits then inl out_of_range
    else inr (hex_value digits).
Proof.
  intros Hne Hall. unfold stol, hex_value.
  destruct digits as [|c digits]; [done|].
  cbn [String.list_ascii_of_string] in Hall |- *.
  apply Forall_cons in Hall as [Hc Hall].
  cbn [strtol_digits foldl]. rewrite (digit_value_xdigit c Hc).
  rewrite <- (String.string_of_list_ascii_of_string digits) at 1.
  rewrite strtol_digits_hex_value by done. done.
Qed.

(** X10: [parse_hex] reads every numeral in base sixteen after [0x] or
    [0X] as the number it stands for, if that fits a [long]: the digits from
    ten on in either case, zeros in front allowed; so it reads back every
    number as the standard library writes it, and what it returns is never
    the all-ones value. A prefix with no digit after it, and a number that
    does not fit, are not reported as errors of the option but leave
    [std::stol] as exceptions. Without the prefix, or with a character
    after it that is no hexadecimal digit, the run ends with "not a
    hexadecimal number". *)
Theorem parse_hex_hexadecimal (opt : string) :
  (∀ n pre, 0 <= n → pre = "0x" ∨ pre = "0X" →
     parse_hex opt (pre +:+ hexadecimal n)
     = Ok (if LONG_MAX <? n then inl out_of_range else inr n))
  ∧ (∀ pre, pre = "0x" ∨ pre = "0X" →
       parse_hex opt pre = Ok (inl invalid_argument))
  ∧ (∀ value,
       parse_hex opt value
       = Fatal ("option -" +:+ opt +:+ ": not a hexadecimal number")
       ↔ ¬ ∃ pre digits,
             (pre = "0x" ∨ pre = "0X") ∧ value = pre +:+ digits
             ∧ Forall (λ c, is_xdigit c = true) (String.list_ascii_of_string digits))
  ∧ (∀ value v, parse_hex opt value = Ok (inr v) → 0 <= v <= LONG_MAX)
  ∧ (∀ pre digits, pre = "0x" ∨ pre = "0X" → digits ≠ "" →
       Forall (λ c, is_xdigit c = true) (String.list_ascii_of_string digits) →
       parse_hex opt (pre +:+ digits)
       = Ok (if LONG_MAX <? hex_value digits then inl out_of_range
             else inr (hex_value digits))).
Proof.
  split_and!.
  - intros n pre Hn Hpre. rewrite parse_hex_prefixed by done.
    rewrite bool_decide_eq_false_2.
    + by rewrite stol_hexadecimal.
    + intros Hne. apply Hne, find_first_not_of_None.
      eapply Forall_impl; [apply hexadecimal_digits|].
      intros c Hc. by apply bool_decide_eq_true in Hc.
  - intros pre [-> | ->]; done.
  - intros value. split.
    + intros Hf (pre & digits & Hpre & -> & Hall).
      rewrite parse_hex_prefixed in Hf by done.
      rewrite bool_decide_eq_false_2 in Hf; [done|].
      intros Hne. apply Hne, find_first_not_of_None.
      eapply Forall_impl; [apply Hall|].
      intros c Hc. by apply bool_decide_eq_true in Hc.
    + intros Hno. unfold parse_hex.
      destruct (starts_with value "0x") eqn:Hx.
      * cbn [negb andb]. case_bool_decide as Hf; [done|]. exfalso. apply Hno.
        exists "0x", (substr value 2). split_and!; [by left| |].
        -- by apply (starts_with_split value "0x").
        -- apply find_first_not_of_None in Hf.
           eapply Forall_impl; [apply Hf|].
           intros c Hc. by apply bool_decide_eq_true.
      * destruct (starts_with value "0X") eqn:HX; [|done].
        cbn [negb andb]. case_bool_decide as Hf; [done|]. exfalso. apply Hno.
        exists "0X", (substr value 2). split_and!; [by right| |].
        -- by apply (starts_with_split value "0X").
        -- apply find_first_not_of_None in Hf.
           eapply Forall_impl; [apply Hf|].
           intros c Hc. by apply bool_decide_eq_true.
  - intros value v. unfold parse_hex.
    destruct (negb _ && negb _); [done|]. case_bool_decide; [done|].
    unfold stol. intros [= Hv].
    destruct (strtol_digits 16 _ None) as [x|] eqn:Hx; [|done].
    destruct (Z.ltb_spec LONG_MAX x); [done|]. injection Hv as <-.
    split; [|done]. by eapply (strtol_digits_nonneg 16 _ None).
  - intros pre digits Hpre Hne Hall. rewrite parse_hex_prefixed by done.
    rewrite bool_decide_eq_false_2.
    + by rewrite stol_hex_value.
    + intros Hnot. apply Hnot, find_first_not_of_None.
      eapply Forall_impl; [apply Hall|].
      intros c Hc. by apply bool_decide_eq_true in Hc.
Qed.

(* --------------------------------------------------------------------- *)
(** ** The readers of options                                             *)
(* --------------------------------------------------------------------- *)

(** An argument that begins neither with a dash and the first character of
    a name nor with two dashes is none of the spellings of the name. *)
Section NoMatch.
Variables (a0 : string) (n : ascii) (name' : string) (rest : list string).
Hypothesis Hone : starts_with a0 (String "-" (String n "")) = false.
Hypothesis Htwo : starts_with a0 "--" = false.

Lemma not_single_dash (tail : string) :
  starts_with a0 ("-" +:+ String n name' +:+ tail) = false.
Proof.
  destruct (starts_with a0 ("-" +:+ String n name' +:+ tail)) eqn:Hs; [|reflexivity].
  change ("-" +:+ String n name' +:+ tail)
    with (String "-" (String n "") +:+ (name' +:+ tail)) in Hs.
  apply starts_with_trans in Hs. congruence.
Qed.

Lemma not_double_dash (tail : string) :
  starts_with a0 ("--" +:+ String n name' +:+ tail) = false.
Proof.
  destruct (starts_with a0 ("--" +:+ String n name' +:+ tail)) eqn:Hs; [|reflexivity].
  change ("--" +:+ String n name' +:+ tail)
    with ("--" +:+ (String n name' +:+ tail)) in Hs.
  apply starts_with_trans in Hs. congruence.
Qed.

Lemma not_spelled (opt tail : string) :
  opt = "-" +:+ String n name' ∨ opt = "--" +:+ String n name' →
  starts_with a0 (opt +:+ tail) = false ∧ a0 ≠ opt.
Proof.
  intros Hopt.
  assert (Hs : ∀ tail, starts_with a0 (opt +:+ tail) = false).
  { intros t. destruct Hopt as [-> | ->].
    - rewrite append_assoc. apply not_single_dash.
    - rewrite append_assoc. apply not_double_dash. }
  split; [apply Hs|]. intros ->.
  specialize (Hs ""). rewrite append_nil_r, starts_with_refl in Hs. done.
Qed.

Lemma add_dashes_spelled (opt : string) :
  opt ∈ add_dashes (String n name') →
  opt = "-" +:+ String n name' ∨ opt = "--" +:+ String n name'.
Proof.
  unfold add_dashes. destruct (negb _); set_solver.
Qed.

Lemma read_arg_no_match :
  read_arg (a0 :: rest) (String n name') = Ok None.
Proof.
  unfold read_arg. case_bool_decide as Hlen.
  - assert (Hn : name' = "") by (by destruct name').
    rewrite Hn.
    change ("-" +:+ String n "") with (String "-" (String n "")).
    rewrite Hone. rewrite bool_decide_eq_false_2; [done|].
    intros ->. by rewrite starts_with_refl in Hone.
  - pose proof add_dashes_spelled as Hopts.
    induction (add_dashes (String n name')) as [|opt opts IH]; [done|].
    destruct (not_spelled opt "=") as [Hs Hne]; [apply Hopts; set_solver|].
    rewrite bool_decide_eq_false_2 by done. rewrite Hs.
    apply IH. intros o Ho. apply Hopts. set_solver.
Qed.

Lemma read_flag_no_match :
  read_flag (a0 :: rest) (String n name') = Ok None.
Proof.
  unfold read_flag. pose proof add_dashes_spelled as Hopts.
  induction (add_dashes (String n name')) as [|opt opts IH]; [done|].
  destruct (not_spelled opt "") as [Hs Hne]; [apply Hopts; set_solver|].
  rewrite bool_decide_eq_false_2 by done.
  apply IH. intros o Ho. apply Hopts. set_solver.
Qed.

Lemma read_equal_no_match (default_ : string) :
  read_equal (a0 :: rest) (String n name') default_ = Ok None.
Proof.
  unfold read_equal. pose proof add_dashes_spelled as Hopts.
  assert (Hwith : ∀ opts, (∀ o, o ∈ opts → o ∈ add_dashes (String n name')) →
    (fix with_equal (opts : list string) : Result (option (string * list string)) :=
       match opts with
       | opt :: opts =>
           if starts_with a0 (opt +:+ "=") then
             Ok (Some (substr a0 (String.length opt + 1), subspan (a0 :: rest) 1))
           else with_equal opts
       | [] => Ok None
       end) opts = Ok None).
  { induction opts as [|opt opts IH]; intros Hin; [done|].
    destruct (not_spelled opt "=") as [Hs Hne]; [apply Hopts, Hin; set_solver|].
    rewrite Hs. apply IH. intros o Ho. apply Hin. set_solver. }
  assert (Hbare : ∀ opts, (∀ o, o ∈ opts → o ∈ add_dashes (String n name')) →
    (fix bare (opts : list string) : Result (option (string * list string)) :=
       match opts with
       | opt :: opts =>
           if bool_decide (a0 = opt) then Ok (Some (default_, subspan (a0 :: rest) 1))
           else bare opts
       | [] =>
           (fix with_equal (opts : list string)
              : Result (option (string * list string)) :=
              match opts with
              | opt :: opts =>
                  if starts_with a0 (opt +:+ "=") then
                    Ok (Some (substr a0 (String.length opt + 1),
                              subspan (a0 :: rest) 1))
                  else with_equal opts
              | [] => Ok None
              end) (add_dashes (String n name'))
       end) opts = Ok None).
  { induction opts as [|opt opts IH]; intros Hin; [by apply Hwith|].
    destruct (not_spelled opt "") as [Hs Hne]; [apply Hopts, Hin; set_solver|].
    rewrite bool_decide_eq_false_2 by done.
    apply IH. intros o Ho. apply Hin. set_solver. }
  by apply Hbare.
Qed.

Lemma if_read_arg_no_match {T} (yes : string → list string → Result T)
    (no : Result T) :
  if_read_arg (a0 :: rest) (String n name') yes no = no.
Proof. unfold if_read_arg. by rewrite read_arg_no_match. Qed.

Lemma if_read_flag_no_match {T} (yes : list string → Result T) (no : Result T) :
  if_read_flag (a0 :: rest) (String n name') yes no = no.
Proof. unfold if_read_flag. by rewrite read_flag_no_match. Qed.

Lemma if_read_equal_no_match {T} (default_ : string)
    (yes : string → list string → Result T) (no : Result T) :
  if_read_equal (a0 :: rest) (String n name') default_ yes no = no.
Proof. unfold if_read_equal. by rewrite read_equal_no_match. Qed.

End NoMatch.

Lemma read_z_flag_no_match (a0 name : string) (rest : list string) :
  starts_with a0 "-z" = false →
  read_z_flag (a0 :: rest) name = None.
Proof.
  intros Hz.
  assert (H1 : a0 ≠ "-z").
  { intros ->. done. }
  assert (H2 : a0 ≠ "-z" +:+ name).
  { intros ->. by rewrite starts_with_app in Hz. }
  unfold read_z_flag. destruct rest as [|a1 rest];
    rewrite ?(bool_decide_eq_false_2 (a0 = "-z")) by done;
    by rewrite (bool_decide_eq_false_2 (a0 = "-z" +:+ name)) by done.
Qed.

Lemma if_read_z_flag_no_match {T} (a0 name : string) (rest : list string)
    (yes : list string → Result T) (no : Result T) :
  starts_with a0 "-z" = false →
  if_read_z_flag (a0 :: rest) name yes no = no.
Proof. intros Hz. unfold if_read_z_flag. by rewrite read_z_flag_no_match. Qed.

Lemma read_flag_spec (a0 name : string) (rest : list string) :
  read_flag (a0 :: rest) name
  = Ok (if bool_decide (a0 ∈ add_dashes name) then Some rest else None).
Proof.
  unfold read_flag. induction (add_dashes name) as [|opt opts IH].
  - rewrite bool_decide_eq_false_2; [done|]. apply not_elem_of_nil.
  - destruct (decide (a0 = opt)) as [->|Hne].
    + rewrite (bool_decide_eq_true_2 (opt = opt)) by done.
      rewrite bool_decide_eq_true_2 by apply list_elem_of_here.
      unfold subspan. simpl. by rewrite drop_0.
    + rewrite (bool_decide_eq_false_2 (a0 = opt)) by done. rewrite IH.
      destruct (decide (a0 ∈ opts)) as [Hin|Hin].
      * rewrite !bool_decide_eq_true_2; [done| |done].
        by apply list_elem_of_further.
      * rewrite !bool_decide_eq_false_2; [done| |done].
        intros [?|?]%elem_of_cons; done.
Qed.

Lemma starts_with_first_differs (c n : ascii) (s p : string) :
  c ≠ n → starts_with (String c s) (String n p) = false.
Proof.
  intros Hne. rewrite starts_with_cons. by rewrite bool_decide_eq_false_2.
Qed.

(** X15: [read_arg] takes the argument of an option with a name of two or
    more characters in four spellings, with one dash or two, and with the
    value as the next argument or after an equals sign; it takes the value
    as it is, an empty one or one with a dash in front included. When the
    option is the last argument, the run ends with "argument missing". *)
Theorem read_arg_spellings (name value : string) (rest : list string) :
  (2 <= String.length name)%nat →
  starts_with name "-" = false →
  starts_with name "o" = false →
  read_arg (("-" +:+ name) :: value :: rest) name = Ok (Some (value, rest))
  ∧ read_arg (("--" +:+ name) :: value :: rest) name = Ok (Some (value, rest))
  ∧ read_arg (("-" +:+ name +:+ "=" +:+ value) :: rest) name
    = Ok (Some (value, rest))
  ∧ read_arg (("--" +:+ name +:+ "=" +:+ value) :: rest) name
    = Ok (Some (value, rest))
  ∧ read_arg ["-" +:+ name] name
    = Fatal ("option " +:+ name +:+ ": argument missing")
  ∧ read_arg ["--" +:+ name] name
    = Fatal ("option " +:+ name +:+ ": argument missing").
Proof.
  intros Hlen Hdash Ho.
  destruct name as [|n name']; [simpl in Hlen; lia|].
  assert (Hn : n ≠ "-"%char).
  { intros ->. by rewrite starts_with_cons, starts_with_nil in Hdash. }
  assert (Hopts : add_dashes (String n name')
                  = ["-" +:+ String n name'; "--" +:+ String n name']).
  { unfold add_dashes. by rewrite Ho. }
  assert (Hlen' : String.length (String n name') ≠ 1%nat) by lia.
  assert (Hne1 : "--" +:+ String n name' ≠ "-" +:+ String n name').
  { intros [= Heq _]. done. }
  assert (Hne2 : ∀ x, starts_with ("--" +:+ x)
                        (("-" +:+ String n name') +:+ "=") = false).
  { intros x.
    change (starts_with (String "-" (String "-" x))
              (String "-" (String n (name' +:+ "="))) = false).
    rewrite starts_with_cons, bool_decide_eq_true_2 by done.
    by apply starts_with_first_differs. }
  assert (Hne3 : ∀ opt value, opt +:+ "=" +:+ value ≠ opt).
  { intros opt v Heq. by apply append_eq_self in Heq. }
  assert (Heq : ∀ opt, starts_with (opt +:+ "=" +:+ value) (opt +:+ "=") = true).
  { intros opt. rewrite <- append_assoc. apply starts_with_app. }
  assert (Hsub : ∀ opt, substr (opt +:+ "=" +:+ value) (String.length opt + 1)
                        = value).
  { intros opt. rewrite <- append_assoc.
    replace (String.length opt + 1)%nat with (String.length (opt +:+ "="))
      by (rewrite length_append; done).
    apply substr_app. }
  unfold read_arg. rewrite !(bool_decide_eq_false_2 (_ = 1%nat)) by done.
  rewrite Hopts. split_and!.
  - by rewrite bool_decide_eq_true_2.
  - rewrite bool_decide_eq_false_2 by done.
    rewrite (Hne2 (String n name')). by rewrite bool_decide_eq_true_2.
  - change ("-" +:+ String n name' +:+ "=" +:+ value)
      with (("-" +:+ String n name') +:+ "=" +:+ value).
    rewrite bool_decide_eq_false_2 by apply Hne3.
    rewrite Heq. unfold subspan. simpl drop. by rewrite Hsub.
  - rewrite (Hne2 (String n name' +:+ "=" +:+ value)).
    rewrite bool_decide_eq_false_2.
    2:{ intros [= Hx _]. done. }
    change ("--" +:+ String n name' +:+ "=" +:+ value)
      with (("--" +:+ String n name') +:+ "=" +:+ value).
    rewrite bool_decide_eq_false_2 by apply Hne3.
    rewrite Heq. unfold subspan. simpl drop. by rewrite Hsub.
  - by rewrite bool_decide_eq_true_2.
  - rewrite bool_decide_eq_false_2 by done.
    rewrite (Hne2 (String n name')). by rewrite bool_decide_eq_true_2.
Qed.

(* --------------------------------------------------------------------- *)
(** ** parse_nonpositional_args                                           *)
(* --------------------------------------------------------------------- *)

Section Parse.
Context `{ConfigDecls}.

Ltac no_match Hletters Htwo :=
  repeat first
    [ rewrite if_read_arg_no_match by
        first [exact Htwo | apply Hletters, (bool_decide_unpack _); vm_compute; exact I]
    | rewrite if_read_flag_no_match by
        first [exact Htwo | apply Hletters, (bool_decide_unpack _); vm_compute; exact I]
    | rewrite if_read_equal_no_match by
        first [exact Htwo | apply Hletters, (bool_decide_unpack _); vm_compute; exact I]
    | rewrite if_read_z_flag_no_match by
        (apply Hletters, (bool_decide_unpack _); vm_compute; exact I) ].

(** An argument with none of the option letters after its dash falls
    through all the readers to the last [else]. *)
Lemma parse_nonpositional_step_no_option (conf : Config)
    (remaining : list string) (a0 : string) (rest : list string) :
  starts_with a0 "--" = false →
  (∀ n, n ∈ option_letters →
        starts_with a0 (String "-" (String n "")) = false) →
  parse_nonpositional_step conf remaining (a0 :: rest)
  = c ← first_char a0;
    if bool_decide (c = "-"%char) then
      Fatal ("unknown command line option: " +:+ a0)
    else Ok (inr (conf, remaining ++ [a0], rest)).
Proof.
  intros Htwo Hletters. unfold parse_nonpositional_step.
  no_match Hletters Htwo. done.
Qed.

Lemma positional_no_option (a0 : string) :
  positional a0 →
  starts_with a0 "--" = false
  ∧ (∀ n, starts_with a0 (String "-" (String n "")) = false)
  ∧ ∃ c s, a0 = String c s ∧ c ≠ "-"%char.
Proof.
  intros [Hne Hdash]. split_and!.
  - destruct (starts_with a0 "--") eqn:Hs; [|done].
    apply (starts_with_trans a0 "-" "-") in Hs. congruence.
  - intros n. destruct (starts_with a0 (String "-" (String n ""))) eqn:Hs; [|done].
    apply (starts_with_trans a0 "-" (String n "")) in Hs. congruence.
  - destruct a0 as [|c s]; [done|]. exists c, s. split; [done|].
    intros ->. by rewrite starts_with_cons, starts_with_nil in Hdash.
Qed.

Lemma parse_nonpositional_step_positional (conf : Config)
    (remaining : list string) (a0 : string) (rest : list string) :
  positional a0 →
  parse_nonpositional_step conf remaining (a0 :: rest)
  = Ok (inr (conf, remaining ++ [a0], rest)).
Proof.
  intros (Htwo & Hone & c & s & -> & Hc)%positional_no_option.
  rewrite parse_nonpositional_step_no_option by done.
  simpl. by rewrite bool_decide_eq_false_2.
Qed.

Lemma parse_nonpositional_loop_positional (args : list string) :
  Forall positional args →
  ∀ (fuel : nat) (conf : Config) (remaining rest : list string),
    parse_nonpositional_loop (length args + fuel) conf remaining (args ++ rest)
    = parse_nonpositional_loop fuel conf (remaining ++ args) rest.
Proof.
  induction 1 as [|a0 args Ha Hargs IH]; intros fuel conf remaining rest.
  - by rewrite app_nil_r.
  - cbn [length Nat.add app parse_nonpositional_loop].
    rewrite bool_decide_eq_false_2 by done. cbn [negb].
    rewrite parse_nonpositional_step_positional by done.
    cbv beta iota delta [mbind Result_bind].
    rewrite IH. by rewrite <- app_assoc.
Qed.

(** X11: [parse_nonpositional_args] hands the arguments that name files
    (not empty, not beginning with a dash) over to [remaining] as they are
    and in their order, and leaves the configuration at its defaults but
    for [thread_count]. *)
Theorem parse_nonpositional_args_positional (args remaining : list string)
    (fuel : nat) :
  Forall positional args →
  (length args < fuel)%nat →
  parse_nonpositional_args fuel args remaining
  = Ok (inr (set_thread_count max_allowed_parallelism default_config,
             remaining ++ args)).
Proof.
  intros Hargs Hfuel. unfold parse_nonpositional_args.
  pose proof (parse_nonpositional_loop_positional args Hargs
                (S (fuel - S (length args)))
                (set_thread_count max_allowed_parallelism default_config)
                remaining []) as Hrun.
  rewrite app_nil_r in Hrun.
  replace (length args + S (fuel - S (length args)))%nat with fuel in Hrun by lia.
  by rewrite Hrun.
Qed.

(** X12: an argument that begins with one dash and goes on with none of
    the letters a b d e f h L l m n o p r s t v X x y z, the lone dash
    among them, ends the run with "unknown command line option", once the
    file names before it have been handed over. *)
Theorem parse_nonpositional_args_unknown_option (before : list string)
    (arg : string) (after remaining : list string) (fuel : nat) :
  Forall positional before →
  unknown_option arg →
  (length before < fuel)%nat →
  parse_nonpositional_args fuel (before ++ arg :: after) remaining
  = Fatal ("unknown command line option: " +:+ arg).
Proof.
  intros Hbefore (Hdash & Htwo & Hletters) Hfuel. unfold parse_nonpositional_args.
  replace fuel with (length before + S (fuel - S (length before)))%nat by lia.
  rewrite parse_nonpositional_loop_positional by done.
  cbn [parse_nonpositional_loop].
  rewrite bool_decide_eq_false_2 by done. cbn [negb].
  rewrite parse_nonpositional_step_no_option;
    [|done|by apply Forall_forall].
  destruct arg as [|c s]; [done|].
  rewrite starts_with_cons, starts_with_nil, andb_true_r in Hdash.
  apply bool_decide_eq_true in Hdash as ->. done.
Qed.

(** X13: an argument that begins with [-e] and is not [-export-dynamic]
    is read as the option [-e] with the rest of the argument as the entry
    symbol; so [-entry], [-end-group] and [-eh-frame-hdr], spelled with one
    dash, set the entry symbol and do nothing else. *)
Theorem parse_nonpositional_step_e_shadows (conf : Config)
    (remaining : list string) (s : string) (rest : list string) :
  s ≠ "" →
  "-e" +:+ s ≠ "-export-dynamic" →
  parse_nonpositional_step conf remaining (("-e" +:+ s) :: rest)
  = Ok (inr (set_entry s conf, remaining, rest)).
Proof.
  intros Hs Hexport. unfold parse_nonpositional_step.
  assert (Htwo : starts_with ("-e" +:+ s) "--" = false) by done.
  rewrite !if_read_arg_no_match by done.
  unfold if_read_flag at 1. rewrite read_flag_spec.
  change (add_dashes "export-dynamic")
    with ["-export-dynamic"; "--export-dynamic"].
  rewrite (bool_decide_eq_false_2
             ("-e" +:+ s ∈ ["-export-dynamic"; "--export-dynamic"])).
  2:{ intros [?|[?|?%elem_of_nil]%elem_of_cons]%elem_of_cons; done. }
  cbv beta iota delta [mbind Result_bind].
  unfold if_read_arg at 1. unfold read_arg.
  rewrite (bool_decide_eq_true_2 (String.length "e" = 1%nat)) by done.
  rewrite (bool_decide_eq_false_2 ("-e" +:+ s = "-" +:+ "e")).
  2:{ intros Heq. apply Hs. by injection Heq. }
  change ("-" +:+ "e") with "-e". rewrite starts_with_app.
  cbv beta iota delta [mbind Result_bind].
  change (String.length "e" + 1)%nat with (String.length "-e").
  by rewrite substr_app.
Qed.

Lemma read_arg_consumes (args : list string) (name arg : string)
    (args' : list string) :
  read_arg args name = Ok (Some (arg, args')) →
  (length args' < length args)%nat.
Proof.
  unfold read_arg. destruct args as [|a0 rest]; [done|].
  assert (Hmatch : ∀ msg,
            match a0 :: rest with
            | [_] => Fatal msg
            | _ :: a1 :: _ => Ok (Some (a1, subspan (a0 :: rest) 2))
            | [] => OutOfBounds
            end = Ok (Some (arg, args')) → (length args' < length (a0 :: rest))%nat).
  { intros msg. destruct rest as [|a1 rest]; [done|]. intros [= <- <-].
    unfold subspan. simpl. lia. }
  assert (Hone : ∀ v, Ok (Some (v, subspan (a0 :: rest) 1)) = Ok (Some (arg, args')) →
                      (length args' < length (a0 :: rest))%nat).
  { intros v [= <- <-]. unfold subspan. simpl. rewrite ?drop_0. lia. }
  case_bool_decide.
  - case_bool_decide; [apply Hmatch|]. destruct (starts_with _ _); [apply Hone|done].
  - induction (add_dashes name) as [|opt opts IH]; [done|].
    case_bool_decide; [apply Hmatch|].
    destruct (starts_with _ _); [apply Hone|apply IH].
Qed.

Lemma read_arg_not_fuel (args : list string) (name : string) :
  read_arg args name ≠ OutOfFuel.
Proof.
  unfold read_arg. destruct args as [|a0 rest]; [done|].
  case_bool_decide.
  - case_bool_decide; [by destruct rest|]. by destruct (starts_with _ _).
  - induction (add_dashes name) as [|opt opts IH]; [done|].
    case_bool_decide; [by destruct rest|]. by destruct (starts_with _ _).
Qed.

Lemma read_flag_consumes (args : list string) (name : string)
    (args' : list string) :
  read_flag args name = Ok (Some args') → (length args' < length args)%nat.
Proof.
  unfold read_flag. destruct args as [|a0 rest]; [done|].
  induction (add_dashes name) as [|opt opts IH]; [done|].
  case_bool_decide; [|apply IH]. intros [= <-].
  unfold subspan. simpl. rewrite ?drop_0. lia.
Qed.

Lemma read_flag_not_fuel (args : list string) (name : string) :
  read_flag args name ≠ OutOfFuel.
Proof.
  unfold read_flag. destruct args as [|a0 rest]; [done|].
  induction (add_dashes name) as [|opt opts IH]; [done|].
  by case_bool_decide.
Qed.

Lemma read_z_flag_consumes (args : list string) (name : string)
    (args' : list string) :
  read_z_flag args name = Some args' → (length args' < length args)%nat.
Proof.
  unfold read_z_flag, subspan. destruct args as [|a0 [|a1 rest]]; [done|..];
    repeat case_match; intros [= <-]; simpl; rewrite ?drop_0; simpl; lia.
Qed.

Lemma read_equal_consumes (args : list string) (name default_ arg : string)
    (args' : list string) :
  read_equal args name default_ = Ok (Some (arg, args')) →
  (length args' < length args)%nat.
Proof.
  unfold read_equal. destruct args as [|a0 rest]; [done|].
  assert (Hone : ∀ v, Ok (Some (v, subspan (a0 :: rest) 1)) = Ok (Some (arg, args')) →
                      (length args' < length (a0 :: rest))%nat).
  { intros v [= <- <-]. unfold subspan. simpl. rewrite ?drop_0. lia. }
  unfold add_dashes. destruct (negb (starts_with name "o")); cbn [app];
    repeat first [ case_bool_decide | destruct (starts_with a0 _) ];
    first [ apply Hone | done ].
Qed.

Lemma read_equal_not_fuel (args : list string) (name default_ : string) :
  read_equal args name default_ ≠ OutOfFuel.
Proof.
  unfold read_equal. destruct args as [|a0 rest]; [done|].
  unfold add_dashes. destruct (negb (starts_with name "o")); cbn [app];
    repeat first [ case_bool_decide | destruct (starts_with a0 _) ]; done.
Qed.

Lemma if_read_arg_consumes (args0 : list string) (name : string)
    (yes : string → list string → Result (Exception + ParseState))
    (no : Result (Exception + ParseState)) :
  (∀ arg args, (length args < length args0)%nat → consumes args0 (yes arg args)) →
  consumes args0 no →
  consumes args0 (if_read_arg args0 name yes no).
Proof.
  intros Hyes Hno. unfold if_read_arg.
  pose proof (read_arg_consumes args0 name) as Hc.
  pose proof (read_arg_not_fuel args0 name) as Hf.
  destruct (read_arg args0 name) as [[[arg args]|]| | | | |]; simpl; try done.
  by apply Hyes, (Hc arg).
Qed.

Lemma if_read_flag_consumes (args0 : list string) (name : string)
    (yes : list string → Result (Exception + ParseState))
    (no : Result (Exception + ParseState)) :
  (∀ args, (length args < length args0)%nat → consumes args0 (yes args)) →
  consumes args0 no →
  consumes args0 (if_read_flag args0 name yes no).
Proof.
  intros Hyes Hno. unfold if_read_flag.
  pose proof (read_flag_consumes args0 name) as Hc.
  pose proof (read_flag_not_fuel args0 name) as Hf.
  destruct (read_flag args0 name) as [[args|]| | | | |]; simpl; try done.
  by apply Hyes, Hc.
Qed.

Lemma if_read_z_flag_consumes (args0 : list string) (name : string)
    (yes : list string → Result (Exception + ParseState))
    (no : Result (Exception + ParseState)) :
  (∀ args, (length args < length args0)%nat → consumes args0 (yes args)) →
  consumes args0 no →
  consumes args0 (if_read_z_flag args0 name yes no).
Proof.
  intros Hyes Hno. unfold if_read_z_flag.
  pose proof (read_z_flag_consumes args0 name) as Hc.
  destruct (read_z_flag args0 name) as [args|]; [|done].
  by apply Hyes, Hc.
Qed.

Lemma if_read_equal_consumes (args0 : list string) (name default_ : string)
    (yes : string → list string → Result (Exception + ParseState))
    (no : Result (Exception + ParseState)) :
  (∀ arg args, (length args < length args0)%nat → consumes args0 (yes arg args)) →
  consumes args0 no →
  consumes args0 (if_read_equal args0 name default_ yes no).
Proof.
  intros Hyes Hno. unfold if_read_equal.
  pose proof (read_equal_consumes args0 name default_) as Hc.
  pose proof (read_equal_not_fuel args0 name default_) as Hf.
  destruct (read_equal args0 name default_) as [[[arg args]|]| | | | |];
    simpl; try done.
  by apply Hyes, (Hc arg).
Qed.

Lemma consumes_Ok (args0 : list string) (conf : Config)
    (remaining args : list string) :
  (length args < length args0)%nat →
  consumes args0 (Ok (inr (conf, remaining, args))).
Proof. intros Hlt. split; [done|]. by intros ??? [= <- <- <-]. Qed.

Lemma parse_nonpositional_step_consumes (conf : Config)
    (remaining args : list string) :
  consumes args (parse_nonpositional_step conf remaining args).
Proof.
  unfold parse_nonpositional_step.
  repeat first
    [ apply if_read_arg_consumes; [intros arg args' Hlt|]
    | apply if_read_flag_consumes; [intros args' Hlt|]
    | apply if_read_z_flag_consumes; [intros args' Hlt|]
    | apply if_read_equal_consumes; [intros arg args' Hlt|] ];
    try (by apply consumes_Ok).
  - unfold parse_hex. repeat case_match; simpl; try done;
      destruct (stol _ _); try done; by apply consumes_Ok.
  - unfold parse_number. repeat case_match; simpl; try done;
      destruct (stol _ _); try done; by apply consumes_Ok.
  - destruct args as [|a0 rest]; [done|]. destruct a0 as [|c s]; [done|]. simpl.
    case_bool_decide; [done|]. apply consumes_Ok. unfold subspan. simpl.
    rewrite ?drop_0. lia.
Qed.

Lemma parse_nonpositional_loop_terminates (fuel : nat) :
  ∀ (conf : Config) (remaining args : list string),
    (length args < fuel)%nat →
    parse_nonpositional_loop fuel conf remaining args ≠ OutOfFuel
    ∧ parse_nonpositional_loop fuel conf remaining args
      = parse_nonpositional_loop (S (length args)) conf remaining args.
Proof.
  induction fuel as [fuel IH] using lt_wf_ind. intros conf remaining args Hfuel.
  destruct fuel as [|fuel]; [lia|]. cbn [parse_nonpositional_loop].
  case_bool_decide as Hargs; cbn [negb]; [done|].
  destruct (parse_nonpositional_step_consumes conf remaining args) as [Hf Hc].
  destruct (parse_nonpositional_step conf remaining args)
    as [[e|[[conf' rem'] args']]| | | | |]; simpl; try done.
  specialize (Hc conf' rem' args' eq_refl).
  destruct (IH fuel ltac:(lia) conf' rem' args' ltac:(lia)) as [I1 I2].
  destruct (IH (length args) ltac:(lia) conf' rem' args' ltac:(lia)) as [J1 J2].
  split; [done|]. by rewrite I2, J2.
Qed.

(** X14: [parse_nonpositional_args] comes to an end on every list of
    arguments: each turn of its loop that does not end the run reads at
    least one argument, so as many turns as there are arguments are
    enough. *)
Theorem parse_nonpositional_args_terminates (args remaining : list string)
    (fuel : nat) :
  (length args < fuel)%nat →
  parse_nonpositional_args fuel args remaining ≠ OutOfFuel
  ∧ parse_nonpositional_args fuel args remaining
    = parse_nonpositional_args (S (length args)) args remaining.
Proof.
  intros Hfuel. unfold parse_nonpositional_args.
  by apply parse_nonpositional_loop_terminates.
Qed.

End Parse.

(* --------------------------------------------------------------------- *)
(** ** read_file and read_input_files                                     *)
(* --------------------------------------------------------------------- *)

Section ReadFile.
Context `{ReaderDecls}.

Lemma cache_at_insert (c : gmap (string * Z * Z) (list NewObjectFile))
    (k k' : string * Z * Z) (v : list NewObjectFile) :
  cache_at (<[k := v]> c) k' = if decide (k = k') then v else cache_at c k'.
Proof.
  unfold cache_at. destruct (decide (k = k')) as [->|Hne].
  - by rewrite lookup_insert_eq.
  - by rewrite lookup_insert_ne.
Qed.

Lemma preload_archive (k : string * Z * Z) (name : string)
    (children : list MemoryMappedFile) (st : ReadState) :
  let st' := foldl (λ st child,
                      cache_push_back k (new_object_file child name) st)
                   st children in
  cache_at (cache st') k
  = cache_at (cache st) k ++ ((λ child, new_object_file child name) <$> children)
  ∧ out_objs st' = out_objs st ∧ out_dsos st' = out_dsos st.
Proof.
  revert st. induction children as [|child children IH]; intros st; simpl.
  - by rewrite app_nil_r.
  - destruct (IH (cache_push_back k (new_object_file child name) st))
      as (I1 & I2 & I3).
    split_and!; [|done..]. rewrite I1. simpl.
    rewrite cache_at_insert, decide_True by done. by rewrite <- app_assoc.
Qed.

Lemma preload_thin_archive (name : string)
    (children : list MemoryMappedFile) (st : ReadState) :
  let st' := foldl (λ st child,
                      cache_push_back (get_key child) (new_object_file child name) st)
                   st children in
  out_objs st' = out_objs st ∧ out_dsos st' = out_dsos st.
Proof.
  revert st. induction children as [|child children IH]; intros st; simpl; [done|].
  destruct (IH (cache_push_back (get_key child) (new_object_file child name) st))
    as (I1 & I2).
  by split.
Qed.

(** X16: a file read while preloading is kept in the cache under its name,
    size and time of modification, and the real pass takes what the cache
    holds under that key, whatever the bytes of the file it is handed are
    by then, and empties the entry. An object file takes the place of what
    the key held; the members of an archive are added to what it held, so an
    archive preloaded twice is linked with every member twice. *)
Theorem read_file_preload_round_trip (mb mb' : MemoryMappedFile)
    (as_needed as_needed' : bool) (st : ReadState) :
  get_key mb' = get_key mb →
  (get_file_type mb = OBJ → get_file_type mb' = OBJ →
   ∃ st1 st2,
     read_file true mb as_needed st = Ok st1
     ∧ read_file false mb' as_needed' st1 = Ok st2
     ∧ out_objs st2 = out_objs st ++ [new_object_file mb ""]
     ∧ out_dsos st2 = out_dsos st
     ∧ cache_at (cache st2) (get_key mb) = []
     ∧ read_file false mb' as_needed' st2
       = Ok (push_obj (new_object_file mb' "")
               (mkReadState (<[get_key mb := []]> (cache st2))
                            (out_objs st2) (out_dsos st2))))
  ∧ (get_file_type mb = AR → get_file_type mb' = AR →
     read_fat_archive_members mb ≠ [] →
     ∃ st1 st2,
       read_file true mb as_needed st = Ok st1
       ∧ read_file false mb' as_needed' st1 = Ok st2
       ∧ out_objs st2
         = out_objs st ++ cache_at (cache st) (get_key mb)
           ++ ((λ child, new_object_file child (mb_name mb))
                 <$> read_fat_archive_members mb)
       ∧ out_dsos st2 = out_dsos st
       ∧ cache_at (cache st2) (get_key mb) = []).
Proof.
  intros Hkey. split.
  - intros Hty Hty'.
    set (st1 := mkReadState (<[get_key mb := [new_object_file mb ""]]> (cache st))
                            (out_objs st) (out_dsos st)).
    assert (Hc1 : cache_at (cache st1) (get_key mb) = [new_object_file mb ""]).
    { unfold st1. cbn [cache]. by rewrite cache_at_insert, decide_True. }
    set (st2 := push_obj (new_object_file mb "")
                  (mkReadState (<[get_key mb := []]> (cache st1))
                               (out_objs st1) (out_dsos st1))).
    assert (Hc2 : cache_at (cache st2) (get_key mb) = []).
    { unfold st2. cbn [cache push_obj]. by rewrite cache_at_insert, decide_True. }
    exists st1, st2. split_and!.
    + unfold read_file. by rewrite Hty.
    + unfold read_file, lookup. by rewrite Hty', Hkey, Hc1.
    + done.
    + done.
    + done.
    + unfold read_file, lookup. by rewrite Hty', Hkey, Hc2.
  - intros Hty Hty' Hne.
    destruct (preload_archive (get_key mb) (mb_name mb)
                (read_fat_archive_members mb) st) as (I1 & I2 & I3).
    set (st1 := foldl (λ st child,
                         cache_push_back (get_key mb)
                           (new_object_file child (mb_name mb)) st)
                      st (read_fat_archive_members mb)) in *.
    set (objs := cache_at (cache st) (get_key mb)
                 ++ ((λ child, new_object_file child (mb_name mb))
                       <$> read_fat_archive_members mb)) in *.
    assert (Hobjs : objs ≠ []).
    { unfold objs. intros [_ Hnil]%app_eq_nil. by apply fmap_nil_inv in Hnil. }
    set (st2 := mkReadState (<[get_key mb := []]> (cache st1))
                            (out_objs st1 ++ objs) (out_dsos st1)).
    exists st1, st2. split_and!.
    + unfold read_file. by rewrite Hty.
    + unfold read_file, lookup. rewrite Hty', Hkey, I1.
      destruct objs as [|o objs'] eqn:Ho; [done|]. done.
    + unfold st2. cbn [out_objs]. by rewrite I2.
    + done.
    + unfold st2. cbn [cache]. by rewrite cache_at_insert, decide_True.
Qed.

(** X17: while preloading, [read_file] adds nothing to [out::objs], whatever
    it is handed; but a shared object is added to [out::dsos] then as it is
    in the real pass, so after the two passes it is listed twice. *)
Theorem read_file_preloading (mb : MemoryMappedFile) (as_needed : bool)
    (st : ReadState) :
  get_file_type mb ≠ TEXT → get_file_type mb ≠ UNKNOWN →
  ∃ st1,
    read_file true mb as_needed st = Ok st1
    ∧ out_objs st1 = out_objs st
    ∧ out_dsos st1
      = out_dsos st
        ++ match get_file_type mb with
           | DSO => [new_shared_file mb as_needed]
           | _ => []
           end
    ∧ (get_file_type mb = DSO →
       ∃ st2, read_file false mb as_needed st1 = Ok st2
              ∧ out_dsos st2
                = out_dsos st ++ [new_shared_file mb as_needed;
                                  new_shared_file mb as_needed]).
Proof.
  intros Ht Hu. unfold read_file.
  destruct (get_file_type mb) eqn:Hty; try done.
  - eexists. split_and!; try done. simpl. by rewrite app_nil_r.
  - eexists. split_and!; try done. intros _. eexists. split; [done|].
    simpl. by rewrite <- app_assoc.
  - destruct (preload_archive (get_key mb) (mb_name mb)
                (read_fat_archive_members mb) st) as (I1 & I2 & I3).
    eexists. split_and!; [done|done| |done].
    rewrite I3. simpl. by rewrite app_nil_r.
  - destruct (preload_thin_archive (mb_name mb)
                (read_thin_archive_members mb) st) as (I2 & I3).
    eexists. split_and!; [done|done| |done].
    rewrite I3. simpl. by rewrite app_nil_r.
Qed.

End ReadFile.

Section ReadInputFiles.
Context `{FileDecls} `{ReaderDecls}.

Lemma read_input_files_step_dso (config : Config) (preloading as_needed : bool)
    (opened : string → MemoryMappedFile) (a0 : string) (rest : list string)
    (st : ReadState) :
  names_dso opened a0 →
  read_input_files_step config preloading as_needed (a0 :: rest) st
  = Ok (as_needed, rest, push_dso (new_shared_file (opened a0) as_needed) st).
Proof.
  intros (Hpos & Hopen & Hty). unfold read_input_files_step.
  destruct (positional_no_option a0 Hpos) as (Htwo & Hone & _).
  rewrite !if_read_flag_no_match, if_read_arg_no_match by done.
  rewrite Hopen. cbv beta iota delta [mbind Result_bind].
  unfold read_file. rewrite Hty. done.
Qed.

Lemma read_input_files_loop_dsos (config : Config) (preloading as_needed : bool)
    (opened : string → MemoryMappedFile) (files : list string) :
  Forall (names_dso opened) files →
  ∀ (fuel : nat) (rest : list string) (st : ReadState),
    read_input_files_loop config preloading (length files + fuel) as_needed
      (files ++ rest) st
    = read_input_files_loop config preloading fuel as_needed rest
        (push_dsos opened as_needed files st).
Proof.
  induction 1 as [|a0 files Ha Hfiles IH]; intros fuel rest st.
  - unfold push_dsos. simpl. rewrite app_nil_r. by destruct st.
  - cbn [length Nat.add app read_input_files_loop].
    rewrite bool_decide_eq_false_2 by done. cbn [negb].
    rewrite (read_input_files_step_dso _ _ _ opened) by done.
    cbv beta iota delta [mbind Result_bind].
    rewrite IH. f_equal. unfold push_dsos, push_dso. simpl.
    by rewrite <- app_assoc.
Qed.

Lemma read_input_files_loop_flag (config : Config) (preloading as_needed : bool)
    (flag : string) (value : bool) (fuel : nat) (rest : list string)
    (st : ReadState) :
  flag = "-as-needed" ∧ value = true ∨ flag = "-no-as-needed" ∧ value = false →
  read_input_files_loop config preloading (S fuel) as_needed (flag :: rest) st
  = read_input_files_loop config preloading fuel value rest st.
Proof.
  intros Hflag. cbn [read_input_files_loop].
  rewrite bool_decide_eq_false_2 by done. cbn [negb].
  unfold read_input_files_step, if_read_flag. rewrite !read_flag_spec.
  destruct Hflag as [[-> ->]|[-> ->]]; done.
Qed.

(** X18: [read_input_files] reads the files in the order of the arguments;
    the shared objects named after [-as-needed] and before the next
    [-no-as-needed] are made with [as_needed] set, those before and after
    without it, and the two flags themselves name no file. *)
Theorem read_input_files_as_needed (config : Config) (preloading : bool)
    (opened : string → MemoryMappedFile) (files1 files2 files3 : list string)
    (st : ReadState) (fuel : nat) :
  Forall (names_dso opened) files1 →
  Forall (names_dso opened) files2 →
  Forall (names_dso opened) files3 →
  (length files1 + length files2 + length files3 + 2 < fuel)%nat →
  read_input_files config preloading fuel
    (files1 ++ "-as-needed" :: files2 ++ "-no-as-needed" :: files3) st
  = Ok (push_dsos opened false files3
          (push_dsos opened true files2
             (push_dsos opened false files1 st))).
Proof.
  intros H1 H2 H3 Hfuel. unfold read_input_files.
  replace fuel
    with (length files1
          + S (length files2
               + S (length files3 + S (fuel - length files1 - length files2
                                       - length files3 - 3))))%nat by lia.
  rewrite (read_input_files_loop_dsos _ _ _ opened) by done.
  rewrite (read_input_files_loop_flag _ _ _ _ true) by (left; done).
  rewrite (read_input_files_loop_dsos _ _ _ opened) by done.
  rewrite (read_input_files_loop_flag _ _ _ _ false) by (right; done).
  match goal with
  | |- read_input_files_loop _ _ (_ + ?f) _ _ ?s = _ =>
      pose proof (read_input_files_loop_dsos config preloading false opened
                    files3 H3 f [] s) as Hrun
  end.
  rewrite app_nil_r in Hrun. by rewrite Hrun.
Qed.

End ReadInputFiles.

(* --------------------------------------------------------------------- *)
(** ** fix_synthetic_symbols                                              *)
(* --------------------------------------------------------------------- *)

Lemma start_lookup_ne (sym : option string) (chunk : OutputChunk)
    (tab : SymbolTable) (e : string) :
  sym ≠ Some e → start sym chunk tab !! e = tab !! e.
Proof.
  intros Hne. unfold start. destruct sym as [n|]; [|done].
  apply lookup_insert_ne. congruence.
Qed.

Lemma stop_lookup_ne (sym : option string) (chunk : OutputChunk)
    (tab : SymbolTable) (e : string) :
  sym ≠ Some e → stop sym chunk tab !! e = tab !! e.
Proof.
  intros Hne. unfold stop. destruct sym as [n|]; [|done].
  apply lookup_insert_ne. congruence.
Qed.

Lemma stop_lookup_eq (chunk : OutputChunk) (tab : SymbolTable) (e : string) :
  stop (Some e) chunk tab !! e = Some (stop_addr chunk).
Proof. unfold stop, stop_addr, SymbolTable. apply lookup_insert_eq. Qed.

Lemma start_lookup_eq (chunk : OutputChunk) (tab : SymbolTable) (e : string) :
  start (Some e) chunk tab !! e = Some (start_addr chunk).
Proof. unfold start, start_addr, SymbolTable. apply lookup_insert_eq. Qed.

Lemma fix_bss_start_lookup_ne (out : OutPointers) (chunks : list OutputChunk)
    (tab : SymbolTable) (e : string) :
  out___bss_start out ≠ Some e →
  fix_bss_start out chunks tab !! e = tab !! e.
Proof.
  intros Hne. induction chunks as [|c chunks IH]; simpl; [done|].
  destruct (_ && _); [by apply start_lookup_ne|done].
Qed.

Lemma fix_ehdr_start_lookup_ne (out : OutPointers) (chunks : list OutputChunk)
    (tab tab' : SymbolTable) (e : string) :
  out___ehdr_start out ≠ Some e →
  fix_ehdr_start out chunks tab = Some tab' →
  tab' !! e = tab !! e.
Proof.
  intros Hne. induction chunks as [|c chunks IH]; simpl; [by intros [= <-]|].
  case_bool_decide; [|done].
  destruct (out___ehdr_start out) as [n|]; [|done].
  destruct (out_ehdr out); [|done]. intros [= <-].
  apply lookup_insert_ne. congruence.
Qed.

Lemma start_at_lookup_ne (sym : option string) (chunk : option OutputChunk)
    (tab tab' : SymbolTable) (e : string) :
  sym ≠ Some e → start_at sym chunk tab = Some tab' → tab' !! e = tab !! e.
Proof.
  intros Hne. unfold start_at. destruct sym as [n|]; [|by intros [= <-]].
  destruct chunk as [c|]; [|done]. intros [= <-].
  by apply (start_lookup_ne (Some n)).
Qed.

Lemma stop_at_lookup_ne (sym : option string) (chunk : option OutputChunk)
    (tab tab' : SymbolTable) (e : string) :
  sym ≠ Some e → stop_at sym chunk tab = Some tab' → tab' !! e = tab !! e.
Proof.
  intros Hne. unfold stop_at. destruct sym as [n|]; [|by intros [= <-]].
  destruct chunk as [c|]; [|done]. intros [= <-].
  by apply (stop_lookup_ne (Some n)).
Qed.

Lemma fix_array_lookup_ne (out : OutPointers) (chunks : list OutputChunk)
    (tab : SymbolTable) (e : string) :
  out___init_array_start out ≠ Some e → out___init_array_end out ≠ Some e →
  out___fini_array_start out ≠ Some e → out___fini_array_end out ≠ Some e →
  foldl (fix_array_step out) tab chunks !! e = tab !! e.
Proof.
  intros H1 H2 H3 H4. revert tab.
  induction chunks as [|c chunks IH]; intros tab; simpl; [done|].
  rewrite IH. unfold fix_array_step.
  repeat case_match; rewrite ?stop_lookup_ne, ?start_lookup_ne by done; done.
Qed.

Lemma fix_start_stop_lookup_ne `{SymbolDecls} (chunks : list OutputChunk)
    (tab : SymbolTable) (e : string) :
  starts_with e "__start_" = false → starts_with e "__stop_" = false →
  foldl fix_start_stop_step tab chunks !! e = tab !! e.
Proof.
  intros H1 H2. revert tab.
  induction chunks as [|c chunks IH]; intros tab; simpl; [done|].
  rewrite IH. unfold fix_start_stop_step.
  destruct (is_c_identifier _); [|done].
  rewrite stop_lookup_ne, start_lookup_ne; [done| |].
  - intros [= <-]. by rewrite starts_with_app in H1.
  - intros [= <-]. by rewrite starts_with_app in H2.
Qed.

(** The loop over the chunks for [_end], [_etext] and [_edata]: the last
    chunk that moves a symbol is the one that stays. *)
Lemma fix_end_lookup (out : OutPointers) (chunks : list OutputChunk)
    (tab : SymbolTable) (e : string) (moves : OutputChunk → bool) :
  (out__end out = Some e ∧ out__etext out ≠ Some e ∧ out__edata out ≠ Some e
   ∧ moves = moves_end)
  ∨ (out__end out ≠ Some e ∧ out__etext out = Some e ∧ out__edata out ≠ Some e
     ∧ moves = moves_etext)
  ∨ (out__end out ≠ Some e ∧ out__etext out ≠ Some e ∧ out__edata out = Some e
     ∧ moves = moves_edata) →
  foldl (fix_end_step out) tab chunks !! e
  = match last (List.filter moves chunks) with
    | Some c => Some (stop_addr c)
    | None => tab !! e
    end.
Proof.
  intros Hcase. induction chunks as [|c chunks IH] using rev_ind; [done|].
  rewrite foldl_app, List.filter_app. simpl.
  set (tab1 := foldl (fix_end_step out) tab chunks) in *.
  assert (Hstep : fix_end_step out tab1 c !! e
                  = if moves c then Some (stop_addr c) else tab1 !! e).
  { unfold fix_end_step.
    destruct Hcase as [(E1 & E2 & E3 & ->)|[(E1 & E2 & E3 & ->)|(E1 & E2 & E3 & ->)]];
      unfold moves_end, moves_etext, moves_edata;
      destruct (is_header c); cbn [negb andb]; try done;
      destruct (flag_set (sh_flags (shdr c)) SHF_ALLOC),
               (flag_set (sh_flags (shdr c)) SHF_EXECINSTR),
               (sh_type (shdr c) =? SHT_NOBITS); cbn [negb andb];
      rewrite ?E1, ?E2, ?E3;
      repeat first [ rewrite stop_lookup_eq | rewrite stop_lookup_ne by done ];
      done. }
  rewrite Hstep. destruct (moves c).
  - by rewrite last_snoc.
  - rewrite app_nil_r. apply IH.
Qed.

Lemma fix_bss_start_lookup (out : OutPointers) (chunks : list OutputChunk)
    (tab : SymbolTable) (e : string) :
  out___bss_start out = Some e →
  fix_bss_start out chunks tab !! e
  = match head (List.filter names_bss chunks) with
    | Some c => Some (start_addr c)
    | None => tab !! e
    end.
Proof.
  intros He. induction chunks as [|c chunks IH]; simpl; [done|].
  unfold names_bss at 1. destruct (_ && _); simpl; [|done].
  rewrite He. apply start_lookup_eq.
Qed.

Lemma fix_end_lookup_ne (out : OutPointers) (chunks : list OutputChunk)
    (tab : SymbolTable) (e : string) :
  out__end out ≠ Some e → out__etext out ≠ Some e → out__edata out ≠ Some e →
  foldl (fix_end_step out) tab chunks !! e = tab !! e.
Proof.
  intros H1 H2 H3. revert tab.
  induction chunks as [|c chunks IH]; intros tab; simpl; [done|].
  rewrite IH. unfold fix_end_step.
  repeat case_match; rewrite ?stop_lookup_ne by done; done.
Qed.

Section Synthetic.
Context `{SymbolDecls}.
Variables (out : OutPointers) (chunks : list OutputChunk).
Variables (tab tab' : SymbolTable).
Hypothesis Hdist : distinct_symbols out.
Hypothesis Hsec : no_section_symbol out.
Hypothesis Hrun : fix_synthetic_symbols out chunks tab = Some tab'.

(** A symbol of [out] is written only through its own pointer. *)
Lemma other_pointer (i j : nat) (e : string) (f : option string) :
  out_symbol_fields out !! i = Some (Some e) →
  out_symbol_fields out !! j = Some f →
  i ≠ j → f ≠ Some e.
Proof. intros Hi Hj Hne ->. by apply Hne, (Hdist i j e). Qed.

Lemma fix_synthetic_symbols_stages :
  ∃ t2 t3 t4,
    fix_ehdr_start out chunks (fix_bss_start out chunks tab) = Some t2
    ∧ start_at (out___rela_iplt_start out) (out_relplt out) t2 = Some t3
    ∧ stop_at (out___rela_iplt_end out) (out_relplt out) t3 = Some t4
    ∧ tab' = foldl fix_start_stop_step
               (match out_gotplt out with
                | Some gotplt => start (out__GLOBAL_OFFSET_TABLE_ out) gotplt
                | None => id
                end
                  (match out_dynamic out with
                   | Some dynamic => start (out__DYNAMIC out) dynamic
                   | None => id
                   end
                     (foldl (fix_end_step out)
                        (foldl (fix_array_step out) t4 chunks) chunks)))
               chunks.
Proof.
  unfold fix_synthetic_symbols in Hrun.
  destruct (fix_ehdr_start out chunks _) as [t2|] eqn:H2; [|done]. simpl in Hrun.
  destruct (start_at _ _ t2) as [t3|] eqn:H3; [|done]. simpl in Hrun.
  destruct (stop_at _ _ t3) as [t4|] eqn:H4; [|done]. simpl in Hrun.
  injection Hrun as <-. exists t2, t3, t4. split_and!; try done.
  by destruct (out_dynamic out), (out_gotplt out).
Qed.

(** What the stages after the loop for [_end] leave of a symbol of [out]
    other than [_DYNAMIC] and [_GLOBAL_OFFSET_TABLE_]. *)
Lemma after_end_loop (i : nat) (e : string) (t : SymbolTable) :
  out_symbol_fields out !! i = Some (Some e) →
  (i < 11)%nat →
  foldl fix_start_stop_step
    (match out_gotplt out with
     | Some gotplt => start (out__GLOBAL_OFFSET_TABLE_ out) gotplt
     | None => id
     end
       (match out_dynamic out with
        | Some dynamic => start (out__DYNAMIC out) dynamic
        | None => id
        end t)) chunks !! e
  = t !! e.
Proof.
  intros Hi Hlt. destruct (Hsec i e Hi) as [S1 S2].
  rewrite fix_start_stop_lookup_ne by done.
  assert (out__DYNAMIC out ≠ Some e)
    by (apply (other_pointer i 11 e); [done|done|lia]).
  assert (out__GLOBAL_OFFSET_TABLE_ out ≠ Some e)
    by (apply (other_pointer i 12 e); [done|done|lia]).
  destruct (out_gotplt out), (out_dynamic out); simpl;
    rewrite ?start_lookup_ne by done; done.
Qed.

(** What the stages before the loop for [_end] leave of the three symbols
    that loop writes. *)
Lemma before_end_loop (i : nat) (e : string) (t4 : SymbolTable) :
  out_symbol_fields out !! i = Some (Some e) →
  (8 <= i)%nat →
  ∀ t2 t3,
    fix_ehdr_start out chunks (fix_bss_start out chunks tab) = Some t2 →
    start_at (out___rela_iplt_start out) (out_relplt out) t2 = Some t3 →
    stop_at (out___rela_iplt_end out) (out_relplt out) t3 = Some t4 →
    foldl (fix_array_step out) t4 chunks !! e = tab !! e.
Proof.
  intros Hi Hle t2 t3 H2 H3 H4.
  rewrite fix_array_lookup_ne;
    [|apply (other_pointer i 4 e); [done|done|lia]
     |apply (other_pointer i 5 e); [done|done|lia]
     |apply (other_pointer i 6 e); [done|done|lia]
     |apply (other_pointer i 7 e); [done|done|lia]].
  rewrite (stop_at_lookup_ne _ _ _ _ e (other_pointer i 3 e _ Hi eq_refl ltac:(lia)) H4).
  rewrite (start_at_lookup_ne _ _ _ _ e (other_pointer i 2 e _ Hi eq_refl ltac:(lia)) H3).
  rewrite (fix_ehdr_start_lookup_ne _ _ _ _ e
             (other_pointer i 1 e _ Hi eq_refl ltac:(lia)) H2).
  apply fix_bss_start_lookup_ne.
  apply (other_pointer i 0 e); [done|done|lia].
Qed.

Lemma fix_synthetic_symbols_end_lookup (i : nat) (e : string)
    (moves : OutputChunk → bool) :
  out_symbol_fields out !! i = Some (Some e) →
  i = 8%nat ∧ moves = moves_end ∨ i = 9%nat ∧ moves = moves_etext
  ∨ i = 10%nat ∧ moves = moves_edata →
  tab' !! e
  = match last (List.filter moves chunks) with
    | Some c => Some (stop_addr c)
    | None => tab !! e
    end.
Proof.
  intros Hi Hcase.
  destruct fix_synthetic_symbols_stages as (t2 & t3 & t4 & H2 & H3 & H4 & ->).
  rewrite (after_end_loop i e) by (try done; lia).
  rewrite (fix_end_lookup out chunks _ e moves).
  - rewrite (before_end_loop i e t4 Hi ltac:(lia) t2 t3) by done. done.
  - destruct Hcase as [[-> ->]|[[-> ->]|[-> ->]]].
    + left. split_and!; [by injection Hi| | |done].
      * apply (other_pointer 8 9 e); [done|done|lia].
      * apply (other_pointer 8 10 e); [done|done|lia].
    + right. left. split_and!; [|by injection Hi| |done].
      * apply (other_pointer 9 8 e); [done|done|lia].
      * apply (other_pointer 9 10 e); [done|done|lia].
    + right. right. split_and!; [| |by injection Hi|done].
      * apply (other_pointer 10 8 e); [done|done|lia].
      * apply (other_pointer 10 9 e); [done|done|lia].
Qed.

Lemma fix_synthetic_symbols_bss_lookup (e : string) :
  out___bss_start out = Some e →
  tab' !! e
  = match head (List.filter names_bss chunks) with
    | Some c => Some (start_addr c)
    | None => tab !! e
    end.
Proof.
  intros He.
  assert (Hi : out_symbol_fields out !! 0%nat = Some (Some e)) by (simpl; by rewrite He).
  destruct fix_synthetic_symbols_stages as (t2 & t3 & t4 & H2 & H3 & H4 & ->).
  rewrite (after_end_loop 0 e) by (try done; lia).
  rewrite fix_end_lookup_ne;
    [|apply (other_pointer 0 8 e); [done|done|lia]
     |apply (other_pointer 0 9 e); [done|done|lia]
     |apply (other_pointer 0 10 e); [done|done|lia]].
  rewrite fix_array_lookup_ne;
    [|apply (other_pointer 0 4 e); [done|done|lia]
     |apply (other_pointer 0 5 e); [done|done|lia]
     |apply (other_pointer 0 6 e); [done|done|lia]
     |apply (other_pointer 0 7 e); [done|done|lia]].
  rewrite (stop_at_lookup_ne _ _ _ _ e (other_pointer 0 3 e _ Hi eq_refl ltac:(lia)) H4).
  rewrite (start_at_lookup_ne _ _ _ _ e (other_pointer 0 2 e _ Hi eq_refl ltac:(lia)) H3).
  rewrite (fix_ehdr_start_lookup_ne _ _ _ _ e
             (other_pointer 0 1 e _ Hi eq_refl ltac:(lia)) H2).
  by apply fix_bss_start_lookup.
Qed.

End Synthetic.

(** X19: [fix_synthetic_symbols] binds [_end] to the end of the last chunk
    that is allocated, [_etext] to the end of the last one that is
    executable and [_edata] to the end of the last one that is allocated and
    takes room in the file, headers apart, but [__bss_start] to the start
    of the first regular chunk named .bss; a symbol for which there is no
    such chunk keeps the section index and value it had. *)
Theorem fix_synthetic_symbols_binds `{SymbolDecls} (out : OutPointers)
    (chunks : list OutputChunk) (tab tab' : SymbolTable) :
  distinct_symbols out → no_section_symbol out →
  fix_synthetic_symbols out chunks tab = Some tab' →
  (∀ e, out__end out = Some e →
     tab' !! e = match last (List.filter moves_end chunks) with
                 | Some c => Some (stop_addr c)
                 | None => tab !! e
                 end)
  ∧ (∀ e, out__etext out = Some e →
       tab' !! e = match last (List.filter moves_etext chunks) with
                   | Some c => Some (stop_addr c)
                   | None => tab !! e
                   end)
  ∧ (∀ e, out__edata out = Some e →
       tab' !! e = match last (List.filter moves_edata chunks) with
                   | Some c => Some (stop_addr c)
                   | None => tab !! e
                   end)
  ∧ (∀ e, out___bss_start out = Some e →
       tab' !! e = match head (List.filter names_bss chunks) with
                   | Some c => Some (start_addr c)
                   | None => tab !! e
                   end).
Proof.
  intros Hdist Hsec Hrun. split_and!; intros e He.
  - apply (fix_synthetic_symbols_end_lookup out chunks tab tab' Hdist Hsec Hrun 8);
      [simpl; by rewrite He|by left].
  - apply (fix_synthetic_symbols_end_lookup out chunks tab tab' Hdist Hsec Hrun 9);
      [simpl; by rewrite He|right; by left].
  - apply (fix_synthetic_symbols_end_lookup out chunks tab tab' Hdist Hsec Hrun 10);
      [simpl; by rewrite He|right; by right].
  - by apply (fix_synthetic_symbols_bss_lookup out chunks tab tab' Hdist Hsec Hrun).
Qed.



Lemma fix_start_stop_step_other `{SymbolDecls} (tab : SymbolTable)
    (d : OutputChunk) (name : string) :
  chunk_name d ≠ name →
  fix_start_stop_step tab d !! ("__start_" +:+ name) = tab !! ("__start_" +:+ name)
  ∧ fix_start_stop_step tab d !! ("__stop_" +:+ name) = tab !! ("__stop_" +:+ name).
Proof.
  intros Hne. unfold fix_start_stop_step.
  destruct (is_c_identifier (chunk_name d)); [|done].
  split; rewrite stop_lookup_ne, start_lookup_ne; try done;
    intros [= Heq]; try done; by apply append_inj in Heq.
Qed.

Lemma fix_start_stop_fold_other `{SymbolDecls} (tab : SymbolTable)
    (after : list OutputChunk) (name : string) :
  Forall (λ d, chunk_name d ≠ name) after →
  foldl fix_start_stop_step tab after !! ("__start_" +:+ name)
  = tab !! ("__start_" +:+ name)
  ∧ foldl fix_start_stop_step tab after !! ("__stop_" +:+ name)
    = tab !! ("__stop_" +:+ name).
Proof.
  intros Hall. revert tab.
  induction Hall as [|d after Hd Hall IH]; intros tab; simpl; [done|].
  destruct (IH (fix_start_stop_step tab d)) as [-> ->].
  by apply fix_start_stop_step_other.
Qed.

(** X21: for every chunk whose name is a C identifier,
    [fix_synthetic_symbols] binds [__start_<name>] to the start of the chunk
    and [__stop_<name>] to its end, with the chunk's section index; of two
    chunks of one name it is the later one the two symbols are left at. *)
Theorem fix_synthetic_symbols_start_stop `{SymbolDecls} (out : OutPointers)
    (before : list OutputChunk) (c : OutputChunk) (after : list OutputChunk)
    (tab tab' : SymbolTable) :
  fix_synthetic_symbols out (before ++ c :: after) tab = Some tab' →
  is_c_identifier (chunk_name c) = true →
  Forall (λ d, chunk_name d ≠ chunk_name c) after →
  tab' !! ("__start_" +:+ chunk_name c) = Some (start_addr c)
  ∧ tab' !! ("__stop_" +:+ chunk_name c) = Some (stop_addr c).
Proof.
  intros Hrun Hid Hafter.
  destruct (fix_synthetic_symbols_stages out _ tab tab' Hrun)
    as (t2 & t3 & t4 & _ & _ & _ & ->).
  rewrite foldl_app. cbn [foldl].
  destruct (fix_start_stop_fold_other
              (fix_start_stop_step
                 (foldl fix_start_stop_step
                    (match out_gotplt out with
                     | Some gotplt => start (out__GLOBAL_OFFSET_TABLE_ out) gotplt
                     | None => id
                     end
                       (match out_dynamic out with
                        | Some dynamic => start (out__DYNAMIC out) dynamic
                        | None => id
                        end
                          (foldl (fix_end_step out)
                             (foldl (fix_array_step out) t4 (before ++ c :: after))
                             (before ++ c :: after)))) before) c)
              after (chunk_name c) Hafter) as [-> ->].
  unfold fix_start_stop_step. rewrite Hid. split.
  - rewrite stop_lookup_ne by done. apply start_lookup_eq.
  - apply stop_lookup_eq.
Qed.

(** X22: [fix_synthetic_symbols] reads a null pointer in two cases only:
    when a chunk has the section index 1 and [out::__ehdr_start] or
    [out::ehdr] is null, and when [out::relplt] is null while one of
    [__rela_iplt_start] and [__rela_iplt_end] is not. *)
Theorem fix_synthetic_symbols_null `{SymbolDecls} (out : OutPointers)
    (chunks : list OutputChunk) (tab : SymbolTable) :
  fix_synthetic_symbols out chunks tab = None
  ↔ ((∃ c, c ∈ chunks ∧ shndx c = 1)
     ∧ (out___ehdr_start out = None ∨ out_ehdr out = None))
    ∨ (out_relplt out = None
       ∧ (out___rela_iplt_start out ≠ None ∨ out___rela_iplt_end out ≠ None)).
Proof.
  assert (Hehdr : ∀ t, fix_ehdr_start out chunks t = None
            ↔ (∃ c, c ∈ chunks ∧ shndx c = 1)
              ∧ (out___ehdr_start out = None ∨ out_ehdr out = None)).
  { intros t. induction chunks as [|c cs IH]; simpl.
    - split; [done|]. intros [(c & Hc & _) _]. by apply elem_of_nil in Hc.
    - case_bool_decide as Hc.
      + destruct (out___ehdr_start out), (out_ehdr out); split; try done;
          try (intros [_ [?|?]]; done);
          intros _; (split; [exists c; split; [apply list_elem_of_here|done]|]);
          by (left + right).
      + rewrite IH. split.
        * intros [(d & Hd & Hd1) Hnull]. split; [|done].
          exists d. split; [by apply list_elem_of_further|done].
        * intros [(d & Hd & Hd1) Hnull]. split; [|done].
          apply elem_of_cons in Hd as [->|Hd]; [done|]. by exists d. }
  unfold fix_synthetic_symbols.
  destruct (fix_ehdr_start out chunks _) as [t2|] eqn:H2; simpl.
  - assert (Hno : ¬ ((∃ c, c ∈ chunks ∧ shndx c = 1)
                     ∧ (out___ehdr_start out = None ∨ out_ehdr out = None))).
    { intros Hx. apply (proj2 (Hehdr (fix_bss_start out chunks tab))) in Hx.
      rewrite H2 in Hx. done. }
    unfold start_at, stop_at.
    destruct (out___rela_iplt_start out), (out___rela_iplt_end out),
             (out_relplt out); simpl; split; try done;
      try (intros [?|[? [?|?]]]; done); intros _; right; (split; [done|]);
      by (left + right).
  - split; [|done]. intros _. left. by apply (Hehdr (fix_bss_start out chunks tab)).
Qed.

(** X23: [fix_synthetic_symbols] leaves alone every symbol that is none of
    those of [out] and whose name begins with neither [__start_] nor
    [__stop_]. *)
Theorem fix_synthetic_symbols_frame `{SymbolDecls} (out : OutPointers)
    (chunks : list OutputChunk) (tab tab' : SymbolTable) (name : string) :
  fix_synthetic_symbols out chunks tab = Some tab' →
  Some name ∉ out_symbol_fields out →
  starts_with name "__start_" = false →
  starts_with name "__stop_" = false →
  tab' !! name = tab !! name.
Proof.
  intros Hrun Hout S1 S2.
  assert (Hne : ∀ (i : nat) f, out_symbol_fields out !! i = Some f → f ≠ Some name).
  { intros i f Hi ->. apply Hout. by eapply list_elem_of_lookup_2. }
  destruct (fix_synthetic_symbols_stages out _ tab tab' Hrun)
    as (t2 & t3 & t4 & H2 & H3 & H4 & ->).
  rewrite fix_start_stop_lookup_ne by done.
  assert (Hdyn : ∀ t, (match out_gotplt out with
                       | Some gotplt => start (out__GLOBAL_OFFSET_TABLE_ out) gotplt
                       | None => id
                       end
                         (match out_dynamic out with
                          | Some dynamic => start (out__DYNAMIC out) dynamic
                          | None => id
                          end t)) !! name = t !! name).
  { intros t. destruct (out_gotplt out), (out_dynamic out); simpl;
      rewrite ?start_lookup_ne; first [done | apply (Hne 11%nat); done
                                      | apply (Hne 12%nat); done]. }
  rewrite Hdyn.
  rewrite fix_end_lookup_ne;
    [|by apply (Hne 8%nat)|by apply (Hne 9%nat)|by apply (Hne 10%nat)].
  rewrite fix_array_lookup_ne;
    [|by apply (Hne 4%nat)|by apply (Hne 5%nat)|by apply (Hne 6%nat)
     |by apply (Hne 7%nat)].
  rewrite (stop_at_lookup_ne _ _ _ _ name (Hne 3%nat _ eq_refl) H4).
  rewrite (start_at_lookup_ne _ _ _ _ name (Hne 2%nat _ eq_refl) H3).
  rewrite (fix_ehdr_start_lookup_ne _ _ _ _ name (Hne 1%nat _ eq_refl) H2).
  apply fix_bss_start_lookup_ne. by apply (Hne 0%nat).
Qed.

(* --------------------------------------------------------------------- *)
(** ** handle_mergeable_strings                                           *)
(* --------------------------------------------------------------------- *)

Lemma update_eq {T} (store : nat → T) (p : nat) (v : T) : update store p v p = v.
Proof. unfold update. by rewrite bool_decide_eq_true_2. Qed.

Lemma update_ne {T} (store : nat → T) (p q : nat) (v : T) :
  q ≠ p → update store p v q = store q.
Proof. intros Hne. unfold update. by rewrite bool_decide_eq_false_2. Qed.

Section Claims.
Variable msecs : MsecPtr → MergeableSection.

(** What a run of claims leaves of a piece: its offset and size as they
    were, and as its owner the section of least priority among the one it
    had and those that claimed it. *)
Lemma claims_spec (schedule : list (MsecPtr * PiecePtr))
    (pieces : PiecePtr → StringPiece) (p : PiecePtr) :
  let r := foldl (claim_piece msecs) pieces schedule in
  piece_output_offset (r p) = piece_output_offset (pieces p)
  ∧ piece_size (r p) = piece_size (pieces p)
  ∧ match piece_isec (r p) with
    | None => piece_isec (pieces p) = None ∧ ∀ m, (m, p) ∉ schedule
    | Some w =>
        (piece_isec (pieces p) = Some w ∨ (w, p) ∈ schedule)
        ∧ (∀ m, (m, p) ∈ schedule → msec_priority (msecs w) <= msec_priority (msecs m))
        ∧ (∀ c, piece_isec (pieces p) = Some c →
                msec_priority (msecs w) <= msec_priority (msecs c))
    end.
Proof.
  induction schedule as [|[m q] schedule IH] using rev_ind.
  - simpl. split; [done|split; [done|]].
    destruct (piece_isec (pieces p)) as [w|]; [|split; [done|]; intros m; apply not_elem_of_nil].
    split_and!; [by left| |].
    + intros m Hm. by apply elem_of_nil in Hm.
    + by intros c [= ->].
  - rewrite foldl_app. cbn [foldl].
    set (r := foldl (claim_piece msecs) pieces schedule) in *.
    destruct IH as (I1 & I2 & I3).
    assert (Hin : p ≠ q → ∀ m', (m', p) ∈ schedule ++ [(m, q)] ↔ (m', p) ∈ schedule).
    { intros Hpq m'. rewrite elem_of_app, list_elem_of_singleton. split; [|by left].
      intros [?|[= _ ?]]; done. }
    assert (Hkeep : p ≠ q →
      match piece_isec (r p) with
      | None => piece_isec (pieces p) = None ∧ ∀ m', (m', p) ∉ schedule ++ [(m, q)]
      | Some w =>
          (piece_isec (pieces p) = Some w ∨ (w, p) ∈ schedule ++ [(m, q)])
          ∧ (∀ m', (m', p) ∈ schedule ++ [(m, q)] →
                   msec_priority (msecs w) <= msec_priority (msecs m'))
          ∧ (∀ c, piece_isec (pieces p) = Some c →
                  msec_priority (msecs w) <= msec_priority (msecs c))
      end).
    { intros Hpq. destruct (piece_isec (r p)) as [w|].
      - destruct I3 as (J1 & J2 & J3).
        split; [|split; [intros m' Hm'; by apply J2, Hin|done]].
        destruct J1 as [?|?]; [by left|right]. by apply Hin.
      - destruct I3 as (J1 & J2). split; [done|].
        intros m' Hm'%Hin; [|done]. by apply (J2 m'). }
    unfold claim_piece.
    destruct (match piece_isec (r q) with
              | Some cur => msec_priority (msecs cur) >? msec_priority (msecs m)
              | None => true
              end) eqn:Hwins.
    + destruct (decide (p = q)) as [->|Hpq].
      * rewrite update_eq. cbn. split; [done|split; [done|]].
        split; [|split].
        -- right. apply elem_of_app. right. apply list_elem_of_here.
        -- intros m' [Hm'|Hm']%elem_of_app.
           ++ destruct (piece_isec (r q)) as [w|].
              ** destruct I3 as (J1 & J2 & J3). specialize (J2 m' Hm').
                 apply Z.gtb_lt in Hwins. lia.
              ** destruct I3 as (J1 & J2). by apply J2 in Hm'.
           ++ apply list_elem_of_singleton in Hm'. injection Hm' as ->. lia.
        -- intros c Hc. destruct (piece_isec (r q)) as [w|].
           ++ destruct I3 as (J1 & J2 & J3). specialize (J3 c Hc).
              apply Z.gtb_lt in Hwins. lia.
           ++ destruct I3 as (J1 & J2). congruence.
      * rewrite update_ne by done. split; [done|split; [done|]]. by apply Hkeep.
    + destruct (decide (p = q)) as [->|Hpq].
      * split; [done|split; [done|]].
        destruct (piece_isec (r q)) as [w|]; [|done].
        destruct I3 as (J1 & J2 & J3).
        assert (msec_priority (msecs w) <= msec_priority (msecs m)).
        { destruct (Z.gtb_spec (msec_priority (msecs w)) (msec_priority (msecs m)));
            [done|lia]. }
        split; [|split].
        -- destruct J1 as [?|?]; [by left|right]. apply elem_of_app. by left.
        -- intros m' [Hm'|Hm']%elem_of_app; [by apply J2|].
           apply list_elem_of_singleton in Hm'. injection Hm' as ->. lia.
        -- done.
      * split; [done|split; [done|]]. by apply Hkeep.
Qed.

End Claims.

Lemma assign_piece_offset_isec (m : MsecPtr) (ps : list PiecePtr)
    (pieces : PiecePtr → StringPiece) (offset : Z) (q : PiecePtr) :
  let r := foldl (assign_piece_offset m) (pieces, offset) ps in
  piece_isec (r.1 q) = piece_isec (pieces q)
  ∧ piece_size (r.1 q) = piece_size (pieces q).
Proof.
  induction ps as [|p ps IH] using rev_ind; [done|].
  rewrite foldl_app. cbn [foldl].
  destruct (foldl (assign_piece_offset m) (pieces, offset) ps) as [pieces1 offset1].
  simpl in IH. destruct IH as [E1 E2]. unfold assign_piece_offset.
  destruct (_ && _); [|done]. cbn [fst].
  destruct (decide (q = p)) as [->|Hne].
  - by rewrite update_eq.
  - by rewrite update_ne.
Qed.

Lemma assign_offsets_isec (secs : list MsecPtr)
    (pieces : PiecePtr → StringPiece) (msecs : MsecPtr → MergeableSection)
    (q : PiecePtr) :
  let r := foldl assign_offsets (pieces, msecs) secs in
  piece_isec (r.1 q) = piece_isec (pieces q)
  ∧ piece_size (r.1 q) = piece_size (pieces q)
  ∧ (∀ m, msec_pieces (r.2 m) = msec_pieces (msecs m)
          ∧ msec_priority (r.2 m) = msec_priority (msecs m)
          ∧ msec_parent (r.2 m) = msec_parent (msecs m)
          ∧ msec_offset (r.2 m) = msec_offset (msecs m)).
Proof.
  induction secs as [|s secs IH] using rev_ind; [done|].
  rewrite foldl_app. cbn [foldl].
  destruct (foldl assign_offsets (pieces, msecs) secs) as [pieces1 msecs1].
  simpl in IH. destruct IH as (E1 & E2 & E3). unfold assign_offsets.
  pose proof (assign_piece_offset_isec s (msec_pieces (msecs1 s)) pieces1 0 q) as Hin.
  destruct (foldl (assign_piece_offset s) (pieces1, 0) (msec_pieces (msecs1 s)))
    as [pieces2 offset2]. simpl in Hin. destruct Hin as [F1 F2]. cbn [fst snd].
  split; [congruence|split; [congruence|]].
  intros m. destruct (E3 m) as (G1 & G2 & G3 & G4).
  destruct (decide (m = s)) as [->|Hne].
  - by rewrite update_eq.
  - by rewrite update_ne.
Qed.

(** X24: when [handle_mergeable_strings] is done, every piece that is in
    some section of some file belongs to one of the sections that hold it,
    one whose file has the least priority among them, whatever the order
    in which the threads have made their claims. *)
Theorem handle_mergeable_strings_owner `{MoldDecls}
    (schedule : list (MsecPtr * PiecePtr))
    (files : list (list MsecPtr)) (st : StringState) :
  schedule ≡ₚ all_claims (st_msecs st) files →
  (∀ p, piece_isec (st_pieces st p) = None) →
  let st' := handle_mergeable_strings schedule files st in
  ∀ m p, (m, p) ∈ all_claims (st_msecs st) files →
    ∃ w, piece_isec (st_pieces st' p) = Some w
         ∧ (w, p) ∈ all_claims (st_msecs st) files
         ∧ msec_priority (st_msecs st w) <= msec_priority (st_msecs st m).
Proof.
  intros Hperm Hnull st' m p Hmp. unfold st', handle_mergeable_strings.
  set (pieces1 := foldl (claim_piece (st_msecs st)) (st_pieces st) schedule).
  pose proof (assign_offsets_isec (concat files) pieces1 (st_msecs st) p) as Hiso.
  destruct (foldl assign_offsets (pieces1, st_msecs st) (concat files))
    as [pieces2 msecs2]. simpl in Hiso. destruct Hiso as (Hiso & _).
  destruct (foldl assign_section_offset _ _) as [msecs3 parents3]. cbn [st_pieces].
  rewrite Hiso.
  destruct (claims_spec (st_msecs st) schedule (st_pieces st) p) as (_ & _ & Hown).
  fold pieces1 in Hown.
  destruct (piece_isec (pieces1 p)) as [w|].
  - destruct Hown as (J1 & J2 & _). exists w. split_and!; [done| |].
    + destruct J1 as [J1|J1]; [by rewrite Hnull in J1|]. by rewrite <- Hperm.
    + apply J2. by rewrite Hperm.
  - destruct Hown as [_ Hno]. exfalso. apply (Hno m). by rewrite Hperm.
Qed.

Lemma pieces_span_snoc (pieces : PiecePtr → StringPiece) (ps : list PiecePtr)
    (p : PiecePtr) :
  pieces_span pieces (ps ++ [p]) = pieces_span pieces ps + piece_size (pieces p).
Proof.
  unfold pieces_span. induction ps as [|q ps IH]; simpl; [lia|]. rewrite IH. lia.
Qed.

Lemma pieces_span_nonneg (pieces : PiecePtr → StringPiece) (ps : list PiecePtr) :
  (∀ p, 0 <= piece_size (pieces p)) → 0 <= pieces_span pieces ps.
Proof.
  intros Hsz. unfold pieces_span. induction ps as [|q ps IH]; simpl; [lia|].
  specialize (Hsz q). lia.
Qed.

Lemma pieces_span_ext (pieces pieces' : PiecePtr → StringPiece)
    (ps : list PiecePtr) :
  (∀ p, piece_size (pieces' p) = piece_size (pieces p)) →
  pieces_span pieces' ps = pieces_span pieces ps.
Proof.
  intros Hsz. unfold pieces_span. induction ps as [|q ps IH]; simpl; [done|].
  by rewrite IH, Hsz.
Qed.

(** The second loop for one section [m] whose pieces have no offset yet:
    the pieces it owns get ranges, one after the other, below the size the
    section ends with; nothing else is written. *)
Lemma assign_piece_offsets_spec (m : MsecPtr) (ps : list PiecePtr)
    (pieces : PiecePtr → StringPiece) :
  (∀ p, 0 <= piece_size (pieces p)) →
  (∀ p, piece_isec (pieces p) = Some m → piece_output_offset (pieces p) = -1) →
  pieces_span pieces ps < 2 ^ 32 →
  let r := foldl (assign_piece_offset m) (pieces, 0) ps in
  0 <= r.2 <= pieces_span pieces ps
  ∧ (∀ q, piece_isec (pieces q) ≠ Some m ∨ q ∉ ps → r.1 q = pieces q)
  ∧ (∀ q, piece_isec (pieces q) = Some m → q ∈ ps →
       0 <= piece_output_offset (r.1 q)
       ∧ piece_output_offset (r.1 q) + piece_size (pieces q) <= r.2)
  ∧ (∀ p q, piece_isec (pieces p) = Some m → piece_isec (pieces q) = Some m →
       p ∈ ps → q ∈ ps → p ≠ q →
       apart (piece_output_offset (r.1 p)) (piece_size (pieces p))
             (piece_output_offset (r.1 q)) (piece_size (pieces q))).
Proof.
  intros Hsz Hunset. induction ps as [|p ps IH] using rev_ind; intros Hspan.
  - simpl. split_and!; [done|done|done| |].
    + intros q _ Hq. by apply elem_of_nil in Hq.
    + intros p q _ _ Hp. by apply elem_of_nil in Hp.
  - rewrite pieces_span_snoc in Hspan |- *.
    pose proof (Hsz p) as Hp0.
    pose proof (pieces_span_nonneg pieces ps Hsz) as Hs0.
    specialize (IH ltac:(lia)).
    cbv zeta in IH |- *. rewrite foldl_app. cbn [foldl].
    pose proof (assign_piece_offset_isec m ps pieces 0) as Hiso.
    destruct (foldl (assign_piece_offset m) (pieces, 0) ps) as [pieces1 off1].
    cbn [fst snd] in IH, Hiso. destruct IH as (I1 & I2 & I3 & I4).
    unfold assign_piece_offset.
    destruct (Hiso p) as [Hip Hsp]. rewrite Hip, Hsp.
    destruct (decide (piece_isec (pieces p) = Some m
                      ∧ piece_output_offset (pieces1 p) = -1)) as [[Hown Hoff]|Hno].
    + rewrite bool_decide_eq_true_2 by done.
      rewrite (proj2 (Z.eqb_eq _ _) Hoff). cbn [andb fst snd].
      rewrite u32_small by lia.
      assert (Hnew : p ∉ ps).
      { intros Hin. destruct (I3 p Hown Hin) as [? _]. lia. }
      split; [lia|split; [|split]].
      * intros q Hq. destruct (decide (q = p)) as [->|Hne].
        -- destruct Hq as [Hq|Hq]; [done|]. exfalso. apply Hq.
           apply elem_of_app. right. apply list_elem_of_here.
        -- rewrite update_ne by done. apply I2.
           destruct Hq as [Hq|Hq]; [by left|right].
           intros Hin. apply Hq. apply elem_of_app. by left.
      * intros q Hq Hin. destruct (decide (q = p)) as [->|Hne].
        -- rewrite update_eq. cbn. lia.
        -- rewrite update_ne by done.
           apply elem_of_app in Hin as [Hin|Hin];
             [|apply list_elem_of_singleton in Hin; done].
           destruct (I3 q Hq Hin). lia.
      * intros a b Ha Hb Hina Hinb Hab.
        assert (Hcase : ∀ x, x ∈ ps ++ [p] → x = p ∨ (x ≠ p ∧ x ∈ ps)).
        { intros x [Hx|Hx]%elem_of_app.
          - destruct (decide (x = p)); [by left|by right].
          - left. by apply list_elem_of_singleton in Hx. }
        destruct (Hcase a Hina) as [->|[Hap Ha']], (Hcase b Hinb) as [->|[Hbp Hb']].
        -- done.
        -- rewrite update_eq, (update_ne _ p b) by done. cbn.
           destruct (I3 b Hb Hb'). right. lia.
        -- rewrite update_eq, (update_ne _ p a) by done. cbn.
           destruct (I3 a Ha Ha'). left. lia.
        -- rewrite !update_ne by done. by apply I4.
    + assert (Hcond : bool_decide (piece_isec (pieces p) = Some m)
                      && (piece_output_offset (pieces1 p) =? -1) = false).
      { apply andb_false_iff. destruct (decide (piece_isec (pieces p) = Some m)).
        - right. apply Z.eqb_neq. tauto.
        - left. by apply bool_decide_eq_false. }
      rewrite Hcond. cbn [fst snd].
      assert (Hold : piece_isec (pieces p) = Some m → p ∈ ps).
      { intros Hown. destruct (decide (p ∈ ps)) as [|Hnot]; [done|].
        exfalso. apply Hno. split; [done|].
        rewrite (I2 p) by (by right). by apply Hunset. }
      split; [lia|split; [|split]].
      * intros q Hq. apply I2. destruct Hq as [Hq|Hq]; [by left|right].
        intros Hin. apply Hq. apply elem_of_app. by left.
      * intros q Hq Hin.
        assert (q ∈ ps).
        { apply elem_of_app in Hin as [Hin|Hin]; [done|].
          apply list_elem_of_singleton in Hin as ->. by apply Hold. }
        destruct (I3 q Hq); [done|]. lia.
      * intros a b Ha Hb Hina Hinb Hab.
        assert (Hcase : ∀ x, piece_isec (pieces x) = Some m → x ∈ ps ++ [p] → x ∈ ps).
        { intros x Hx [Hin|Hin]%elem_of_app; [done|].
          apply list_elem_of_singleton in Hin as ->. by apply Hold. }
        apply I4; auto.
Qed.

(** The second loop over the sections [secs], from pieces none of which has
    an offset yet. *)
Lemma assign_offsets_spec (secs : list MsecPtr)
    (pieces0 : PiecePtr → StringPiece) (msecs0 : MsecPtr → MergeableSection) :
  NoDup secs →
  (∀ p, 0 <= piece_size (pieces0 p)) →
  (∀ p, piece_output_offset (pieces0 p) = -1) →
  (∀ m, m ∈ secs → pieces_span pieces0 (msec_pieces (msecs0 m)) < 2 ^ 32) →
  let r := foldl assign_offsets (pieces0, msecs0) secs in
  (∀ p, (∀ m, piece_isec (pieces0 p) = Some m → m ∉ secs) → r.1 p = pieces0 p)
  ∧ (∀ m, m ∉ secs → r.2 m = msecs0 m)
  ∧ (∀ m, m ∈ secs →
       (0 <= msec_size (r.2 m) < 2 ^ 32
        ∧ msec_size (r.2 m) <= pieces_span pieces0 (msec_pieces (msecs0 m)))
       ∧ ∀ p, p ∈ msec_pieces (msecs0 m) → piece_isec (pieces0 p) = Some m →
           0 <= piece_output_offset (r.1 p)
           ∧ piece_output_offset (r.1 p) + piece_size (pieces0 p)
             <= msec_size (r.2 m)
           ∧ ∀ q, q ∈ msec_pieces (msecs0 m) → piece_isec (pieces0 q) = Some m →
               q ≠ p →
               apart (piece_output_offset (r.1 p)) (piece_size (pieces0 p))
                     (piece_output_offset (r.1 q)) (piece_size (pieces0 q))).
Proof.
  intros Hnd Hsz Hunset.
  induction secs as [|s secs IH] using rev_ind; intros Hspan.
  - simpl. split_and!; [done|done|]. intros m Hm. by apply elem_of_nil in Hm.
  - apply NoDup_app in Hnd as (Hnd & Hs & _).
    assert (Hs' : s ∉ secs).
    { intros Hin. apply (Hs s Hin). apply list_elem_of_here. }
    specialize (IH Hnd ltac:(intros m Hm; apply Hspan, elem_of_app; by left)).
    cbv zeta in IH |- *. rewrite foldl_app. cbn [foldl].
    pose proof (assign_offsets_isec secs pieces0 msecs0) as Hiso.
    destruct (foldl assign_offsets (pieces0, msecs0) secs) as [pieces1 msecs1].
    cbn [fst snd] in IH, Hiso. destruct IH as (I1 & I2 & I3).
    unfold assign_offsets. rewrite (I2 s Hs').
    assert (Hsz1 : ∀ p, 0 <= piece_size (pieces1 p)).
    { intros p. destruct (Hiso p) as (_ & -> & _). apply Hsz. }
    assert (Hisec1 : ∀ p, piece_isec (pieces1 p) = piece_isec (pieces0 p)).
    { intros p. by destruct (Hiso p) as (-> & _). }
    assert (Hsize1 : ∀ p, piece_size (pieces1 p) = piece_size (pieces0 p)).
    { intros p. by destruct (Hiso p) as (_ & -> & _). }
    assert (Hunset1 : ∀ p, piece_isec (pieces1 p) = Some s →
                           piece_output_offset (pieces1 p) = -1).
    { intros p Hp. rewrite I1; [apply Hunset|].
      intros m Hm. rewrite Hisec1 in Hp. by simplify_eq. }
    assert (Hspan1 : pieces_span pieces1 (msec_pieces (msecs0 s)) < 2 ^ 32).
    { rewrite (pieces_span_ext pieces0) by done.
      apply Hspan, elem_of_app. right. apply list_elem_of_here. }
    destruct (assign_piece_offsets_spec s (msec_pieces (msecs0 s)) pieces1
                Hsz1 Hunset1 Hspan1) as (J1 & J2 & J3 & J4).
    destruct (foldl (assign_piece_offset s) (pieces1, 0) (msec_pieces (msecs0 s)))
      as [pieces2 offset2]. cbn [fst snd] in J1, J2, J3, J4 |- *.
    split; [|split].
    + intros p Hp. rewrite J2.
      * apply I1. intros m Hm Hin. apply (Hp m Hm), elem_of_app. by left.
      * left. rewrite Hisec1. intros Hown. apply (Hp s Hown), elem_of_app.
        right. apply list_elem_of_here.
    + intros m Hm. rewrite update_ne.
      * apply I2. intros Hin. apply Hm, elem_of_app. by left.
      * intros ->. apply Hm, elem_of_app. right. apply list_elem_of_here.
    + intros m [Hm|Hm]%elem_of_app.
      * assert (Hms : m ≠ s) by (intros ->; done).
        rewrite update_ne by done.
        destruct (I3 m Hm) as [K1 K2]. split; [done|].
        intros p Hp Hown.
        assert (Hkeep : ∀ x, piece_isec (pieces0 x) = Some m → pieces2 x = pieces1 x).
        { intros x Hx. apply J2. left. rewrite Hisec1, Hx. congruence. }
        destruct (K2 p Hp Hown) as (L1 & L2 & L3).
        rewrite (Hkeep p Hown). split; [done|split; [done|]].
        intros q Hq Hownq Hqp. rewrite (Hkeep q Hownq). by apply L3.
      * apply list_elem_of_singleton in Hm as ->. rewrite update_eq. cbn.
        assert (Hsp : pieces_span pieces1 (msec_pieces (msecs0 s)) < 2 ^ 32) by done.
        assert (Hsame : pieces_span pieces1 (msec_pieces (msecs0 s))
                        = pieces_span pieces0 (msec_pieces (msecs0 s))).
        { by apply pieces_span_ext. }
        split; [lia|]. intros p Hp Hown.
        rewrite <- Hisec1 in Hown.
        destruct (J3 p Hown Hp) as [L1 L2]. rewrite Hsize1 in L2.
        split; [done|split; [done|]].
        intros q Hq Hownq Hqp. rewrite <- Hisec1 in Hownq.
        rewrite <- !Hsize1. apply J4; done.
Qed.

Lemma assign_section_offset_keeps `{MoldDecls} (secs : list MsecPtr)
    (msecs : MsecPtr → MergeableSection) (parent_size : nat → Z) (m : MsecPtr) :
  let r := foldl assign_section_offset (msecs, parent_size) secs in
  msec_size (r.1 m) = msec_size (msecs m)
  ∧ msec_pieces (r.1 m) = msec_pieces (msecs m)
  ∧ msec_priority (r.1 m) = msec_priority (msecs m)
  ∧ msec_parent (r.1 m) = msec_parent (msecs m).
Proof.
  induction secs as [|s secs IH] using rev_ind; [done|].
  cbv zeta in IH |- *. rewrite foldl_app. cbn [foldl].
  destruct (foldl assign_section_offset (msecs, parent_size) secs) as [msecs1 ps1].
  cbn [fst snd] in IH |- *. destruct IH as (E1 & E2 & E3 & E4).
  unfold assign_section_offset. cbn [fst].
  destruct (decide (m = s)) as [->|Hne].
  - by rewrite update_eq.
  - by rewrite update_ne.
Qed.

(** X25: when [handle_mergeable_strings] is done, the pieces a section
    owns lie inside the section, from offset 0 to its size, and no two of
    them overlap, also when the section lists a piece more than once; the
    size of the section is below 2^32. This is for pieces that have no
    offset yet (-1) and sizes that are not negative, the sizes of the pieces
    of a section summing to less than 2^32 (the [u32 offset] does not wrap),
    and no section being in two files. *)
Theorem handle_mergeable_strings_offsets `{MoldDecls}
    (schedule : list (MsecPtr * PiecePtr))
    (files : list (list MsecPtr)) (st : StringState) :
  NoDup (concat files) →
  (∀ p, 0 <= piece_size (st_pieces st p)) →
  (∀ p, piece_output_offset (st_pieces st p) = -1) →
  (∀ m, m ∈ concat files →
     pieces_span (st_pieces st) (msec_pieces (st_msecs st m)) < 2 ^ 32) →
  let st' := handle_mergeable_strings schedule files st in
  ∀ m, m ∈ concat files →
    0 <= msec_size (st_msecs st' m) < 2 ^ 32
    ∧ ∀ p, p ∈ msec_pieces (st_msecs st m) →
        piece_isec (st_pieces st' p) = Some m →
        0 <= piece_output_offset (st_pieces st' p)
        ∧ piece_output_offset (st_pieces st' p) + piece_size (st_pieces st' p)
          <= msec_size (st_msecs st' m)
        ∧ ∀ q, q ∈ msec_pieces (st_msecs st m) →
            piece_isec (st_pieces st' q) = Some m → q ≠ p →
            apart (piece_output_offset (st_pieces st' p)) (piece_size (st_pieces st' p))
                  (piece_output_offset (st_pieces st' q)) (piece_size (st_pieces st' q)).
Proof.
  intros Hnd Hsz Hunset Hspan st' m Hm. unfold st', handle_mergeable_strings.
  set (pieces1 := foldl (claim_piece (st_msecs st)) (st_pieces st) schedule).
  assert (Hc : ∀ p, piece_output_offset (pieces1 p) = -1
                    ∧ piece_size (pieces1 p) = piece_size (st_pieces st p)).
  { intros p. destruct (claims_spec (st_msecs st) schedule (st_pieces st) p)
      as (E1 & E2 & _). fold pieces1 in E1, E2. rewrite E1, E2. by split. }
  destruct (assign_offsets_spec (concat files) pieces1 (st_msecs st) Hnd)
    as (_ & _ & Hsec).
  { intros p. destruct (Hc p) as [_ ->]. apply Hsz. }
  { intros p. by destruct (Hc p). }
  { intros k Hk. rewrite (pieces_span_ext (st_pieces st)); [by apply Hspan|].
    intros p. by destruct (Hc p). }
  pose proof (assign_offsets_isec (concat files) pieces1 (st_msecs st)) as Hiso.
  destruct (foldl assign_offsets (pieces1, st_msecs st) (concat files))
    as [pieces2 msecs2]. cbn [fst snd] in Hsec, Hiso.
  pose proof (assign_section_offset_keeps (concat files) msecs2 (st_parent_size st) m)
    as Hkeep.
  destruct (foldl assign_section_offset _ _) as [msecs3 parents3].
  cbn [fst snd st_pieces st_msecs] in Hkeep |- *. destruct Hkeep as (-> & _).
  destruct (Hsec m Hm) as [[K1 _] K2]. split; [done|].
  intros p Hp Hown.
  assert (Hi : ∀ x, piece_isec (pieces2 x) = piece_isec (pieces1 x)
                    ∧ piece_size (pieces2 x) = piece_size (pieces1 x)).
  { intros x. destruct (Hiso x) as (-> & -> & _). done. }
  destruct (Hi p) as [Hip Hsp]. rewrite Hip in Hown.
  destruct (K2 p Hp Hown) as (L1 & L2 & L3). rewrite Hsp.
  split; [done|split; [done|]].
  intros q Hq Hownq Hqp. destruct (Hi q) as [Hiq Hsq]. rewrite Hiq in Hownq.
  rewrite Hsq. by apply L3.
Qed.

Lemma sections_span_snoc (msecs : MsecPtr → MergeableSection) (k : nat)
    (secs : list MsecPtr) (s : MsecPtr) :
  sections_span msecs k (secs ++ [s])
  = sections_span msecs k secs
    + (if bool_decide (msec_parent (msecs s) = k) then msec_size (msecs s) else 0).
Proof.
  induction secs as [|m secs IH]; cbn [app sections_span foldr].
  - lia.
  - fold (sections_span msecs k (secs ++ [s])). rewrite IH.
    fold (sections_span msecs k secs). lia.
Qed.

Lemma sections_span_ext (msecs msecs' : MsecPtr → MergeableSection) (k : nat)
    (secs : list MsecPtr) :
  (∀ m, m ∈ secs → msec_size (msecs' m) = msec_size (msecs m)
                   ∧ msec_parent (msecs' m) = msec_parent (msecs m)) →
  sections_span msecs' k secs = sections_span msecs k secs.
Proof.
  induction secs as [|m secs IH]; intros Hext; [done|].
  cbn [sections_span foldr]. fold (sections_span msecs k secs).
  fold (sections_span msecs' k secs).
  destruct (Hext m) as [-> ->]; [apply list_elem_of_here|].
  rewrite IH; [done|]. intros x Hx. apply Hext. by apply list_elem_of_further.
Qed.

Lemma sections_span_le_strings (pieces : PiecePtr → StringPiece)
    (msecs0 msecs : MsecPtr → MergeableSection) (k : nat) (secs : list MsecPtr) :
  (∀ m, m ∈ secs →
     0 <= msec_size (msecs m) <= pieces_span pieces (msec_pieces (msecs0 m))
     ∧ msec_parent (msecs m) = msec_parent (msecs0 m)) →
  0 <= sections_span msecs k secs <= strings_span pieces msecs0 k secs.
Proof.
  induction secs as [|m secs IH]; intros Hsz.
  - cbn. lia.
  - cbn [sections_span strings_span foldr].
    fold (sections_span msecs k secs). fold (strings_span pieces msecs0 k secs).
    destruct (Hsz m ltac:(apply list_elem_of_here)) as [Hm ->].
    specialize (IH ltac:(intros x Hx; by apply Hsz, list_elem_of_further)).
    case_bool_decide; lia.
Qed.

(** The third loop over the sections [secs], for parents whose size stays
    inside the offset field. *)
Lemma assign_section_offsets_spec `{MoldDecls} (secs : list MsecPtr)
    (msecs : MsecPtr → MergeableSection) (parent_size : nat → Z) :
  NoDup secs →
  (∀ m, m ∈ secs → 0 <= msec_size (msecs m)) →
  (∀ k, 0 <= parent_size k) →
  (∀ k, parent_size k + sections_span msecs k secs < 2 ^ 64) →
  (∀ k, parent_size k + sections_span msecs k secs < 2 ^ offset_bits) →
  let r := foldl assign_section_offset (msecs, parent_size) secs in
  (∀ k, r.2 k = parent_size k + sections_span msecs k secs)
  ∧ (∀ m, m ∉ secs → r.1 m = msecs m)
  ∧ (∀ m, m ∈ secs →
       parent_size (msec_parent (msecs m)) <= msec_offset (r.1 m)
       ∧ msec_offset (r.1 m) + msec_size (msecs m) <= r.2 (msec_parent (msecs m)))
  ∧ (∀ m n, m ∈ secs → n ∈ secs → m ≠ n →
       msec_parent (msecs m) = msec_parent (msecs n) →
       apart (msec_offset (r.1 m)) (msec_size (msecs m))
             (msec_offset (r.1 n)) (msec_size (msecs n))).
Proof.
  intros Hnd.
  induction secs as [|s secs IH] using rev_ind; intros Hsz Hpar Hfit Hfield.
  - cbn. split_and!; try done.
    + intros k. lia.
    + intros m Hm. by apply elem_of_nil in Hm.
    + intros m n Hm. by apply elem_of_nil in Hm.
  - apply NoDup_app in Hnd as (Hnd & Hs & _).
    assert (Hs' : s ∉ secs).
    { intros Hin. apply (Hs s Hin). apply list_elem_of_here. }
    assert (Hss : 0 <= msec_size (msecs s)).
    { apply Hsz, elem_of_app. right. apply list_elem_of_here. }
    assert (Hsz' : ∀ m, m ∈ secs → 0 <= msec_size (msecs m)).
    { intros m Hm. apply Hsz, elem_of_app. by left. }
    assert (Hspan0 : ∀ k, 0 <= sections_span msecs k secs).
    { intros k.
      assert (Hle : ∀ l, (∀ m, m ∈ l → 0 <= msec_size (msecs m)) →
                         0 <= sections_span msecs k l).
      { induction l as [|x l IHl]; intros Hl; [cbn; lia|].
        cbn [sections_span foldr]. fold (sections_span msecs k l).
        pose proof (Hl x ltac:(apply list_elem_of_here)).
        specialize (IHl ltac:(intros y Hy; by apply Hl, list_elem_of_further)).
        case_bool_decide; lia. }
      by apply Hle. }
    assert (Hfit' : ∀ k, parent_size k + sections_span msecs k secs < 2 ^ 64).
    { intros k. specialize (Hfit k). rewrite sections_span_snoc in Hfit.
      case_bool_decide; lia. }
    assert (Hfield' : ∀ k, parent_size k + sections_span msecs k secs
                           < 2 ^ offset_bits).
    { intros k. specialize (Hfield k). rewrite sections_span_snoc in Hfield.
      case_bool_decide; lia. }
    specialize (IH Hnd Hsz' Hpar Hfit' Hfield').
    pose proof (λ m, assign_section_offset_keeps secs msecs parent_size m) as Hkeep.
    cbv zeta in IH, Hkeep |- *. rewrite foldl_app. cbn [foldl].
    destruct (foldl assign_section_offset (msecs, parent_size) secs)
      as [msecs1 parents1]. cbn [fst snd] in IH, Hkeep.
    destruct IH as (I1 & I2 & I3 & I4).
    unfold assign_section_offset. cbn [fst snd].
    rewrite (I2 s Hs'). set (k0 := msec_parent (msecs s)).
    assert (Hk0 : u64 (parents1 k0 + msec_size (msecs s))
                  = parents1 k0 + msec_size (msecs s)).
    { unfold u64, wrap. apply Z.mod_small. rewrite I1.
      specialize (Hfit k0). rewrite sections_span_snoc in Hfit.
      fold k0 in Hfit. rewrite bool_decide_eq_true_2 in Hfit by done.
      specialize (Hpar k0). specialize (Hspan0 k0). lia. }
    assert (Hw0 : wrap offset_bits (parents1 k0) = parents1 k0).
    { unfold wrap. apply Z.mod_small. rewrite I1.
      specialize (Hfield' k0). specialize (Hpar k0). specialize (Hspan0 k0). lia. }
    rewrite Hk0, Hw0.
    split; [|split; [|split]].
    + intros k. rewrite sections_span_snoc. fold k0.
      destruct (decide (k = k0)) as [->|Hne].
      * rewrite update_eq, bool_decide_eq_true_2 by done. rewrite I1. lia.
      * rewrite update_ne by done.
        rewrite (bool_decide_eq_false_2 (k0 = k)) by congruence. rewrite I1. lia.
    + intros m Hm. rewrite update_ne.
      * apply I2. intros Hin. apply Hm, elem_of_app. by left.
      * intros ->. apply Hm, elem_of_app. right. apply list_elem_of_here.
    + intros m [Hm|Hm]%elem_of_app.
      * assert (Hms : m ≠ s) by (intros ->; done).
        rewrite update_ne by done. destruct (I3 m Hm) as [K1 K2].
        split; [done|].
        destruct (decide (msec_parent (msecs m) = k0)) as [Heq|Hne].
        -- rewrite Heq in K2 |- *. rewrite update_eq. lia.
        -- by rewrite update_ne.
      * apply list_elem_of_singleton in Hm as ->. rewrite !update_eq.
        fold k0. cbn. rewrite I1. specialize (Hspan0 k0). lia.
    + intros m n Hm Hn Hmn Hsame.
      apply elem_of_app in Hm as [Hm|Hm]; apply elem_of_app in Hn as [Hn|Hn].
      * assert (m ≠ s) by (intros ->; done). assert (n ≠ s) by (intros ->; done).
        rewrite !update_ne by done. by apply I4.
      * apply list_elem_of_singleton in Hn as ->.
        assert (m ≠ s) by (intros ->; done).
        rewrite update_eq, update_ne by done. cbn.
        destruct (I3 m Hm) as [_ K2]. rewrite Hsame in K2. fold k0 in K2.
        left. lia.
      * apply list_elem_of_singleton in Hm as ->.
        assert (n ≠ s) by (intros ->; done).
        rewrite update_eq, update_ne by done. cbn.
        destruct (I3 n Hn) as [_ K2]. rewrite <- Hsame in K2. fold k0 in K2.
        right. lia.
      * apply list_elem_of_singleton in Hm as ->.
        apply list_elem_of_singleton in Hn as ->. done.
Qed.

(** X26: when [handle_mergeable_strings] is done, the sections that share
    a parent lie in it one after the other: each has its range from its
    offset, past the bytes the parent had before, no two ranges overlap, and
    the size of the parent has grown by the sizes of its sections. This
    holds under the conditions of the second loop and as long as the size
    of every parent stays inside the offset field of a section, which keeps
    [offset_bits] bits of it: the bytes the parent has, and all the pieces
    of its sections, are fewer than 2^[offset_bits], and that field is not
    wider than the 64 bits of the size. *)
Theorem handle_mergeable_strings_sections `{MoldDecls}
    (schedule : list (MsecPtr * PiecePtr))
    (files : list (list MsecPtr)) (st : StringState) :
  NoDup (concat files) →
  (∀ p, 0 <= piece_size (st_pieces st p)) →
  (∀ p, piece_output_offset (st_pieces st p) = -1) →
  (∀ m, m ∈ concat files →
     pieces_span (st_pieces st) (msec_pieces (st_msecs st m)) < 2 ^ 32) →
  offset_bits <= 64 →
  (∀ k, 0 <= st_parent_size st k
        ∧ st_parent_size st k
          + strings_span (st_pieces st) (st_msecs st) k (concat files)
          < 2 ^ offset_bits) →
  let st' := handle_mergeable_strings schedule files st in
  (∀ k, st_parent_size st' k
        = st_parent_size st k + sections_span (st_msecs st') k (concat files))
  ∧ (∀ m, m ∈ concat files →
       st_parent_size st (msec_parent (st_msecs st m)) <= msec_offset (st_msecs st' m)
       ∧ msec_offset (st_msecs st' m) + msec_size (st_msecs st' m)
         <= st_parent_size st' (msec_parent (st_msecs st m)))
  ∧ (∀ m n, m ∈ concat files → n ∈ concat files → m ≠ n →
       msec_parent (st_msecs st m) = msec_parent (st_msecs st n) →
       apart (msec_offset (st_msecs st' m)) (msec_size (st_msecs st' m))
             (msec_offset (st_msecs st' n)) (msec_size (st_msecs st' n))).
Proof.
  intros Hnd Hsz Hunset Hspan Hbits Hpar st'. unfold st', handle_mergeable_strings.
  set (pieces1 := foldl (claim_piece (st_msecs st)) (st_pieces st) schedule).
  assert (Hc : ∀ p, piece_output_offset (pieces1 p) = -1
                    ∧ piece_size (pieces1 p) = piece_size (st_pieces st p)).
  { intros p. destruct (claims_spec (st_msecs st) schedule (st_pieces st) p)
      as (E1 & E2 & _). fold pieces1 in E1, E2. rewrite E1, E2. by split. }
  assert (Hsame : ∀ l, pieces_span pieces1 l = pieces_span (st_pieces st) l).
  { intros l. apply pieces_span_ext. intros p. by destruct (Hc p). }
  destruct (assign_offsets_spec (concat files) pieces1 (st_msecs st) Hnd)
    as (_ & _ & Hsec).
  { intros p. destruct (Hc p) as [_ ->]. apply Hsz. }
  { intros p. by destruct (Hc p). }
  { intros k Hk. rewrite Hsame. by apply Hspan. }
  pose proof (assign_offsets_isec (concat files) pieces1 (st_msecs st) 0%nat) as Hiso.
  destruct (foldl assign_offsets (pieces1, st_msecs st) (concat files))
    as [pieces2 msecs2]. cbn [fst snd] in Hsec, Hiso. destruct Hiso as (_ & _ & Hiso).
  assert (Hparent2 : ∀ m, msec_parent (msecs2 m) = msec_parent (st_msecs st m)).
  { intros m. by destruct (Hiso m) as (_ & _ & -> & _). }
  assert (Hsize2 : ∀ m, m ∈ concat files →
            0 <= msec_size (msecs2 m)
                 <= pieces_span (st_pieces st) (msec_pieces (st_msecs st m))
            ∧ msec_parent (msecs2 m) = msec_parent (st_msecs st m)).
  { intros m Hm. destruct (Hsec m Hm) as [[K1 K2] _]. rewrite Hsame in K2.
    split; [lia|apply Hparent2]. }
  assert (Hroom : ∀ k, st_parent_size st k + sections_span msecs2 k (concat files)
                       < 2 ^ offset_bits).
  { intros k. destruct (Hpar k) as [_ Hk].
    pose proof (sections_span_le_strings (st_pieces st) (st_msecs st) msecs2 k
                  (concat files) Hsize2). lia. }
  assert (H64 : 2 ^ offset_bits <= 2 ^ 64).
  { destruct (Z.le_gt_cases 0 offset_bits).
    - apply Z.pow_le_mono_r; lia.
    - rewrite Z.pow_neg_r by lia. lia. }
  destruct (assign_section_offsets_spec (concat files) msecs2 (st_parent_size st) Hnd)
    as (J1 & _ & J3 & J4).
  { intros m Hm. destruct (Hsize2 m Hm). lia. }
  { intros k. by destruct (Hpar k). }
  { intros k. specialize (Hroom k). lia. }
  { exact Hroom. }
  pose proof (λ m, assign_section_offset_keeps (concat files) msecs2
                     (st_parent_size st) m) as Hkeep.
  destruct (foldl assign_section_offset _ _) as [msecs3 parents3].
  cbn [fst snd st_pieces st_msecs st_parent_size] in J1, J3, J4, Hkeep |- *.
  split; [|split].
  - intros k. rewrite J1. f_equal. symmetry. apply sections_span_ext.
    intros m _. by destruct (Hkeep m) as (-> & _ & _ & ->).
  - intros m Hm. destruct (J3 m Hm) as [K1 K2]. rewrite Hparent2 in K1, K2.
    destruct (Hkeep m) as (-> & _). done.
  - intros m n Hm Hn Hmn Hsame'.
    destruct (Hkeep m) as (-> & _). destruct (Hkeep n) as (-> & _).
    apply J4; try done. by rewrite !Hparent2.
Qed.

(* --------------------------------------------------------------------- *)
(** ** The further properties at concrete inputs                          *)
(* --------------------------------------------------------------------- *)

Lemma bin_sections_members_witness :
  bin_sections 4 dup_objs [dup_text]
  = Ok [set_members [dup_isec; dup_isec; dup_isec] dup_text].
Proof.
  rewrite (bin_sections_members dup_objs [dup_text] 4); [reflexivity|by unfold dup_objs| | |].
  - vm_compute. reflexivity.
  - intros isec Hin. vm_compute in Hin.
    repeat (apply elem_of_cons in Hin as [->|Hin]); try (simpl; lia).
    by apply elem_of_nil in Hin.
  - simpl. lia.
Defined.

Lemma set_section_indices_consecutive_witness :
  shndx <$> set_section_indices (rev example_chunks) = [1; 2; 3; 4; 0]
  ∧ NoDup (shndx <$> List.filter (λ c, negb (is_header c))
                       (set_section_indices (rev example_chunks)))
  ∧ Forall2 same_chunk_but_shndx (set_section_indices (rev example_chunks))
            (rev example_chunks).
Proof.
  split; [reflexivity|].
  destruct (set_section_indices_consecutive (rev example_chunks))
    as (Hsame & _ & _ & Hnodup & _).
  - vm_compute. reflexivity.
  - split; [exact Hnodup|exact Hsame].
Defined.

(** The words of a response file as bytes. *)
Lemma plain_word_bytes (w : string) :
  forallb (λ c, negb (isspace c)) (String.list_byte_of_string w) = true →
  match String.list_byte_of_string w with
  | [] => False
  | c :: _ => c ≠ SQUOTE ∧ c ≠ DQUOTE
  end →
  plain_word (String.list_byte_of_string w).
Proof.
  intros Hall Hhead. destruct (String.list_byte_of_string w) as [|c l]; [done|].
  destruct Hhead as [H1 H2]. split_and!; [done| |simpl; congruence|simpl; congruence].
  apply Forall_forall. intros x Hx.
  rewrite List.forallb_forall in Hall.
  specialize (Hall x (proj1 (list_elem_of_In _ _) Hx)). by destruct (isspace x).
Qed.

Lemma args_rsp_lexes :
  Lexes (mb_data args_rsp)
        (String.list_byte_of_string <$> ["-o"; "out"; "a b"; "x"; "it's"]).
Proof.
  apply (Lexes_word (String.list_byte_of_string "-o")
           (String.list_byte_of_string " out  'a b'x 'it" ++ [BACKSLASH]
            ++ String.list_byte_of_string "'s'" ++ [x0a]));
    [by apply plain_word_bytes|reflexivity|].
  apply Lexes_space; [reflexivity|].
  apply (Lexes_word (String.list_byte_of_string "out")
           (String.list_byte_of_string "  'a b'x 'it" ++ [BACKSLASH]
            ++ String.list_byte_of_string "'s'" ++ [x0a]));
    [by apply plain_word_bytes|reflexivity|].
  do 2 (apply Lexes_space; [reflexivity|]).
  apply (Lexes_quoted SQUOTE (String.list_byte_of_string "a b")
           (String.list_byte_of_string "a b")
           (String.list_byte_of_string "x 'it" ++ [BACKSLASH]
            ++ String.list_byte_of_string "'s'" ++ [x0a]));
    [by left|repeat (constructor; try done)|].
  apply (Lexes_word (String.list_byte_of_string "x")
           (String.list_byte_of_string " 'it" ++ [BACKSLASH]
            ++ String.list_byte_of_string "'s'" ++ [x0a]));
    [by apply plain_word_bytes|reflexivity|].
  apply Lexes_space; [reflexivity|].
  apply (Lexes_quoted SQUOTE
           (String.list_byte_of_string "it" ++ [BACKSLASH]
            ++ String.list_byte_of_string "'s")
           (String.list_byte_of_string "it's") [x0a]); [by left| |].
  - apply Escaped_plain; [done|done|]. apply Escaped_plain; [done|done|].
    apply Escaped_backslash. apply Escaped_plain; [done|done|]. constructor.
  - apply Lexes_space; [reflexivity|]. constructor.
Qed.

Lemma read_response_file_tokens_witness :
  read_response_file "args.rsp" = Ok ["-o"; "out"; "a b"; "x"; "it's"].
Proof.
  rewrite (read_response_file_tokens "args.rsp" args_rsp
             (String.list_byte_of_string <$> ["-o"; "out"; "a b"; "x"; "it's"])).
  - reflexivity.
  - reflexivity.
  - vm_compute. reflexivity.
  - exact args_rsp_lexes.
Defined.

Lemma read_response_file_quoted_round_trip_witness :
  read_response_file "quoted.rsp" = Ok ["a b"; "it's"; "@x"].
Proof.
  apply (read_response_file_quoted_round_trip "quoted.rsp" quoted_rsp SQUOTE
           ["a b"; "it's"; "@x"]).
  - reflexivity.
  - vm_compute. reflexivity.
  - by left.
  - reflexivity.
Defined.

Lemma read_response_file_unclosed_quote_witness :
  read_response_file "open.rsp" = Fatal "open.rsp: premature end of input"
  ∧ read_response_file "slash.rsp" = OutOfBounds.
Proof.
  assert (Hlex : Lexes (String.list_byte_of_string "a ")
                       [String.list_byte_of_string "a"]).
  { apply (Lexes_word (String.list_byte_of_string "a")
             (String.list_byte_of_string " "));
      [by apply plain_word_bytes|reflexivity|].
    apply Lexes_space; [reflexivity|]. constructor. }
  assert (Hesc : Escaped SQUOTE (String.list_byte_of_string "bc")
                         (String.list_byte_of_string "bc")).
  { repeat (constructor; try done). }
  split.
  - apply (read_response_file_unclosed_quote "open.rsp" open_rsp
             (String.list_byte_of_string "a ") [String.list_byte_of_string "a"]
             SQUOTE (String.list_byte_of_string "bc")
             (String.list_byte_of_string "bc"));
      [reflexivity|vm_compute; reflexivity|exact Hlex|reflexivity|by left
      |exact Hesc|reflexivity].
  - apply (read_response_file_unclosed_quote "slash.rsp" slash_rsp
             (String.list_byte_of_string "a ") [String.list_byte_of_string "a"]
             SQUOTE (String.list_byte_of_string "bc")
             (String.list_byte_of_string "bc"));
      [reflexivity|vm_compute; reflexivity|exact Hlex|reflexivity|by left
      |exact Hesc|reflexivity].
Defined.

Lemma expand_response_files_in_place_witness :
  expand_response_files ["ld"; "@quoted.rsp"; "main.o"]
  = Ok ["ld"; "a b"; "it's"; "@x"; "main.o"].
Proof.
  apply (expand_response_files_in_place ["ld"] ["main.o"]
           ["a b"; "it's"; "@x"] "quoted.rsp").
  - by repeat constructor.
  - by repeat constructor.
  - vm_compute. reflexivity.
Defined.

Lemma parse_nonpositional_args_positional_witness :
  parse_nonpositional_args 3 ["main.o"; "libc.so"] ["crt1.o"]
  = Ok (inr (set_thread_count 8 default_config, ["crt1.o"; "main.o"; "libc.so"])).
Proof.
  exact (parse_nonpositional_args_positional ["main.o"; "libc.so"] ["crt1.o"] 3
           ltac:(by repeat constructor) ltac:(simpl; lia)).
Defined.

Lemma parse_nonpositional_args_unknown_option_witness :
  parse_nonpositional_args 5 ["main.o"; "-q"; "libc.so"] []
  = Fatal "unknown command line option: -q"
  ∧ parse_nonpositional_args 5 ["main.o"; "-"; "libc.so"] []
    = Fatal "unknown command line option: -".
Proof.
  split.
  - exact (parse_nonpositional_args_unknown_option ["main.o"] "-q" ["libc.so"] [] 5
             ltac:(by repeat constructor)
             ltac:(split_and!; [reflexivity|reflexivity|by repeat constructor])
             ltac:(simpl; lia)).
  - exact (parse_nonpositional_args_unknown_option ["main.o"] "-" ["libc.so"] [] 5
             ltac:(by repeat constructor)
             ltac:(split_and!; [reflexivity|reflexivity|by repeat constructor])
             ltac:(simpl; lia)).
Defined.

Lemma parse_nonpositional_step_e_shadows_witness :
  parse_nonpositional_step default_config [] ["-entry"; "main"]
  = Ok (inr (set_entry "ntry" default_config, [], ["main"]))
  ∧ parse_nonpositional_step default_config [] ["-end-group"]
    = Ok (inr (set_entry "nd-group" default_config, [], []))
  ∧ parse_nonpositional_step default_config [] ["-eh-frame-hdr"]
    = Ok (inr (set_entry "h-frame-hdr" default_config, [], [])).
Proof.
  split_and!.
  - exact (parse_nonpositional_step_e_shadows default_config [] "ntry" ["main"]
             ltac:(done) ltac:(done)).
  - exact (parse_nonpositional_step_e_shadows default_config [] "nd-group" []
             ltac:(done) ltac:(done)).
  - exact (parse_nonpositional_step_e_shadows default_config [] "h-frame-hdr" []
             ltac:(done) ltac:(done)).
Defined.

Lemma parse_nonpositional_args_terminates_witness :
  parse_nonpositional_args 40 ["-o"; "prog"; "main.o"; "--unknown"; "x"] []
  ≠ OutOfFuel
  ∧ parse_nonpositional_args 40 ["-o"; "prog"; "main.o"; "--unknown"; "x"] []
    = parse_nonpositional_args 6 ["-o"; "prog"; "main.o"; "--unknown"; "x"] [].
Proof.
  exact (parse_nonpositional_args_terminates
           ["-o"; "prog"; "main.o"; "--unknown"; "x"] [] 40 ltac:(simpl; lia)).
Defined.

Lemma read_arg_spellings_witness :
  read_arg ["-entry"; "main"; "a.o"] "entry" = Ok (Some ("main", ["a.o"]))
  ∧ read_arg ["--entry"; "main"; "a.o"] "entry" = Ok (Some ("main", ["a.o"]))
  ∧ read_arg ["-entry=main"; "a.o"] "entry" = Ok (Some ("main", ["a.o"]))
  ∧ read_arg ["--entry=main"; "a.o"] "entry" = Ok (Some ("main", ["a.o"]))
  ∧ read_arg ["-entry"] "entry" = Fatal "option entry: argument missing"
  ∧ read_arg ["--entry"] "entry" = Fatal "option entry: argument missing".
Proof.
  exact (read_arg_spellings "entry" "main" ["a.o"]
           ltac:(simpl; lia) eq_refl eq_refl).
Defined.

Lemma read_file_preload_round_trip_witness :
  (∃ st1 st2,
     read_file true main_o false empty_read_state = Ok st1
     ∧ read_file false main_o_later false st1 = Ok st2
     ∧ out_objs st2 = [new_object_file main_o ""])
  ∧ (∃ st1 st2 st3 st4,
       read_file true libx_a false empty_read_state = Ok st1
       ∧ read_file true libx_a false st1 = Ok st2
       ∧ read_file false libx_a false st2 = Ok st3
       ∧ out_objs st3
         = [ new_object_file puts_o "libx.a"; new_object_file exit_o "libx.a";
             new_object_file puts_o "libx.a"; new_object_file exit_o "libx.a" ]
       ∧ read_file false libx_a false st3 = Ok st4).
Proof.
  split.
  - destruct (read_file_preload_round_trip main_o main_o_later false false
                empty_read_state eq_refl) as [Hobj _].
    destruct (Hobj eq_refl eq_refl) as (st1 & st2 & H1 & H2 & H3 & _).
    exists st1, st2. split_and!; [exact H1|exact H2|exact H3].
  - destruct (read_file_preload_round_trip libx_a libx_a false false
                empty_read_state eq_refl) as [_ Har].
    destruct (Har eq_refl eq_refl
                ltac:(intros Hx; vm_compute in Hx; discriminate Hx))
      as (st1 & st2 & H1 & _).
    destruct (read_file_preload_round_trip libx_a libx_a false false
                st1 eq_refl) as [_ Har'].
    destruct (Har' eq_refl eq_refl
                ltac:(intros Hx; vm_compute in Hx; discriminate Hx))
      as (st2' & st3 & H2 & H3 & H4 & _).
    exists st1, st2', st3. eexists. split_and!; [exact H1|exact H2|exact H3| |].
    + rewrite H4. injection H1 as <-. reflexivity.
    + injection H1 as <-. injection H2 as <-. injection H3 as <-.
      vm_compute. reflexivity.
Defined.

Lemma read_file_preloading_witness :
  ∃ st1 st2,
    read_file true libc_so true empty_read_state = Ok st1
    ∧ out_objs st1 = []
    ∧ out_dsos st1 = [new_shared_file libc_so true]
    ∧ read_file false libc_so true st1 = Ok st2
    ∧ out_dsos st2 = [new_shared_file libc_so true; new_shared_file libc_so true].
Proof.
  destruct (read_file_preloading libc_so true empty_read_state)
    as (st1 & H1 & H2 & H3 & H4);
    [intros Hx; vm_compute in Hx; discriminate Hx
    |intros Hx; vm_compute in Hx; discriminate Hx|].
  destruct (H4 eq_refl) as (st2 & H5 & H6).
  exists st1, st2. split_and!; [exact H1|exact H2|exact H3|exact H5|exact H6].
Defined.

Lemma example_names_dso (arg : string) :
  arg ∈ ["liba.so"; "libb.so"; "libc.so"] → names_dso example_opened arg.
Proof.
  intros Harg. repeat (apply elem_of_cons in Harg as [->|Harg]);
    [| | |by apply elem_of_nil in Harg];
    (split_and!; [by split|reflexivity|reflexivity]).
Qed.

Lemma read_input_files_as_needed_witness :
  read_input_files default_config false 10
    ["liba.so"; "-as-needed"; "libb.so"; "-no-as-needed"; "libc.so"]
    empty_read_state
  = Ok (mkReadState ∅ []
          [ new_shared_file liba_so false; new_shared_file libb_so true;
            new_shared_file libc_so false ]).
Proof.
  rewrite (read_input_files_as_needed default_config false example_opened
             ["liba.so"] ["libb.so"] ["libc.so"] empty_read_state 10).
  - reflexivity.
  - constructor; [|constructor]. apply example_names_dso. set_solver.
  - constructor; [|constructor]. apply example_names_dso. set_solver.
  - constructor; [|constructor]. apply example_names_dso. set_solver.
  - simpl. lia.
Defined.

Lemma find_library_first_match_witness :
  find_library default_config "m" ["lib"; "usr/lib"; "opt/lib"] = Ok usr_libm_a
  ∧ find_library default_config "z" ["lib"; "usr/lib"; "opt/lib"]
    = Fatal "library not found: z".
Proof.
  split.
  - apply (proj1 (find_library_first_match default_config "m"
                    ["lib"; "usr/lib"; "opt/lib"])).
    exists ["lib"], "usr/lib", ["opt/lib"].
    split_and!; [reflexivity|by repeat constructor|reflexivity].
  - apply (proj1 (proj2 (find_library_first_match default_config "z"
                           ["lib"; "usr/lib"; "opt/lib"]))).
    by repeat constructor.
Defined.

Lemma parse_number_decimal_witness :
  parse_number "thread-count" "16" = Ok (inr 16)
  ∧ parse_number "thread-count" "9223372036854775808" = Ok (inl out_of_range)
  ∧ parse_number "thread-count" "-1"
    = Fatal "option -thread-count: not a number".
Proof.
  destruct (parse_number_decimal "thread-count") as (Hnum & _ & Hbad & _).
  split_and!.
  - exact (Hnum 16 ltac:(lia)).
  - exact (Hnum 9223372036854775808 ltac:(lia)).
  - apply (proj2 (Hbad "-1")). intros Hall. by apply Forall_cons in Hall as [? _].
Defined.

Lemma parse_hex_hexadecimal_witness :
  parse_hex "filler" "0xff" = Ok (inr 255)
  ∧ parse_hex "filler" "0X8000000000000000" = Ok (inl out_of_range)
  ∧ parse_hex "filler" "0x" = Ok (inl invalid_argument)
  ∧ parse_hex "filler" "0xFF" = Ok (inr 255)
  ∧ parse_hex "filler" "0X00aBcDeF" = Ok (inr 11259375)
  ∧ parse_hex "filler" "0x7FFFFFFFFFFFFFFF" = Ok (inr LONG_MAX).
Proof.
  destruct (parse_hex_hexadecimal "filler") as (Hnum & Hnone & _ & _ & Hany).
  split_and!.
  - exact (Hnum 255 "0x" ltac:(lia) ltac:(by left)).
  - exact (Hnum 9223372036854775808 "0X" ltac:(lia) ltac:(by right)).
  - exact (Hnone "0x" ltac:(by left)).
  - exact (Hany "0x" "FF" ltac:(by left) ltac:(done) ltac:(by repeat constructor)).
  - exact (Hany "0X" "00aBcDeF" ltac:(by right) ltac:(done)
             ltac:(by repeat constructor)).
  - exact (Hany "0x" "7FFFFFFFFFFFFFFF" ltac:(by left) ltac:(done)
             ltac:(by repeat constructor)).
Defined.

Lemma uniquify_dsos_keeps_first_witness :
  dso_name <$> uniquify_dsos example_named_dsos = ["libc.so"; "libm.so"]
  ∧ NoDup (soname <$> uniquify_dsos example_named_dsos).
Proof.
  split; [reflexivity|].
  exact (proj1 (uniquify_dsos_keeps_first example_named_dsos)).
Defined.

Lemma example_out_distinct : distinct_symbols example_out.
Proof.
  intros i j name Hi Hj.
  do 13 (destruct i as [|i];
         [simpl in Hi; try discriminate Hi; injection Hi as <-;
          do 13 (destruct j as [|j];
                 [simpl in Hj; first [done | discriminate Hj]|]);
          simpl in Hj; discriminate Hj|]).
  simpl in Hi. discriminate Hi.
Qed.

Lemma example_out_no_section : no_section_symbol example_out.
Proof.
  intros i name Hi. apply list_elem_of_lookup_2 in Hi.
  repeat (apply elem_of_cons in Hi as [Hi|Hi];
          [first [discriminate Hi | by injection Hi as ->]|]).
  by apply elem_of_nil in Hi.
Qed.

Lemma fix_synthetic_symbols_binds_witness :
  ∃ tab',
    fix_synthetic_symbols example_out example_laid example_symtab = Some tab'
    ∧ tab' !! "_end" = Some (mkSymbolAddr 3 2105392)
    ∧ tab' !! "_etext" = Some (mkSymbolAddr 1 2101348)
    ∧ tab' !! "_edata" = Some (mkSymbolAddr 2 2105354)
    ∧ tab' !! "__bss_start" = Some (mkSymbolAddr 3 2105360).
Proof.
  destruct (fix_synthetic_symbols example_out example_laid example_symtab)
    as [tab'|] eqn:Hrun; [|by vm_compute in Hrun].
  destruct (fix_synthetic_symbols_binds example_out example_laid example_symtab
              tab' example_out_distinct example_out_no_section Hrun)
    as (Hend & Hetext & Hedata & Hbss).
  exists tab'. split; [reflexivity|]. split_and!.
  - exact (Hend "_end" eq_refl).
  - exact (Hetext "_etext" eq_refl).
  - exact (Hedata "_edata" eq_refl).
  - exact (Hbss "__bss_start" eq_refl).
Defined.


Lemma fix_synthetic_symbols_start_stop_witness :
  ∃ tab',
    fix_synthetic_symbols example_out example_laid example_symtab = Some tab'
    ∧ tab' !! "__start_my_notes" = Some (mkSymbolAddr 4 0)
    ∧ tab' !! "__stop_my_notes" = Some (mkSymbolAddr 4 7)
    ∧ tab' !! "__start_.text" = None.
Proof.
  destruct (fix_synthetic_symbols example_out example_laid example_symtab)
    as [tab'|] eqn:Hrun; [|by vm_compute in Hrun].
  destruct (fix_synthetic_symbols_start_stop example_out
              (take 4 example_laid)
              (mkOutputChunk "my_notes" REGULAR (mkElfShdr 0 1 0 0 8240 7 0 0 1 0)
                 4 false)
              (drop 5 example_laid) example_symtab tab' Hrun eq_refl
              ltac:(by repeat constructor)) as [Hstart Hstop].
  exists tab'. split_and!; [reflexivity|exact Hstart|exact Hstop|].
  vm_compute in Hrun. injection Hrun as <-. vm_compute. reflexivity.
Defined.

Lemma fix_synthetic_symbols_frame_witness :
  ∃ tab',
    fix_synthetic_symbols example_out example_laid example_symtab = Some tab'
    ∧ tab' !! "main" = Some (mkSymbolAddr 1 2101248).
Proof.
  destruct (fix_synthetic_symbols example_out example_laid example_symtab)
    as [tab'|] eqn:Hrun; [|by vm_compute in Hrun].
  exists tab'. split; [reflexivity|].
  rewrite (fix_synthetic_symbols_frame example_out example_laid example_symtab
             tab' "main" Hrun).
  - reflexivity.
  - intros Hin.
    repeat (apply elem_of_cons in Hin as [Hin|Hin]; [discriminate Hin|]).
    by apply elem_of_nil in Hin.
  - reflexivity.
  - reflexivity.
Defined.

Lemma fix_synthetic_symbols_null_witness :
  fix_synthetic_symbols example_out_no_ehdr example_laid example_symtab = None
  ∧ fix_synthetic_symbols example_out_no_ehdr (take 1 example_laid) example_symtab
    ≠ None.
Proof.
  split.
  - apply (proj2 (fix_synthetic_symbols_null example_out_no_ehdr example_laid
                    example_symtab)).
    left. split; [|by right].
    eexists. split; [apply list_elem_of_further, list_elem_of_here|reflexivity].
  - intros Hnull.
    apply (proj1 (fix_synthetic_symbols_null example_out_no_ehdr
                    (take 1 example_laid) example_symtab)) in Hnull.
    destruct Hnull as [[(c & Hc & Hshndx) _]|[_ [Hne|Hne]]]; [|done..].
    apply list_elem_of_singleton in Hc as ->. discriminate Hshndx.
Defined.

Lemma example_schedule_all :
  example_schedule ≡ₚ all_claims (st_msecs example_strings) example_string_files.
Proof.
  change (all_claims (st_msecs example_strings) example_string_files)
    with ([ (1, 1); (1, 2) ] ++ (0, 0) :: [ (0, 1); (0, 0) ])%nat.
  unfold example_schedule. apply Permutation_cons_app. simpl.
  apply perm_skip. apply perm_swap.
Qed.

Lemma example_strings_nodup : NoDup (concat example_string_files).
Proof.
  apply (bool_decide_unpack (NoDup (concat example_string_files))).
  vm_compute. exact I.
Qed.

Lemma example_strings_span (m : MsecPtr) :
  m ∈ concat example_string_files →
  pieces_span (st_pieces example_strings) (msec_pieces (st_msecs example_strings m))
  < 2 ^ 32.
Proof.
  intros Hm. repeat (apply elem_of_cons in Hm as [->|Hm]);
    [vm_compute; reflexivity..|by apply elem_of_nil in Hm].
Qed.

Lemma example_strings_room (k : nat) :
  0 <= st_parent_size example_strings k
  ∧ st_parent_size example_strings k
    + strings_span (st_pieces example_strings) (st_msecs example_strings) k
        (concat example_string_files)
    < 2 ^ offset_bits.
Proof.
  split; [simpl; lia|].
  cbn [strings_span example_string_files concat app foldr example_strings
       st_parent_size st_pieces st_msecs msec_parent msec_pieces].
  destruct (bool_decide (7%nat = k)); vm_compute; reflexivity.
Qed.

Lemma handle_mergeable_strings_owner_witness :
  piece_isec (st_pieces example_strings_done 1%nat) = Some 1%nat
  ∧ ∃ w, piece_isec (st_pieces example_strings_done 1%nat) = Some w
         ∧ (w, 1%nat) ∈ all_claims (st_msecs example_strings) example_string_files
         ∧ msec_priority (st_msecs example_strings w)
           <= msec_priority (st_msecs example_strings 0%nat).
Proof.
  split; [reflexivity|].
  apply (handle_mergeable_strings_owner example_schedule example_string_files
           example_strings example_schedule_all ltac:(done) 0%nat 1%nat).
  vm_compute. set_solver.
Defined.

Lemma handle_mergeable_strings_offsets_witness :
  msec_size (st_msecs example_strings_done 1%nat) = 9
  ∧ msec_size (st_msecs example_strings_done 0%nat) = 3
  ∧ piece_output_offset (st_pieces example_strings_done 1%nat) = 0
  ∧ piece_output_offset (st_pieces example_strings_done 2%nat) = 4
  ∧ piece_output_offset (st_pieces example_strings_done 2%nat)
    + piece_size (st_pieces example_strings_done 2%nat)
    <= msec_size (st_msecs example_strings_done 1%nat)
  ∧ apart (piece_output_offset (st_pieces example_strings_done 2%nat))
          (piece_size (st_pieces example_strings_done 2%nat))
          (piece_output_offset (st_pieces example_strings_done 1%nat))
          (piece_size (st_pieces example_strings_done 1%nat)).
Proof.
  do 4 (split; [reflexivity|]).
  destruct (handle_mergeable_strings_offsets example_schedule example_string_files
              example_strings example_strings_nodup
              ltac:(intros p; simpl; lia) ltac:(done) example_strings_span
              1%nat ltac:(vm_compute; set_solver)) as [_ Hpieces].
  destruct (Hpieces 2%nat ltac:(vm_compute; set_solver) eq_refl)
    as (_ & Hin & Hapart).
  split; [exact Hin|].
  exact (Hapart 1%nat ltac:(vm_compute; set_solver) eq_refl ltac:(done)).
Defined.

Lemma handle_mergeable_strings_sections_witness :
  msec_offset (st_msecs example_strings_done 1%nat) = 16
  ∧ msec_offset (st_msecs example_strings_done 0%nat) = 25
  ∧ st_parent_size example_strings_done 7%nat = 28
  ∧ msec_offset (st_msecs example_strings_done 0%nat)
    + msec_size (st_msecs example_strings_done 0%nat)
    <= st_parent_size example_strings_done 7%nat
  ∧ apart (msec_offset (st_msecs example_strings_done 0%nat))
          (msec_size (st_msecs example_strings_done 0%nat))
          (msec_offset (st_msecs example_strings_done 1%nat))
          (msec_size (st_msecs example_strings_done 1%nat)).
Proof.
  do 3 (split; [reflexivity|]).
  destruct (handle_mergeable_strings_sections example_schedule example_string_files
              example_strings example_strings_nodup
              ltac:(intros p; simpl; lia) ltac:(done) example_strings_span
              ltac:(vm_compute; discriminate) example_strings_room)
    as (_ & Hin & Hapart).
  split.
  - exact (proj2 (Hin 0%nat ltac:(vm_compute; set_solver))).
  - exact (Hapart 0%nat 1%nat ltac:(vm_compute; set_solver)
             ltac:(vm_compute; set_solver) ltac:(done) eq_refl).
Defined.
